(** * Video Blocker: fingerprinting, matching and the job queue

    A shallow embedding of the algorithmic core of the extension:

    - [HashUtils]  (utils/hash.js): [dct2D], [computePHashFromMatrix],
      [hammingDistance], [areHashesSimilar], [isTrivialHash];
      [HashReports]: [validateHash], [calculateEntropy],
      [findMostSimilarHash];
    - [Legacy]     (the single-file content script): [dct2D],
      [computePHashFromMatrix], [hamming], [isTrivialHash] and the
      per-frame grayscale accumulation of [computeMultiFramePHash];
      [LegacyQueue], [LegacyScan], [LegacyCapture]: its queue, its
      matching loop and its capture loop;
    - [VideoUtils] (utils/video.js): [imageDataToGrayscaleMatrix];
      [VideoCapture]: [averageMatrices], [captureAndAverageFrames],
      [computeMultiFramePHash];
    - [ConcurrencyQueue] (core/queue.js): [enqueue], [processQueue],
      [executeJob]; [QueueControls]: [setMaxConcurrent], [clearQueue];
    - [StorageManager] (utils/storage.js): the blocked hashes and their
      cache;
    - [VideoBlocker], [BlockList], [Blocking] (core/blocker.js):
      [isHashBlocked], the list operations, and the jobs of
      [blockVideo] and [checkAndBlockVideo];
    - [Logger] (utils/logger.js): the levels and the metrics.

    JavaScript numbers that carry signal data (pixel intensities, DCT
    coefficients) are IEEE 754 binary64 values and are modelled by Rocq's
    primitive floats, which are the same format.  Numbers that only count
    (string lengths, Hamming distances, priorities, queue sizes) are
    modelled by [nat] and [Z]; the counts involved stay far below 2^53,
    where binary64 arithmetic on integers is exact. *)

From Stdlib Require Import ZArith List String Ascii Floats Uint63 Lia Bool DecimalString.
From Stdlib Require Import Sorting.Permutation Sorting.Sorted.
From stdpp Require Import gmap strings list.
Import ListNotations.

Local Open Scope nat_scope.

(* ===================================================================== *)
(** * The JavaScript runtime pieces the sources rely on                   *)
(* ===================================================================== *)

Module JS.

(** ** Values handed to the string utilities

    [Null] stands for both [null] and [undefined]; [Num] for a number
    that reached a place where a hash string was expected. *)
Inductive value :=
| Null
| Str (s : string)
| Num (z : Z).

(** [!v] *)
Definition falsy (v : value) : bool :=
  match v with
  | Null => true
  | Str s => match s with EmptyString => true | _ => false end
  | Num z => (z =? 0)%Z
  end.

(** [typeof v === 'string'] *)
Definition is_string (v : value) : bool :=
  match v with Str _ => true | _ => false end.

(** ** Counting numbers: a non-negative integer or [Infinity] *)
Inductive count :=
| Count (n : nat)
| Infinity.

(** [d <= t] for a count [d] and an integer threshold [t] *)
Definition count_le (d : count) (t : Z) : bool :=
  match d with
  | Count n => (Z.of_nat n <=? t)%Z
  | Infinity => false
  end.

(** ** Outcome of running a block of code: a value or a thrown error *)
Inductive completion (A : Type) :=
| Normal (a : A)
| Throw (message : string).
Arguments Normal {A} a.
Arguments Throw {A} message.

Definition bind {A B} (c : completion A) (k : A -> completion B) : completion B :=
  match c with
  | Normal a => k a
  | Throw m => Throw m
  end.

Fixpoint mapM {A B} (f : A -> completion B) (l : list A) : completion (list B) :=
  match l with
  | [] => Normal []
  | a :: l' => bind (f a) (fun b => bind (mapM f l') (fun bs => Normal (b :: bs)))
  end.

(** ** binary64 numbers *)

(** An array index or loop counter used as a number. *)
Definition of_nat (n : nat) : float := of_uint63 (Uint63.of_Z (Z.of_nat n)).

(** An integer of magnitude below 2^63 as a number. *)
Definition of_Z (z : Z) : float :=
  if (z <? 0)%Z then (- of_uint63 (Uint63.of_Z (- z)))%float
  else of_uint63 (Uint63.of_Z z).

(** [Math.PI] *)
Definition Math_PI : float := 0x1.921fb54442d18p+1%float.

(** [Math.sqrt] is correctly rounded, as is the primitive. *)
Definition Math_sqrt (x : float) : float := PrimFloat.sqrt x.

(** [a > b] *)
Definition gt (a b : float) : bool := (b <? a)%float.

(** [Math.round x]: the integral number closest to [x], ties towards
    +Infinity; non-finite and integral arguments are returned as they
    are, and a result of zero keeps the sign of [x].  The rounding is
    computed exactly, on the mantissa and exponent of [x]. *)
Definition Math_round (x : float) : float :=
  match Prim2SF x with
  | S754_finite s m e =>
      if (0 <=? e)%Z then x
      else
        let d := (2 ^ (- e))%Z in
        let n := if s then Z.neg m else Z.pos m in
        let r := ((2 * n + d) / (2 * d))%Z in
        if (r =? 0)%Z then (if s then neg_zero else zero)
        else of_Z r
  | _ => x
  end.

(** ** [Array.prototype.sort(comparefn)]

    The engine's algorithm is not fixed by the language; what is fixed
    is that the result is a permutation of the array and that a
    [comparefn] result which is positive puts the second argument
    first, while a negative, zero or NaN result leaves the first
    argument first.  The model is the stable insertion sort with that
    reading of [comparefn]. *)
Section Sort.
Variable comparefn : float -> float -> float.

Fixpoint insert (x : float) (l : list float) : list float :=
  match l with
  | [] => [x]
  | y :: l' =>
      if gt (comparefn x y) zero then y :: insert x l' else x :: y :: l'
  end.

Definition sort (l : list float) : list float := fold_right insert [] l.
End Sort.

(** [xs.join('')] *)
Definition join (xs : list string) : string := String.concat "" xs.

(** [(s.match(/1/g) || []).length]: the number of ['1'] characters. *)
Fixpoint count_char (c : ascii) (s : string) : nat :=
  match s with
  | EmptyString => 0
  | String a s' => (if Ascii.eqb a c then 1 else 0) + count_char c s'
  end.

End JS.

(* ===================================================================== *)
(** * constants.js                                                        *)
(* ===================================================================== *)

Module Constants.

Record VIDEO_PROCESSING_t := {
  FRAMES_TO_CAPTURE : nat;
  FRAME_DELAY_MS : nat;
  CANVAS_SIZE : nat;
  DCT_BLOCK_SIZE : nat;
  AUTO_SCAN_FRAMES : nat
}.

Definition VIDEO_PROCESSING : VIDEO_PROCESSING_t := {|
  FRAMES_TO_CAPTURE := 3;
  FRAME_DELAY_MS := 120;
  CANVAS_SIZE := 32;
  DCT_BLOCK_SIZE := 8;
  AUTO_SCAN_FRAMES := 2
|}.

(** [HASH_CONFIG] is declared with [let]: the threshold is rewritten at
    run time from the sensitivity setting, so the functions that read it
    take the record as an argument. *)
Record HASH_CONFIG_t := {
  HAMMING_THRESHOLD : Z;
  MIN_ONES_ZEROS : nat
}.

Definition HASH_CONFIG : HASH_CONFIG_t := {|
  HAMMING_THRESHOLD := 12;
  MIN_ONES_ZEROS := 4
|}.

Record CONCURRENCY_t := {
  MAX_CONCURRENT : nat;
  QUEUE_TIMEOUT_MS : nat
}.

Definition CONCURRENCY : CONCURRENCY_t := {|
  MAX_CONCURRENT := 3;
  QUEUE_TIMEOUT_MS := 5000
|}.

End Constants.

(* ===================================================================== *)
(** * utils/hash.js : class HashUtils                                     *)
(* ===================================================================== *)

Module HashUtils.
Import JS Constants.

(** A matrix is an array of rows.  Reading past the end of a row yields
    [undefined], which the arithmetic of [dct2D] turns into NaN. *)
Definition matrix := list (list float).

Definition entry (m : matrix) (y x : nat) : float := nth x (nth y m []) nan.

(** Entries the logger receives. *)
Inductive log_entry :=
| LogDebug (message : string)
| LogWarn (message : string)
| LogError (message : string) (error : string).

Section WithRuntime.

(** [Math.cos] is an implementation-approximated function of the engine:
    the development is parametric in it. *)
Variable Math_cos : float -> float.

(** [const alpha = (u) => (u === 0 ? 1 / Math.sqrt(2) : 1)] *)
Definition alpha (u : nat) : float :=
  if u =? 0 then (1 / Math_sqrt 2)%float else 1%float.

(** The argument of a cosine: [((2 * i + 1) * k * Math.PI) / (2 * N)]. *)
Definition angle (N i k : nat) : float :=
  (((2 * of_nat i + 1) * of_nat k * Math_PI) / (2 * of_nat N))%float.

(** One summand of the innermost loop:
    [matrix[y][x] * Math.cos(((2*x+1)*u*Math.PI)/(2*N))
                  * Math.cos(((2*y+1)*v*Math.PI)/(2*N))]. *)
Definition term (m : matrix) (N u v y x : nat) : float :=
  (entry m y x * Math_cos (angle N x u) * Math_cos (angle N y v))%float.

(** The two inner loops, accumulating into [sum] in source order. *)
Definition dct_sum (m : matrix) (N u v : nat) : float :=
  fold_left
    (fun sum y => fold_left (fun sum x => (sum + term m N u v y x)%float) (seq 0 N) sum)
    (seq 0 N) zero.

(** [result[u][v] = (2 / N) * alpha(u) * alpha(v) * sum] *)
Definition coefficient (m : matrix) (N u v : nat) : float :=
  (2 / of_nat N * alpha u * alpha v * dct_sum m N u v)%float.

Definition dct2D (m : matrix) : matrix :=
  let N := length m in
  map (fun u => map (fun v => coefficient m N u v) (seq 0 N)) (seq 0 N).

(** The positions visited by the extraction loops, [(0,0)] skipped. *)
Definition block_positions (K : nat) : list (nat * nat) :=
  flat_map
    (fun y => flat_map
                (fun x => if (x =? 0) && (y =? 0) then [] else [(y, x)])
                (seq 0 K))
    (seq 0 K).

(** [block.push(dct[y][x])]: a missing row makes the read throw, a
    missing element of a row is [undefined]. *)
Definition read_dct (dct : matrix) (p : nat * nat) : completion float :=
  match nth_error dct (fst p) with
  | None => Throw "TypeError: Cannot read properties of undefined"
  | Some row => Normal (nth (snd p) row nan)
  end.

Definition extract_block (dct : matrix) (K : nat) : completion (list float) :=
  mapM (read_dct dct) (block_positions K).

(** [block.slice().sort((a, b) => a - b)] *)
Definition sort_ascending (block : list float) : list float :=
  sort (fun a b => (a - b)%float) block.

(** [block.map(v => (v > median ? '1' : '0')).join('')] *)
Definition bits_of (block : list float) (median : float) : string :=
  join (map (fun v => if gt v median then "1" else "0")%string block).

(** The part of the [try] body that follows the size check.  The debug
    call formats [median.toFixed(4)], which throws when [median] is
    [undefined]. *)
Definition hash_of_matrix (m : matrix) : completion string :=
  bind (extract_block (dct2D m) (DCT_BLOCK_SIZE VIDEO_PROCESSING)) (fun block =>
    let sorted := sort_ascending block in
    match nth_error sorted (length sorted / 2) with
    | None => Throw "TypeError: Cannot read properties of undefined"
    | Some median => Normal (bits_of block median)
    end).

(** [computePHashFromMatrix(matrix32)]: the returned value ([None] is
    [null]) together with what was sent to the logger. *)
Definition computePHashFromMatrix (matrix32 : option matrix)
  : option string * list log_entry :=
  match matrix32 with
  | None =>
      (None, [LogError "Failed to compute perceptual hash" "Invalid matrix size"])
  | Some m =>
      if negb (length m =? CANVAS_SIZE VIDEO_PROCESSING) then
        (None, [LogError "Failed to compute perceptual hash" "Invalid matrix size"])
      else
        match hash_of_matrix m with
        | Normal bits =>
            (Some bits, [LogDebug "Computing DCT for perceptual hash";
                         LogDebug "Hash computed successfully"])
        | Throw e =>
            (None, [LogDebug "Computing DCT for perceptual hash";
                    LogError "Failed to compute perceptual hash" e])
        end
  end.

End WithRuntime.

(** [hash1[i] !== hash2[i]] *)
Definition char_differs (hash1 hash2 : string) (i : nat) : bool :=
  match String.get i hash1, String.get i hash2 with
  | Some a, Some b => negb (Ascii.eqb a b)
  | None, None => false
  | _, _ => true
  end.

(** The counting loop followed by the length penalty. *)
Definition distance_of (hash1 hash2 : string) : nat :=
  let minLength := Nat.min (String.length hash1) (String.length hash2) in
  let distance :=
    fold_left (fun distance i => if char_differs hash1 hash2 i then S distance else distance)
              (seq 0 minLength) 0 in
  distance + Z.abs_nat (Z.of_nat (String.length hash1) - Z.of_nat (String.length hash2)).

Definition hammingDistance (hash1 hash2 : value) : count :=
  if falsy hash1 || falsy hash2 then Infinity
  else
    match hash1, hash2 with
    | Str s1, Str s2 => Count (distance_of s1 s2)
    | _, _ => Infinity
    end.

(** [areHashesSimilar(hash1, hash2, threshold)] *)
Definition areHashesSimilar (hash1 hash2 : value) (threshold : Z) : bool :=
  count_le (hammingDistance hash1 hash2) threshold.

(** The call without a third argument reads the current configuration. *)
Definition areHashesSimilar_default (cfg : HASH_CONFIG_t) (hash1 hash2 : value) : bool :=
  areHashesSimilar hash1 hash2 (HAMMING_THRESHOLD cfg).

Definition isTrivialHash (cfg : HASH_CONFIG_t) (hash : value) : bool :=
  match hash with
  | Str s =>
      if falsy hash then true
      else
        let ones := count_char "1" s in
        let zeros := String.length s - ones in
        (ones <=? MIN_ONES_ZEROS cfg) || (zeros <=? MIN_ONES_ZEROS cfg)
  | _ => true
  end.

End HashUtils.

(* ===================================================================== *)
(** * The single-file content script: the same pipeline, written earlier  *)
(* ===================================================================== *)

Module Legacy.
Import JS.

Definition CANVAS_SIZE : nat := 32.
Definition HAMMING_THRESHOLD : Z := 12.
Definition MAX_CONCURRENT : nat := 3.

Section WithRuntime.

Variable Math_cos : float -> float.

(** The text of [dct2D] is the one of [HashUtils.dct2D]. *)
Definition dct2D (m : HashUtils.matrix) : HashUtils.matrix :=
  HashUtils.dct2D Math_cos m.

(** [computePHashFromMatrix(matrix32)]: no size check and no [try]; an
    error thrown while reading [dct[y][x]] reaches the caller.  An
    [undefined] median compares like NaN. *)
Definition computePHashFromMatrix (matrix32 : HashUtils.matrix) : completion string :=
  bind (HashUtils.extract_block (dct2D matrix32) 8) (fun block =>
    let sorted := HashUtils.sort_ascending block in
    let median := nth (length sorted / 2) sorted nan in
    Normal (HashUtils.bits_of block median)).

End WithRuntime.

(** The string helpers of this file are local to its closure and are only
    applied to hash strings or to [null] ([None]). *)
Definition falsy (a : option string) : bool :=
  match a with
  | None => true
  | Some s => match s with EmptyString => true | _ => false end
  end.

(** [hamming(a, b)] *)
Definition hamming (a b : option string) : count :=
  match a, b with
  | Some s1, Some s2 =>
      if falsy a || falsy b then Infinity
      else
        let L := Nat.min (String.length s1) (String.length s2) in
        let dist :=
          fold_left (fun dist i => if HashUtils.char_differs s1 s2 i then S dist else dist)
                    (seq 0 L) 0 in
        Count (dist + Z.abs_nat (Z.of_nat (String.length s1) - Z.of_nat (String.length s2)))
  | _, _ => Infinity
  end.

(** [isTrivialHash(hash)], with the literal 4 of the source. *)
Definition isTrivialHash (hash : option string) : bool :=
  match hash with
  | Some s =>
      if falsy hash then true
      else
        let ones := count_char "1" s in
        let zeros := String.length s - ones in
        if (ones <=? 4) || (zeros <=? 4) then true else false
  | None => true
  end.

(** ** The grayscale accumulation inside [computeMultiFramePHash]

    [img] is the RGBA byte array of the drawn frame; [idx] runs over it,
    four bytes per pixel.  A read past the end is [undefined], NaN in
    the sum. *)
Definition byte_at (img : list Z) (idx : nat) : float :=
  match nth_error img idx with
  | Some z => of_Z z
  | None => nan
  end.

(** [const gray = (r + g + b) / 3;] *)
Definition gray_of (r g b : float) : float := ((r + g + b) / 3)%float.

(** The inner loop over [x]: [acc[y][x] += gray], [idx] advanced by 4. *)
Fixpoint accumulate_row (img : list Z) (acc_row : list float) (idx : nat)
  : list float * nat :=
  match acc_row with
  | [] => ([], idx)
  | a :: rest =>
      let r := byte_at img idx in
      let g := byte_at img (idx + 1) in
      let b := byte_at img (idx + 2) in
      let gray := gray_of r g b in
      let '(rest', idx') := accumulate_row img rest (idx + 4) in
      ((a + gray)%float :: rest', idx')
  end.

(** The outer loop over [y]. *)
Fixpoint accumulate_rows (img : list Z) (acc : HashUtils.matrix) (idx : nat)
  : HashUtils.matrix :=
  match acc with
  | [] => []
  | row :: rows =>
      let '(row', idx') := accumulate_row img row idx in
      row' :: accumulate_rows img rows idx'
  end.

(** [Array.from({ length: N }, () => Array(N).fill(0))] *)
Definition zero_matrix (N : nat) : HashUtils.matrix := repeat (repeat zero N) N.

(** The accumulator after one captured frame. *)
Definition accumulate_frame (img : list Z) (acc : HashUtils.matrix) : HashUtils.matrix :=
  accumulate_rows img acc 0.

End Legacy.

(* ===================================================================== *)
(** * utils/video.js : class VideoUtils                                   *)
(* ===================================================================== *)

Module VideoUtils.
Import JS.

#[local] Set Warnings "-inexact-float".

(** [data[idx]] of a [Uint8ClampedArray]; out of range it is [undefined]. *)
Definition data_at (data : list Z) (idx : nat) : float :=
  match nth_error data idx with
  | Some z => of_Z z
  | None => nan
  end.

(** [Math.round(0.299 * r + 0.587 * g + 0.114 * b)] *)
Definition luminance (r g b : float) : float :=
  Math_round (0.299 * r + 0.587 * g + 0.114 * b)%float.

(** [imageDataToGrayscaleMatrix(imageData, size)]; [imageData = None]
    is a missing object, whose [.data] read throws inside the [try]. *)
Definition imageDataToGrayscaleMatrix (imageData : option (list Z)) (size : nat)
  : option HashUtils.matrix :=
  match imageData with
  | None => None
  | Some data =>
      Some (map (fun y =>
                   map (fun x =>
                          let idx := (y * size + x) * 4 in
                          let r := data_at data idx in
                          let g := data_at data (idx + 1) in
                          let b := data_at data (idx + 2) in
                          luminance r g b)
                       (seq 0 size))
                (seq 0 size))
  end.

End VideoUtils.

(* ===================================================================== *)
(** * core/queue.js : class ConcurrencyQueue                              *)
(* ===================================================================== *)

Module ConcurrencyQueue.
Import Constants.

(** What calling [job.fn()] does before [executeJob] reaches its [await]:
    either the call returns (a promise or a plain value) and [executeJob]
    suspends on the race, or the call itself throws, and the [catch] and
    [finally] blocks run at once, inside the caller's loop. *)
Inductive task :=
| Suspends
| ThrowsSync.

(** How a suspended race ends. *)
Inductive outcome :=
| Resolved
| Rejected
| TimedOut.

(** A job object.  [ref] is the identity of the object: the active set is
    a [Set] of objects, compared by identity. *)
Record Job := {
  ref : nat;
  id : string;
  fn : task;
  priority : Z
}.

Record Stats := {
  totalJobs : Z;
  completedJobs : Z;
  failedJobs : Z;
  queuedJobs : Z
}.

Record t := {
  activeJobs : gset nat;
  pendingJobs : list Job;
  maxConcurrent : nat;
  stats : Stats;
  nextRef : nat
}.

(** The constructor. *)
Definition new : t := {|
  activeJobs := ∅;
  pendingJobs := [];
  maxConcurrent := MAX_CONCURRENT CONCURRENCY;
  stats := {| totalJobs := 0; completedJobs := 0; failedJobs := 0; queuedJobs := 0 |};
  nextRef := 0
|}.

(** Instrumentation: one event after every change of the active set,
    carrying the size of the set at that moment. *)
Inductive event :=
| Started (job : Job) (active : nat)
| Stopped (r : nat) (active : nat).

Definition active_at (e : event) : nat :=
  match e with
  | Started _ n => n
  | Stopped _ n => n
  end.

(** [array.findIndex(p)]; [None] is the result -1. *)
Fixpoint findIndex {A} (p : A -> bool) (l : list A) : option nat :=
  match l with
  | [] => None
  | a :: l' => if p a then Some 0 else option_map S (findIndex p l')
  end.

(** [array.splice(i, 0, x)] *)
Definition splice_in {A} (i : nat) (x : A) (l : list A) : list A :=
  firstn i l ++ x :: skipn i l.

(** The insertion step of [enqueue]. *)
Definition insert_by_priority (job : Job) (pending : list Job) : list Job :=
  match findIndex (fun j => (priority j <? priority job)%Z) pending with
  | None => pending ++ [job]
  | Some insertIndex => splice_in insertIndex job pending
  end.

Definition with_stats (f : Stats -> Stats) (q : t) : t :=
  {| activeJobs := activeJobs q; pendingJobs := pendingJobs q;
     maxConcurrent := maxConcurrent q; stats := f (stats q); nextRef := nextRef q |}.

Definition count_failed (s : Stats) : Stats :=
  {| totalJobs := totalJobs s; completedJobs := completedJobs s;
     failedJobs := failedJobs s + 1; queuedJobs := queuedJobs s |}.

Definition count_completed (s : Stats) : Stats :=
  {| totalJobs := totalJobs s; completedJobs := completedJobs s + 1;
     failedJobs := failedJobs s; queuedJobs := queuedJobs s |}.

Definition count_dequeued (s : Stats) : Stats :=
  {| totalJobs := totalJobs s; completedJobs := completedJobs s;
     failedJobs := failedJobs s; queuedJobs := queuedJobs s - 1 |}.

Definition count_enqueued (s : Stats) : Stats :=
  {| totalJobs := totalJobs s + 1; completedJobs := completedJobs s;
     failedJobs := failedJobs s; queuedJobs := queuedJobs s + 1 |}.

(** [this.activeJobs.add(job)] *)
Definition add_active (r : nat) (q : t) : t :=
  {| activeJobs := {[ r ]} ∪ activeJobs q; pendingJobs := pendingJobs q;
     maxConcurrent := maxConcurrent q; stats := stats q; nextRef := nextRef q |}.

(** [this.activeJobs.delete(job)] *)
Definition delete_active (r : nat) (q : t) : t :=
  {| activeJobs := activeJobs q ∖ {[ r ]}; pendingJobs := pendingJobs q;
     maxConcurrent := maxConcurrent q; stats := stats q; nextRef := nextRef q |}.

Definition set_pending (l : list Job) (q : t) : t :=
  {| activeJobs := activeJobs q; pendingJobs := l;
     maxConcurrent := maxConcurrent q; stats := stats q; nextRef := nextRef q |}.

(** The [finally] block of [executeJob]: the job leaves the active set
    and the queue is processed again. *)
Definition finally_block (processQueue : t -> t * list event) (r : nat) (q : t)
  : t * list event :=
  let q1 := delete_active r q in
  let '(q2, es) := processQueue q1 in
  (q2, Stopped r (size (activeJobs q1)) :: es).

(** [executeJob(job)] up to its first suspension.  [processQueue] is the
    method the [finally] block calls back. *)
Definition executeJob (processQueue : t -> t * list event) (job : Job) (q : t)
  : t * list event :=
  let q1 := add_active (ref job) q in
  let started := Started job (size (activeJobs q1)) in
  match fn job with
  | Suspends => (q1, [started])
  | ThrowsSync =>
      let '(q2, es) := finally_block processQueue (ref job) (with_stats count_failed q1) in
      (q2, started :: es)
  end.

(** [processQueue()]: the [while] loop.  Every turn of the loop, at any
    depth of the calls through [finally], shifts one job off the pending
    list, so [fuel] above the length of the list is never used up. *)
Fixpoint processQueue_loop (fuel : nat) (q : t) : t * list event :=
  match fuel with
  | 0 => (q, [])
  | S fuel' =>
      match pendingJobs q with
      | job :: rest =>
          if size (activeJobs q) <? maxConcurrent q then
            let q1 := with_stats count_dequeued (set_pending rest q) in
            let '(q2, es2) := executeJob (processQueue_loop fuel') job q1 in
            let '(q3, es3) := processQueue_loop fuel' q2 in
            (q3, es2 ++ es3)
          else (q, [])
      | [] => (q, [])
      end
  end.

Definition processQueue (q : t) : t * list event :=
  processQueue_loop (S (length (pendingJobs q))) q.

(** [enqueue(jobFn, id, priority)]: the executor of the returned promise
    runs at once. *)
Definition enqueue (jobFn : task) (id : string) (priority : Z) (q : t)
  : t * list event :=
  let job := {| ref := nextRef q; id := id; fn := jobFn; priority := priority |} in
  let q1 :=
    {| activeJobs := activeJobs q;
       pendingJobs := insert_by_priority job (pendingJobs q);
       maxConcurrent := maxConcurrent q;
       stats := count_enqueued (stats q);
       nextRef := S (nextRef q) |} in
  processQueue q1.

(** The code of [executeJob] after the [await], run when the race of an
    active job ends: the bookkeeping of the [try] or [catch] branch and
    then the [finally] block. *)
Definition settle (r : nat) (o : outcome) (q : t) : t * list event :=
  if bool_decide (r ∈ activeJobs q) then
    let q1 :=
      match o with
      | Resolved => with_stats count_completed q
      | Rejected | TimedOut => with_stats count_failed q
      end in
    finally_block processQueue r q1
  else (q, []).

(** What can happen to a queue: a call of [enqueue], or the end of the
    race of a running job. *)
Inductive op :=
| Enqueue (jobFn : task) (id : string) (priority : Z)
| Settle (r : nat) (o : outcome).

Definition apply_op (o : op) (q : t) : t * list event :=
  match o with
  | Enqueue jobFn id priority => enqueue jobFn id priority q
  | Settle r o => settle r o q
  end.

Fixpoint run (ops : list op) (q : t) : t * list event :=
  match ops with
  | [] => (q, [])
  | o :: ops' =>
      let '(q1, es1) := apply_op o q in
      let '(q2, es2) := run ops' q1 in
      (q2, es1 ++ es2)
  end.

(** The jobs started, in order. *)
Definition started_jobs (es : list event) : list Job :=
  flat_map (fun e => match e with Started j _ => [j] | Stopped _ _ => [] end) es.

(** ** The elementary moves

    The state of a queue is changed in four places only: the insertion
    in [enqueue]; one turn of the loop of [processQueue] together with
    the [activeJobs.add] that opens [executeJob] (no other code runs
    between the test of the loop and the addition); the
    [activeJobs.delete] of the [finally] block; and the updates of the
    counters.  Whatever the order in which calls are nested, also when
    the function of a job calls [enqueue] before it returns, a run of
    the queue is a sequence of these moves. *)
Inductive move : t -> t -> Prop :=
| move_insert (q : t) (job : Job) (s : Stats) (n : nat) :
    move q {| activeJobs := activeJobs q;
              pendingJobs := insert_by_priority job (pendingJobs q);
              maxConcurrent := maxConcurrent q;
              stats := s;
              nextRef := n |}
| move_admit (q : t) (job : Job) (rest : list Job) :
    pendingJobs q = job :: rest ->
    size (activeJobs q) < maxConcurrent q ->
    move q (add_active (ref job) (with_stats count_dequeued (set_pending rest q)))
| move_delete (q : t) (r : nat) :
    move q (delete_active r q)
| move_count (q : t) (f : Stats -> Stats) :
    move q (with_stats f q).

(** Zero or more moves. *)
Definition moves : t -> t -> Prop := rtc move.

End ConcurrencyQueue.

(* ===================================================================== *)
(** * An integer rank for binary64 values                                 *)
(* ===================================================================== *)

Module Binary64.

(** The rank of a value that is not NaN grows with the value: zeros have
    rank 0, a finite value of mantissa [m] and exponent [e] has rank
    [(e + 1075) * 2^53 + m] with its sign, and the infinities lie beyond
    every finite value. *)
Definition rank (f : spec_float) : Z :=
  match f with
  | S754_nan => 0
  | S754_zero _ => 0
  | S754_infinity s => if s then - (2048 * 2 ^ 53) else 2048 * 2 ^ 53
  | S754_finite s m e =>
      if s then - ((e + 1075) * 2 ^ 53 + Z.pos m) else (e + 1075) * 2 ^ 53 + Z.pos m
  end%Z.

Definition key (x : float) : Z := rank (Prim2SF x).

(** The rounding information of a shifted mantissa: some bit that was
    shifted out was set. *)
Definition sticky (mrs : shr_record) : bool := shr_r mrs || shr_s mrs.

(** A zero, or a finite value [m * 2^e] of magnitude at most the integer
    [B]; both sides are scaled by [2^1074], which makes them integers. *)
Definition within_sf (B : Z) (x : spec_float) : Prop :=
  match x with
  | S754_zero _ => True
  | S754_finite _ m e => (-1074 <= e /\ Z.pos m * 2 ^ (e + 1074) <= B * 2 ^ 1074)%Z
  | _ => False
  end.

Definition within (B : Z) (x : float) : Prop := within_sf B (Prim2SF x).

End Binary64.

(* ===================================================================== *)
(** * Sample inputs                                                       *)
(* ===================================================================== *)

Module Sample.
Import JS.

(** A cosine for running the transform: the argument is folded into
    [[0, pi]] and a Taylor polynomial is evaluated there. *)
Fixpoint fold_angle (fuel : nat) (x : float) : float :=
  match fuel with
  | 0 => x
  | S fuel' =>
      if (Math_PI <? x)%float then fold_angle fuel' (x - 2 * Math_PI)%float else x
  end.

Definition cos_series (x : float) : float :=
  let x2 := (x * x)%float in
  (1 - x2 / 2 * (1 - x2 / 12 * (1 - x2 / 30 * (1 - x2 / 56 * (1 - x2 / 90 *
   (1 - x2 / 132 * (1 - x2 / 182 * (1 - x2 / 240 * (1 - x2 / 306)))))))))%float.

Definition cos (x : float) : float := cos_series (fold_angle 64 (abs x)).

(** A 32x32 frame of intensities 0..255 with some texture. *)
Definition textured : HashUtils.matrix :=
  map (fun y => map (fun x => of_nat ((7 * x + 13 * y + x * y) mod 256)) (seq 0 32))
      (seq 0 32).

(** The all-black 32x32 frame. *)
Definition black : HashUtils.matrix := repeat (repeat zero 32) 32.

(** A frame whose 32 rows are all empty. *)
Definition hollow : HashUtils.matrix := repeat [] 32.

(** The RGBA bytes of a 32x32 frame filled with pure red. *)
Definition red_frame : list Z := concat (repeat [255; 0; 0; 255]%Z (32 * 32)).

(** A 63-character string of [k] ones followed by zeros. *)
Definition ones_then_zeros (k : nat) : string :=
  JS.join (repeat "1"%string k ++ repeat "0"%string (63 - k)).

(** A queue whose three slots are taken by running jobs, with nothing
    pending. *)
Definition saturated : ConcurrencyQueue.t := {|
  ConcurrencyQueue.activeJobs := {[ 0; 1; 2 ]};
  ConcurrencyQueue.pendingJobs := [];
  ConcurrencyQueue.maxConcurrent := 3;
  ConcurrencyQueue.stats :=
    {| ConcurrencyQueue.totalJobs := 3; ConcurrencyQueue.completedJobs := 0;
       ConcurrencyQueue.failedJobs := 0; ConcurrencyQueue.queuedJobs := 0 |};
  ConcurrencyQueue.nextRef := 3
|}.

(** The same queue with two jobs waiting, of priorities 5 and 1. *)
Definition waiting : ConcurrencyQueue.t := {|
  ConcurrencyQueue.activeJobs := {[ 0; 1; 2 ]};
  ConcurrencyQueue.pendingJobs :=
    [ {| ConcurrencyQueue.ref := 4; ConcurrencyQueue.id := "second";
         ConcurrencyQueue.fn := ConcurrencyQueue.Suspends;
         ConcurrencyQueue.priority := 5 |};
      {| ConcurrencyQueue.ref := 3; ConcurrencyQueue.id := "first";
         ConcurrencyQueue.fn := ConcurrencyQueue.Suspends;
         ConcurrencyQueue.priority := 1 |} ];
  ConcurrencyQueue.maxConcurrent := 3;
  ConcurrencyQueue.stats :=
    {| ConcurrencyQueue.totalJobs := 5; ConcurrencyQueue.completedJobs := 0;
       ConcurrencyQueue.failedJobs := 0; ConcurrencyQueue.queuedJobs := 2 |};
  ConcurrencyQueue.nextRef := 5
|}.

(** Four jobs enqueued with priorities 1, 5, 1, 3, in that order. *)
Definition four_enqueues : list ConcurrencyQueue.op :=
  [ConcurrencyQueue.Enqueue ConcurrencyQueue.Suspends "first" 1;
   ConcurrencyQueue.Enqueue ConcurrencyQueue.Suspends "second" 5;
   ConcurrencyQueue.Enqueue ConcurrencyQueue.Suspends "third" 1;
   ConcurrencyQueue.Enqueue ConcurrencyQueue.Suspends "fourth" 3].

(** The running jobs end one after the other, each freeing one slot. *)
Definition four_settlements : list ConcurrencyQueue.op :=
  [ConcurrencyQueue.Settle 0 ConcurrencyQueue.Resolved;
   ConcurrencyQueue.Settle 1 ConcurrencyQueue.TimedOut;
   ConcurrencyQueue.Settle 2 ConcurrencyQueue.Rejected;
   ConcurrencyQueue.Settle 4 ConcurrencyQueue.Resolved].

End Sample.

(* ===================================================================== *)
(** * The properties, in the words of the specification                   *)
(* ===================================================================== *)

Module Spec.
Import JS.

(** A fingerprint is a string over the characters 0 and 1. *)
Fixpoint is_bits (s : string) : bool :=
  match s with
  | EmptyString => true
  | String c s' => (Ascii.eqb c "0" || Ascii.eqb c "1") && is_bits s'
  end.

Definition ones (s : string) : nat := count_char "1" s.
Definition zeros (s : string) : nat := count_char "0" s.

(** "the number of positions i < min(|a|, |b|) at which a[i] differs from
    b[i]" *)
Definition differing_positions (a b : string) : nat :=
  length (List.filter (fun i => bool_decide (String.get i a <> String.get i b))
                 (seq 0 (Nat.min (String.length a) (String.length b)))).

(** "the absolute difference of the two lengths" *)
Definition length_gap (a b : string) : nat :=
  Nat.max (String.length a) (String.length b)
  - Nat.min (String.length a) (String.length b).

Definition distance (a b : string) : nat :=
  differing_positions a b + length_gap a b.

(** An S x S matrix. *)
Definition square (S : nat) (m : HashUtils.matrix) : Prop :=
  length m = S /\ Forall (fun row => length row = S) m.

(** The transform coefficients of the K x K low-frequency corner, in
    row-major order, the one at (0,0) left out. *)
Definition low_frequency_coefficients (Math_cos : float -> float)
  (m : HashUtils.matrix) : list float :=
  map (fun p => HashUtils.coefficient Math_cos m (length m) (fst p) (snd p))
      (HashUtils.block_positions 8).

(** No coefficient is NaN. *)
Definition all_numbers (l : list float) : bool :=
  forallb (fun v => negb (is_nan v)) l.

(** A number from [lo] to [hi]. *)
Definition between (lo hi x : float) : bool := ((lo <=? x) && (x <=? hi))%float.

(** Every entry of the matrix is an intensity, a number from 0 to 255. *)
Definition intensities (m : HashUtils.matrix) : bool :=
  forallb (forallb (between 0 255)) m.

(** The cosines that the transform of a 32x32 matrix reads for its 8x8
    low-frequency corner lie between -1 and 1. *)
Definition unit_cosines (Math_cos : float -> float) : Prop :=
  forall i k, i < 32 -> k < 8 ->
    between (-1) 1 (Math_cos (HashUtils.angle 32 i k)) = true.

(** The element at sorted index 31, the median the code reads for a block
    of 63 coefficients. *)
Definition median_of (block : list float) : float :=
  nth 31 (HashUtils.sort_ascending block) nan.

(** A number that carries no signal: a zero of either sign, or NaN. *)
Definition no_signal (x : float) : Prop :=
  Prim2SF x = S754_nan \/ exists s, Prim2SF x = S754_zero s.

(** A zero of either sign. *)
Definition is_a_zero (x : float) : Prop := exists s, Prim2SF x = S754_zero s.

(** The fingerprint of 63 zeros. *)
Definition all_zero_bits : string :=
  "000000000000000000000000000000000000000000000000000000000000000".

(** The active set is within the configured capacity. *)
Definition within_capacity (q : ConcurrencyQueue.t) : Prop :=
  size (ConcurrencyQueue.activeJobs q) <= ConcurrencyQueue.maxConcurrent q.

(** A queue operation that keeps the capacity, leaves the limit alone and
    only reports active sets within the limit. *)
Definition capacity_safe (f : ConcurrencyQueue.t -> ConcurrencyQueue.t * list ConcurrencyQueue.event)
  : Prop :=
  forall q, within_capacity q ->
    within_capacity (fst (f q))
    /\ ConcurrencyQueue.maxConcurrent (fst (f q)) = ConcurrencyQueue.maxConcurrent q
    /\ Forall (fun e => ConcurrencyQueue.active_at e <= ConcurrencyQueue.maxConcurrent q)
              (snd (f q)).

(** A queue operation that starts jobs from the front of the pending
    list: the jobs it started, in order, followed by the jobs it left
    pending, are the pending list it found. *)
Definition starts_from_front
  (f : ConcurrencyQueue.t -> ConcurrencyQueue.t * list ConcurrencyQueue.event) : Prop :=
  forall q,
    ConcurrencyQueue.pendingJobs q
    = ConcurrencyQueue.started_jobs (snd (f q)) ++ ConcurrencyQueue.pendingJobs (fst (f q)).

(** A list of numbers in ascending order. *)
Definition ascending (l : list float) : Prop :=
  StronglySorted (fun a b => (Binary64.key a <= Binary64.key b)%Z) l.

(** The pending list is in descending order of priority. *)
Definition descending (l : list ConcurrencyQueue.Job) : Prop :=
  StronglySorted
    (fun a b => (ConcurrencyQueue.priority b <= ConcurrencyQueue.priority a)%Z) l.

End Spec.

(* ===================================================================== *)
(** * utils/hash.js : class HashUtils, the reporting functions            *)
(* ===================================================================== *)

Module HashReports.
Import JS Constants.

(** The text of a count inside a template literal. *)
Definition Number_toString (n : nat) : string :=
  NilEmpty.string_of_uint (Nat.to_uint n).

Fixpoint all_01 (s : string) : bool :=
  match s with
  | EmptyString => true
  | String c s' => (Ascii.eqb c "0" || Ascii.eqb c "1") && all_01 s'
  end.

(** [/^[01]+$/.test(s)] *)
Definition test_binary (s : string) : bool :=
  match s with
  | EmptyString => false
  | _ => all_01 s
  end.

Record Metrics := {
  length_ : nat;
  ones : nat;
  zeros : nat;
  onesPercent : float;
  zerosPercent : float;
  entropy : float
}.

(** The object [validateHash] returns; [metrics] is [None] while it is
    still the empty object. *)
Record Validation := {
  valid : bool;
  issues : list string;
  metrics : option Metrics
}.

(** The best match of [findMostSimilarHash]. *)
Record Match := {
  hash : value;
  distance : nat;
  similarity : float
}.

(** [a < b] on counts. *)
Definition count_lt (a b : count) : bool :=
  match a, b with
  | Count n, Count m => n <? m
  | Count _, Infinity => true
  | Infinity, _ => false
  end.

Section WithRuntime.

(** [Math.log2] is approximated by the engine. *)
Variable Math_log2 : float -> float.

(** [calculateEntropy(binaryString)]; a number that is not 0 has no
    [match] method. *)
Definition calculateEntropy (binaryString : value) : completion float :=
  if falsy binaryString then Normal zero
  else
    match binaryString with
    | Str s =>
        let ones := count_char "1" s in
        let zeros := String.length s - ones in
        let total := String.length s in
        if (ones =? 0) || (zeros =? 0) then Normal zero
        else
          let p1 := (of_nat ones / of_nat total)%float in
          let p0 := (of_nat zeros / of_nat total)%float in
          Normal (- (p1 * Math_log2 p1 + p0 * Math_log2 p0))%float
    | _ => Throw "TypeError: binaryString.match is not a function"
    end.

(** [validateHash(hash)] *)
Definition validateHash (cfg : HASH_CONFIG_t) (hash : value) : completion Validation :=
  if falsy hash then
    Normal {| valid := false; issues := ["Hash is null or undefined"]; metrics := None |}
  else
    match hash with
    | Str s =>
        if negb (test_binary s) then
          Normal {| valid := false; issues := ["Hash contains non-binary characters"];
                    metrics := None |}
        else
          let ones := count_char "1" s in
          let zeros := String.length s - ones in
          bind (calculateEntropy hash) (fun entropy =>
            let metrics :=
              {| length_ := String.length s; ones := ones; zeros := zeros;
                 onesPercent := (of_nat ones / of_nat (String.length s) * 100)%float;
                 zerosPercent := (of_nat zeros / of_nat (String.length s) * 100)%float;
                 entropy := entropy |} in
            let issues1 :=
              if HashUtils.isTrivialHash cfg hash
              then ["Hash appears to be trivial (low entropy)"%string] else [] in
            let expectedLength :=
              DCT_BLOCK_SIZE VIDEO_PROCESSING * DCT_BLOCK_SIZE VIDEO_PROCESSING - 1 in
            let issues2 :=
              if negb (String.length s =? expectedLength) then
                issues1 ++ [("Unexpected hash length: " ++ Number_toString (String.length s)
                             ++ ", expected: " ++ Number_toString expectedLength)%string]
              else issues1 in
            Normal {| valid := (length issues2 =? 0); issues := issues2;
                      metrics := Some metrics |})
    | _ =>
        Normal {| valid := false; issues := ["Hash is not a string"]; metrics := None |}
    end.

End WithRuntime.

(** The [similarity] field: [.length] of a value that is not a string is
    [undefined], which makes the quotient NaN. *)
Definition similarity_of (targetHash hash : value) (distance : nat) : float :=
  match targetHash, hash with
  | Str t, Str h =>
      let m := Nat.min (String.length t) (String.length h) in
      (of_Z (Z.of_nat m - Z.of_nat distance) / of_nat m * 100)%float
  | _, _ => nan
  end.

(** One turn of the loop of [findMostSimilarHash] on the pair
    [(bestMatch, minDistance)]. *)
Definition consider (targetHash : value) (st : option Match * count) (h : value)
  : option Match * count :=
  let d := HashUtils.hammingDistance targetHash h in
  if count_lt d (snd st) then
    match d with
    | Count n =>
        (Some {| hash := h; distance := n; similarity := similarity_of targetHash h n |}, d)
    | Infinity => st
    end
  else st.

(** [findMostSimilarHash(targetHash, hashList)]; [hashList = None] is a
    missing list.  The closing debug call reads [targetHash.substring],
    which a number does not have. *)
Definition findMostSimilarHash (targetHash : value) (hashList : option (list value))
  : completion (option Match) :=
  match hashList with
  | None => Normal None
  | Some l =>
      if falsy targetHash || (length l =? 0) then Normal None
      else
        let bestMatch := fst (fold_left (consider targetHash) l (None, Infinity)) in
        if is_string targetHash then Normal bestMatch
        else Throw "TypeError: targetHash.substring is not a function"
  end.

End HashReports.

(** What the loop of [findMostSimilarHash] has reached. *)
Module BestMatch.
Import JS HashReports.

(** What the loop of [findMostSimilarHash] has established after the
    hashes [done]: nothing at a finite distance so far, or a best match
    that is strictly closer than everything before it and not farther
    than anything after it. *)
Definition best_so_far (target : value) (done : list value) (st : option Match * count)
  : Prop :=
  match fst st with
  | None =>
      snd st = Infinity
      /\ forall h, List.In h done -> HashUtils.hammingDistance target h = Infinity
  | Some b =>
      snd st = Count (distance b)
      /\ HashUtils.hammingDistance target (hash b) = Count (distance b)
      /\ similarity b = similarity_of target (hash b) (distance b)
      /\ exists before after,
           done = before ++ hash b :: after
           /\ (forall h, List.In h before ->
                 count_lt (Count (distance b)) (HashUtils.hammingDistance target h) = true)
           /\ (forall h, List.In h after ->
                 count_lt (HashUtils.hammingDistance target h) (Count (distance b)) = false)
  end.

End BestMatch.

(* ===================================================================== *)
(** * core/blocker.js : class VideoBlocker, the matching                  *)
(* ===================================================================== *)

Module VideoBlocker.
Import JS Constants.

(** Equality of the members of a [Set]. *)
Definition same_value (a b : value) : bool :=
  match a, b with
  | Null, Null => true
  | Str s, Str s' => String.eqb s s'
  | Num z, Num z' => (z =? z')%Z
  | _, _ => false
  end.

(** [this.blockedHashes.has(hash)], the set given by its members in the
    order of insertion. *)
Definition has (blockedHashes : list value) (hash : value) : bool :=
  existsb (same_value hash) blockedHashes.

(** [isHashBlocked(hash)] *)
Definition isHashBlocked (cfg : HASH_CONFIG_t) (blockedHashes : list value) (hash : value)
  : bool :=
  if falsy hash then false
  else if has blockedHashes hash then true
  else existsb (fun blockedHash => HashUtils.areHashesSimilar_default cfg hash blockedHash)
               blockedHashes.

End VideoBlocker.

Module LegacyScan.
Import JS.

(** The matching loop of the scan tasks of the content script:
    [for (const bad of blocked) if (hamming(hash, bad) <= HAMMING_THRESHOLD) ...],
    reached when [hash] is not falsy. *)
Definition matches_blocked (blocked : list (option string)) (hash : option string) : bool :=
  if Legacy.falsy hash then false
  else existsb (fun bad => count_le (Legacy.hamming hash bad) Legacy.HAMMING_THRESHOLD) blocked.

End LegacyScan.

(* ===================================================================== *)
(** * core/queue.js : class ConcurrencyQueue, the controls                *)
(* ===================================================================== *)

Module QueueControls.
Import ConcurrencyQueue.

(** The object [getStats()] returns. *)
Record Snapshot := {
  snap_totalJobs : Z;
  snap_completedJobs : Z;
  snap_failedJobs : Z;
  snap_queuedJobs : Z;
  snap_activeJobs : nat;
  snap_pendingJobs : nat;
  totalInProgress : nat
}.

Definition getStats (q : t) : Snapshot := {|
  snap_totalJobs := totalJobs (stats q);
  snap_completedJobs := completedJobs (stats q);
  snap_failedJobs := failedJobs (stats q);
  snap_queuedJobs := queuedJobs (stats q);
  snap_activeJobs := size (activeJobs q);
  snap_pendingJobs := length (pendingJobs q);
  totalInProgress := size (activeJobs q) + length (pendingJobs q)
|}.

(** [hasCapacity()] *)
Definition hasCapacity (q : t) : bool := size (activeJobs q) <? maxConcurrent q.

(** [getQueueSize()] *)
Definition getQueueSize (q : t) : nat := length (pendingJobs q).

(** [getActiveJobCount()] *)
Definition getActiveJobCount (q : t) : nat := size (activeJobs q).

(** [clearQueue(reason)]: the new state, and the pending jobs, each one
    rejected with the message built from [reason]. *)
Definition clearQueue (reason : string) (q : t) : t * list (Job * string) :=
  let clearedCount := length (pendingJobs q) in
  ({| activeJobs := activeJobs q;
      pendingJobs := [];
      maxConcurrent := maxConcurrent q;
      stats := {| totalJobs := totalJobs (stats q);
                  completedJobs := completedJobs (stats q);
                  failedJobs := failedJobs (stats q) + Z.of_nat clearedCount;
                  queuedJobs := 0 |};
      nextRef := nextRef q |},
   map (fun job => (job, ("Queue cleared: " ++ reason)%string)) (pendingJobs q)).

(** [cleanup()] *)
Definition cleanup (q : t) : t * list (Job * string) := clearQueue "Cleanup" q.

Definition with_limit (max : nat) (q : t) : t :=
  {| activeJobs := activeJobs q; pendingJobs := pendingJobs q;
     maxConcurrent := max; stats := stats q; nextRef := nextRef q |}.

(** [setMaxConcurrent(max)], for an integral [max]. *)
Definition setMaxConcurrent (max : Z) (q : t) : t * list event :=
  if ((0 <? max) && (max <=? 10))%Z then processQueue (with_limit (Z.to_nat max) q)
  else (q, []).

(** What a user of the queue can do to it: the operations of
    [ConcurrencyQueue.op], a change of the limit, or a clearing. *)
Inductive call :=
| Op (o : op)
| SetMaxConcurrent (max : Z)
| ClearQueue (reason : string).

(** What a call reports: the events of the active set, and the jobs it
    rejected while they were pending. *)
Definition apply_call (c : call) (q : t) : t * list event * list Job :=
  match c with
  | Op o => (apply_op o q, [])
  | SetMaxConcurrent max => (setMaxConcurrent max q, [])
  | ClearQueue reason =>
      let '(q', rejected) := clearQueue reason q in (q', [], map fst rejected)
  end.

Fixpoint run_calls (cs : list call) (q : t) : t * list event * list Job :=
  match cs with
  | [] => (q, [], [])
  | c :: cs' =>
      let '(q1, es1, rs1) := apply_call c q in
      let '(q2, es2, rs2) := run_calls cs' q1 in
      (q2, es1 ++ es2, rs1 ++ rs2)
  end.

End QueueControls.

Module QueueProps.
Import ConcurrencyQueue QueueControls.

(** The counters agree with the queue: every job counted in [totalJobs]
    is completed, failed, waiting or running, and [queuedJobs] is the
    length of the pending list. *)
Definition accounted (q : t) : Prop :=
  (totalJobs (stats q)
   = completedJobs (stats q) + failedJobs (stats q) + queuedJobs (stats q)
     + Z.of_nat (size (activeJobs q)))%Z
  /\ queuedJobs (stats q) = Z.of_nat (length (pendingJobs q)).

(** The references in use are below [nextRef]; no two pending jobs share
    one, and no pending job is active. *)
Definition fresh_refs (q : t) : Prop :=
  List.NoDup (map ref (pendingJobs q))
  /\ Forall (fun j => ref j < nextRef q /\ ref j ∉ activeJobs q) (pendingJobs q)
  /\ (forall r, r ∈ activeJobs q -> r < nextRef q).

Definition consistent (q : t) : Prop := accounted q /\ fresh_refs q.

(** A queue operation that keeps the queue consistent. *)
Definition keeps_consistent (f : t -> t * list event) : Prop :=
  forall q, consistent q -> consistent (fst (f q)).

(** No job waits while a slot is free. *)
Definition work_conserving (q : t) : Prop :=
  pendingJobs q = [] \/ maxConcurrent q <= size (activeJobs q).


(** A queue operation that leaves the counter of references alone. *)
Definition keeps_nextRef (f : t -> t * list event) : Prop :=
  forall q, nextRef (fst (f q)) = nextRef q.

End QueueProps.

(* ===================================================================== *)
(** * The content script: its task queue                                  *)
(* ===================================================================== *)

Module LegacyQueue.

(** The array [queue] and the counter [active] of the closure, and the
    promise chains that [runQueue] has set up and that have not reached
    their [finally] yet.  A task is given by a number that stands for
    the function object; the same function may be enqueued twice. *)
Record t := {
  queue : list nat;
  active : nat;
  in_flight : list nat
}.

Definition initial : t := {| queue := []; active := 0; in_flight := [] |}.

(** [runQueue()]: the new state and the task it scheduled, if any.  The
    task itself runs later, in a microtask. *)
Definition runQueue (s : t) : t * list nat :=
  if (Legacy.MAX_CONCURRENT <=? active s) || (length (queue s) =? 0) then (s, [])
  else
    match queue s with
    | [] => (s, [])
    | fn :: rest =>
        ({| queue := rest; active := S (active s); in_flight := in_flight s ++ [fn] |}, [fn])
    end.

(** [enqueue(task)] *)
Definition enqueue (task : nat) (s : t) : t * list nat :=
  runQueue {| queue := queue s ++ [task]; active := active s; in_flight := in_flight s |}.

(** [array.splice(array.indexOf(x), 1)]: the first occurrence leaves. *)
Fixpoint remove_first (x : nat) (l : list nat) : list nat :=
  match l with
  | [] => []
  | y :: l' => if x =? y then l' else y :: remove_first x l'
  end.

(** The [finally] callback of the chain of [fn], run once the task has
    ended, whether it failed or not: [active--; runQueue()]. *)
Definition finished (fn : nat) (s : t) : t * list nat :=
  if existsb (Nat.eqb fn) (in_flight s) then
    runQueue {| queue := queue s; active := active s - 1;
                in_flight := remove_first fn (in_flight s) |}
  else (s, []).

Inductive op :=
| Enqueue (task : nat)
| Finished (fn : nat).

Definition apply_op (o : op) (s : t) : t * list nat :=
  match o with
  | Enqueue task => enqueue task s
  | Finished fn => finished fn s
  end.

(** The final state and the tasks scheduled, in order. *)
Fixpoint run (ops : list op) (s : t) : t * list nat :=
  match ops with
  | [] => (s, [])
  | o :: ops' =>
      let '(s1, started1) := apply_op o s in
      let '(s2, started2) := run ops' s1 in
      (s2, started1 ++ started2)
  end.

(** The tasks handed to [enqueue], in order. *)
Definition enqueued (ops : list op) : list nat :=
  flat_map (fun o => match o with Enqueue task => [task] | Finished _ => [] end) ops.

(** The counter is the number of chains in flight and within the limit;
    a task waits only when the limit is reached. *)
Definition disciplined (s : t) : Prop :=
  active s = length (in_flight s)
  /\ active s <= Legacy.MAX_CONCURRENT
  /\ (queue s <> [] -> active s = Legacy.MAX_CONCURRENT).

End LegacyQueue.

(* ===================================================================== *)
(** * utils/video.js : class VideoUtils, from frames to a fingerprint     *)
(* ===================================================================== *)

Module VideoCapture.
Import JS Constants.

(** What one turn of a capture loop gets from the canvas: the bytes of
    the drawn frame, or the error that [drawImage] or [getImageData]
    threw. *)
Definition frame := completion (list Z).

(** The sum that the first loop of [averageMatrices] leaves at [y][x]. *)
Definition summed (matrices : list HashUtils.matrix) (y x : nat) : float :=
  fold_left (fun sum matrix => (sum + HashUtils.entry matrix y x)%float) matrices zero.

(** [averageMatrices(matrices)].  Reading [matrix[y][x]] throws when the
    matrix has no row [y]. *)
Definition averageMatrices (matrices : list HashUtils.matrix)
  : completion (option HashUtils.matrix) :=
  match matrices with
  | [] => Normal None
  | [matrix] => Normal (Some matrix)
  | first :: _ =>
      let size := length first in
      if forallb (fun matrix => size <=? length matrix) matrices then
        let count := of_nat (length matrices) in
        Normal (Some (map (fun y =>
                             map (fun x => Math_round (summed matrices y x / count)%float)
                                 (seq 0 size))
                          (seq 0 size)))
      else Throw "TypeError: Cannot read properties of undefined"
  end.

(** The matrices that the loop of [captureAndAverageFrames] collects:
    a frame that could not be drawn is skipped. *)
Definition captured (frames : list frame) : list HashUtils.matrix :=
  flat_map
    (fun f =>
       match f with
       | Normal data =>
           match VideoUtils.imageDataToGrayscaleMatrix (Some data)
                   (CANVAS_SIZE VIDEO_PROCESSING) with
           | Some matrix => [matrix]
           | None => []
           end
       | Throw _ => []
       end)
    frames.

(** [captureAndAverageFrames(video, ctx, canvas, frameCount)], the
    frames being what the canvas gives on each of the [frameCount]
    turns. *)
Definition captureAndAverageFrames (frames : list frame)
  : completion (option HashUtils.matrix) :=
  let matrices := captured frames in
  if length matrices =? 0 then Normal None else averageMatrices matrices.

(** How one attempt of [computeMultiFramePHash] ends. *)
Inductive outcome :=
| Hash (hash : string)
| Trivial
| Failed (message : string).

(** What the page gives to one attempt: a video that is not valid for
    processing, an error thrown while the video is made ready, or the
    frames of the capture. *)
Inductive attempt :=
| NotReady
| SetupFails (message : string)
| Frames (frames : list frame).

Section WithRuntime.
Variable Math_cos : float -> float.
Variable cfg : HASH_CONFIG_t.

(** The inner [try] block of [computeMultiFramePHash], from the capture
    of the frames on. *)
Definition hash_of_frames (frames : list frame) : outcome :=
  match captureAndAverageFrames frames with
  | Throw message => Failed message
  | Normal None => Failed "Failed to capture video frames"
  | Normal (Some averageMatrix) =>
      match fst (HashUtils.computePHashFromMatrix Math_cos (Some averageMatrix)) with
      | None => Failed "Hash computation failed"
      | Some hash =>
          if falsy (Str hash) then Failed "Hash computation failed"
          else if HashUtils.isTrivialHash cfg (Str hash) then Trivial
          else Hash hash
      end
  end.

(** The [for] loop of [computeMultiFramePHash], from the turn [attempt]
    on, [fuel] turns being left. *)
Fixpoint attempts (page : nat -> attempt) (retryCount fuel attempt : nat) : option string :=
  match fuel with
  | 0 => None
  | S fuel' =>
      let again := attempts page retryCount fuel' (S attempt) in
      match page attempt with
      | NotReady => if attempt <? retryCount then again else None
      | SetupFails _ => if attempt =? retryCount then None else again
      | Frames frames =>
          match hash_of_frames frames with
          | Hash hash => Some hash
          | Trivial => if attempt <? retryCount then again else None
          | Failed _ => if attempt =? retryCount then None else again
          end
      end
  end.

(** [computeMultiFramePHash(video, frameCount, retryCount)]: [None] is
    [null]. *)
Definition computeMultiFramePHash (page : nat -> attempt) (retryCount : nat)
  : option string :=
  attempts page retryCount (S retryCount) 0.

End WithRuntime.

End VideoCapture.

(* ===================================================================== *)
(** * The content script: from frames to a fingerprint                    *)
(* ===================================================================== *)

Module LegacyCapture.
Import JS.

(** The accumulator and the count of captured frames after the capture
    loop: a frame that could not be drawn leaves both as they are. *)
Fixpoint capture (frames : list VideoCapture.frame) (acc : HashUtils.matrix) (captured : nat)
  : HashUtils.matrix * nat :=
  match frames with
  | [] => (acc, captured)
  | Normal img :: frames' => capture frames' (Legacy.accumulate_frame img acc) (S captured)
  | Throw _ :: frames' => capture frames' acc captured
  end.

(** [computeMultiFramePHash(video, frames)], the frames being what the
    canvas gives on each turn of the loop; every error ends in the
    [catch] that returns [null]. *)
Definition computeMultiFramePHash (Math_cos : float -> float) (frames : list VideoCapture.frame)
  : option string :=
  let '(acc, captured) := capture frames (Legacy.zero_matrix Legacy.CANVAS_SIZE) 0 in
  if captured =? 0 then None
  else
    let avg := map (fun row => map (fun v => (v / of_nat captured)%float) row) acc in
    match Legacy.computePHashFromMatrix Math_cos avg with
    | Throw _ => None
    | Normal hash => if Legacy.isTrivialHash (Some hash) then None else Some hash
    end.

End LegacyCapture.

(* ===================================================================== *)
(** * utils/storage.js : class StorageManager                             *)
(* ===================================================================== *)

Module StorageManager.
Import JS.

(** An entry of the list stored under [STORAGE.KEY]. *)
Record item := {
  hash : value;
  added : Z;
  version : string;
  source : string
}.

(** The browser side: whether [chrome.storage.local] is there, the
    error that [chrome.runtime.lastError] shows to the callback of an
    operation, and the value stored under [STORAGE.KEY] ([None] while
    nothing is stored).  An operation that ends with an error leaves
    the stored value alone. *)
Record chrome := {
  available : bool;
  lastError : option string;
  stored : option (list item)
}.

(** The manager: its cache entry ['blocked_hashes'], and the browser. *)
Record t := {
  cache : option (list value);
  browser : chrome
}.

(** What [notifyListeners] passes to every listener. *)
Inductive notification :=
| hashAdded (hash : value) (totalCount : nat)
| hashRemoved (hash : value) (remainingCount : nat)
| allHashesCleared
| externalUpdate (hashes : list value).

(** [getStorageData(STORAGE.KEY)] *)
Definition getStorageData (c : chrome) : completion (option (list item)) :=
  if negb (available c) then Throw "Chrome storage API not available"
  else
    match lastError c with
    | Some message => Throw message
    | None => Normal (stored c)
    end.

(** [setStorageData(STORAGE.KEY, value)] *)
Definition setStorageData (value : list item) (c : chrome) : completion chrome :=
  if negb (available c) then Throw "Chrome storage API not available"
  else
    match lastError c with
    | Some message => Throw message
    | None => Normal {| available := available c; lastError := lastError c;
                        stored := Some value |}
    end.

(** [data || []] *)
Definition or_empty {A} (data : option (list A)) : list A :=
  match data with
  | Some l => l
  | None => []
  end.

(** [data.map(item => item.hash).filter(hash => hash && typeof hash === 'string')] *)
Definition string_hashes (data : list item) : list value :=
  List.filter (fun hash => negb (falsy hash) && is_string hash) (map hash data).

(** [newValue.map(item => item.hash).filter(Boolean)] *)
Definition truthy_hashes (data : list item) : list value :=
  List.filter (fun hash => negb (falsy hash)) (map hash data).

Definition with_cache (hashes : list value) (s : t) : t :=
  {| cache := Some hashes; browser := browser s |}.

(** [loadBlockedHashes()] *)
Definition loadBlockedHashes (s : t) : list value * t :=
  match getStorageData (browser s) with
  | Normal data =>
      let hashes := string_hashes (or_empty data) in
      (hashes, with_cache hashes s)
  | Throw _ => ([], s)
  end.

(** [getBlockedHashes()] *)
Definition getBlockedHashes (s : t) : list value * t :=
  match cache s with
  | Some cached => (cached, s)
  | None => loadBlockedHashes s
  end.

(** [item.hash === hash] for a string [hash]. *)
Definition hash_is (h : string) (i : item) : bool :=
  match hash i with
  | Str s => String.eqb s h
  | _ => false
  end.

(** [saveBlockedHash(hash)], called when [Date.now()] is [now].  The
    call of [updateStats] that ends it reads and writes another key and
    catches its own errors. *)
Definition saveBlockedHash (now : Z) (h : value) (s : t) : bool * t * list notification :=
  match h with
  | Str hs =>
      if falsy h then (false, s, [])
      else
        match getStorageData (browser s) with
        | Throw _ => (false, s, [])
        | Normal data =>
            let existingData := or_empty data in
            if existsb (hash_is hs) existingData then (false, s, [])
            else
              let newItem := {| hash := h; added := now; version := "1.0";
                                source := "manual" |} in
              let updatedData := existingData ++ [newItem] in
              match setStorageData updatedData (browser s) with
              | Throw _ => (false, s, [])
              | Normal browser' =>
                  let cachedHashes := or_empty (cache s) ++ [h] in
                  (true, {| cache := Some cachedHashes; browser := browser' |},
                   [hashAdded h (length updatedData)])
              end
        end
  | _ => (false, s, [])
  end.

(** [removeBlockedHash(hash)] for a string [hash]. *)
Definition removeBlockedHash (hs : string) (s : t) : bool * t * list notification :=
  match getStorageData (browser s) with
  | Throw _ => (false, s, [])
  | Normal data =>
      let existingData := or_empty data in
      let filteredData := List.filter (fun i => negb (hash_is hs i)) existingData in
      if length filteredData =? length existingData then (false, s, [])
      else
        match setStorageData filteredData (browser s) with
        | Throw _ => (false, s, [])
        | Normal browser' =>
            let updatedCache :=
              List.filter (fun h => negb (VideoBlocker.same_value h (Str hs)))
                          (or_empty (cache s)) in
            (true, {| cache := Some updatedCache; browser := browser' |},
             [hashRemoved (Str hs) (length filteredData)])
        end
  end.

(** [clearAllHashes()] *)
Definition clearAllHashes (s : t) : bool * t * list notification :=
  match setStorageData [] (browser s) with
  | Throw _ => (false, s, [])
  | Normal browser' =>
      (true, {| cache := Some []; browser := browser' |}, [allHashesCleared])
  end.

(** [handleStorageChange(changes, area)]: [change] is
    [changes[STORAGE.KEY]], when there is one, given by its [newValue]. *)
Definition handleStorageChange (area : string) (change : option (option (list item)))
  (s : t) : t * list notification :=
  if negb (String.eqb area "local") then (s, [])
  else
    match change with
    | None => (s, [])
    | Some newValue =>
        let hashes := truthy_hashes (or_empty newValue) in
        (with_cache hashes s, [externalUpdate hashes])
    end.

(** The calls that change the stored list. *)
Inductive call :=
| Save (now : Z) (h : value)
| Remove (hs : string)
| Clear
| Load.

Definition apply_call (c : call) (s : t) : t :=
  match c with
  | Save now h => snd (fst (saveBlockedHash now h s))
  | Remove hs => snd (fst (removeBlockedHash hs s))
  | Clear => snd (fst (clearAllHashes s))
  | Load => snd (loadBlockedHashes s)
  end.

(** The stored list. *)
Definition stored_items (s : t) : list item := or_empty (stored (browser s)).

(** The cache holds what [loadBlockedHashes] would read. *)
Definition coherent (s : t) : Prop :=
  cache s = Some (string_hashes (stored_items s)).

(** The browser answers, and without error. *)
Definition healthy (s : t) : Prop :=
  available (browser s) = true /\ lastError (browser s) = None.

(** Every stored hash is a non-empty string, stored once. *)
Definition tidy (data : list item) : Prop :=
  List.NoDup (map hash data)
  /\ Forall (fun i => exists hs, hash i = Str hs /\ hs <> EmptyString) data.

End StorageManager.

(* ===================================================================== *)
(** * core/blocker.js : class VideoBlocker, the blocked list              *)
(* ===================================================================== *)

Module BlockList.
Import JS Constants.

(** The fields of the blocker that its list operations touch:
    [blockedHashes], a [Set] given by its members in the order of
    insertion, [stats.hashesAdded], and the storage manager. *)
Record t := {
  blockedHashes : list value;
  hashesAdded : Z;
  storageManager : StorageManager.t
}.

(** [set.add(hash)] *)
Definition add (hash : value) (set : list value) : list value :=
  if VideoBlocker.has set hash then set else set ++ [hash].

(** [set.delete(hash)] *)
Definition delete (hash : value) (set : list value) : list value :=
  List.filter (fun h => negb (VideoBlocker.same_value hash h)) set.

Definition with_storage (sm : StorageManager.t) (b : t) : t :=
  {| blockedHashes := blockedHashes b; hashesAdded := hashesAdded b;
     storageManager := sm |}.

Section WithRuntime.
Variable Math_log2 : float -> float.
Variable cfg : HASH_CONFIG_t.

(** [addBlockedHash(hash)], called when [Date.now()] is [now]; every
    error thrown inside ends in the [catch] that returns false. *)
Definition addBlockedHash (now : Z) (hash : value) (b : t) : bool * t :=
  if falsy hash || negb (is_string hash) then (false, b)
  else
    match HashReports.validateHash Math_log2 cfg hash with
    | Throw _ => (false, b)
    | Normal validation =>
        if negb (HashReports.valid validation) then (false, b)
        else
          let '(saved, sm, _) := StorageManager.saveBlockedHash now hash (storageManager b) in
          if saved then
            (true, {| blockedHashes := add hash (blockedHashes b);
                      hashesAdded := hashesAdded b + 1;
                      storageManager := sm |})
          else (false, with_storage sm b)
    end.

End WithRuntime.

(** [removeBlockedHash(hash)] for a string [hash]. *)
Definition removeBlockedHash (hs : string) (b : t) : bool * t :=
  let '(success, sm, _) := StorageManager.removeBlockedHash hs (storageManager b) in
  if success then
    (true, {| blockedHashes := delete (Str hs) (blockedHashes b);
              hashesAdded := hashesAdded b;
              storageManager := sm |})
  else (false, with_storage sm b).

(** [clearAllBlocked()] *)
Definition clearAllBlocked (b : t) : bool * t :=
  let '(success, sm, _) := StorageManager.clearAllHashes (storageManager b) in
  if success then
    (true, {| blockedHashes := []; hashesAdded := 0; storageManager := sm |})
  else (false, with_storage sm b).

(** [getBlockedHashes()] *)
Definition getBlockedHashes (b : t) : list value := blockedHashes b.

(** The blocker lists the hashes that the storage holds. *)
Definition in_step (b : t) : Prop :=
  forall h, List.In h (blockedHashes b)
            <-> List.In h (StorageManager.string_hashes
                             (StorageManager.stored_items (storageManager b))).

End BlockList.

Module BlockListCalls.
Import JS Constants BlockList.

(** The list operations of the blocker. *)
Inductive call :=
| Add (now : Z) (hash : value)
| Remove (hs : string)
| ClearAll.

Definition apply_call (Math_log2 : float -> float) (cfg : HASH_CONFIG_t) (c : call) (b : t)
  : bool * t :=
  match c with
  | Add now hash => addBlockedHash Math_log2 cfg now hash b
  | Remove hs => removeBlockedHash hs b
  | ClearAll => clearAllBlocked b
  end.

Definition run (Math_log2 : float -> float) (cfg : HASH_CONFIG_t) (cs : list call) (b : t) : t :=
  fold_left (fun b c => snd (apply_call Math_log2 cfg c b)) cs b.

End BlockListCalls.

(* ===================================================================== *)
(** * utils/logger.js : class Logger                                    *)
(* ===================================================================== *)

Module Logger.
Import JS.

(** The levels that the methods of the class pass to [shouldLog]. *)
Inductive level :=
| DEBUG
| INFO
| WARN
| ERROR.

Definition name (l : level) : string :=
  match l with
  | DEBUG => "DEBUG"
  | INFO => "INFO"
  | WARN => "WARN"
  | ERROR => "ERROR"
  end.

Definition rank (l : level) : nat :=
  match l with
  | DEBUG => 0
  | INFO => 1
  | WARN => 2
  | ERROR => 3
  end.

(** [levels[key]] for [levels = { DEBUG: 0, INFO: 1, WARN: 2, ERROR: 3 }].
    [None] is what every other key gives: [undefined], or a member that
    the object inherits, and neither compares with a number. *)
Definition levels (key : string) : option nat :=
  if String.eqb key "DEBUG" then Some 0
  else if String.eqb key "INFO" then Some 1
  else if String.eqb key "WARN" then Some 2
  else if String.eqb key "ERROR" then Some 3
  else None.

Definition validLevels : list string := ["DEBUG"; "INFO"; "WARN"; "ERROR"].

(** [array.includes(s)] *)
Definition includes (array : list string) (s : string) : bool :=
  existsb (String.eqb s) array.

(** [shouldLog(messageLevel)]:
    [levels[messageLevel] >= levels[this.logLevel]] *)
Definition shouldLog (logLevel : string) (messageLevel : level) : bool :=
  match levels (name messageLevel), levels logLevel with
  | Some a, Some b => b <=? a
  | _, _ => false
  end.

Record metrics_t := {
  operations : nat;
  errors : nat;
  warnings : nat
}.

(** The fields of a logger that its methods read or write; the prefix
    and the start time only reach the text of the messages. *)
Record t := {
  logLevel : string;
  metrics : metrics_t
}.

(** What reaches the console: the method called, and the category and
    the message it was given.  The prefix with its timestamp is left
    out. *)
Inductive console :=
| Console (l : level) (category message : string)
| ConsoleLog (text : string)
| ConsoleGroup (title : string)
| ConsoleGroupEnd.

(** [debug(category, message, data)] *)
Definition debug (category message : string) (lg : t) : t * list console :=
  if shouldLog (logLevel lg) DEBUG then (lg, [Console DEBUG category message])
  else (lg, []).

(** [info(category, message, data)] *)
Definition info (category message : string) (lg : t) : t * list console :=
  if shouldLog (logLevel lg) INFO then (lg, [Console INFO category message])
  else (lg, []).

(** [warn(category, message, data)] *)
Definition warn (category message : string) (lg : t) : t * list console :=
  if shouldLog (logLevel lg) WARN then
    ({| logLevel := logLevel lg;
        metrics := {| operations := operations (metrics lg);
                      errors := errors (metrics lg);
                      warnings := S (warnings (metrics lg)) |} |},
     [Console WARN category message])
  else (lg, []).

(** [error(category, message, error)] *)
Definition error (category message : string) (lg : t) : t * list console :=
  if shouldLog (logLevel lg) ERROR then
    ({| logLevel := logLevel lg;
        metrics := {| operations := operations (metrics lg);
                      errors := S (errors (metrics lg));
                      warnings := warnings (metrics lg) |} |},
     [Console ERROR category message])
  else (lg, []).

(** [logMetrics()] *)
Definition logMetrics (lg : t) : t * list console := info "SYSTEM" "Runtime metrics" lg.

(** [group(category, title)], and the [end()] of the object it
    returns. *)
Definition group (title : string) (lg : t) : t * list console :=
  if shouldLog (logLevel lg) DEBUG then (lg, [ConsoleGroup title]) else (lg, []).

Definition group_end (lg : t) : t * list console :=
  if shouldLog (logLevel lg) DEBUG then (lg, [ConsoleGroupEnd]) else (lg, []).

Definition no_metrics : metrics_t := {| operations := 0; errors := 0; warnings := 0 |}.

(** The calls of the methods that the two versions of the class share. *)
Inductive call :=
| CallSetLogLevel (level : string)
| CallDebug (category message : string)
| CallInfo (category message : string)
| CallWarn (category message : string)
| CallError (category message : string)
| CallLogMetrics
| CallGroup (title : string)
| CallGroupEnd.

Definition is_error_call (c : call) : bool :=
  match c with CallError _ _ => true | _ => false end.

Definition is_warn_call (c : call) : bool :=
  match c with CallWarn _ _ => true | _ => false end.

Definition logged (l : level) (c : console) : bool :=
  match c with
  | Console l' _ _ => rank l =? rank l'
  | _ => false
  end.

(** ** The version that reads the level from the settings *)

(** What happens to such a logger: a method is called, or the settings
    arrive from the storage and the callback of [loadLogLevel] runs,
    [settings.logLevel] being absent or a string. *)
Inductive event :=
| Called (c : call)
| SettingsLoaded (setting : option string).

Definition is_error_event (e : event) : bool :=
  match e with Called c => is_error_call c | SettingsLoaded _ => false end.

Section Settings.
(** [String.prototype.toUpperCase] *)
Variable toUpperCase : string -> string.

(** [new Logger(prefix)], before the callback of [loadLogLevel] runs. *)
Definition create : t := {| logLevel := "INFO"; metrics := no_metrics |}.

(** [setLogLevel(level)] *)
Definition setLogLevel (level : string) (lg : t) : t * list console :=
  let level := toUpperCase level in
  if includes validLevels level then
    ({| logLevel := level; metrics := metrics lg |},
     [ConsoleLog ("[VideoBlocker] Log level set to " ++ level)])
  else (lg, []).

(** The callback of [loadLogLevel]. *)
Definition loaded (setting : option string) (lg : t) : t * list console :=
  match setting with
  | None => (lg, [])
  | Some s => if falsy (Str s) then (lg, []) else setLogLevel (toUpperCase s) lg
  end.

Definition apply_call (c : call) (lg : t) : t * list console :=
  match c with
  | CallSetLogLevel level => setLogLevel level lg
  | CallDebug category message => debug category message lg
  | CallInfo category message => info category message lg
  | CallWarn category message => warn category message lg
  | CallError category message => error category message lg
  | CallLogMetrics => logMetrics lg
  | CallGroup title => group title lg
  | CallGroupEnd => group_end lg
  end.

Definition apply_event (e : event) (lg : t) : t * list console :=
  match e with
  | Called c => apply_call c lg
  | SettingsLoaded setting => loaded setting lg
  end.

(** A run of events: the logger after it and what reached the
    console. *)
Fixpoint run (es : list event) (lg : t) : t * list console :=
  match es with
  | [] => (lg, [])
  | e :: es' =>
      let '(lg1, out1) := apply_event e lg in
      let '(lg2, out2) := run es' lg1 in
      (lg2, out1 ++ out2)
  end.
End Settings.

(** ** The version that keeps the level in [localStorage] *)

(** The entry of [localStorage] under the key of the level; in a
    restricted context [getItem] and [setItem] throw. *)
Record localStorage := {
  restricted : bool;
  item : option string
}.

(** [getLogLevel()] *)
Definition getLogLevel (ls : localStorage) : string :=
  if restricted ls then "INFO"
  else
    match item ls with
    | Some stored => if falsy (Str stored) then "INFO" else stored
    | None => "INFO"
    end.

(** [new Logger(prefix)] *)
Definition create_stored (ls : localStorage) : t :=
  {| logLevel := getLogLevel ls; metrics := no_metrics |}.

(** [setLogLevel(level)] *)
Definition setLogLevel_stored (level : string) (lg : t) (ls : localStorage)
  : t * localStorage :=
  if includes validLevels level then
    ({| logLevel := level; metrics := metrics lg |},
     if restricted ls then ls else {| restricted := false; item := Some level |})
  else (lg, ls).

Definition apply_stored (c : call) (lg : t) (ls : localStorage)
  : t * localStorage * list console :=
  match c with
  | CallSetLogLevel level => (setLogLevel_stored level lg ls, [])
  | CallDebug category message => let '(lg', out) := debug category message lg in (lg', ls, out)
  | CallInfo category message => let '(lg', out) := info category message lg in (lg', ls, out)
  | CallWarn category message => let '(lg', out) := warn category message lg in (lg', ls, out)
  | CallError category message => let '(lg', out) := error category message lg in (lg', ls, out)
  | CallLogMetrics => let '(lg', out) := logMetrics lg in (lg', ls, out)
  | CallGroup title => let '(lg', out) := group title lg in (lg', ls, out)
  | CallGroupEnd => let '(lg', out) := group_end lg in (lg', ls, out)
  end.

Fixpoint run_stored (cs : list call) (lg : t) (ls : localStorage)
  : t * localStorage * list console :=
  match cs with
  | [] => (lg, ls, [])
  | c :: cs' =>
      let '(lg1, ls1, out1) := apply_stored c lg ls in
      let '(lg2, ls2, out2) := run_stored cs' lg1 ls1 in
      (lg2, ls2, out1 ++ out2)
  end.

(** A call that is not [setLogLevel] with one of the four names. *)
Definition keeps_level (c : call) : bool :=
  match c with
  | CallSetLogLevel level => negb (includes validLevels level)
  | _ => true
  end.

End Logger.

(* ===================================================================== *)
(** * core/blocker.js : the jobs of blockVideo and checkAndBlockVideo   *)
(* ===================================================================== *)

Module Blocking.
Import JS Constants.

Record stats_t := {
  videosBlocked : nat;
  hashesAdded : nat;
  matchesFound : nat
}.

(** The blocker as its two jobs see it: the [Set] of blocked hashes, the
    [WeakSet] of processed videos, the counters and the storage manager;
    and, of the page, the articles whose [style.display] is ['none'].
    Video elements and articles are given by their identity. *)
Record t := {
  blockedHashes : list value;
  processedVideos : gset nat;
  stats : stats_t;
  storageManager : StorageManager.t;
  hidden : gset nat
}.

(** A video element: its identity, and [video.closest(SELECTORS.ARTICLE)]. *)
Record video := {
  element : nat;
  article : option nat
}.

Definition with_storage (sm : StorageManager.t) (b : t) : t :=
  {| blockedHashes := blockedHashes b; processedVideos := processedVideos b;
     stats := stats b; storageManager := sm; hidden := hidden b |}.

(** The job that [blockVideo(video, videoUtils, uiUtils)] enqueues, run
    when [Date.now()] is [now]; [video = None] is an argument that is no
    video element, and [hash] is what [computeMultiFramePHash(video)]
    resolves to.  Every error thrown inside ends in the [catch] that
    returns false.  The toasts and the overlays are left out: they
    change neither the blocker nor the result. *)
Definition blockVideo_job (now : Z) (video : option video) (hash : option string) (b : t)
  : bool * t :=
  match video with
  | None => (false, b)
  | Some v =>
      match hash with
      | None => (false, b)
      | Some h =>
          if falsy (Str h) then (false, b)
          else if VideoBlocker.has (blockedHashes b) (Str h) then (false, b)
          else
            let '(saved, sm, _) :=
              StorageManager.saveBlockedHash now (Str h) (storageManager b) in
            if negb saved then (false, with_storage sm b)
            else
              let blocked := BlockList.add (Str h) (blockedHashes b) in
              match article v with
              | Some a =>
                  (true,
                   {| blockedHashes := blocked;
                      processedVideos := processedVideos b;
                      stats := {| videosBlocked := S (videosBlocked (stats b));
                                  hashesAdded := S (hashesAdded (stats b));
                                  matchesFound := matchesFound (stats b) |};
                      storageManager := sm;
                      hidden := {[ a ]} ∪ hidden b |})
              | None =>
                  (true,
                   {| blockedHashes := blocked;
                      processedVideos := processedVideos b;
                      stats := {| videosBlocked := videosBlocked (stats b);
                                  hashesAdded := S (hashesAdded (stats b));
                                  matchesFound := matchesFound (stats b) |};
                      storageManager := sm;
                      hidden := hidden b |})
              end
      end
  end.

(** The test that [checkAndBlockVideo(video, videoUtils, uiUtils)] makes
    before it enqueues a job:
    [if (!video || this.processedVideos.has(video)) return false]. *)
Definition checkAndBlockVideo_accepts (video : option video) (b : t) : bool :=
  match video with
  | None => false
  | Some v => negb (bool_decide (element v ∈ processedVideos b))
  end.

Definition processed (v : video) (b : t) : t :=
  {| blockedHashes := blockedHashes b;
     processedVideos := {[ element v ]} ∪ processedVideos b;
     stats := stats b; storageManager := storageManager b; hidden := hidden b |}.

(** The job that [checkAndBlockVideo] enqueues; [hash] is what
    [computeMultiFramePHash(video, 2)] resolves to. *)
Definition checkAndBlockVideo_job (cfg : HASH_CONFIG_t) (v : video) (hash : option string)
  (b : t) : bool * t :=
  let b := processed v b in
  match article v with
  | None => (false, b)
  | Some a =>
      if bool_decide (a ∈ hidden b) then (false, b)
      else
        match hash with
        | None => (false, b)
        | Some h =>
            if falsy (Str h) then (false, b)
            else if VideoBlocker.isHashBlocked cfg (blockedHashes b) (Str h) then
              (true,
               {| blockedHashes := blockedHashes b;
                  processedVideos := processedVideos b;
                  stats := {| videosBlocked := S (videosBlocked (stats b));
                              hashesAdded := hashesAdded (stats b);
                              matchesFound := S (matchesFound (stats b)) |};
                  storageManager := storageManager b;
                  hidden := {[ a ]} ∪ hidden b |})
            else (false, b)
        end
  end.

(** [cleanup()] *)
Definition cleanup (b : t) : t :=
  {| blockedHashes := blockedHashes b; processedVideos := ∅;
     stats := stats b; storageManager := storageManager b; hidden := hidden b |}.

(** [new Set(hashes)] *)
Definition set_of (hashes : list value) : list value :=
  fold_left (fun set hash => BlockList.add hash set) hashes [].

(** [refreshBlockedHashes()], which is also how [initialize()] begins;
    the settings that both read next only reach [showNotifications]. *)
Definition refreshBlockedHashes (b : t) : t :=
  let '(hashes, sm) := StorageManager.getBlockedHashes (storageManager b) in
  {| blockedHashes := set_of hashes; processedVideos := processedVideos b;
     stats := stats b; storageManager := sm; hidden := hidden b |}.

(** What happens to a blocker whose list is only changed by its jobs. *)
Inductive op :=
| BlockJob (now : Z) (video : option video) (hash : option string)
| CheckJob (v : video) (hash : option string)
| Cleanup.

Definition apply_op (cfg : HASH_CONFIG_t) (o : op) (b : t) : t :=
  match o with
  | BlockJob now video hash => snd (blockVideo_job now video hash b)
  | CheckJob v hash => snd (checkAndBlockVideo_job cfg v hash b)
  | Cleanup => cleanup b
  end.

Definition run (cfg : HASH_CONFIG_t) (ops : list op) (b : t) : t :=
  fold_left (fun b o => apply_op cfg o b) ops b.

Definition is_cleanup (o : op) : bool :=
  match o with Cleanup => true | _ => false end.

(** The blocker lists the hashes that the storage holds. *)
Definition in_step (b : t) : Prop :=
  forall h, List.In h (blockedHashes b)
            <-> List.In h (StorageManager.string_hashes
                             (StorageManager.stored_items (storageManager b))).


End Blocking.

(* ===================================================================== *)
(** * Bounds on binary64 values that are not negative                   *)
(* ===================================================================== *)

Module Dyadic.

(** A zero or a finite value, not negative, of at most [B / 2^t]. *)
Definition upto_sf (t B : Z) (x : spec_float) : Prop :=
  match x with
  | S754_zero s => s = false
  | S754_finite s m e =>
      s = false /\ (-1074 <= e /\ Z.pos m * 2 ^ (e + 1074) * 2 ^ t <= B * 2 ^ 1074)%Z
  | _ => False
  end.

Definition upto (t B : Z) (x : float) : Prop := upto_sf t B (Prim2SF x).
End Dyadic.

Module Levels.
Import JS.

(** The test of [upto], for values that are given. *)
Definition uptob (t B : Z) (x : float) : bool :=
  match Prim2SF x with
  | S754_zero s => negb s
  | S754_finite s m e =>
      negb s && ((-1074 <=? e) && (Z.pos m * 2 ^ (e + 1074) * 2 ^ t <=? B * 2 ^ 1074))%Z
  | _ => false
  end.

(** A finite value that is at least [k]. *)
Definition at_least_sf (k : Z) (y : spec_float) : Prop :=
  exists my ey, y = S754_finite false my ey /\ (-1074 <= ey <= 971)%Z
                /\ (k * 2 ^ 1074 <= Z.pos my * 2 ^ (ey + 1074))%Z.

Definition at_least (k : Z) (y : float) : Prop := at_least_sf k (Prim2SF y).

(** One of the 256 gray levels: an integer from 0 to 255. *)
Definition gray_level (x : float) : Prop := exists r, (0 <= r <= 255)%Z /\ x = of_Z r.

(** The bytes of a [Uint8ClampedArray]. *)
Definition bytes (data : list Z) : bool :=
  forallb (fun z => (0 <=? z) && (z <=? 255))%Z data.
End Levels.

(* ===================================================================== *)
(** * What a canvas gives                                               *)
(* ===================================================================== *)

Module Canvas.
Import JS Levels.

(** A matrix of gray levels. *)
Definition levels (m : HashUtils.matrix) : Prop := Forall (Forall gray_level) m.

(** What [getImageData(0, 0, 32, 32)] gives: the bytes of 32 x 32 RGBA
    pixels. *)
Definition image_data (data : list Z) : bool :=
  bytes data && (32 * 32 * 4 <=? length data).

(** Frames whose image data, when they could be drawn, are such. *)
Definition drawn (frames : list VideoCapture.frame) : bool :=
  forallb (fun f => match f with Normal data => image_data data | Throw _ => true end) frames.
End Canvas.

Module Sums.
Import Dyadic.

(** The accumulator of the content script after [n] frames: a 32x32
    matrix whose entries are sums of [n] means of three bytes. *)
Definition sums (n : nat) (acc : HashUtils.matrix) : Prop :=
  Spec.square 32 acc
  /\ forall y x, y < 32 -> x < 32 ->
       upto 0 (255 * Z.of_nat n) (HashUtils.entry acc y x).
End Sums.

(* ===================================================================== *)
(** * Sample footage                                                      *)
(* ===================================================================== *)

Module Footage.
Import JS.

(** The RGBA bytes of a 32x32 frame with some texture, the pixel at row
    [y] and column [x] shifted by [t]. *)
Definition textured_frame (t : nat) : list Z :=
  flat_map
    (fun y => flat_map
                (fun x => [Z.of_nat ((7 * x + 13 * y + x * y + t) mod 256);
                           Z.of_nat ((3 * x + 5 * y + t) mod 256);
                           Z.of_nat ((x * x + y + t) mod 256);
                           255%Z])
                (seq 0 32))
    (seq 0 32).

(** A page whose video is not ready at first and then gives two frames,
    the canvas refusing a third one. *)
Definition slow_page (n : nat) : VideoCapture.attempt :=
  match n with
  | 0 => VideoCapture.NotReady
  | _ => VideoCapture.Frames
           [Normal (textured_frame 0); Throw "SecurityError"; Normal (textured_frame 9)]
  end.

(** Three turns of a capture loop: two frames drawn, the turn between
    them refused by the canvas. *)
Definition three_turns : list VideoCapture.frame :=
  [Normal (textured_frame 0); Throw "SecurityError"; Normal (textured_frame 9)].

End Footage.

(* ===================================================================== *)
(** * The runtime model on a few inputs                                   *)
(* ===================================================================== *)

Section RuntimeSamples.
Import JS.

#[local] Set Warnings "-inexact-float".

(** [Math.round]: ties go up, also below zero; a zero result keeps the
    sign of the argument; the largest number below one half rounds to
    zero; integral and non-finite arguments come back unchanged. *)
Example Math_round_samples :
  Math_round 2.5 = 3%float
  /\ Math_round (-2.5) = (-2)%float
  /\ Math_round 76.245 = 76%float
  /\ Math_round (-0.2) = neg_zero
  /\ Math_round 0.49999999999999994 = zero
  /\ Math_round 9007199254740993 = 9007199254740992%float
  /\ Math_round infinity = infinity.
Proof. repeat split; vm_compute; reflexivity. Qed.

(** The sort with the comparator [(a, b) => a - b]. *)
Example sort_samples :
  HashUtils.sort_ascending [3; -1; 2.5; 0; -7]%float = [-7; -1; 0; 2.5; 3]%float.
Proof. vm_compute. reflexivity. Qed.

(** [findIndex] and [splice] in the insertion of [enqueue]: the new job
    goes before the first pending job of a lower priority, and to the
    end when there is none. *)
Example insert_by_priority_samples :
  let job (p : Z) (i : nat) :=
    {| ConcurrencyQueue.ref := i; ConcurrencyQueue.id := "job";
       ConcurrencyQueue.fn := ConcurrencyQueue.Suspends;
       ConcurrencyQueue.priority := p |} in
  ConcurrencyQueue.insert_by_priority (job 3%Z 9) [job 5%Z 0; job 3%Z 1; job 1%Z 2]
  = [job 5%Z 0; job 3%Z 1; job 3%Z 9; job 1%Z 2]
  /\ ConcurrencyQueue.insert_by_priority (job 0%Z 9) [job 5%Z 0; job 3%Z 1; job 1%Z 2]
     = [job 5%Z 0; job 3%Z 1; job 1%Z 2; job 0%Z 9].
Proof. split; reflexivity. Qed.

(** A job whose function throws when called is started and removed
    within the same call of [enqueue], and the next pending job is
    started from the [finally] block. *)
Example synchronous_throw_sample :
  map ConcurrencyQueue.active_at
    (snd (ConcurrencyQueue.run
            [ConcurrencyQueue.Enqueue ConcurrencyQueue.ThrowsSync "a" 0;
             ConcurrencyQueue.Enqueue ConcurrencyQueue.Suspends "b" 0]
            ConcurrencyQueue.new))
  = [1; 0; 1].
Proof. vm_compute. reflexivity. Qed.

End RuntimeSamples.

(* ===================================================================== *)
(** * Hamming distance and the similarity test                            *)
(* ===================================================================== *)

Section Distance.
Import JS.

Lemma counting_loop {A} (p : A -> bool) (l : list A) (n : nat) :
  fold_left (fun d i => if p i then S d else d) l n = n + length (List.filter p l).
Proof.
  revert n. induction l as [|a l IH]; intros n; simpl.
  - lia.
  - rewrite IH. destruct (p a); simpl; lia.
Qed.

Lemma char_differs_decide (a b : string) (i : nat) :
  HashUtils.char_differs a b i = bool_decide (String.get i a <> String.get i b).
Proof.
  unfold HashUtils.char_differs.
  destruct (String.get i a) as [x|], (String.get i b) as [y|].
  - destruct (Ascii.eqb_spec x y) as [->|Hne]; simpl.
    + symmetry. apply bool_decide_eq_false. intros H. now apply H.
    + symmetry. apply bool_decide_eq_true. congruence.
  - symmetry. now apply bool_decide_eq_true.
  - symmetry. now apply bool_decide_eq_true.
  - symmetry. apply bool_decide_eq_false. intros H. now apply H.
Qed.

Lemma abs_gap (x y : nat) :
  Z.abs_nat (Z.of_nat x - Z.of_nat y) = Nat.max x y - Nat.min x y.
Proof. lia. Qed.

Lemma distance_of_spec (a b : string) :
  HashUtils.distance_of a b = Spec.distance a b.
Proof.
  unfold HashUtils.distance_of, Spec.distance, Spec.differing_positions, Spec.length_gap.
  rewrite counting_loop, abs_gap. simpl. f_equal. f_equal.
  apply List.filter_ext. intros i. apply char_differs_decide.
Qed.

Lemma nonempty_truthy (s : string) : s <> EmptyString -> falsy (Str s) = false.
Proof. destruct s; simpl; congruence. Qed.

(** C3.  For non-empty strings [a] and [b], both [HashUtils.hammingDistance]
    and the content script's [hamming] return the number of positions
    below [min(|a|,|b|)] where the two strings differ, plus the absolute
    difference of their lengths. *)
Theorem hammingDistance_counts (a b : string) :
  a <> EmptyString -> b <> EmptyString ->
  HashUtils.hammingDistance (Str a) (Str b) = Count (Spec.distance a b)
  /\ Legacy.hamming (Some a) (Some b) = Count (Spec.distance a b).
Proof.
  intros Ha Hb. split.
  - unfold HashUtils.hammingDistance.
    rewrite (nonempty_truthy a Ha), (nonempty_truthy b Hb). simpl.
    now rewrite distance_of_spec.
  - unfold Legacy.hamming, Legacy.falsy.
    destruct a as [|ca a']; [congruence|]. destruct b as [|cb b']; [congruence|].
    cbv beta iota zeta. rewrite orb_false_l.
    rewrite <- distance_of_spec. reflexivity.
Qed.

Lemma hammingDistance_counts_witness :
  HashUtils.hammingDistance (Str "10110") (Str "1110011") = Count 4
  /\ Legacy.hamming (Some "10110"%string) (Some "1110011"%string) = Count 4.
Proof.
  assert (Ha : "10110"%string <> EmptyString) by discriminate.
  assert (Hb : "1110011"%string <> EmptyString) by discriminate.
  exact (hammingDistance_counts "10110" "1110011" Ha Hb).
Defined.

(** C9.  [areHashesSimilar] holds exactly when the distance is a number
    not above the threshold, and so stays true when the threshold grows. *)
Theorem areHashesSimilar_monotone (a b : value) (t t' : Z) :
  (t <= t')%Z ->
  HashUtils.areHashesSimilar a b t = true ->
  HashUtils.areHashesSimilar a b t' = true
  /\ (forall u : Z,
        HashUtils.areHashesSimilar a b u = true <->
        exists n, HashUtils.hammingDistance a b = Count n /\ (Z.of_nat n <= u)%Z).
Proof.
  intros Hle Ht. unfold HashUtils.areHashesSimilar in *.
  split.
  - destruct (HashUtils.hammingDistance a b) as [n|]; simpl in *; try discriminate.
    apply Z.leb_le in Ht. apply Z.leb_le. lia.
  - intros u. destruct (HashUtils.hammingDistance a b) as [n|]; simpl.
    + split.
      * intros H. exists n. split; [reflexivity|]. now apply Z.leb_le.
      * intros (k & Hk & Hku). injection Hk as ->. now apply Z.leb_le.
    + split; [discriminate|]. intros (k & Hk & _). discriminate.
Qed.

Lemma areHashesSimilar_monotone_witness :
  HashUtils.areHashesSimilar (Str "10110") (Str "1110011") 12 = true.
Proof.
  assert (Hle : (4 <= 12)%Z) by lia.
  assert (Ht : HashUtils.areHashesSimilar (Str "10110") (Str "1110011") 4 = true)
    by reflexivity.
  exact (proj1 (areHashesSimilar_monotone _ _ 4 12 Hle Ht)).
Defined.

End Distance.

(* ===================================================================== *)
(** * Trivial fingerprints                                                *)
(* ===================================================================== *)

Section QualityGate.
Import JS Constants.

Lemma bits_length (s : string) :
  Spec.is_bits s = true -> String.length s = Spec.ones s + Spec.zeros s.
Proof.
  unfold Spec.ones, Spec.zeros.
  induction s as [|c s IH]; simpl; intros H; [reflexivity|].
  apply andb_prop in H as [Hc Hs]. rewrite (IH Hs).
  destruct (Ascii.eqb_spec c "0") as [->|H0]; simpl.
  - lia.
  - destruct (Ascii.eqb_spec c "1") as [->|H1]; simpl in *; [lia|discriminate].
Qed.

Lemma isTrivialHash_unfold (cfg : HASH_CONFIG_t) (s : string) :
  HashUtils.isTrivialHash cfg (Str s)
  = (Spec.ones s <=? MIN_ONES_ZEROS cfg)
    || (String.length s - Spec.ones s <=? MIN_ONES_ZEROS cfg).
Proof.
  unfold HashUtils.isTrivialHash, Spec.ones.
  destruct s as [|c s]; simpl; reflexivity.
Qed.

Lemma legacy_isTrivialHash_unfold (s : string) :
  Legacy.isTrivialHash (Some s)
  = (Spec.ones s <=? 4) || (String.length s - Spec.ones s <=? 4).
Proof.
  unfold Legacy.isTrivialHash, Spec.ones.
  destruct s as [|c s]; [reflexivity|].
  cbv beta iota zeta delta [Legacy.falsy].
  now destruct (_ || _).
Qed.

(** C5.  On a fingerprint, [isTrivialHash] answers true exactly when the
    number of ones or the number of zeros is at most the configured
    minimum.  With the default minimum 4, a 63-bit fingerprint with four
    ones is trivial and one with five ones is not; the content script's
    [isTrivialHash] agrees. *)
Theorem isTrivialHash_boundary (cfg : HASH_CONFIG_t) (s : string) :
  Spec.is_bits s = true ->
  (HashUtils.isTrivialHash cfg (Str s) = true <->
   Spec.ones s <= MIN_ONES_ZEROS cfg \/ Spec.zeros s <= MIN_ONES_ZEROS cfg)
  /\ (String.length s = 63 -> Spec.ones s = 4 ->
      HashUtils.isTrivialHash HASH_CONFIG (Str s) = true
      /\ Legacy.isTrivialHash (Some s) = true)
  /\ (String.length s = 63 -> Spec.ones s = 5 ->
      HashUtils.isTrivialHash HASH_CONFIG (Str s) = false
      /\ Legacy.isTrivialHash (Some s) = false).
Proof.
  intros Hbits. pose proof (bits_length s Hbits) as Hlen.
  split; [|split].
  - rewrite isTrivialHash_unfold, orb_true_iff, !Nat.leb_le. lia.
  - intros H63 H4.
    rewrite isTrivialHash_unfold, legacy_isTrivialHash_unfold, H63, H4.
    split; reflexivity.
  - intros H63 H5.
    rewrite isTrivialHash_unfold, legacy_isTrivialHash_unfold, H63, H5.
    split; reflexivity.
Qed.

Lemma isTrivialHash_boundary_witness :
  HashUtils.isTrivialHash HASH_CONFIG (Str (Sample.ones_then_zeros 4)) = true
  /\ HashUtils.isTrivialHash HASH_CONFIG (Str (Sample.ones_then_zeros 5)) = false.
Proof.
  assert (H4 : Spec.is_bits (Sample.ones_then_zeros 4) = true) by reflexivity.
  assert (H5 : Spec.is_bits (Sample.ones_then_zeros 5) = true) by reflexivity.
  split.
  - apply (proj1 (proj2 (isTrivialHash_boundary HASH_CONFIG _ H4))); reflexivity.
  - apply (proj2 (proj2 (isTrivialHash_boundary HASH_CONFIG _ H5))); reflexivity.
Defined.

End QualityGate.

(* ===================================================================== *)
(** * The perceptual hash: shape of the result                            *)
(* ===================================================================== *)

Section Sorting.
Import JS.
Variable comparefn : float -> float -> float.

Lemma insert_perm (x : float) (l : list float) :
  Permutation (insert comparefn x l) (x :: l).
Proof.
  induction l as [|y l IH]; simpl.
  - apply Permutation_refl.
  - destruct (gt (comparefn x y) zero).
    + eapply Permutation_trans; [apply perm_skip, IH | apply perm_swap].
    + apply Permutation_refl.
Qed.

Lemma sort_perm (l : list float) : Permutation (sort comparefn l) l.
Proof.
  induction l as [|x l IH]; simpl.
  - apply Permutation_refl.
  - eapply Permutation_trans; [apply insert_perm | apply perm_skip, IH].
Qed.

Lemma sort_length (l : list float) : length (sort comparefn l) = length l.
Proof. apply Permutation_length, sort_perm. Qed.

End Sorting.

Section HashShape.
Import JS Constants.
Variable Math_cos : float -> float.

Lemma mapM_normal {A B} (f : A -> completion B) (g : A -> B) (l : list A) :
  Forall (fun a => f a = Normal (g a)) l -> mapM f l = Normal (map g l).
Proof.
  induction 1 as [|a l Ha _ IH]; simpl; [reflexivity|].
  now rewrite Ha, IH.
Qed.

Lemma block_positions_in_range :
  Forall (fun p => fst p < 8 /\ snd p < 8) (HashUtils.block_positions 8).
Proof.
  apply List.Forall_forall. intros p Hp.
  assert (H : forallb (fun p => (fst p <? 8) && (snd p <? 8)) (HashUtils.block_positions 8) = true)
    by reflexivity.
  rewrite forallb_forall in H. specialize (H p Hp).
  apply andb_prop in H as [H1 H2]. split; now apply Nat.ltb_lt.
Qed.

Lemma block_positions_length : length (HashUtils.block_positions 8) = 63.
Proof. reflexivity. Qed.

Lemma nth_map_seq {A} (f : nat -> A) (n i : nat) (d : A) :
  i < n -> nth i (map f (seq 0 n)) d = f i.
Proof.
  intros Hi. rewrite (nth_indep _ d (f 0)) by now rewrite length_map, length_seq.
  rewrite (map_nth f (seq 0 n) 0 i), seq_nth; [reflexivity|assumption].
Qed.

Lemma dct2D_length (m : HashUtils.matrix) :
  length (HashUtils.dct2D Math_cos m) = length m.
Proof. unfold HashUtils.dct2D. now rewrite length_map, length_seq. Qed.

Lemma dct2D_entry (m : HashUtils.matrix) (u v : nat) :
  u < length m -> v < length m ->
  nth v (nth u (HashUtils.dct2D Math_cos m) []) nan
  = HashUtils.coefficient Math_cos m (length m) u v.
Proof.
  intros Hu Hv. unfold HashUtils.dct2D.
  rewrite (nth_map_seq _ _ _ _ Hu). now rewrite (nth_map_seq _ _ _ _ Hv).
Qed.

(** With at least eight rows, the extraction loop reads the 63
    coefficients of the low-frequency corner and does not throw. *)
Lemma extract_block_coefficients (m : HashUtils.matrix) :
  8 <= length m ->
  HashUtils.extract_block (HashUtils.dct2D Math_cos m) 8
  = Normal (Spec.low_frequency_coefficients Math_cos m).
Proof.
  intros Hm. unfold HashUtils.extract_block, Spec.low_frequency_coefficients.
  apply mapM_normal.
  eapply List.Forall_impl; [|apply block_positions_in_range].
  intros [y x] [Hy Hx]; simpl in *. unfold HashUtils.read_dct; simpl.
  pose proof (dct2D_length m) as Hlen.
  destruct (nth_error (HashUtils.dct2D Math_cos m) y) as [row|] eqn:Hrow.
  - f_equal. rewrite <- dct2D_entry by lia.
    now rewrite (nth_error_nth _ _ _ Hrow).
  - apply nth_error_None in Hrow. lia.
Qed.

Lemma low_frequency_coefficients_length (m : HashUtils.matrix) :
  length (Spec.low_frequency_coefficients Math_cos m) = 63.
Proof.
  unfold Spec.low_frequency_coefficients.
  now rewrite length_map, block_positions_length.
Qed.

Lemma join_bits_cons (p : float -> bool) (v : float) (l : list float) :
  join (map (fun v => if p v then "1" else "0")%string (v :: l))
  = String (if p v then "1" else "0")%char
           (join (map (fun v => if p v then "1" else "0")%string l)).
Proof.
  unfold join. destruct l as [|w l'].
  - simpl. now destruct (p v).
  - change (map ?f (v :: w :: l')) with (f v :: map f (w :: l')).
    change (String.concat "" (?a :: map ?f (w :: l')))
      with (a ++ "" ++ String.concat "" (map f (w :: l')))%string.
    cbv beta. destruct (p v); reflexivity.
Qed.

Lemma join_bits_length (p : float -> bool) (l : list float) :
  String.length (join (map (fun v => if p v then "1" else "0")%string l)) = length l.
Proof.
  induction l as [|v l IH]; [reflexivity|].
  rewrite join_bits_cons. simpl. now rewrite IH.
Qed.

Lemma join_bits_ones (p : float -> bool) (l : list float) :
  count_char "1" (join (map (fun v => if p v then "1" else "0")%string l))
  = length (List.filter p l).
Proof.
  induction l as [|v l IH]; [reflexivity|].
  rewrite join_bits_cons. simpl. rewrite IH. now destruct (p v).
Qed.

Lemma median_lookup (block : list float) :
  length block = 63 ->
  let sorted := HashUtils.sort_ascending block in
  nth_error sorted (length sorted / 2) = Some (Spec.median_of block)
  /\ nth (length sorted / 2) sorted nan = Spec.median_of block.
Proof.
  intros Hlen sorted.
  assert (Hs : length sorted = 63)
    by (unfold sorted, HashUtils.sort_ascending; now rewrite sort_length).
  rewrite Hs. change (63 / 2) with 31. split; [|reflexivity].
  unfold Spec.median_of. fold sorted. apply nth_error_nth'. lia.
Qed.

(** Both builds compute the same string from a matrix with 32 rows. *)
Lemma hash_of_32_rows (m : HashUtils.matrix) :
  length m = 32 ->
  let block := Spec.low_frequency_coefficients Math_cos m in
  let bits := HashUtils.bits_of block (Spec.median_of block) in
  HashUtils.computePHashFromMatrix Math_cos (Some m)
  = (Some bits, [HashUtils.LogDebug "Computing DCT for perceptual hash";
                 HashUtils.LogDebug "Hash computed successfully"])
  /\ Legacy.computePHashFromMatrix Math_cos m = Normal bits.
Proof.
  intros Hm block bits.
  assert (H8 : 8 <= length m) by lia.
  pose proof (median_lookup block (low_frequency_coefficients_length m)) as [Hmed Hmed'].
  split.
  - unfold HashUtils.computePHashFromMatrix, HashUtils.hash_of_matrix.
    rewrite Hm. simpl negb. cbv iota.
    change (DCT_BLOCK_SIZE VIDEO_PROCESSING) with 8.
    rewrite (extract_block_coefficients m H8).
    cbv beta iota delta [bind]. fold block.
    rewrite Hmed. reflexivity.
  - unfold Legacy.computePHashFromMatrix, Legacy.dct2D.
    rewrite (extract_block_coefficients m H8).
    cbv beta iota delta [bind]. fold block.
    cbv zeta. rewrite Hmed'. reflexivity.
Qed.

(** C4.  For every 32x32 matrix, [computePHashFromMatrix] returns a
    string, of length exactly 63; the content script's function returns
    the same string. *)
Theorem computePHashFromMatrix_length (m : HashUtils.matrix) :
  Spec.square 32 m ->
  exists bits : string,
    fst (HashUtils.computePHashFromMatrix Math_cos (Some m)) = Some bits
    /\ Legacy.computePHashFromMatrix Math_cos m = Normal bits
    /\ String.length bits = 63.
Proof.
  intros [Hrows _].
  destruct (hash_of_32_rows m Hrows) as [H1 H2].
  eexists. split; [now rewrite H1|]. split; [exact H2|].
  unfold HashUtils.bits_of. rewrite join_bits_length.
  apply low_frequency_coefficients_length.
Qed.

End HashShape.

Lemma sample_black_square : Spec.square 32 Sample.black.
Proof.
  split; [reflexivity|].
  unfold Sample.black. apply List.Forall_forall. intros row Hrow.
  apply repeat_spec in Hrow. subst row. apply repeat_length.
Qed.

Lemma sample_textured_square : Spec.square 32 Sample.textured.
Proof.
  split; [reflexivity|].
  unfold Sample.textured. apply List.Forall_forall. intros row Hrow.
  apply in_map_iff in Hrow as (y & <- & _). now rewrite length_map, length_seq.
Qed.

Lemma computePHashFromMatrix_length_witness :
  exists bits : string,
    fst (HashUtils.computePHashFromMatrix Sample.cos (Some Sample.textured)) = Some bits
    /\ Legacy.computePHashFromMatrix Sample.cos Sample.textured = JS.Normal bits
    /\ String.length bits = 63.
Proof.
  exact (computePHashFromMatrix_length Sample.cos Sample.textured sample_textured_square).
Defined.

(* ===================================================================== *)
(** * The perceptual hash of a frame without signal                       *)
(* ===================================================================== *)

Section NoSignal.
Import JS Constants.
Variable Math_cos : float -> float.

Lemma no_signal_zero : Spec.no_signal zero.
Proof. right. exists false. reflexivity. Qed.

Lemma no_signal_nan : Spec.no_signal nan.
Proof. left. reflexivity. Qed.

Lemma no_signal_mul_l (x y : float) : Spec.no_signal x -> Spec.no_signal (x * y)%float.
Proof.
  unfold Spec.no_signal. rewrite FloatAxioms.mul_spec. unfold SF64mul.
  intros [-> | [s ->]]; [now left|].
  destruct (Prim2SF y) as [sy| sy| |sy my ey]; simpl; eauto.
Qed.

Lemma no_signal_mul_r (x y : float) : Spec.no_signal y -> Spec.no_signal (x * y)%float.
Proof.
  unfold Spec.no_signal. rewrite FloatAxioms.mul_spec. unfold SF64mul.
  intros [-> | [s ->]].
  - left. now destruct (Prim2SF x).
  - destruct (Prim2SF x) as [sx| sx| |sx mx ex]; simpl; eauto.
Qed.

Lemma no_signal_add (x y : float) :
  Spec.no_signal x -> Spec.no_signal y -> Spec.no_signal (x + y)%float.
Proof.
  unfold Spec.no_signal. rewrite FloatAxioms.add_spec. unfold SF64add.
  intros [-> | [s ->]] [-> | [s' ->]]; simpl; eauto.
  destruct s, s'; simpl; eauto.
Qed.

Lemma no_signal_not_above (x y : float) :
  Spec.no_signal x -> Spec.no_signal y -> gt x y = false.
Proof.
  unfold Spec.no_signal, gt. rewrite FloatAxioms.ltb_spec. unfold SFltb.
  intros [-> | [s ->]] [-> | [s' ->]]; reflexivity.
Qed.

(** Every read of a matrix whose stored entries carry no signal yields a
    number without signal: outside the matrix the read is NaN. *)
Lemma entry_no_signal (m : HashUtils.matrix) (y x : nat) :
  Forall (Forall Spec.no_signal) m -> Spec.no_signal (HashUtils.entry m y x).
Proof.
  intros Hm. unfold HashUtils.entry.
  destruct (nth_in_or_default y m []) as [Hin | ->].
  - rewrite List.Forall_forall in Hm. specialize (Hm _ Hin).
    destruct (nth_in_or_default x (nth y m []) nan) as [Hin' | ->].
    + rewrite List.Forall_forall in Hm. now apply Hm.
    + apply no_signal_nan.
  - destruct x; apply no_signal_nan.
Qed.

Lemma dct_sum_no_signal (m : HashUtils.matrix) (N u v : nat) :
  Forall (Forall Spec.no_signal) m ->
  Spec.no_signal (HashUtils.dct_sum Math_cos m N u v).
Proof.
  intros Hm. unfold HashUtils.dct_sum.
  generalize (seq 0 N) at 2 as ys. generalize zero, no_signal_zero.
  intros acc Hacc ys. revert acc Hacc.
  induction ys as [|y ys IH]; intros acc Hacc; simpl; [assumption|].
  apply IH. clear IH. revert acc Hacc.
  generalize (seq 0 N) as xs.
  induction xs as [|x xs IH]; intros acc Hacc; simpl; [assumption|].
  apply IH. apply no_signal_add; [assumption|].
  unfold HashUtils.term. apply no_signal_mul_l, no_signal_mul_l.
  now apply entry_no_signal.
Qed.

Lemma coefficients_no_signal (m : HashUtils.matrix) :
  Forall (Forall Spec.no_signal) m ->
  Forall Spec.no_signal (Spec.low_frequency_coefficients Math_cos m).
Proof.
  intros Hm. unfold Spec.low_frequency_coefficients.
  apply List.Forall_forall. intros c Hc.
  apply in_map_iff in Hc as (p & <- & _).
  unfold HashUtils.coefficient. now apply no_signal_mul_r, dct_sum_no_signal.
Qed.

Lemma median_no_signal (block : list float) :
  Forall Spec.no_signal block -> Spec.no_signal (Spec.median_of block).
Proof.
  intros Hb. unfold Spec.median_of.
  destruct (nth_in_or_default 31 (HashUtils.sort_ascending block) nan) as [Hin | ->].
  - rewrite List.Forall_forall in Hb. apply Hb.
    eapply Permutation_in; [apply sort_perm | exact Hin].
  - apply no_signal_nan.
Qed.

Lemma bits_all_zero (block : list float) (median : float) :
  length block = 63 ->
  Forall (fun v => gt v median = false) block ->
  HashUtils.bits_of block median = Spec.all_zero_bits.
Proof.
  intros Hlen Hall. unfold HashUtils.bits_of.
  rewrite (map_ext_in _ (fun _ => "0"%string)).
  - do 64 (destruct block as [|? block]; try discriminate Hlen). reflexivity.
  - intros v Hv. rewrite List.Forall_forall in Hall. now rewrite (Hall v Hv).
Qed.

Lemma black_no_signal : Forall (Forall Spec.no_signal) Sample.black.
Proof.
  unfold Sample.black. apply List.Forall_forall. intros row Hrow.
  apply repeat_spec in Hrow. subst row.
  apply List.Forall_forall. intros c Hc. apply repeat_spec in Hc. subst c.
  apply no_signal_zero.
Qed.

(** ** With a cosine that is finite on finite numbers, every coefficient
    is a zero *)

Lemma finite_cases (y : float) :
  is_finite y = true ->
  (exists s, Prim2SF y = S754_zero s) \/ (exists s m e, Prim2SF y = S754_finite s m e).
Proof.
  unfold is_finite. intros H. apply negb_true_iff, orb_false_iff in H as [Hn Hi].
  unfold Prim2SF. rewrite Hn, Hi.
  destruct (PrimFloat.is_zero y); [left; eauto|].
  destruct (FloatOps.Z.frexp y) as [r exp].
  destruct (shr_fexp _ _ _ _ _) as [mrs e'].
  destruct (shr_m mrs); [left | right | left]; eauto.
Qed.

Lemma zero_mul_finite (x y : float) :
  Spec.is_a_zero x -> is_finite y = true -> Spec.is_a_zero (x * y)%float.
Proof.
  unfold Spec.is_a_zero. intros [s Hx] Hy. rewrite FloatAxioms.mul_spec, Hx.
  destruct (finite_cases y Hy) as [[s' ->] | (s' & m & e & ->)]; simpl; eauto.
Qed.

Lemma finite_mul_zero (x y : float) :
  is_finite x = true -> Spec.is_a_zero y -> Spec.is_a_zero (x * y)%float.
Proof.
  unfold Spec.is_a_zero. intros Hx [s Hy]. rewrite FloatAxioms.mul_spec, Hy.
  destruct (finite_cases x Hx) as [[s' ->] | (s' & m & e & ->)]; simpl; eauto.
Qed.

Lemma zero_add_zero (x y : float) :
  Spec.is_a_zero x -> Spec.is_a_zero y -> Spec.is_a_zero (x + y)%float.
Proof.
  unfold Spec.is_a_zero. intros [s Hx] [s' Hy]. rewrite FloatAxioms.add_spec, Hx, Hy.
  destruct s, s'; simpl; eauto.
Qed.

Lemma zeros_equal (x y : float) :
  Spec.is_a_zero x -> Spec.is_a_zero y -> (x =? y)%float = true.
Proof.
  unfold Spec.is_a_zero. intros [s Hx] [s' Hy].
  now rewrite FloatAxioms.eqb_spec, Hx, Hy.
Qed.

Lemma black_entry (y x : nat) :
  y < 32 -> x < 32 -> HashUtils.entry Sample.black y x = zero.
Proof.
  intros Hy Hx. unfold HashUtils.entry, Sample.black.
  rewrite (nth_indep _ [] (repeat zero 32)) by (rewrite repeat_length; lia).
  rewrite nth_repeat. rewrite (nth_indep _ nan zero) by (rewrite repeat_length; lia).
  apply nth_repeat.
Qed.

Lemma scale_finite (u v : nat) :
  is_finite (2 / of_nat 32 * HashUtils.alpha u * HashUtils.alpha v)%float = true.
Proof.
  unfold HashUtils.alpha. destruct (u =? 0), (v =? 0); vm_compute; reflexivity.
Qed.

(** The angles of the low-frequency corner of a 32x32 transform are
    finite numbers. *)
Lemma angle_finite (i k : nat) :
  i < 32 -> k < 8 -> is_finite (HashUtils.angle 32 i k) = true.
Proof.
  intros Hi Hk.
  assert (H : forallb (fun i => forallb (fun k => is_finite (HashUtils.angle 32 i k))
                                  (seq 0 8)) (seq 0 32) = true)
    by (vm_compute; reflexivity).
  rewrite forallb_forall in H.
  specialize (H i (proj2 (in_seq 32 0 i) (conj (Nat.le_0_l i) Hi))).
  rewrite forallb_forall in H.
  exact (H k (proj2 (in_seq 8 0 k) (conj (Nat.le_0_l k) Hk))).
Qed.

Lemma black_coefficients_zero :
  (forall x, is_finite x = true -> is_finite (Math_cos x) = true) ->
  Forall Spec.is_a_zero (Spec.low_frequency_coefficients Math_cos Sample.black).
Proof.
  intros Hcos. unfold Spec.low_frequency_coefficients.
  apply List.Forall_forall. intros c Hc.
  apply in_map_iff in Hc as ([u v] & <- & Huv). cbn [fst snd].
  pose proof block_positions_in_range as Hrange.
  rewrite List.Forall_forall in Hrange. destruct (Hrange _ Huv) as [Hu Hv].
  cbn [fst snd] in Hu, Hv.
  change (length Sample.black) with 32.
  unfold HashUtils.coefficient. apply finite_mul_zero; [apply scale_finite|].
  unfold HashUtils.dct_sum.
  assert (Hzero : Spec.is_a_zero zero) by (exists false; reflexivity).
  revert Hzero. generalize zero as acc.
  assert (Hys : Forall (fun y => y < 32) (seq 0 32))
    by (apply List.Forall_forall; intros y Hy; apply in_seq in Hy; lia).
  revert Hys. generalize (seq 0 32) at 1 3 as ys.
  induction ys as [|y ys IH]; intros Hys acc Hacc; cbn [fold_left]; [exact Hacc|].
  apply Forall_cons_1 in Hys as [Hy Hys]. apply IH; [exact Hys|].
  clear IH. revert acc Hacc.
  assert (Hxs : Forall (fun x => x < 32) (seq 0 32))
    by (apply List.Forall_forall; intros x Hx; apply in_seq in Hx; lia).
  revert Hxs. generalize (seq 0 32) as xs.
  induction xs as [|x xs IH]; intros Hxs acc Hacc; cbn [fold_left]; [exact Hacc|].
  apply Forall_cons_1 in Hxs as [Hx Hxs]. apply IH; [exact Hxs|].
  apply zero_add_zero; [exact Hacc|].
  unfold HashUtils.term. rewrite black_entry by assumption.
  apply zero_mul_finite; [|now apply Hcos, angle_finite].
  apply zero_mul_finite; [|now apply Hcos, angle_finite].
  exists false. reflexivity.
Qed.

(** C6.  The all-zero 32x32 matrix hashes to the fingerprint of 63 zeros:
    no coefficient exceeds the median strictly, and when the engine's
    cosine of a finite number is finite every coefficient is a zero and
    equals the median.  That fingerprint is classified trivial.  Both builds
    agree, whatever the engine's cosine. *)
Theorem black_frame_hash :
  let block := Spec.low_frequency_coefficients Math_cos Sample.black in
  Forall (fun v => gt v (Spec.median_of block) = false) block
  /\ ((forall x, is_finite x = true -> is_finite (Math_cos x) = true) ->
      Forall (fun v => (v =? Spec.median_of block)%float = true) block)
  /\ fst (HashUtils.computePHashFromMatrix Math_cos (Some Sample.black))
     = Some Spec.all_zero_bits
  /\ HashUtils.isTrivialHash HASH_CONFIG (Str Spec.all_zero_bits) = true
  /\ Legacy.computePHashFromMatrix Math_cos Sample.black = Normal Spec.all_zero_bits
  /\ Legacy.isTrivialHash (Some Spec.all_zero_bits) = true.
Proof.
  intros block.
  assert (Hb : Forall Spec.no_signal block)
    by apply coefficients_no_signal, black_no_signal.
  assert (Hgt : Forall (fun v => gt v (Spec.median_of block) = false) block).
  { apply List.Forall_forall. intros v Hv. apply no_signal_not_above.
    - rewrite List.Forall_forall in Hb. now apply Hb.
    - now apply median_no_signal. }
  assert (Hbits : HashUtils.bits_of block (Spec.median_of block) = Spec.all_zero_bits)
    by (apply bits_all_zero; [apply low_frequency_coefficients_length | exact Hgt]).
  destruct (hash_of_32_rows Math_cos Sample.black eq_refl) as [H1 H2].
  fold block in H1, H2. rewrite Hbits in H1, H2.
  split; [exact Hgt|]. split.
  { intros Hcos. pose proof (black_coefficients_zero Hcos) as Hz. fold block in Hz.
    assert (Hmed : Spec.is_a_zero (Spec.median_of block)).
    { rewrite List.Forall_forall in Hz. apply Hz.
      eapply Permutation_in; [apply sort_perm|].
      unfold Spec.median_of. apply nth_In.
      unfold HashUtils.sort_ascending. rewrite sort_length.
      unfold block. rewrite low_frequency_coefficients_length. lia. }
    apply List.Forall_forall. intros v Hv. apply zeros_equal; [|exact Hmed].
    rewrite List.Forall_forall in Hz. now apply Hz. }
  split; [now rewrite H1|].
  split; [reflexivity|]. split; [exact H2 | reflexivity].
Qed.

(** C7 (as amended).  A matrix that is missing, or whose number of rows is
    not 32, is never hashed: the error "Invalid matrix size" is raised
    and caught inside the function, sent to the logger, and the caller
    receives [null]. *)
Theorem wrong_row_count_rejected (matrix32 : option HashUtils.matrix) :
  (forall m, matrix32 = Some m -> length m <> 32) ->
  HashUtils.computePHashFromMatrix Math_cos matrix32
  = (None, [HashUtils.LogError "Failed to compute perceptual hash" "Invalid matrix size"]).
Proof.
  intros H. unfold HashUtils.computePHashFromMatrix.
  destruct matrix32 as [m|]; [|reflexivity].
  specialize (H m eq_refl).
  change (CANVAS_SIZE VIDEO_PROCESSING) with 32.
  apply Nat.eqb_neq in H. now rewrite H.
Qed.

End NoSignal.

Lemma wrong_row_count_rejected_witness :
  HashUtils.computePHashFromMatrix Sample.cos (Some (repeat (repeat zero 32) 31))
  = (None, [HashUtils.LogError "Failed to compute perceptual hash" "Invalid matrix size"]).
Proof.
  apply wrong_row_count_rejected.
  intros m Hm. injection Hm as <-. simpl. lia.
Defined.

(** C7 as stated does not hold.  A matrix without rows makes the caller
    receive a bare [null], the text of the error reaching only the
    logger; and a matrix of 32 rows of the wrong width passes the check
    on the row count and is hashed, to the fingerprint of 63 zeros, with
    nothing but debug messages logged. *)
Lemma wrong_size_not_surfaced :
  ~ Spec.square 32 [] /\ ~ Spec.square 32 Sample.hollow
  /\ HashUtils.computePHashFromMatrix Sample.cos (Some [])
     = (None, [HashUtils.LogError "Failed to compute perceptual hash" "Invalid matrix size"])
  /\ HashUtils.computePHashFromMatrix Sample.cos (Some Sample.hollow)
     = (Some Spec.all_zero_bits,
        [HashUtils.LogDebug "Computing DCT for perceptual hash";
         HashUtils.LogDebug "Hash computed successfully"]).
Proof.
  split; [|split; [|split]].
  - intros [H _]. discriminate H.
  - intros [_ H]. unfold Sample.hollow in H. simpl in H.
    apply Forall_inv in H. discriminate H.
  - reflexivity.
  - vm_compute. reflexivity.
Qed.

(* ===================================================================== *)
(** * Grayscale conversion                                                *)
(* ===================================================================== *)

Section Grayscale.
Import JS.

#[local] Set Warnings "-inexact-float".

Lemma accumulate_row_spec (img : list Z) (row : list float) (idx : nat) :
  snd (Legacy.accumulate_row img row idx) = idx + 4 * length row
  /\ forall x, x < length row ->
       nth x (fst (Legacy.accumulate_row img row idx)) nan
       = (nth x row nan
          + Legacy.gray_of (Legacy.byte_at img (idx + 4 * x))
                           (Legacy.byte_at img (idx + 4 * x + 1))
                           (Legacy.byte_at img (idx + 4 * x + 2)))%float.
Proof.
  revert idx. induction row as [|a row IH]; intros idx.
  - cbn [Legacy.accumulate_row fst snd length]. split; [lia|]. intros x Hx. lia.
  - destruct (IH (idx + 4)) as [Hidx Hnth].
    cbn [Legacy.accumulate_row].
    destruct (Legacy.accumulate_row img row (idx + 4)) as [rest' idx'] eqn:E.
    cbn [fst snd length] in *. split; [lia|].
    intros [|x] Hx; cbn [nth].
    + replace (idx + 4 * 0) with idx by lia. reflexivity.
    + rewrite Hnth by lia.
      replace (idx + 4 + 4 * x) with (idx + 4 * S x) by lia. reflexivity.
Qed.

Lemma accumulate_rows_spec (img : list Z) (N : nat) (acc : HashUtils.matrix) (idx y : nat) :
  Forall (fun row => length row = N) acc ->
  y < length acc ->
  nth y (Legacy.accumulate_rows img acc idx) []
  = fst (Legacy.accumulate_row img (nth y acc []) (idx + 4 * (y * N))).
Proof.
  intros Hacc. revert idx y.
  induction Hacc as [|row rows Hrow _ IH]; intros idx y Hy;
    cbn [length] in Hy; [lia|].
  pose proof (accumulate_row_spec img row idx) as [Hidx _].
  cbn [Legacy.accumulate_rows].
  destruct (Legacy.accumulate_row img row idx) as [row' idx'] eqn:E.
  cbn [snd] in Hidx. destruct y as [|y]; cbn [nth].
  - replace (idx + 4 * (0 * N)) with idx by lia. now rewrite E.
  - rewrite IH by lia. subst idx'. rewrite Hrow.
    replace (idx + 4 * N + 4 * (y * N)) with (idx + 4 * (S y * N)) by lia.
    reflexivity.
Qed.

(** C8 (as amended).  [imageDataToGrayscaleMatrix] stores at row [y],
    column [x] the value [Math.round(0.299*r + 0.587*g + 0.114*b)],
    computed in binary64, of the pixel whose bytes start at index
    [(y*size + x)*4]; the content script instead adds the plain mean
    [(r + g + b) / 3] of that pixel, unrounded, to its accumulator. *)
Theorem grayscale_of_pixel (data : list Z) (size y x : nat) (acc : HashUtils.matrix) :
  y < size -> x < size -> Spec.square size acc ->
  let idx := (y * size + x) * 4 in
  let r := VideoUtils.data_at data idx in
  let g := VideoUtils.data_at data (idx + 1) in
  let b := VideoUtils.data_at data (idx + 2) in
  (exists m, VideoUtils.imageDataToGrayscaleMatrix (Some data) size = Some m
             /\ HashUtils.entry m y x
                = Math_round (0.299 * r + 0.587 * g + 0.114 * b)%float)
  /\ HashUtils.entry (Legacy.accumulate_frame data acc) y x
     = (HashUtils.entry acc y x + (r + g + b) / 3)%float.
Proof.
  intros Hy Hx [Hrows Hcols] idx r g b. split.
  - eexists. split; [reflexivity|]. unfold HashUtils.entry.
    rewrite (nth_map_seq _ _ _ _ Hy). now rewrite (nth_map_seq _ _ _ _ Hx).
  - unfold HashUtils.entry, Legacy.accumulate_frame.
    rewrite (accumulate_rows_spec data size) by (assumption || lia).
    assert (Hrow : length (nth y acc []) = size).
    { rewrite List.Forall_forall in Hcols. apply Hcols, nth_In. lia. }
    pose proof (accumulate_row_spec data (nth y acc []) (0 + 4 * (y * size))) as [_ Hnth].
    rewrite Hnth by lia. unfold Legacy.gray_of, r, g, b, idx.
    unfold VideoUtils.data_at, Legacy.byte_at.
    replace (0 + 4 * (y * size) + 4 * x) with ((y * size + x) * 4) by lia.
    reflexivity.
Qed.

End Grayscale.

Lemma zero_matrix_square (N : nat) : Spec.square N (Legacy.zero_matrix N).
Proof.
  unfold Legacy.zero_matrix. split; [apply repeat_length|].
  apply List.Forall_forall. intros row Hrow.
  apply repeat_spec in Hrow. subst row. apply repeat_length.
Qed.

Lemma grayscale_of_pixel_witness :
  (exists m, VideoUtils.imageDataToGrayscaleMatrix (Some Sample.red_frame) 32 = Some m
             /\ HashUtils.entry m 3 5 = 76%float)
  /\ HashUtils.entry (Legacy.accumulate_frame Sample.red_frame (Legacy.zero_matrix 32)) 3 5
     = 85%float.
Proof.
  assert (Hy : 3 < 32) by lia.
  assert (Hx : 5 < 32) by lia.
  destruct (grayscale_of_pixel Sample.red_frame 32 3 5 (Legacy.zero_matrix 32)
              Hy Hx (zero_matrix_square 32)) as [(m & Hm & Hentry) Hlegacy].
  split.
  - exists m. split; [exact Hm|]. rewrite Hentry. vm_compute. reflexivity.
  - rewrite Hlegacy. vm_compute. reflexivity.
Defined.

(** C8 as stated does not hold for the content script: for a frame of
    pure red it stores 85 where the weighted, rounded luminance is 76. *)
Lemma legacy_gray_is_plain_mean :
  HashUtils.entry (Legacy.accumulate_frame Sample.red_frame (Legacy.zero_matrix 32)) 0 0
  = 85%float
  /\ VideoUtils.luminance 255 0 0 = 76%float
  /\ (85 =? 76)%float = false.
Proof. split; [|split]; vm_compute; reflexivity. Qed.

(** The weighted sum is evaluated in binary64: on a pixel whose exact
    luminance is a tie, such as 22.5 for (0, 36, 12), the stored value
    can be the lower neighbour. *)
Example luminance_tie :
  VideoUtils.luminance 0 36 12 = 22%float
  /\ ((299 * 0 + 587 * 36 + 114 * 12) * 2 = 45 * 1000)%Z.
Proof. split; [vm_compute|]; reflexivity. Qed.

(* ===================================================================== *)
(** * The queue: capacity                                                 *)
(* ===================================================================== *)

Section QueueCapacity.
Import ConcurrencyQueue Constants.

Lemma size_add (r : nat) (A : gset nat) : size ({[ r ]} ∪ A) <= S (size A).
Proof.
  rewrite size_union_alt, size_singleton.
  apply le_n_S, subseteq_size. intros x Hx.
  now apply elem_of_difference in Hx as [Hx _].
Qed.

Lemma size_delete (r : nat) (A : gset nat) : size (A ∖ {[ r ]}) <= size A.
Proof.
  apply subseteq_size. intros x Hx.
  now apply elem_of_difference in Hx as [Hx _].
Qed.

Lemma finally_block_safe (pq : t -> t * list event) (r : nat) :
  Spec.capacity_safe pq -> Spec.capacity_safe (finally_block pq r).
Proof.
  intros Hpq q Hq. unfold finally_block.
  assert (Hq1 : Spec.within_capacity (delete_active r q)).
  { unfold Spec.within_capacity in *. simpl.
    pose proof (size_delete r (activeJobs q)). lia. }
  destruct (Hpq _ Hq1) as (H1 & H2 & H3).
  destruct (pq (delete_active r q)) as [q2 es]. simpl in *.
  split; [exact H1|]. split; [exact H2|].
  constructor; [|exact H3]. exact Hq1.
Qed.

(** Starting a job is safe when there is room for it. *)
Lemma executeJob_safe (pq : t -> t * list event) (job : Job) (q : t) :
  Spec.capacity_safe pq ->
  size (activeJobs q) < maxConcurrent q ->
  Spec.within_capacity (fst (executeJob pq job q))
  /\ maxConcurrent (fst (executeJob pq job q)) = maxConcurrent q
  /\ Forall (fun e => active_at e <= maxConcurrent q) (snd (executeJob pq job q)).
Proof.
  intros Hpq Hroom. unfold executeJob.
  assert (Hq1 : Spec.within_capacity (add_active (ref job) q)).
  { unfold Spec.within_capacity. simpl.
    pose proof (size_add (ref job) (activeJobs q)). lia. }
  destruct (fn job).
  - simpl. split; [exact Hq1|]. split; [reflexivity|].
    constructor; [exact Hq1 | constructor].
  - destruct (finally_block_safe pq (ref job) Hpq
                (with_stats count_failed (add_active (ref job) q)) Hq1)
      as (H1 & H2 & H3).
    destruct (finally_block pq (ref job) _) as [q2 es]. simpl in *.
    split; [exact H1|]. split; [exact H2|].
    constructor; [exact Hq1 | exact H3].
Qed.

Lemma processQueue_loop_safe (fuel : nat) : Spec.capacity_safe (processQueue_loop fuel).
Proof.
  induction fuel as [|fuel IH]; intros q Hq.
  - simpl. repeat split; [exact Hq | constructor].
  - cbn [processQueue_loop].
    destruct (pendingJobs q) as [|job rest] eqn:Hpending;
      [simpl; repeat split; [exact Hq | constructor]|].
    destruct (size (activeJobs q) <? maxConcurrent q) eqn:Hroom;
      [|simpl; repeat split; [exact Hq | constructor]].
    apply Nat.ltb_lt in Hroom.
    pose proof (executeJob_safe (processQueue_loop fuel) job
                  (with_stats count_dequeued (set_pending rest q)) IH Hroom)
      as (H1 & H2 & H3).
    destruct (executeJob _ job _) as [q2 es2]. simpl in H1, H2, H3.
    destruct (IH q2 H1) as (H4 & H5 & H6).
    destruct (processQueue_loop fuel q2) as [q3 es3]. simpl in *.
    split; [exact H4|]. split; [congruence|].
    apply Forall_app. split; [exact H3|]. now rewrite <- H2.
Qed.

Lemma processQueue_safe : Spec.capacity_safe processQueue.
Proof. intros q. apply processQueue_loop_safe. Qed.

Lemma enqueue_safe (jobFn : task) (id : string) (priority : Z) :
  Spec.capacity_safe (enqueue jobFn id priority).
Proof.
  intros q Hq. unfold enqueue.
  match goal with |- context [processQueue ?q1] => exact (processQueue_safe q1 Hq) end.
Qed.

Lemma settle_safe (r : nat) (o : outcome) : Spec.capacity_safe (settle r o).
Proof.
  intros q Hq. unfold settle.
  destruct (bool_decide (r ∈ activeJobs q)).
  - destruct o;
      exact (finally_block_safe processQueue r processQueue_safe (with_stats _ q) Hq).
  - simpl. repeat split; [exact Hq | constructor].
Qed.

Lemma run_safe (ops : list op) : Spec.capacity_safe (run ops).
Proof.
  induction ops as [|o ops IH]; intros q Hq.
  - simpl. repeat split; [exact Hq | constructor].
  - cbn [run].
    assert (Ho : Spec.capacity_safe (apply_op o))
      by (destruct o; [apply enqueue_safe | apply settle_safe]).
    destruct (Ho q Hq) as (H1 & H2 & H3).
    destruct (apply_op o q) as [q1 es1]. simpl in H1, H2, H3.
    destruct (IH q1 H1) as (H4 & H5 & H6).
    destruct (run ops q1) as [q2 es2]. simpl in *.
    split; [exact H4|]. split; [congruence|].
    apply Forall_app. split; [exact H3|]. now rewrite <- H2.
Qed.

(** ** The same bound, move by move *)

Lemma move_within_capacity (q q' : t) :
  move q q' -> Spec.within_capacity q -> Spec.within_capacity q'.
Proof.
  unfold Spec.within_capacity.
  destruct 1 as [q job s n | q job rest Hpending Hroom | q r | q f]; simpl; intros Hq.
  - exact Hq.
  - pose proof (size_add (ref job) (activeJobs q)). lia.
  - pose proof (size_delete r (activeJobs q)). lia.
  - exact Hq.
Qed.

Lemma move_maxConcurrent (q q' : t) : move q q' -> maxConcurrent q' = maxConcurrent q.
Proof. now destruct 1. Qed.

Lemma moves_within_capacity (q q' : t) :
  moves q q' -> Spec.within_capacity q ->
  Spec.within_capacity q' /\ maxConcurrent q' = maxConcurrent q.
Proof.
  unfold moves. induction 1 as [q | q q1 q' Hmove _ IH]; intros Hq; [now split|].
  destruct (IH (move_within_capacity _ _ Hmove Hq)) as [H1 H2].
  split; [exact H1|]. rewrite H2. now apply move_maxConcurrent.
Qed.

(** The functions of the model only make moves. *)

Lemma finally_block_moves (pq : t -> t * list event) (r : nat) :
  (forall q, moves q (fst (pq q))) -> forall q, moves q (fst (finally_block pq r q)).
Proof.
  intros Hpq q. unfold finally_block.
  specialize (Hpq (delete_active r q)).
  destruct (pq (delete_active r q)) as [q2 es]. simpl in *.
  eapply rtc_l; [apply move_delete | exact Hpq].
Qed.

Lemma executeJob_moves (pq : t -> t * list event) (job : Job) (rest : list Job) (q : t) :
  (forall q, moves q (fst (pq q))) ->
  pendingJobs q = job :: rest -> size (activeJobs q) < maxConcurrent q ->
  moves q (fst (executeJob pq job (with_stats count_dequeued (set_pending rest q)))).
Proof.
  intros Hpq Hpending Hroom. unfold executeJob.
  set (q1 := add_active (ref job) (with_stats count_dequeued (set_pending rest q))).
  assert (Hadmit : move q q1) by now apply move_admit.
  destruct (fn job).
  - simpl. now apply rtc_once.
  - pose proof (finally_block_moves pq (ref job) Hpq (with_stats count_failed q1)) as H.
    destruct (finally_block pq (ref job) (with_stats count_failed q1)) as [q2 es].
    simpl in *. eapply rtc_l; [exact Hadmit|].
    eapply rtc_l; [apply (move_count q1 count_failed) | exact H].
Qed.

Lemma processQueue_loop_moves (fuel : nat) (q : t) :
  moves q (fst (processQueue_loop fuel q)).
Proof.
  revert q. induction fuel as [|fuel IH]; intros q; [apply rtc_refl|].
  cbn [processQueue_loop].
  destruct (pendingJobs q) as [|job rest] eqn:Hpending; [apply rtc_refl|].
  destruct (size (activeJobs q) <? maxConcurrent q) eqn:Hroom; [|apply rtc_refl].
  apply Nat.ltb_lt in Hroom.
  pose proof (executeJob_moves (processQueue_loop fuel) job rest q IH Hpending Hroom) as H2.
  destruct (executeJob _ job _) as [q2 es2]. simpl in H2.
  specialize (IH q2). destruct (processQueue_loop fuel q2) as [q3 es3]. simpl in *.
  unfold moves in *. etransitivity; eassumption.
Qed.

Lemma run_moves (ops : list op) (q : t) : moves q (fst (run ops q)).
Proof.
  revert q. induction ops as [|o ops IH]; intros q; [apply rtc_refl|].
  cbn [run].
  assert (Ho : moves q (fst (apply_op o q))).
  { destruct o as [jobFn id p | r o]; cbn [apply_op].
    - unfold enqueue, processQueue.
      eapply rtc_l; [|apply processQueue_loop_moves].
      apply (move_insert q {| ref := nextRef q; id := id; fn := jobFn; priority := p |}).
    - unfold settle. destruct (bool_decide (r ∈ activeJobs q)); [|apply rtc_refl].
      eapply rtc_l;
        [|apply (finally_block_moves processQueue r
                   (fun q => processQueue_loop_moves _ q))].
      destruct o; apply move_count. }
  destruct (apply_op o q) as [q1 es1]. simpl in Ho.
  specialize (IH q1). destruct (run ops q1) as [q2 es2]. simpl in *.
  unfold moves in *. etransitivity; eassumption.
Qed.

(** C1.  Whatever calls of [enqueue] are made on a fresh queue, and
    however the started jobs end in between, the active set never holds
    more than [maxConcurrent] jobs: not after any job is started, not
    after any job is removed, and not at the end.  The bound also holds
    in every state reached from a fresh queue by elementary moves, in
    any order. *)
Theorem active_never_exceeds_maxConcurrent (ops : list op) :
  Forall (fun e => active_at e <= MAX_CONCURRENT CONCURRENCY) (snd (run ops new))
  /\ size (activeJobs (fst (run ops new))) <= maxConcurrent (fst (run ops new))
  /\ maxConcurrent (fst (run ops new)) = MAX_CONCURRENT CONCURRENCY
  /\ (forall q, moves new q -> size (activeJobs q) <= MAX_CONCURRENT CONCURRENCY).
Proof.
  assert (Hnew : Spec.within_capacity new).
  { unfold Spec.within_capacity. change (size (∅ : gset nat) <= 3).
    rewrite size_empty. lia. }
  destruct (run_safe ops new Hnew) as (H1 & H2 & H3).
  split; [exact H3|]. split; [exact H1|]. split; [exact H2|].
  intros q Hq. destruct (moves_within_capacity new q Hq Hnew) as [H4 H5].
  unfold Spec.within_capacity in H4. now rewrite H5 in H4.
Qed.

End QueueCapacity.

(* ===================================================================== *)
(** * The queue: order of the pending list                                *)
(* ===================================================================== *)

Section QueueOrder.
Import ConcurrencyQueue Constants.

(** The insertion step, read as a walk down the list. *)
Lemma insert_by_priority_cons (job a : Job) (l : list Job) :
  insert_by_priority job (a :: l)
  = if (priority a <? priority job)%Z then job :: a :: l
    else a :: insert_by_priority job l.
Proof.
  unfold insert_by_priority. cbn [findIndex].
  destruct (priority a <? priority job)%Z; [reflexivity|].
  destruct (findIndex _ l) as [i|]; reflexivity.
Qed.

Lemma insert_by_priority_nil (job : Job) : insert_by_priority job [] = [job].
Proof. reflexivity. Qed.

Lemma insert_by_priority_split (job : Job) (l : list Job) :
  Spec.descending l ->
  exists before after,
    l = before ++ after
    /\ insert_by_priority job l = before ++ job :: after
    /\ Forall (fun j => (priority job <= priority j)%Z) before
    /\ Forall (fun j => (priority j < priority job)%Z) after.
Proof.
  unfold Spec.descending.
  induction 1 as [|a l Hl IH Ha].
  - exists [], []. repeat split; constructor.
  - rewrite insert_by_priority_cons.
    destruct (priority a <? priority job)%Z eqn:Hlt.
    + apply Z.ltb_lt in Hlt. exists [], (a :: l).
      repeat split; [constructor|]. constructor; [exact Hlt|].
      eapply List.Forall_impl; [|exact Ha]. simpl. intros j Hj. lia.
    + apply Z.ltb_ge in Hlt.
      destruct IH as (before & after & -> & -> & Hb & Haf).
      exists (a :: before), after.
      repeat split; [constructor; assumption | assumption].
Qed.

Lemma insert_by_priority_descending (job : Job) (l : list Job) :
  Spec.descending l -> Spec.descending (insert_by_priority job l).
Proof.
  intros Hl.
  destruct (insert_by_priority_split job l Hl) as (before & after & -> & -> & Hb & Ha).
  unfold Spec.descending in *.
  induction before as [|b before IH]; simpl in *.
  - constructor; [exact Hl|].
    eapply List.Forall_impl; [|exact Ha]. simpl. intros j Hj. lia.
  - apply StronglySorted_inv in Hl as [Hl Hb'].
    apply Forall_cons_1 in Hb as [Hb1 Hb2].
    constructor; [now apply IH|].
    apply Forall_app in Hb' as [Hb'1 Hb'2].
    apply Forall_app. split; [exact Hb'1|]. constructor; [exact Hb1 | exact Hb'2].
Qed.

Lemma started_jobs_app (es1 es2 : list event) :
  started_jobs (es1 ++ es2) = started_jobs es1 ++ started_jobs es2.
Proof. unfold started_jobs. apply flat_map_app. Qed.

Lemma finally_block_from_front (pq : t -> t * list event) (r : nat) :
  Spec.starts_from_front pq -> Spec.starts_from_front (finally_block pq r).
Proof.
  intros Hpq q. unfold finally_block.
  specialize (Hpq (delete_active r q)).
  destruct (pq (delete_active r q)) as [q2 es]. exact Hpq.
Qed.

Lemma executeJob_from_front (pq : t -> t * list event) (job : Job) (q : t) :
  Spec.starts_from_front pq ->
  job :: pendingJobs q
  = started_jobs (snd (executeJob pq job q)) ++ pendingJobs (fst (executeJob pq job q)).
Proof.
  intros Hpq. unfold executeJob. destruct (fn job).
  - reflexivity.
  - pose proof (finally_block_from_front pq (ref job) Hpq
                  (with_stats count_failed (add_active (ref job) q))) as H.
    destruct (finally_block pq (ref job) _) as [q2 es]. simpl in *.
    now rewrite <- H.
Qed.

Lemma processQueue_loop_from_front (fuel : nat) :
  Spec.starts_from_front (processQueue_loop fuel).
Proof.
  induction fuel as [|fuel IH]; intros q; [reflexivity|].
  cbn [processQueue_loop].
  destruct (pendingJobs q) as [|job rest] eqn:Hpending;
    [simpl; now rewrite Hpending|].
  destruct (size (activeJobs q) <? maxConcurrent q);
    [|simpl; now rewrite Hpending].
  pose proof (executeJob_from_front (processQueue_loop fuel) job
                (with_stats count_dequeued (set_pending rest q)) IH) as H2.
  destruct (executeJob _ job _) as [q2 es2].
  specialize (IH q2).
  destruct (processQueue_loop fuel q2) as [q3 es3]. simpl in *.
  rewrite started_jobs_app, <- app_assoc, <- IH. exact H2.
Qed.

Lemma processQueue_from_front : Spec.starts_from_front processQueue.
Proof. intros q. apply processQueue_loop_from_front. Qed.

Lemma descending_tail (l1 l2 : list Job) :
  Spec.descending (l1 ++ l2) -> Spec.descending l2.
Proof.
  unfold Spec.descending. induction l1 as [|a l1 IH]; simpl; [tauto|].
  intros H. apply StronglySorted_inv in H as [H _]. now apply IH.
Qed.

(** Every move keeps the pending list in descending order, so the list
    is in that order in every state reached from a fresh queue. *)
Lemma move_descending (q q' : t) :
  move q q' -> Spec.descending (pendingJobs q) -> Spec.descending (pendingJobs q').
Proof.
  destruct 1 as [q job s n | q job rest Hpending Hroom | q r | q f]; simpl; intros Hq.
  - now apply insert_by_priority_descending.
  - rewrite Hpending in Hq. exact (descending_tail [job] rest Hq).
  - exact Hq.
  - exact Hq.
Qed.

Lemma pending_always_descending (q : t) :
  moves new q -> Spec.descending (pendingJobs q).
Proof.
  assert (Hgen : forall q0, moves q0 q ->
                   Spec.descending (pendingJobs q0) -> Spec.descending (pendingJobs q)).
  { unfold moves. induction 1 as [q0 | q0 q1 q2 Hmove _ IH]; intros H0; [exact H0|].
    apply IH. exact (move_descending _ _ Hmove H0). }
  intros Hq. apply (Hgen new Hq). constructor.
Qed.

Lemma run_descending (ops : list op) :
  Spec.descending (pendingJobs (fst (run ops new))).
Proof. apply pending_always_descending, run_moves. Qed.

(** ** The loop runs to its exit *)

Lemma executeJob_pending_length (pq : t -> t * list event) (job : Job) (q : t) :
  Spec.starts_from_front pq ->
  length (pendingJobs (fst (executeJob pq job q))) <= length (pendingJobs q).
Proof.
  intros Hpq. pose proof (executeJob_from_front pq job q Hpq) as H.
  apply (f_equal (@length Job)) in H. rewrite length_app in H. simpl in H.
  assert (1 <= length (started_jobs (snd (executeJob pq job q)))); [|lia].
  unfold executeJob. destruct (fn job); simpl; [lia|].
  destruct (finally_block pq (ref job) _) as [q2 es]. simpl. lia.
Qed.

(** With fuel above the length of the pending list, the loop stops only
    because the pending list is empty or the active set is full. *)
Lemma processQueue_loop_exit (fuel : nat) (q : t) :
  length (pendingJobs q) < fuel ->
  let q' := fst (processQueue_loop fuel q) in
  pendingJobs q' = [] \/ maxConcurrent q' <= size (activeJobs q').
Proof.
  revert q. induction fuel as [|fuel IH]; intros q Hfuel; [lia|].
  cbn [processQueue_loop].
  destruct (pendingJobs q) as [|job rest] eqn:Hpending; [left; exact Hpending|].
  destruct (size (activeJobs q) <? maxConcurrent q) eqn:Hroom.
  - pose proof (executeJob_pending_length (processQueue_loop fuel) job
                  (with_stats count_dequeued (set_pending rest q))
                  (processQueue_loop_from_front fuel)) as Hlen.
    destruct (executeJob _ job _) as [q2 es2]. simpl in Hlen, Hfuel.
    assert (Hq2 : length (pendingJobs q2) < fuel) by lia.
    specialize (IH q2 Hq2).
    destruct (processQueue_loop fuel q2) as [q3 es3]. exact IH.
  - right. apply Nat.ltb_ge in Hroom. exact Hroom.
Qed.

(** Fuel above the length of the pending list is never missed: any two
    such amounts give the same run. *)
Lemma processQueue_loop_fuel (fuel fuel' : nat) (q : t) :
  length (pendingJobs q) < fuel -> length (pendingJobs q) < fuel' ->
  processQueue_loop fuel q = processQueue_loop fuel' q.
Proof.
  revert fuel' q. induction fuel as [|fuel IH]; intros fuel' q H1 H2; [lia|].
  destruct fuel' as [|fuel']; [lia|].
  cbn [processQueue_loop].
  destruct (pendingJobs q) as [|job rest] eqn:Hpending; [reflexivity|].
  destruct (size (activeJobs q) <? maxConcurrent q); [|reflexivity].
  simpl in H1, H2.
  set (q1 := with_stats count_dequeued (set_pending rest q)).
  assert (Hexec : executeJob (processQueue_loop fuel) job q1
                  = executeJob (processQueue_loop fuel') job q1).
  { unfold executeJob. destruct (fn job); [reflexivity|].
    unfold finally_block. rewrite (IH fuel') by (simpl; lia). reflexivity. }
  pose proof (executeJob_pending_length (processQueue_loop fuel') job q1
                (processQueue_loop_from_front fuel')) as Hlen.
  rewrite Hexec.
  destruct (executeJob (processQueue_loop fuel') job q1) as [q2 es2].
  simpl in Hlen. rewrite (IH fuel') by lia. reflexivity.
Qed.

(** One turn of the [while] loop of [processQueue], followed by the rest
    of the loop; the call from the [finally] block is [processQueue]
    itself. *)
Lemma processQueue_unfold (q : t) :
  processQueue q
  = match pendingJobs q with
    | job :: rest =>
        if size (activeJobs q) <? maxConcurrent q then
          let q1 := with_stats count_dequeued (set_pending rest q) in
          let '(q2, es2) := executeJob processQueue job q1 in
          let '(q3, es3) := processQueue q2 in
          (q3, es2 ++ es3)
        else (q, [])
    | [] => (q, [])
    end.
Proof.
  unfold processQueue at 1. cbn [processQueue_loop].
  destruct (pendingJobs q) as [|job rest] eqn:Hpending; [reflexivity|].
  destruct (size (activeJobs q) <? maxConcurrent q); [|reflexivity].
  cbv zeta. set (q1 := with_stats count_dequeued (set_pending rest q)).
  assert (Hexec : executeJob (processQueue_loop (length (job :: rest))) job q1
                  = executeJob processQueue job q1).
  { unfold executeJob. destruct (fn job); [reflexivity|].
    unfold finally_block, processQueue.
    rewrite (processQueue_loop_fuel (length (job :: rest))
               (S (length (pendingJobs (delete_active (ref job)
                     (with_stats count_failed (add_active (ref job) q1)))))))
      by (simpl; lia).
    reflexivity. }
  rewrite Hexec.
  pose proof (executeJob_pending_length processQueue job q1 processQueue_from_front) as Hlen.
  destruct (executeJob processQueue job q1) as [q2 es2]. simpl in Hlen.
  unfold processQueue.
  rewrite (processQueue_loop_fuel (length (job :: rest)) (S (length (pendingJobs q2))))
    by (simpl; lia).
  reflexivity.
Qed.

(** C2.  [enqueue] keeps the pending list in descending order of
    priority, and puts the new job behind every pending job of the same
    or a higher priority, the others keeping their places; jobs are
    started from the front of that list.  In particular, on a queue whose
    slots are all taken, jobs enqueued with priorities 1, 5, 1, 3 wait in
    the order 5, 3, 1, 1, the first of the two jobs of priority 1 ahead
    of the second, and are started in that order as slots are freed. *)
Theorem enqueue_priority_order (jobFn : task) (id : string) (p : Z) (q : t) :
  Spec.descending (pendingJobs q) ->
  let job := {| ref := nextRef q; id := id; fn := jobFn; priority := p |} in
  let inserted := insert_by_priority job (pendingJobs q) in
  let after_enqueue := enqueue jobFn id p q in
  Spec.descending inserted
  /\ (exists before after,
        pendingJobs q = before ++ after
        /\ inserted = before ++ job :: after
        /\ Forall (fun j => (p <= priority j)%Z) before
        /\ Forall (fun j => (priority j < p)%Z) after)
  /\ inserted = started_jobs (snd after_enqueue) ++ pendingJobs (fst after_enqueue)
  /\ Spec.descending (pendingJobs (fst after_enqueue))
  /\ (let waiting := fst (run Sample.four_enqueues Sample.saturated) in
      let freed := run (Sample.four_enqueues ++ Sample.four_settlements) Sample.saturated in
      map priority (pendingJobs waiting) = [5; 3; 1; 1]%Z
      /\ map ConcurrencyQueue.id (pendingJobs waiting)
         = ["second"; "fourth"; "first"; "third"]%string
      /\ map ConcurrencyQueue.id (started_jobs (snd freed))
         = ["second"; "fourth"; "first"; "third"]%string
      /\ pendingJobs (fst freed) = []).
Proof.
  intros Hq job inserted after_enqueue.
  assert (Hfront : inserted
                   = started_jobs (snd after_enqueue) ++ pendingJobs (fst after_enqueue)).
  { unfold after_enqueue, enqueue. fold job. fold inserted.
    match goal with |- context [processQueue ?q1] =>
      exact (processQueue_from_front q1) end. }
  assert (Hins : Spec.descending inserted)
    by now apply insert_by_priority_descending.
  split; [exact Hins|].
  split; [exact (insert_by_priority_split job (pendingJobs q) Hq)|].
  split; [exact Hfront|].
  split; [rewrite Hfront in Hins; exact (descending_tail _ _ Hins)|].
  vm_compute. repeat split.
Qed.

Lemma sample_waiting_descending : Spec.descending (pendingJobs Sample.waiting).
Proof.
  unfold Spec.descending, Sample.waiting. cbn [pendingJobs].
  repeat constructor. simpl. lia.
Qed.

Lemma enqueue_priority_order_witness :
  Spec.descending
    (insert_by_priority
       {| ref := 5; id := "third"; fn := Suspends; priority := 1 |}
       (pendingJobs Sample.waiting)).
Proof.
  exact (proj1 (enqueue_priority_order Suspends "third" 1 Sample.waiting
                  sample_waiting_descending)).
Defined.

End QueueOrder.

(* ===================================================================== *)
(** * binary64: comparison and subtraction through the rank               *)
(* ===================================================================== *)

Section Binary64Order.
Import Binary64.
Local Open Scope Z_scope.

Lemma digits2_pos_bounds (m : positive) :
  2 ^ (Z.pos (digits2_pos m) - 1) <= Z.pos m < 2 ^ Z.pos (digits2_pos m).
Proof.
  induction m as [m IH|m IH|]; cbn [digits2_pos].
  - rewrite Pos2Z.inj_succ.
    replace (Z.succ (Z.pos (digits2_pos m)) - 1) with (Z.succ (Z.pos (digits2_pos m) - 1)) by lia.
    rewrite !Z.pow_succ_r by lia. lia.
  - rewrite Pos2Z.inj_succ.
    replace (Z.succ (Z.pos (digits2_pos m)) - 1) with (Z.succ (Z.pos (digits2_pos m) - 1)) by lia.
    rewrite !Z.pow_succ_r by lia. lia.
  - simpl. lia.
Qed.

(** What validity says of a finite value. *)
Lemma valid_finite (s : bool) (m : positive) (e : Z) :
  valid_binary (S754_finite s m e) = true ->
  Z.pos m < 2 ^ 53 /\ -1074 <= e <= 971 /\ (e = -1074 \/ 2 ^ 52 <= Z.pos m).
Proof.
  unfold SpecFloat.valid_binary, bounded, canonical_mantissa, fexp, SpecFloat.emin.
  change prec with 53. change emax with 1024.
  intros H. apply andb_prop in H as [Hc He].
  apply Z.eqb_eq in Hc. apply Z.leb_le in He.
  pose proof (digits2_pos_bounds m) as [Hlo Hhi].
  remember (Z.pos (digits2_pos m)) as d eqn:Ed.
  assert (Hd : d <= 53) by (clear Hlo Hhi; lia).
  split.
  - eapply Z.lt_le_trans; [exact Hhi|]. apply Z.pow_le_mono_r; lia.
  - split; [lia|].
    destruct (Z.eq_dec e (-1074)) as [->|Hne]; [now left|right].
    assert (Hd53 : d = 53) by (clear Hlo Hhi; lia).
    rewrite Hd53 in Hlo. exact Hlo.
Qed.

Lemma rank_finite_bounds (s : bool) (m : positive) (e : Z) :
  valid_binary (S754_finite s m e) = true ->
  let r := (e + 1075) * 2 ^ 53 + Z.pos m in
  2 ^ 53 < r < 2048 * 2 ^ 53.
Proof.
  intros H. apply valid_finite in H as (Hm & He & _). simpl.
  assert (0 < 2 ^ 53) by lia. nia.
Qed.

Lemma compare_rank (x y : spec_float) :
  valid_binary x = true -> valid_binary y = true ->
  x <> S754_nan -> y <> S754_nan ->
  SFcompare x y = Some (rank x ?= rank y).
Proof.
  intros Hx Hy Nx Ny.
  destruct x as [sx|sx| |sx mx ex], y as [sy|sy| |sy my ey]; try congruence;
    try (pose proof (rank_finite_bounds _ _ _ Hx) as Bx; cbv zeta in Bx);
    try (pose proof (rank_finite_bounds _ _ _ Hy) as By; cbv zeta in By);
    cbn [SFcompare rank].
  all: try (destruct sx); try (destruct sy); try reflexivity.
  all: try (f_equal; symmetry;
            first [apply Z.compare_lt_iff; lia | apply Z.compare_gt_iff; lia]).
  all: apply valid_finite in Hx as (Hmx & Hex & _).
  all: apply valid_finite in Hy as (Hmy & Hey & _).
  all: assert (H53 : 0 < 2 ^ 53) by lia.
  all: try rewrite Pos.compare_cont_spec; cbn [Pos.switch_Eq].
  all: change (Pos.compare mx my) with (Z.compare (Z.pos mx) (Z.pos my)).
  all: f_equal; symmetry.
  all: destruct (Z.compare_spec ex ey) as [->|Hlt|Hgt];
    [destruct (Z.compare_spec (Z.pos mx) (Z.pos my)) as [E|L|G] | |];
    cbn [CompOpp Pos.switch_Eq];
    first [apply Z.compare_eq_iff; nia | apply Z.compare_lt_iff; nia
          | apply Z.compare_gt_iff; nia].
Qed.


(** ** Subtraction keeps the sign of the difference *)

Lemma iter_xO_value (m d : positive) :
  Z.pos (Pos.iter xO m d) = Z.pos m * 2 ^ Z.pos d.
Proof.
  induction d as [|d IH] using Pos.peano_ind.
  - simpl. lia.
  - rewrite Pos.iter_succ, Pos2Z.inj_xO, IH, Pos2Z.inj_succ, Z.pow_succ_r by lia. lia.
Qed.

Lemma shl_align_value (m : positive) (e e' : Z) :
  e' <= e -> Z.pos (fst (shl_align m e e')) = Z.pos m * 2 ^ (e - e').
Proof.
  intros Hle. unfold shl_align.
  destruct (e' - e) as [|d|d] eqn:Hd; try lia.
  - replace (e - e') with 0 by lia. simpl. lia.
  - simpl. rewrite iter_xO_value. f_equal. f_equal. lia.
Qed.

Lemma shl_align_exponent (m : positive) (e e' : Z) :
  -1074 <= e -> -1074 <= e' -> -1074 <= snd (shl_align m e e').
Proof. intros He He'. unfold shl_align. destruct (e' - e); simpl; lia. Qed.

Lemma shr_1_halves (mrs : shr_record) :
  0 <= shr_m mrs -> shr_m (shr_1 mrs) = shr_m mrs / 2.
Proof.
  destruct mrs as [m r s]. simpl. intros Hm.
  destruct m as [|p|p]; [reflexivity| |lia].
  destruct p as [p|p|]; simpl.
  - rewrite Pos2Z.inj_xI. apply Z.div_unique with 1; lia.
  - rewrite Pos2Z.inj_xO. apply Z.div_unique with 0; lia.
  - reflexivity.
Qed.

Lemma iter_shr_1 (p : positive) (mrs : shr_record) :
  0 <= shr_m mrs -> shr_m (SpecFloat.iter_pos shr_1 p mrs) = shr_m mrs / 2 ^ Z.pos p.
Proof.
  revert mrs. induction p as [p IH|p IH|]; intros mrs Hm; cbn [SpecFloat.iter_pos].
  - assert (H1 : 0 <= shr_m (shr_1 mrs))
      by (rewrite shr_1_halves by assumption; apply Z.div_pos; lia).
    assert (H2 : 0 <= shr_m (SpecFloat.iter_pos shr_1 p (shr_1 mrs)))
      by (rewrite IH by assumption; apply Z.div_pos; lia).
    assert (E : 2 ^ Z.pos p~1 = 2 * (2 ^ Z.pos p * 2 ^ Z.pos p)).
    { rewrite <- Z.pow_add_r, <- Z.pow_succ_r by lia. f_equal. lia. }
    rewrite IH, IH, shr_1_halves by assumption.
    rewrite !Z.div_div by lia. now rewrite E, Z.mul_assoc.
  - assert (H2 : 0 <= shr_m (SpecFloat.iter_pos shr_1 p mrs))
      by (rewrite IH by assumption; apply Z.div_pos; lia).
    assert (E : 2 ^ Z.pos p~0 = 2 ^ Z.pos p * 2 ^ Z.pos p).
    { rewrite <- Z.pow_add_r by lia. f_equal. lia. }
    rewrite IH, IH by assumption.
    rewrite Z.div_div by lia. now rewrite E.
  - rewrite shr_1_halves by assumption. reflexivity.
Qed.

Lemma shr_record_of_loc_m (m : Z) (l : location) : shr_m (shr_record_of_loc m l) = m.
Proof. destruct l as [|[ | | ]]; reflexivity. Qed.

(** Shifting a positive mantissa to its canonical exponent leaves it
    positive, when the exponent is not below the least one. *)
Lemma shr_fexp_positive (m : positive) (e : Z) (l : location) :
  -1074 <= e ->
  0 < shr_m (fst (shr_fexp prec emax (Z.pos m) e l))
  /\ -1074 <= snd (shr_fexp prec emax (Z.pos m) e l).
Proof.
  intros He. unfold shr_fexp, shr, fexp, SpecFloat.emin.
  change prec with 53. change emax with 1024. cbn [Zdigits2].
  pose proof (digits2_pos_bounds m) as [Hlo _].
  remember (Z.pos (digits2_pos m)) as d eqn:Ed.
  destruct (Z.max (d + e - 53) (3 - 1024 - 53) - e) as [|p|p] eqn:Hn; cbn [fst snd].
  - rewrite shr_record_of_loc_m. lia.
  - assert (Hp : Z.pos p = d - 53) by (clear Hlo; lia).
    rewrite iter_shr_1 by (rewrite shr_record_of_loc_m; lia).
    rewrite shr_record_of_loc_m. split; [|clear Hlo; lia].
    apply Z.div_str_pos. split; [apply Z.pow_pos_nonneg; lia|].
    eapply Z.le_trans; [|exact Hlo]. apply Z.pow_le_mono_r; lia.
  - rewrite shr_record_of_loc_m. lia.
Qed.

Lemma round_nearest_even_positive (m : Z) (l : location) :
  0 < m -> 0 < round_nearest_even m l.
Proof.
  intros Hm. unfold round_nearest_even.
  destruct l as [|[ | | ]]; try lia. destruct (Z.even m); lia.
Qed.

(** Rounding a positive integer multiple of a power of two, at an
    exponent that is not below the least one, gives a positive value. *)
Lemma binary_round_positive (m : positive) (e : Z) :
  -1074 <= e ->
  SFltb (S754_zero false) (binary_round prec emax false m e) = true.
Proof.
  intros He. unfold binary_round.
  pose proof (shl_align_exponent m e (fexp prec emax (Z.pos (digits2_pos m) + e)) He) as Hez.
  destruct (shl_align m e _) as [mz ez]. cbn [snd] in Hez.
  assert (Hez' : -1074 <= ez).
  { apply Hez. unfold fexp, SpecFloat.emin. change prec with 53. change emax with 1024. lia. }
  unfold binary_round_aux.
  pose proof (shr_fexp_positive mz ez loc_Exact Hez') as [H1 H1'].
  destruct (shr_fexp prec emax (Z.pos mz) ez loc_Exact) as [mrs' e']. cbn [fst snd] in H1, H1'.
  pose proof (round_nearest_even_positive (shr_m mrs') (loc_of_shr_record mrs') H1) as Hr.
  destruct (round_nearest_even (shr_m mrs') (loc_of_shr_record mrs')) as [|mr|mr]; try lia.
  pose proof (shr_fexp_positive mr e' loc_Exact H1') as [H2 _].
  destruct (shr_fexp prec emax (Z.pos mr) e' loc_Exact) as [mrs'' e'']. cbn [fst] in H2.
  destruct (shr_m mrs'') as [|mf|mf]; try lia.
  destruct (e'' <=? emax - prec); reflexivity.
Qed.

Lemma binary_round_negative (m : positive) (e : Z) :
  SFltb (S754_zero false) (binary_round prec emax true m e) = false.
Proof.
  unfold binary_round. destruct (shl_align m e _) as [mz ez].
  unfold binary_round_aux.
  destruct (shr_fexp prec emax (Z.pos mz) ez loc_Exact) as [mrs' e'].
  destruct (shr_fexp prec emax _ e' loc_Exact) as [mrs'' e''].
  destruct (shr_m mrs'') as [|mf|mf]; try reflexivity.
  destruct (e'' <=? emax - prec); reflexivity.
Qed.

(** Two valid finite magnitudes, aligned on the smaller exponent, compare
    like their ranks. *)
Lemma aligned_compare (sx sy : bool) (mx my : positive) (ex ey : Z) :
  valid_binary (S754_finite sx mx ex) = true ->
  valid_binary (S754_finite sy my ey) = true ->
  let ez := Z.min ex ey in
  let A := Z.pos (fst (shl_align mx ex ez)) in
  let B := Z.pos (fst (shl_align my ey ez)) in
  let Rx := (ex + 1075) * 2 ^ 53 + Z.pos mx in
  let Ry := (ey + 1075) * 2 ^ 53 + Z.pos my in
  (A < B <-> Rx < Ry) /\ (A = B <-> Rx = Ry).
Proof.
  intros Hx Hy ez A B Rx Ry.
  apply valid_finite in Hx as (Hmx & Hex & Hnx).
  apply valid_finite in Hy as (Hmy & Hey & Hny).
  unfold A, B. rewrite !shl_align_value by (unfold ez; lia).
  assert (H53 : 2 ^ 53 = 2 * 2 ^ 52) by reflexivity.
  assert (H52 : 0 < 2 ^ 52) by lia.
  destruct (Z.lt_trichotomy ex ey) as [Hlt | [-> | Hgt]].
  - replace ez with ex by (unfold ez; lia).
    replace (ex - ex) with 0 by lia. rewrite Z.pow_0_r, Z.mul_1_r.
    assert (Hpow : 2 <= 2 ^ (ey - ex))
      by (change 2 with (2 ^ 1) at 1; apply Z.pow_le_mono_r; lia).
    assert (Hmy' : 2 ^ 52 <= Z.pos my) by lia.
    assert (HB : 2 * 2 ^ 52 <= Z.pos my * 2 ^ (ey - ex)) by nia.
    unfold Rx, Ry. split; split; intros; nia.
  - replace ez with ey by (unfold ez; lia).
    replace (ey - ey) with 0 by lia. rewrite Z.pow_0_r, !Z.mul_1_r.
    unfold Rx, Ry. split; split; intros; lia.
  - replace ez with ey by (unfold ez; lia).
    replace (ey - ey) with 0 by lia. rewrite Z.pow_0_r, Z.mul_1_r.
    assert (Hpow : 2 <= 2 ^ (ex - ey))
      by (change 2 with (2 ^ 1) at 1; apply Z.pow_le_mono_r; lia).
    assert (Hmx' : 2 ^ 52 <= Z.pos mx) by lia.
    assert (HA : 2 * 2 ^ 52 <= Z.pos mx * 2 ^ (ex - ey)) by nia.
    unfold Rx, Ry. split; split; intros; nia.
Qed.

(** The sign test of the comparator [(a, b) => a - b]: the difference is
    positive exactly when [b] ranks below [a]. *)
Lemma sub_positive_rank (x y : spec_float) :
  valid_binary x = true -> valid_binary y = true ->
  x <> S754_nan -> y <> S754_nan ->
  SFltb (S754_zero false) (SF64sub x y) = (rank y <? rank x).
Proof.
  intros Hx Hy Nx Ny. unfold SF64sub.
  destruct x as [sx|sx| |sx mx ex], y as [sy|sy| |sy my ey]; try congruence;
    try (pose proof (rank_finite_bounds _ _ _ Hx) as Bx; cbv zeta in Bx);
    try (pose proof (rank_finite_bounds _ _ _ Hy) as By; cbv zeta in By);
    cbn [SFsub rank].
  1-8: try (destruct sx); try (destruct sy); cbn [negb]; try reflexivity;
       symmetry; first [apply Z.ltb_lt; lia | apply Z.ltb_ge; lia].
  pose proof (aligned_compare sx sy mx my ex ey Hx Hy) as Hcmp. cbv zeta in Hcmp.
  destruct Hcmp as [Hlt Heq].
  pose proof (valid_finite _ _ _ Hx) as (_ & Hex & _).
  pose proof (valid_finite _ _ _ Hy) as (_ & Hey & _).
  assert (Hez : -1074 <= Z.min ex ey) by lia.
  remember (Z.pos (fst (shl_align mx ex (Z.min ex ey)))) as A eqn:EA.
  remember (Z.pos (fst (shl_align my ey (Z.min ex ey)))) as B eqn:EB.
  assert (HA : 0 < A) by (subst A; lia).
  assert (HB : 0 < B) by (subst B; lia).
  remember ((ex + 1075) * 2 ^ 53 + Z.pos mx) as Rx eqn:ERx.
  remember ((ey + 1075) * 2 ^ 53 + Z.pos my) as Ry eqn:ERy.
  unfold binary_normalize.
  destruct (cond_Zopp sx A - cond_Zopp sy B) as [|d|d] eqn:ED.
  - cbn [SFltb SFcompare]. symmetry. apply Z.ltb_ge.
    destruct sx, sy; cbn [cond_Zopp] in ED; lia.
  - rewrite binary_round_positive by exact Hez. symmetry. apply Z.ltb_lt.
    destruct sx, sy; cbn [cond_Zopp] in ED; lia.
  - rewrite binary_round_negative. symmetry. apply Z.ltb_ge.
    destruct sx, sy; cbn [cond_Zopp] in ED; lia.
Qed.

End Binary64Order.

(* ===================================================================== *)
(** * Rounding and magnitude in binary64                                  *)
(* ===================================================================== *)

Section Rounding.
Import Binary64.
Local Open Scope Z_scope.

(** ** Shifts that lose no bit *)

Lemma shr_1_exact (mrs : shr_record) :
  0 <= shr_m mrs -> sticky mrs = false -> (2 | shr_m mrs) ->
  sticky (shr_1 mrs) = false.
Proof.
  destruct mrs as [m r s]. unfold sticky. simpl. intros Hm Hs [c Hc].
  apply orb_false_iff in Hs as [-> ->].
  destruct m as [|p|p]; [reflexivity| |lia].
  destruct p as [p|p|]; try reflexivity; lia.
Qed.

Lemma iter_shr_1_exact (p : positive) (mrs : shr_record) :
  0 <= shr_m mrs -> sticky mrs = false -> (2 ^ Z.pos p | shr_m mrs) ->
  sticky (SpecFloat.iter_pos shr_1 p mrs) = false.
Proof.
  revert mrs. induction p as [p IH|p IH|]; intros mrs Hm Hs [c Hc];
    cbn [SpecFloat.iter_pos].
  - assert (E : 2 ^ Z.pos p~1 = 2 * (2 ^ Z.pos p * 2 ^ Z.pos p)).
    { rewrite <- Z.pow_add_r, <- Z.pow_succ_r by lia. f_equal. lia. }
    assert (Hpos : 0 < 2 ^ Z.pos p) by (apply Z.pow_pos_nonneg; lia).
    assert (H1m : shr_m (shr_1 mrs) = c * 2 ^ Z.pos p * 2 ^ Z.pos p).
    { rewrite shr_1_halves by assumption. rewrite Hc, E.
      replace (c * (2 * (2 ^ Z.pos p * 2 ^ Z.pos p)))
        with ((c * 2 ^ Z.pos p * 2 ^ Z.pos p) * 2) by lia.
      apply Z.div_mul. lia. }
    assert (H1s : sticky (shr_1 mrs) = false).
    { apply shr_1_exact; try assumption. exists (c * (2 ^ Z.pos p * 2 ^ Z.pos p)). lia. }
    assert (H1n : 0 <= shr_m (shr_1 mrs))
      by (rewrite shr_1_halves by assumption; apply Z.div_pos; lia).
    assert (H2m : shr_m (SpecFloat.iter_pos shr_1 p (shr_1 mrs)) = c * 2 ^ Z.pos p).
    { rewrite iter_shr_1 by assumption. rewrite H1m. apply Z.div_mul. lia. }
    apply IH.
    + rewrite H2m. nia.
    + apply IH; [assumption | assumption |]. exists (c * 2 ^ Z.pos p). exact H1m.
    + exists c. exact H2m.
  - assert (E : 2 ^ Z.pos p~0 = 2 ^ Z.pos p * 2 ^ Z.pos p).
    { rewrite <- Z.pow_add_r by lia. f_equal. lia. }
    assert (Hpos : 0 < 2 ^ Z.pos p) by (apply Z.pow_pos_nonneg; lia).
    assert (H1m : shr_m mrs = c * 2 ^ Z.pos p * 2 ^ Z.pos p) by (rewrite Hc, E; lia).
    assert (H2m : shr_m (SpecFloat.iter_pos shr_1 p mrs) = c * 2 ^ Z.pos p).
    { rewrite iter_shr_1 by assumption. rewrite H1m. apply Z.div_mul. lia. }
    apply IH.
    + rewrite H2m. nia.
    + apply IH; [assumption | assumption |]. exists (c * 2 ^ Z.pos p). exact H1m.
    + exists c. exact H2m.
  - apply shr_1_exact; try assumption. exists c. exact Hc.
Qed.

Lemma sticky_exact (mrs : shr_record) :
  sticky mrs = false -> loc_of_shr_record mrs = loc_Exact.
Proof.
  destruct mrs as [m r s]. unfold sticky. simpl.
  intros H. apply orb_false_iff in H as [-> ->]. reflexivity.
Qed.

Lemma round_nearest_even_bounds (m : Z) (l : location) :
  m <= round_nearest_even m l <= m + 1.
Proof.
  unfold round_nearest_even. destruct l as [|[ | | ]]; try lia.
  destruct (Z.even m); lia.
Qed.

Lemma round_nearest_even_exact (m : Z) : round_nearest_even m loc_Exact = m.
Proof. reflexivity. Qed.

(** What the shift to the canonical exponent does to a mantissa that
    comes without rounding information. *)
Lemma shr_fexp_exact (m e : Z) :
  0 <= m ->
  let r := shr_fexp prec emax m e loc_Exact in
  snd r = Z.max e (fexp prec emax (Zdigits2 m + e))
  /\ shr_m (fst r) = m / 2 ^ (snd r - e)
  /\ ((2 ^ (snd r - e) | m) -> loc_of_shr_record (fst r) = loc_Exact).
Proof.
  intros Hm. unfold shr_fexp, shr. cbn [shr_record_of_loc].
  destruct (fexp prec emax (Zdigits2 m + e) - e) as [|p|p] eqn:Hn; cbn [fst snd].
  - replace (Z.max e _) with e by lia. replace (e - e) with 0 by lia.
    rewrite Z.pow_0_r, Z.div_1_r. auto.
  - replace (Z.max e _) with (e + Z.pos p) by lia.
    replace (e + Z.pos p - e) with (Z.pos p) by lia.
    split; [reflexivity|]. split.
    + now rewrite iter_shr_1 by exact Hm.
    + intros Hd. apply sticky_exact, iter_shr_1_exact; [exact Hm|reflexivity|exact Hd].
  - replace (Z.max e _) with e by lia. replace (e - e) with 0 by lia.
    rewrite Z.pow_0_r, Z.div_1_r. auto.
Qed.

Lemma two_pow_add (a b : Z) : 0 <= a -> 0 <= b -> 2 ^ (a + b) = 2 ^ a * 2 ^ b.
Proof. intros. apply Z.pow_add_r; assumption. Qed.

Lemma two_pow_positive (a : Z) : 0 <= a -> 0 < 2 ^ a.
Proof. intros. apply Z.pow_pos_nonneg; lia. Qed.

(** Rounding to nearest never crosses an integer below [2^53]: a positive
    value [M * 2^e] that does not exceed the integer [B] rounds to a
    value that does not exceed [B]. *)
Lemma binary_round_aux_within (s : bool) (M : positive) (e B : Z) :
  0 <= B < 2 ^ 53 -> -2148 <= e ->
  Z.pos M * 2 ^ (e + 2148) <= B * 2 ^ 2148 ->
  within_sf B (binary_round_aux prec emax s (Z.pos M) e loc_Exact).
Proof.
  intros HB He Hle. unfold binary_round_aux.
  pose proof (shr_fexp_exact (Z.pos M) e ltac:(lia)) as H1. cbv zeta in H1.
  destruct (shr_fexp prec emax (Z.pos M) e loc_Exact) as [mrs' e'].
  cbn [fst snd] in H1. destruct H1 as (He' & Hm1 & Hx1).
  cbn [Zdigits2] in He'.
  pose proof (digits2_pos_bounds M) as [Hlo _].
  remember (Z.pos (digits2_pos M)) as d eqn:Ed.
  assert (Hd : 1 <= d) by (subst d; lia).
  unfold fexp, SpecFloat.emin in He'. change prec with 53 in He'. change emax with 1024 in He'.
  pose proof (round_nearest_even_bounds (shr_m mrs') (loc_of_shr_record mrs')) as Hr.
  remember (round_nearest_even (shr_m mrs') (loc_of_shr_record mrs')) as m2 eqn:Em2.
  set (W := 2148) in *.
  assert (HW : 0 < 2 ^ W) by (apply two_pow_positive; unfold W; lia).
  assert (HeW : 0 < 2 ^ (e + W)) by (apply two_pow_positive; unfold W; lia).
  (* the exponent after the first shift is not positive when bits are lost *)
  assert (Hde : d + e <= 53).
  { assert (H : 2 ^ (d - 1 + (e + W)) < 2 ^ (53 + W)).
    { rewrite two_pow_add by (unfold W; lia).
      rewrite (two_pow_add 53 W) by (unfold W; lia).
      assert (2 ^ (d - 1) * 2 ^ (e + W) <= Z.pos M * 2 ^ (e + W)) by nia.
      assert (B * 2 ^ W < 2 ^ 53 * 2 ^ W) by nia. lia. }
    apply Z.pow_lt_mono_r_iff in H; unfold W in *; lia. }
  assert (He'lo : -1074 <= e') by lia.
  assert (Hee' : e <= e') by lia.
  assert (Hm1n : 0 <= shr_m mrs').
  { rewrite Hm1. apply Z.div_pos; [lia|]. apply two_pow_positive. lia. }
  assert (Hm2 : 0 <= m2 /\ m2 * 2 ^ (e' + W) <= B * 2 ^ W).
  { split; [lia|].
    destruct (Z.eq_dec e' e) as [->|Hne].
    - replace (e - e) with 0 in * by lia. rewrite Z.pow_0_r, Z.div_1_r in Hm1.
      rewrite Hx1 in Em2 by (exists (Z.pos M); lia).
      rewrite round_nearest_even_exact in Em2. subst m2. rewrite Hm1. exact Hle.
    - assert (He'0 : e' <= 0) by lia.
      set (n := e' - e) in *.
      assert (Hn : 0 < n) by (unfold n; lia).
      assert (HP : 0 < 2 ^ n) by (apply two_pow_positive; lia).
      set (K := B * 2 ^ (- e')).
      assert (HK : B * 2 ^ W = K * 2 ^ n * 2 ^ (e + W)).
      { unfold K. rewrite <- !Z.mul_assoc. f_equal.
        rewrite <- !two_pow_add by (unfold n, W; lia). f_equal. unfold n. lia. }
      assert (HMK : Z.pos M <= K * 2 ^ n).
      { rewrite HK in Hle. apply Z.mul_le_mono_pos_r in Hle; assumption. }
      assert (Hm1K : shr_m mrs' <= K).
      { rewrite Hm1. apply Z.div_le_upper_bound; [exact HP|]. lia. }
      assert (Hm2K : m2 <= K).
      { destruct (Z.eq_dec (shr_m mrs') K) as [HeqK|HneK]; [|lia].
        assert (HM : Z.pos M = K * 2 ^ n).
        { pose proof (Z.mul_div_le (Z.pos M) (2 ^ n) HP) as Hdiv.
          rewrite <- Hm1, HeqK in Hdiv. lia. }
        rewrite Hx1 in Em2 by (exists K; exact HM).
        rewrite round_nearest_even_exact in Em2. lia. }
      replace (e' + W) with (n + (e + W)) by (unfold n; lia).
      rewrite two_pow_add by (unfold W; lia).
      rewrite HK. rewrite Z.mul_assoc.
      apply Z.mul_le_mono_nonneg_r; [lia|].
      apply Z.mul_le_mono_nonneg_r; lia. }
  destruct Hm2 as [Hm2n Hm2le].
  pose proof (shr_fexp_exact m2 e' Hm2n) as H2. cbv zeta in H2.
  destruct (shr_fexp prec emax m2 e' loc_Exact) as [mrs'' e''].
  cbn [fst snd] in H2. destruct H2 as (He'' & Hm3 & _).
  assert (Hee'' : e' <= e'') by lia.
  assert (HP2 : 0 < 2 ^ (e'' - e')) by (apply two_pow_positive; lia).
  assert (Hm3le : shr_m mrs'' * 2 ^ (e'' + W) <= B * 2 ^ W).
  { eapply Z.le_trans; [|exact Hm2le].
    replace (e'' + W) with ((e'' - e') + (e' + W)) by lia.
    rewrite two_pow_add by (unfold W; lia). rewrite Z.mul_assoc.
    apply Z.mul_le_mono_nonneg_r; [apply Z.lt_le_incl, two_pow_positive; unfold W; lia|].
    rewrite Hm3. rewrite Z.mul_comm. apply Z.mul_div_le. exact HP2. }
  assert (Hm3n : 0 <= shr_m mrs'').
  { rewrite Hm3. apply Z.div_pos; lia. }
  destruct (shr_m mrs'') as [|m3|m3] eqn:Em3; [exact I| |lia].
  assert (He''hi : e'' < 53).
  { assert (H : 2 ^ (e'' + W) < 2 ^ (53 + W)).
    { rewrite (two_pow_add 53 W) by (unfold W; lia).
      assert (0 < 2 ^ (e'' + W)) by (apply two_pow_positive; unfold W; lia).
      assert (B * 2 ^ W < 2 ^ 53 * 2 ^ W) by nia. nia. }
    apply Z.pow_lt_mono_r_iff in H; unfold W in *; lia. }
  change (emax - prec) with 971.
  destruct (Z.leb_spec e'' 971) as [_|Hbad]; [|lia].
  cbn [within_sf]. split; [lia|].
  assert (H1074 : 0 < 2 ^ 1074) by (apply two_pow_positive; lia).
  assert (E1 : 2 ^ (e'' + W) = 2 ^ (e'' + 1074) * 2 ^ 1074).
  { rewrite <- two_pow_add by lia. f_equal. unfold W. lia. }
  assert (E2 : 2 ^ W = 2 ^ 1074 * 2 ^ 1074).
  { rewrite <- two_pow_add by lia. reflexivity. }
  rewrite E1, E2, !Z.mul_assoc in Hm3le.
  apply Z.mul_le_mono_pos_r in Hm3le; assumption.
Qed.

(** ** Products and sums of bounded values *)

Lemma within_sf_mono (A B : Z) (x : spec_float) :
  A <= B -> within_sf A x -> within_sf B x.
Proof.
  intros HAB. destruct x as [s|s| |s m e]; cbn [within_sf]; try tauto.
  intros [He Hm]. split; [exact He|].
  eapply Z.le_trans; [exact Hm|].
  apply Z.mul_le_mono_nonneg_r; [|exact HAB]. apply Z.lt_le_incl, two_pow_positive. lia.
Qed.

(** The product of two bounded values is bounded by the product of the
    bounds. *)
Lemma SF64mul_within (A B C : Z) (x y : spec_float) :
  0 <= A -> 0 <= B -> A * B <= C < 2 ^ 53 ->
  within_sf A x -> within_sf B y -> within_sf C (SF64mul x y).
Proof.
  intros HA HB HC Hx Hy. unfold SF64mul.
  destruct x as [sx|sx| |sx mx ex], y as [sy|sy| |sy my ey];
    cbn [within_sf] in Hx, Hy; try contradiction; cbn [SFmul]; try exact I.
  destruct Hx as [Hex Hmx], Hy as [Hey Hmy].
  apply binary_round_aux_within; [lia|lia|].
  rewrite Pos2Z.inj_mul.
  assert (E1 : 2 ^ (ex + ey + 2148) = 2 ^ (ex + 1074) * 2 ^ (ey + 1074)).
  { rewrite <- two_pow_add by lia. f_equal. lia. }
  assert (E2 : 2 ^ 2148 = 2 ^ 1074 * 2 ^ 1074).
  { rewrite <- two_pow_add by lia. reflexivity. }
  rewrite E1, E2.
  assert (Hpx : 0 < 2 ^ (ex + 1074)) by (apply two_pow_positive; lia).
  assert (Hpy : 0 < 2 ^ (ey + 1074)) by (apply two_pow_positive; lia).
  assert (Hp : 0 < 2 ^ 1074) by (apply two_pow_positive; lia).
  remember (2 ^ (ex + 1074)) as px. remember (2 ^ (ey + 1074)) as py.
  remember (2 ^ 1074) as p.
  assert (H1 : (Z.pos mx * px) * (Z.pos my * py) <= (A * p) * (B * p)).
  { apply Z.mul_le_mono_nonneg; lia. }
  assert (H2 : (A * B) * (p * p) <= C * (p * p)).
  { apply Z.mul_le_mono_nonneg_r; lia. }
  lia.
Qed.

Lemma shl_align_scaled (m : positive) (e e' : Z) :
  -1074 <= e -> -1074 <= e' ->
  -1074 <= snd (shl_align m e e')
  /\ Z.pos (fst (shl_align m e e')) * 2 ^ (snd (shl_align m e e') + 2148)
     = Z.pos m * 2 ^ (e + 2148).
Proof.
  intros He He'. unfold shl_align.
  destruct (e' - e) as [|d|d] eqn:Hd; cbn [fst snd]; try (split; [lia|reflexivity]).
  split; [lia|]. unfold shift_pos. rewrite iter_xO_value.
  rewrite <- Z.mul_assoc. f_equal. rewrite <- two_pow_add by lia. f_equal. lia.
Qed.

Lemma binary_round_within (s : bool) (m : positive) (e C : Z) :
  0 <= C < 2 ^ 53 -> -1074 <= e ->
  Z.pos m * 2 ^ (e + 2148) <= C * 2 ^ 2148 ->
  within_sf C (binary_round prec emax s m e).
Proof.
  intros HC He Hle. unfold binary_round.
  pose proof (shl_align_scaled m e (fexp prec emax (Z.pos (digits2_pos m) + e)) He) as H.
  destruct (shl_align m e _) as [mz ez]. cbn [fst snd] in H.
  destruct H as [Hez Hval].
  { unfold fexp, SpecFloat.emin. change prec with 53. change emax with 1024. lia. }
  apply binary_round_aux_within; [exact HC|lia|]. now rewrite Hval.
Qed.

Lemma within_sf_scaled (A : Z) (s : bool) (m : positive) (e : Z) :
  within_sf A (S754_finite s m e) ->
  -1074 <= e /\ Z.pos m * 2 ^ (e + 2148) <= A * 2 ^ 2148.
Proof.
  cbn [within_sf]. intros [He Hm]. split; [exact He|].
  assert (E1 : 2 ^ (e + 2148) = 2 ^ (e + 1074) * 2 ^ 1074).
  { rewrite <- two_pow_add by lia. f_equal. lia. }
  assert (E2 : 2 ^ 2148 = 2 ^ 1074 * 2 ^ 1074).
  { rewrite <- two_pow_add by lia. reflexivity. }
  rewrite E1, E2, !Z.mul_assoc.
  apply Z.mul_le_mono_nonneg_r; [|exact Hm]. apply Z.lt_le_incl, two_pow_positive. lia.
Qed.

(** The sum of two bounded values is bounded by the sum of the bounds. *)
Lemma SF64add_within (A B C : Z) (x y : spec_float) :
  0 <= A -> 0 <= B -> A + B <= C < 2 ^ 53 ->
  within_sf A x -> within_sf B y -> within_sf C (SF64add x y).
Proof.
  intros HA HB HC Hx Hy. unfold SF64add.
  destruct x as [sx|sx| |sx mx ex], y as [sy|sy| |sy my ey];
    cbn [within_sf] in Hx, Hy; try contradiction; cbn [SFadd].
  - destruct sx, sy; exact I.
  - apply (within_sf_mono B); [lia|exact Hy].
  - apply (within_sf_mono A); [lia|exact Hx].
  - apply (within_sf_scaled A sx) in Hx as [Hex Hmx].
    apply (within_sf_scaled B sy) in Hy as [Hey Hmy].
    set (ez := Z.min ex ey).
    assert (Hez : -1074 <= ez) by (unfold ez; lia).
    pose proof (shl_align_value mx ex ez ltac:(unfold ez; lia)) as HX.
    pose proof (shl_align_value my ey ez ltac:(unfold ez; lia)) as HY.
    remember (Z.pos (fst (shl_align mx ex ez))) as X eqn:EX.
    remember (Z.pos (fst (shl_align my ey ez))) as Y eqn:EY.
    assert (HXs : X * 2 ^ (ez + 2148) = Z.pos mx * 2 ^ (ex + 2148)).
    { rewrite HX, <- Z.mul_assoc. f_equal.
      rewrite <- two_pow_add by (unfold ez; lia). f_equal. lia. }
    assert (HYs : Y * 2 ^ (ez + 2148) = Z.pos my * 2 ^ (ey + 2148)).
    { rewrite HY, <- Z.mul_assoc. f_equal.
      rewrite <- two_pow_add by (unfold ez; lia). f_equal. lia. }
    assert (HXp : 0 < X) by (subst X; lia).
    assert (HYp : 0 < Y) by (subst Y; lia).
    assert (Hp : 0 < 2 ^ (ez + 2148)) by (apply two_pow_positive; lia).
    assert (Hq : 0 < 2 ^ 2148) by (apply two_pow_positive; lia).
    assert (Hsum : (X + Y) * 2 ^ (ez + 2148) <= C * 2 ^ 2148) by nia.
    unfold binary_normalize.
    destruct (cond_Zopp sx X + cond_Zopp sy Y) as [|d|d] eqn:ED; [exact I| |].
    + apply binary_round_within; [lia|exact Hez|].
      assert (Z.pos d <= X + Y) by (destruct sx, sy; cbn [cond_Zopp] in ED; lia).
      nia.
    + apply binary_round_within; [lia|exact Hez|].
      assert (Z.pos d <= X + Y) by (destruct sx, sy; cbn [cond_Zopp] in ED; lia).
      nia.
Qed.

Lemma mul_within (A B C : Z) (x y : float) :
  0 <= A -> 0 <= B -> A * B <= C < 2 ^ 53 ->
  within A x -> within B y -> within C (x * y)%float.
Proof.
  unfold within. intros. rewrite FloatAxioms.mul_spec. now apply (SF64mul_within A B).
Qed.

Lemma add_within (A B C : Z) (x y : float) :
  0 <= A -> 0 <= B -> A + B <= C < 2 ^ 53 ->
  within A x -> within B y -> within C (x + y)%float.
Proof.
  unfold within. intros. rewrite FloatAxioms.add_spec. now apply (SF64add_within A B).
Qed.

Lemma within_number (B : Z) (x : float) : within B x -> is_nan x = false.
Proof.
  unfold within. intros H. destruct (is_nan x) eqn:E; [|reflexivity].
  unfold Prim2SF in H. rewrite E in H. contradiction.
Qed.

End Rounding.

(* ===================================================================== *)
(** * The magnitude of the transform                                      *)
(* ===================================================================== *)

Section Magnitude.
Import JS Binary64.

Lemma nan_of_Prim2SF (x : float) : Prim2SF x <> S754_nan -> is_nan x = false.
Proof.
  intros H. destruct (is_nan x) eqn:E; [|reflexivity].
  exfalso. apply H. unfold Prim2SF. now rewrite E.
Qed.

(** [x <= y] holds on numbers only, and then the ranks agree with it. *)
Lemma leb_key (x y : float) :
  (x <=? y)%float = true ->
  Prim2SF x <> S754_nan /\ Prim2SF y <> S754_nan /\ (key x <= key y)%Z.
Proof.
  rewrite FloatAxioms.leb_spec. unfold SFleb, key. intros H.
  assert (Nx : Prim2SF x <> S754_nan).
  { intros E. rewrite E in H. discriminate. }
  assert (Ny : Prim2SF y <> S754_nan).
  { intros E. rewrite E in H. destruct (Prim2SF x); discriminate. }
  split; [exact Nx|]. split; [exact Ny|].
  rewrite compare_rank in H by (try apply Prim2SF_valid; assumption).
  destruct (Z.compare_spec (rank (Prim2SF x)) (rank (Prim2SF y))); first [lia | discriminate].
Qed.

Local Open Scope Z_scope.

(** Among valid finite values, a smaller rank is a smaller magnitude. *)
Lemma rank_scaled (s t : bool) (m mb : positive) (e eb : Z) :
  valid_binary (S754_finite s m e) = true ->
  valid_binary (S754_finite t mb eb) = true ->
  (e + 1075) * 2 ^ 53 + Z.pos m <= (eb + 1075) * 2 ^ 53 + Z.pos mb ->
  Z.pos m * 2 ^ (e + 1074) <= Z.pos mb * 2 ^ (eb + 1074).
Proof.
  intros Hx Hb Hle.
  apply valid_finite in Hx as (Hm & He & _).
  apply valid_finite in Hb as (Hmb & Heb & Hnb).
  assert (H53 : 2 ^ 53 = 2 * 2 ^ 52) by reflexivity.
  assert (H52 : 0 < 2 ^ 52) by lia.
  assert (Hp : 0 < 2 ^ (e + 1074)) by (apply two_pow_positive; lia).
  destruct (Z.lt_trichotomy e eb) as [Hlt | [-> | Hgt]].
  - assert (E : 2 ^ (eb + 1074) = 2 ^ (eb - e) * 2 ^ (e + 1074)).
    { rewrite <- two_pow_add by lia. f_equal. lia. }
    assert (Hpow : 2 <= 2 ^ (eb - e))
      by (change 2 with (2 ^ 1) at 1; apply Z.pow_le_mono_r; lia).
    assert (Hmb' : 2 ^ 52 <= Z.pos mb) by lia.
    rewrite E. remember (2 ^ (e + 1074)) as p. remember (2 ^ (eb - e)) as q.
    assert (Z.pos m * p <= (2 * 2 ^ 52) * p) by nia.
    assert ((2 * 2 ^ 52) * p <= (Z.pos mb * q) * p) by nia.
    lia.
  - apply Z.mul_le_mono_nonneg_r; lia.
  - exfalso. nia.
Qed.

(** A value whose rank lies between the ranks of [-b] and [b] is bounded
    like [b]. *)
Lemma rank_within (B : Z) (b x : spec_float) :
  valid_binary x = true -> valid_binary b = true -> x <> S754_nan ->
  within_sf B b -> - rank b <= rank x <= rank b -> within_sf B x.
Proof.
  intros Hx Hb Nx HB Hr.
  destruct x as [s|s| |s m e]; [exact I| | congruence |].
  - exfalso. destruct b as [t|t| |t mb eb]; cbn [within_sf] in HB; try contradiction.
    + cbn [rank] in Hr. destruct s; lia.
    + pose proof (rank_finite_bounds _ _ _ Hb) as Bb. cbv zeta in Bb.
      cbn [rank] in Hr. destruct s, t; lia.
  - pose proof (rank_finite_bounds _ _ _ Hx) as Bx. cbv zeta in Bx.
    destruct b as [t|t| |t mb eb]; cbn [within_sf] in HB; try contradiction.
    + exfalso. cbn [rank] in Hr. destruct s; lia.
    + pose proof (rank_finite_bounds _ _ _ Hb) as Bb. cbv zeta in Bb.
      destruct HB as [Heb HB]. cbn [within_sf].
      pose proof (valid_finite _ _ _ Hx) as (_ & He & _).
      split; [lia|]. eapply Z.le_trans; [|exact HB].
      apply (rank_scaled s t); try assumption.
      cbn [rank] in Hr. destruct s, t; lia.
Qed.

Lemma between_within (B : Z) (lo hi x : float) :
  within B hi -> - key hi <= key lo ->
  Spec.between lo hi x = true -> within B x.
Proof.
  unfold within, Spec.between, key. intros Hhi Hlo H.
  apply andb_prop in H as [H1 H2].
  apply leb_key in H1 as (_ & Nx & H1). apply leb_key in H2 as (_ & _ & H2).
  unfold key in H1, H2.
  apply (rank_within B (Prim2SF hi)); try apply Prim2SF_valid; try assumption. lia.
Qed.

Lemma fold_left_within {X : Type} (g : float -> X -> float) (c : Z) (l : list X) :
  0 <= c ->
  (forall A s x, List.In x l -> 0 <= A -> A + c < 2 ^ 53 ->
                 within A s -> within (A + c) (g s x)) ->
  forall A s, 0 <= A -> A + c * Z.of_nat (length l) < 2 ^ 53 ->
    within A s -> within (A + c * Z.of_nat (length l)) (fold_left g l s).
Proof.
  intros Hc. induction l as [|a l IH]; intros Hg A s HA Hlt Hs; cbn [fold_left length].
  - replace (A + c * Z.of_nat 0) with A by lia. exact Hs.
  - cbn [length] in Hlt. rewrite Nat2Z.inj_succ in Hlt |- *.
    assert (Hn : 0 <= c * Z.of_nat (length l)) by nia.
    replace (A + c * Z.succ (Z.of_nat (length l)))
      with ((A + c) + c * Z.of_nat (length l)) in Hlt |- * by lia.
    apply IH.
    + intros A' s' x Hx. apply Hg. now right.
    + lia.
    + exact Hlt.
    + apply Hg; [now left|lia|lia|exact Hs].
Qed.

Local Close Scope Z_scope.

Ltac within_by_computation :=
  unfold within; vm_compute; first [exact I | split; intro; discriminate].

Lemma scale_within (u v : nat) :
  within 1 (2 / of_nat 32 * HashUtils.alpha u * HashUtils.alpha v)%float.
Proof.
  unfold HashUtils.alpha. destruct (u =? 0), (v =? 0); within_by_computation.
Qed.

Lemma entry_intensity (m : HashUtils.matrix) (y x : nat) :
  Spec.square 32 m -> Spec.intensities m = true -> y < 32 -> x < 32 ->
  within 255 (HashUtils.entry m y x).
Proof.
  intros [Hrows Hcols] Hm Hy Hx. unfold HashUtils.entry.
  assert (Hrow : List.In (nth y m []) m) by (apply nth_In; lia).
  rewrite List.Forall_forall in Hcols. specialize (Hcols _ Hrow).
  unfold Spec.intensities in Hm. rewrite forallb_forall in Hm. specialize (Hm _ Hrow).
  rewrite forallb_forall in Hm.
  apply (between_within 255 0 255).
  - within_by_computation.
  - vm_compute. discriminate.
  - apply Hm, nth_In. lia.
Qed.

Lemma cosine_within (Math_cos : float -> float) (i k : nat) :
  Spec.unit_cosines Math_cos -> i < 32 -> k < 8 ->
  within 1 (Math_cos (HashUtils.angle 32 i k)).
Proof.
  intros Hcos Hi Hk. apply (between_within 1 (-1) 1).
  - within_by_computation.
  - vm_compute. discriminate.
  - now apply Hcos.
Qed.

Section Transform.
Variable Math_cos : float -> float.
Variable m : HashUtils.matrix.
Hypothesis Hsquare : Spec.square 32 m.
Hypothesis Hintensities : Spec.intensities m = true.
Hypothesis Hcos : Spec.unit_cosines Math_cos.

Lemma term_within (u v y x : nat) :
  u < 8 -> v < 8 -> y < 32 -> x < 32 ->
  within 255 (HashUtils.term Math_cos m 32 u v y x).
Proof.
  intros Hu Hv Hy Hx. unfold HashUtils.term.
  apply (mul_within 255 1); [lia|lia|lia| |now apply cosine_within].
  apply (mul_within 255 1); [lia|lia|lia| |now apply cosine_within].
  now apply entry_intensity.
Qed.

(** The 1024 summands are bounded by 255 each, and no partial sum leaves
    the integers that binary64 holds exactly. *)
Lemma dct_sum_within (u v : nat) :
  u < 8 -> v < 8 -> within 261120 (HashUtils.dct_sum Math_cos m 32 u v).
Proof.
  intros Hu Hv. unfold HashUtils.dct_sum.
  change 261120%Z with (0 + 8160 * Z.of_nat (length (seq 0 32)))%Z.
  apply fold_left_within; [lia| |lia|reflexivity|within_by_computation].
  intros A s y Hy HA HA' Hs. apply in_seq in Hy.
  change 8160%Z with (255 * Z.of_nat (length (seq 0 32)))%Z.
  apply fold_left_within; [lia| |exact HA|exact HA'|exact Hs].
  intros A' s' x Hx HA1 HA2 Hs'. apply in_seq in Hx.
  apply (add_within A' 255); [lia|lia|lia|exact Hs'|].
  apply term_within; lia.
Qed.

Lemma coefficient_within (u v : nat) :
  u < 8 -> v < 8 -> within 261120 (HashUtils.coefficient Math_cos m 32 u v).
Proof.
  intros Hu Hv. unfold HashUtils.coefficient.
  apply (mul_within 1 261120); [lia|lia|lia|apply scale_within|now apply dct_sum_within].
Qed.

(** No low-frequency coefficient of a matrix of intensities is NaN. *)
Lemma coefficients_are_numbers :
  Spec.all_numbers (Spec.low_frequency_coefficients Math_cos m) = true.
Proof.
  unfold Spec.all_numbers, Spec.low_frequency_coefficients.
  destruct Hsquare as [Hrows _]. rewrite Hrows.
  rewrite forallb_forall. intros c Hc. apply in_map_iff in Hc as (p & <- & Hp).
  assert (Hlt : fst p < 8 /\ snd p < 8).
  { pose proof block_positions_in_range as Hrange.
    rewrite List.Forall_forall in Hrange. exact (Hrange _ Hp). }
  apply negb_true_iff. apply (within_number 261120).
  apply coefficient_within; tauto.
Qed.

End Transform.

Lemma sample_cosines : Spec.unit_cosines Sample.cos.
Proof.
  intros i k Hi Hk.
  assert (H : forallb (fun i => forallb (fun k =>
                 Spec.between (-1) 1 (Sample.cos (HashUtils.angle 32 i k))) (seq 0 8))
                (seq 0 32) = true) by (vm_compute; reflexivity).
  rewrite forallb_forall in H. specialize (H i ltac:(apply in_seq; lia)).
  rewrite forallb_forall in H. apply H. apply in_seq. lia.
Qed.

Lemma sample_intensities : Spec.intensities Sample.textured = true.
Proof. vm_compute. reflexivity. Qed.

End Magnitude.

(* ===================================================================== *)
(** * The median split                                                    *)
(* ===================================================================== *)

Section MedianSplit.
Import JS Binary64.

Lemma number_not_nan (x : float) : is_nan x = false -> Prim2SF x <> S754_nan.
Proof.
  intros H. unfold Prim2SF. rewrite H.
  destruct (PrimFloat.is_zero x); [discriminate|].
  destruct (PrimFloat.is_infinity x); [discriminate|].
  destruct (FloatOps.Z.frexp x) as [r exp].
  destruct (shr_fexp _ _ _ _ _) as [mrs e'].
  destruct (shr_m mrs); discriminate.
Qed.

(** [a > b] on numbers, through the rank. *)
Lemma gt_key (a b : float) :
  is_nan a = false -> is_nan b = false -> gt a b = (key b <? key a)%Z.
Proof.
  intros Ha Hb. unfold gt, key. rewrite FloatAxioms.ltb_spec. unfold SFltb.
  rewrite compare_rank by (try apply Prim2SF_valid; now apply number_not_nan).
  unfold Z.ltb. now destruct (rank (Prim2SF b) ?= rank (Prim2SF a))%Z.
Qed.

(** The comparator [(a, b) => a - b] asks for a swap exactly when [b]
    ranks below [a]. *)
Lemma comparator_key (a b : float) :
  is_nan a = false -> is_nan b = false ->
  gt (a - b)%float zero = (key b <? key a)%Z.
Proof.
  intros Ha Hb. unfold gt, key.
  rewrite FloatAxioms.ltb_spec, FloatAxioms.sub_spec.
  change (Prim2SF zero) with (S754_zero false).
  apply sub_positive_rank; try apply Prim2SF_valid; now apply number_not_nan.
Qed.

Lemma insert_ascending (x : float) (l : list float) :
  is_nan x = false -> Forall (fun v => is_nan v = false) l ->
  Spec.ascending l ->
  Spec.ascending (insert (fun a b => (a - b)%float) x l).
Proof.
  unfold Spec.ascending. intros Hx Hl Hs.
  induction Hs as [|y l Hs IH Hy]; cbn [insert].
  - repeat constructor.
  - apply Forall_cons_1 in Hl as [Hny Hl].
    rewrite comparator_key by assumption.
    destruct (key y <? key x)%Z eqn:Hlt.
    + apply Z.ltb_lt in Hlt. constructor; [now apply IH|].
      eapply Permutation_Forall; [symmetry; apply insert_perm|].
      constructor; [lia | exact Hy].
    + apply Z.ltb_ge in Hlt. constructor; [now constructor|].
      constructor; [exact Hlt|].
      eapply List.Forall_impl; [|exact Hy]. simpl. intros v Hv. lia.
Qed.

(** On numbers, the model of [sort((a, b) => a - b)] sorts. *)
Lemma sort_ascending_sorted (l : list float) :
  Forall (fun v => is_nan v = false) l ->
  Spec.ascending (HashUtils.sort_ascending l).
Proof.
  unfold HashUtils.sort_ascending.
  induction 1 as [|x l Hx Hl IH]; cbn [sort fold_right].
  - constructor.
  - apply insert_ascending; [exact Hx| |exact IH].
    eapply Permutation_Forall; [symmetry; apply sort_perm | exact Hl].
Qed.

(** In an ascending list, the elements above the one at index [i] are
    found after it. *)
Lemma count_above (s : list float) (i : nat) :
  Spec.ascending s -> i < length s ->
  length (List.filter (fun v => (key (nth i s nan) <? key v)%Z) s) + S i <= length s.
Proof.
  unfold Spec.ascending. intros Hs. revert i.
  induction Hs as [|a s Hs IH Ha]; intros i Hi; cbn [length] in *; [lia|].
  destruct i as [|i]; cbn [nth List.filter].
  - rewrite Z.ltb_irrefl.
    pose proof (List.filter_length_le (fun v => (key a <? key v)%Z) s). lia.
  - assert (Hi' : i < length s) by lia.
    assert (Hmed : (key a <= key (nth i s nan))%Z).
    { rewrite List.Forall_forall in Ha. apply Ha, nth_In, Hi'. }
    apply Z.ltb_ge in Hmed. rewrite Hmed.
    specialize (IH i Hi'). lia.
Qed.

Lemma filter_length_perm {A} (p : A -> bool) (l l' : list A) :
  Permutation l l' -> length (List.filter p l) = length (List.filter p l').
Proof.
  induction 1 as [|x l l' _ IH|x y l|l l' l'' _ IH1 _ IH2]; cbn [List.filter].
  - reflexivity.
  - destruct (p x); cbn [length]; now rewrite IH.
  - destruct (p x), (p y); reflexivity.
  - now rewrite IH1.
Qed.

Lemma all_numbers_Forall (l : list float) :
  Spec.all_numbers l = true -> Forall (fun v => is_nan v = false) l.
Proof.
  unfold Spec.all_numbers. rewrite forallb_forall, List.Forall_forall.
  intros H v Hv. apply negb_true_iff. now apply H.
Qed.

(** Of 63 numbers, at most 31 exceed the one at sorted index 31. *)
Lemma above_median (block : list float) :
  length block = 63 -> Spec.all_numbers block = true ->
  length (List.filter (fun v => gt v (Spec.median_of block)) block) <= 31.
Proof.
  intros Hlen Hnum. apply all_numbers_Forall in Hnum.
  set (sorted := HashUtils.sort_ascending block).
  assert (Hperm : Permutation sorted block) by apply sort_perm.
  assert (Hslen : length sorted = 63) by (rewrite <- Hlen; now apply Permutation_length).
  assert (Hsnum : Forall (fun v => is_nan v = false) sorted)
    by (eapply Permutation_Forall; [symmetry; exact Hperm | exact Hnum]).
  assert (Hmed : is_nan (Spec.median_of block) = false).
  { rewrite List.Forall_forall in Hsnum. apply Hsnum.
    unfold Spec.median_of. fold sorted. apply nth_In. lia. }
  rewrite (List.filter_ext_in _ (fun v => (key (Spec.median_of block) <? key v)%Z)).
  - rewrite <- (filter_length_perm _ _ _ Hperm).
    pose proof (count_above sorted 31 (sort_ascending_sorted block Hnum)) as H.
    unfold Spec.median_of. fold sorted. lia.
  - intros v Hv. apply gt_key; [|exact Hmed].
    rewrite List.Forall_forall in Hnum. now apply Hnum.
Qed.

Lemma join_bits_zeros (p : float -> bool) (l : list float) :
  count_char "0" (join (map (fun v => if p v then "1" else "0")%string l))
  + length (List.filter p l) = length l.
Proof.
  induction l as [|v l IH]; [reflexivity|].
  rewrite join_bits_cons. cbn [count_char List.filter length].
  destruct (p v); cbn [Ascii.eqb Bool.eqb length]; simpl; lia.
Qed.

(** When none of the 63 low-frequency coefficients is NaN, the
    fingerprint has at most 31 ones: a bit is 1 only where the coefficient
    exceeds the element at sorted index 31, which at most 31 of the 63
    can do. *)
Lemma median_split_bits (Math_cos : float -> float) (m : HashUtils.matrix) :
  Spec.square 32 m ->
  Spec.all_numbers (Spec.low_frequency_coefficients Math_cos m) = true ->
  exists bits : string,
    fst (HashUtils.computePHashFromMatrix Math_cos (Some m)) = Some bits
    /\ Legacy.computePHashFromMatrix Math_cos m = Normal bits
    /\ bits = HashUtils.bits_of (Spec.low_frequency_coefficients Math_cos m)
                (Spec.median_of (Spec.low_frequency_coefficients Math_cos m))
    /\ Spec.ones bits <= 31
    /\ Spec.ones bits < Spec.zeros bits.
Proof.
  intros [Hrows _] Hnum.
  destruct (hash_of_32_rows Math_cos m Hrows) as [H1 H2]. cbv zeta in H1, H2.
  set (block := Spec.low_frequency_coefficients Math_cos m) in *.
  assert (Hlen : length block = 63) by apply low_frequency_coefficients_length.
  pose proof (above_median block Hlen Hnum) as Hones.
  pose proof (join_bits_zeros (fun v => gt v (Spec.median_of block)) block) as Hzeros.
  eexists. split; [now rewrite H1|]. split; [exact H2|]. split; [reflexivity|].
  unfold Spec.ones, Spec.zeros, HashUtils.bits_of.
  rewrite join_bits_ones. lia.
Qed.

(** C10.  The fingerprint of a 32x32 matrix of intensities (numbers from
    0 to 255) has at most 31 ones, fewer than it has zeros, in both
    builds and for every cosine whose values at the angles of the
    transform lie between -1 and 1: no coefficient is NaN then, a bit is
    1 only where the coefficient exceeds the element at sorted index 31,
    and at most 31 of the 63 coefficients can do that. *)
Theorem fingerprint_ones_at_most_31 (Math_cos : float -> float) (m : HashUtils.matrix) :
  Spec.square 32 m ->
  Spec.intensities m = true ->
  Spec.unit_cosines Math_cos ->
  exists bits : string,
    fst (HashUtils.computePHashFromMatrix Math_cos (Some m)) = Some bits
    /\ Legacy.computePHashFromMatrix Math_cos m = Normal bits
    /\ bits = HashUtils.bits_of (Spec.low_frequency_coefficients Math_cos m)
                (Spec.median_of (Spec.low_frequency_coefficients Math_cos m))
    /\ Spec.ones bits <= 31
    /\ Spec.ones bits < Spec.zeros bits.
Proof.
  intros Hsquare Hm Hcos. apply median_split_bits; [exact Hsquare|].
  now apply coefficients_are_numbers.
Qed.

Lemma fingerprint_ones_at_most_31_witness :
  exists bits : string,
    fst (HashUtils.computePHashFromMatrix Sample.cos (Some Sample.textured)) = Some bits
    /\ Spec.ones bits <= 31.
Proof.
  destruct (fingerprint_ones_at_most_31 Sample.cos Sample.textured
              sample_textured_square sample_intensities sample_cosines)
    as (bits & H1 & _ & _ & H4 & _).
  exists bits. split; assumption.
Defined.

End MedianSplit.

(* ===================================================================== *)
(** * The Hamming distance as a metric                                    *)
(* ===================================================================== *)

Section Metric.
Import JS.

Lemma get_none (s : string) (i : nat) :
  String.get i s = None <-> String.length s <= i.
Proof.
  revert i. induction s as [|c s IH]; intros i; simpl.
  - split; [lia|reflexivity].
  - destruct i as [|i]; [split; [discriminate|lia]|].
    rewrite IH. lia.
Qed.

Lemma char_differs_beyond (a b : string) (i : nat) :
  String.length a <= i -> String.length b <= i -> HashUtils.char_differs a b i = false.
Proof.
  intros Ha Hb. unfold HashUtils.char_differs.
  apply get_none in Ha. apply get_none in Hb. now rewrite Ha, Hb.
Qed.

Lemma char_differs_gap (a b : string) (i : nat) :
  Nat.min (String.length a) (String.length b) <= i ->
  i < Nat.max (String.length a) (String.length b) ->
  HashUtils.char_differs a b i = true.
Proof.
  intros Hlo Hhi. unfold HashUtils.char_differs.
  destruct (String.get i a) as [x|] eqn:Ea, (String.get i b) as [y|] eqn:Eb;
    try reflexivity.
  - assert (String.get i a <> None) by congruence.
    assert (String.get i b <> None) by congruence.
    rewrite get_none in *. lia.
  - apply get_none in Ea. apply get_none in Eb. lia.
Qed.

Lemma filter_all {A} (p : A -> bool) (l : list A) :
  (forall x, List.In x l -> p x = true) -> List.filter p l = l.
Proof.
  induction l as [|a l IH]; intros H; simpl; [reflexivity|].
  rewrite (H a) by now left. f_equal. apply IH. intros x Hx. apply H. now right.
Qed.

Lemma filter_none {A} (p : A -> bool) (l : list A) :
  (forall x, List.In x l -> p x = false) -> List.filter p l = [].
Proof.
  induction l as [|a l IH]; intros H; simpl; [reflexivity|].
  rewrite (H a) by now left. apply IH. intros x Hx. apply H. now right.
Qed.

(** The distance counts the positions at which the two strings differ,
    a missing character differing from every character: any range that
    covers both strings gives the same count. *)
Lemma distance_of_padded (a b : string) (N : nat) :
  Nat.max (String.length a) (String.length b) <= N ->
  HashUtils.distance_of a b = length (List.filter (HashUtils.char_differs a b) (seq 0 N)).
Proof.
  intros HN. unfold HashUtils.distance_of. cbv zeta.
  rewrite counting_loop, abs_gap. simpl.
  set (lo := Nat.min (String.length a) (String.length b)).
  set (hi := Nat.max (String.length a) (String.length b)) in *.
  assert (Hlohi : lo <= hi) by (unfold lo, hi; lia).
  replace N with (lo + ((hi - lo) + (N - hi))) by lia.
  rewrite !seq_app, !List.filter_app, !length_app. simpl.
  rewrite (filter_all _ (seq lo (hi - lo))).
  - rewrite (filter_none _ (seq (lo + (hi - lo)) (N - hi))).
    + rewrite length_seq. simpl. lia.
    + intros i Hi. apply in_seq in Hi.
      apply char_differs_beyond; unfold hi in *; lia.
  - intros i Hi. apply in_seq in Hi.
    apply char_differs_gap; fold lo; fold hi; lia.
Qed.

Lemma char_differs_sym (a b : string) (i : nat) :
  HashUtils.char_differs a b i = HashUtils.char_differs b a i.
Proof.
  unfold HashUtils.char_differs.
  destruct (String.get i a) as [x|], (String.get i b) as [y|]; try reflexivity.
  f_equal. destruct (Ascii.eqb_spec x y) as [->|Hne].
  - now rewrite Ascii.eqb_refl.
  - symmetry. apply Ascii.eqb_neq. congruence.
Qed.

Lemma distance_of_sym (a b : string) :
  HashUtils.distance_of a b = HashUtils.distance_of b a.
Proof.
  rewrite (distance_of_padded a b (Nat.max (String.length a) (String.length b))) by lia.
  rewrite (distance_of_padded b a (Nat.max (String.length a) (String.length b))) by lia.
  f_equal. apply List.filter_ext. intros i. apply char_differs_sym.
Qed.

Lemma distance_of_zero (a b : string) : HashUtils.distance_of a b = 0 <-> a = b.
Proof.
  split.
  - intros H. apply String.get_correct. intros i.
    set (N := Nat.max (String.length a) (String.length b)).
    destruct (Nat.lt_ge_cases i N) as [Hi|Hi].
    + rewrite (distance_of_padded a b N) in H by (unfold N; lia).
      apply length_zero_iff_nil in H.
      assert (Hd : HashUtils.char_differs a b i = false).
      { destruct (HashUtils.char_differs a b i) eqn:E; [|reflexivity].
        assert (Hin : List.In i (List.filter (HashUtils.char_differs a b) (seq 0 N))).
        { apply List.filter_In. split; [apply in_seq; lia|exact E]. }
        rewrite H in Hin. destruct Hin. }
      rewrite char_differs_decide in Hd. apply bool_decide_eq_false in Hd.
      destruct (decide (String.get i a = String.get i b)) as [E|E]; [exact E|].
      exfalso. now apply Hd.
    + assert (Ha : String.get i a = None) by (apply get_none; unfold N in Hi; lia).
      assert (Hb : String.get i b = None) by (apply get_none; unfold N in Hi; lia).
      now rewrite Ha, Hb.
  - intros ->. rewrite (distance_of_padded b b (String.length b)) by lia.
    rewrite filter_none; [reflexivity|].
    intros i _. rewrite char_differs_decide. apply bool_decide_eq_false.
    intros H. now apply H.
Qed.

Lemma filter_length_cover {A} (p q r : A -> bool) (l : list A) :
  (forall x, p x = true -> q x = true \/ r x = true) ->
  length (List.filter p l) <= length (List.filter q l) + length (List.filter r l).
Proof.
  intros H. induction l as [|a l IH]; simpl; [lia|].
  specialize (H a).
  destruct (p a), (q a), (r a); simpl; try lia.
Qed.

Lemma distance_of_triangle (a b c : string) :
  HashUtils.distance_of a c <= HashUtils.distance_of a b + HashUtils.distance_of b c.
Proof.
  set (N := Nat.max (String.length a) (Nat.max (String.length b) (String.length c))).
  rewrite (distance_of_padded a c N), (distance_of_padded a b N),
    (distance_of_padded b c N) by (unfold N; lia).
  apply filter_length_cover. intros i.
  rewrite !char_differs_decide. intros H. apply bool_decide_eq_true in H.
  destruct (decide (String.get i a = String.get i b)) as [E|E].
  - right. apply bool_decide_eq_true. congruence.
  - left. now apply bool_decide_eq_true.
Qed.

Lemma hammingDistance_strings (a b : string) :
  a <> EmptyString -> b <> EmptyString ->
  HashUtils.hammingDistance (Str a) (Str b) = Count (HashUtils.distance_of a b).
Proof.
  intros Ha Hb. unfold HashUtils.hammingDistance.
  now rewrite (nonempty_truthy a Ha), (nonempty_truthy b Hb).
Qed.

(** A finite distance is a distance between two non-empty strings. *)
Lemma hammingDistance_finite (a b : value) (n : nat) :
  HashUtils.hammingDistance a b = Count n ->
  exists s t, a = Str s /\ b = Str t /\ s <> EmptyString /\ t <> EmptyString
              /\ n = HashUtils.distance_of s t.
Proof.
  unfold HashUtils.hammingDistance.
  destruct (falsy a) eqn:Fa; [discriminate|].
  destruct (falsy b) eqn:Fb; [discriminate|]. simpl.
  destruct a as [|s|z]; try discriminate. destruct b as [|t|z]; try discriminate.
  intros H. injection H as <-. exists s, t.
  repeat split; try reflexivity; intros ->; discriminate.
Qed.

(** X1.  [hammingDistance] is symmetric on all values; on non-empty
    strings it is a metric: the distance is 0 exactly between equal
    strings, and the distance from [a] to [c] is at most the distance
    from [a] to [b] plus the distance from [b] to [c]. *)
Theorem hammingDistance_metric :
  (forall a b : value, HashUtils.hammingDistance a b = HashUtils.hammingDistance b a)
  /\ (forall a b : option string, Legacy.hamming a b = Legacy.hamming b a)
  /\ (forall a b : string, a <> EmptyString -> b <> EmptyString ->
        (HashUtils.hammingDistance (Str a) (Str b) = Count 0 <-> a = b))
  /\ (forall a b c : string,
        a <> EmptyString -> b <> EmptyString -> c <> EmptyString ->
        exists x y z,
          HashUtils.hammingDistance (Str a) (Str b) = Count x
          /\ HashUtils.hammingDistance (Str b) (Str c) = Count y
          /\ HashUtils.hammingDistance (Str a) (Str c) = Count z
          /\ z <= x + y).
Proof.
  split; [|split; [|split]].
  - intros a b. unfold HashUtils.hammingDistance. rewrite (orb_comm (falsy a)).
    destruct (falsy b || falsy a); [reflexivity|].
    destruct a as [|s|z], b as [|t|z']; try reflexivity.
    now rewrite distance_of_sym.
  - intros [a|] [b|]; try reflexivity. unfold Legacy.hamming.
    rewrite (orb_comm (Legacy.falsy (Some a))).
    destruct (Legacy.falsy (Some b) || Legacy.falsy (Some a)); [reflexivity|].
    f_equal. exact (distance_of_sym a b).
  - intros a b Ha Hb. rewrite hammingDistance_strings by assumption.
    rewrite <- distance_of_zero. split; [now intros [= ->]|now intros ->].
  - intros a b c Ha Hb Hc.
    exists (HashUtils.distance_of a b), (HashUtils.distance_of b c),
      (HashUtils.distance_of a c).
    rewrite !hammingDistance_strings by assumption.
    repeat split. apply distance_of_triangle.
Qed.

(** X2.  Similarity chains with the thresholds added: when [a] is within
    [t1] of [b] and [b] within [t2] of [c], then [a] is within [t1 + t2]
    of [c]; and similarity does not depend on the order of the two
    hashes. *)
Theorem areHashesSimilar_chain (a b c : value) (t1 t2 : Z) :
  HashUtils.areHashesSimilar a b t1 = true ->
  HashUtils.areHashesSimilar b c t2 = true ->
  HashUtils.areHashesSimilar a c (t1 + t2) = true
  /\ HashUtils.areHashesSimilar b a t1 = true.
Proof.
  unfold HashUtils.areHashesSimilar. intros H1 H2.
  destruct (HashUtils.hammingDistance a b) as [x|] eqn:Eab; [|discriminate].
  destruct (HashUtils.hammingDistance b c) as [y|] eqn:Ebc; [|discriminate].
  simpl in H1, H2. apply Z.leb_le in H1. apply Z.leb_le in H2.
  pose proof Eab as Eba.
  apply hammingDistance_finite in Eab as (s & t & -> & -> & Hs & Ht & ->).
  apply hammingDistance_finite in Ebc as (t' & u & Et & -> & _ & Hu & ->).
  injection Et as <-.
  split.
  - rewrite hammingDistance_strings by assumption. simpl. apply Z.leb_le.
    pose proof (distance_of_triangle s t u). lia.
  - rewrite hammingDistance_strings in * by assumption.
    rewrite distance_of_sym. simpl. apply Z.leb_le. lia.
Qed.

Lemma areHashesSimilar_chain_witness :
  HashUtils.areHashesSimilar (Str "1100") (Str "0011") 4 = true.
Proof.
  assert (H1 : HashUtils.areHashesSimilar (Str "1100") (Str "1111") 2 = true)
    by reflexivity.
  assert (H2 : HashUtils.areHashesSimilar (Str "1111") (Str "0011") 2 = true)
    by reflexivity.
  exact (proj1 (areHashesSimilar_chain _ _ _ 2 2 H1 H2)).
Defined.

End Metric.

(* ===================================================================== *)
(** * Validation of fingerprints                                          *)
(* ===================================================================== *)

Section Validation.
Import JS Constants HashReports.

Lemma all_01_is_bits (s : string) : all_01 s = Spec.is_bits s.
Proof. induction s as [|c s IH]; simpl; [reflexivity|]. now rewrite IH. Qed.

Lemma calculateEntropy_string (Math_log2 : float -> float) (s : string) :
  exists e, calculateEntropy Math_log2 (Str s) = Normal e.
Proof.
  unfold calculateEntropy. destruct (falsy (Str s)); [eexists; reflexivity|].
  destruct (_ || _); eexists; reflexivity.
Qed.

Lemma join_bits_is_bits (p : float -> bool) (l : list float) :
  Spec.is_bits (join (map (fun v => if p v then "1" else "0")%string l)) = true.
Proof.
  induction l as [|v l IH]; [reflexivity|].
  rewrite join_bits_cons. destruct (p v); simpl; exact IH.
Qed.

(** The verdict of [validateHash] on a non-empty string over 0 and 1. *)
Lemma validateHash_binary (Math_log2 : float -> float) (cfg : HASH_CONFIG_t) (s : string) :
  s <> EmptyString -> Spec.is_bits s = true ->
  exists r,
    validateHash Math_log2 cfg (Str s) = Normal r
    /\ issues r
       = (if HashUtils.isTrivialHash cfg (Str s)
          then ["Hash appears to be trivial (low entropy)"%string] else [])
         ++ (if String.length s =? 63 then []
             else [("Unexpected hash length: " ++ Number_toString (String.length s)
                    ++ ", expected: 63")%string])
    /\ valid r = (length (issues r) =? 0).
Proof.
  intros Hne Hbits. unfold validateHash.
  rewrite (nonempty_truthy s Hne).
  assert (Ht : test_binary s = true).
  { unfold test_binary. destruct s; [congruence|]. now rewrite all_01_is_bits. }
  rewrite Ht. cbn [negb].
  destruct (calculateEntropy_string Math_log2 s) as [e ->].
  cbv beta iota delta [bind]. eexists. split; [reflexivity|].
  cbn [issues valid].
  change (DCT_BLOCK_SIZE VIDEO_PROCESSING * DCT_BLOCK_SIZE VIDEO_PROCESSING - 1) with 63.
  destruct (String.length s =? 63); cbn [negb].
  - rewrite app_nil_r. split; reflexivity.
  - split; reflexivity.
Qed.

(** A hash that [validateHash] declares valid is a fingerprint. *)
Lemma valid_is_fingerprint (Math_log2 : float -> float) (cfg : HASH_CONFIG_t)
  (h : value) (r : Validation) :
  validateHash Math_log2 cfg h = Normal r -> valid r = true ->
  exists s, h = Str s /\ Spec.is_bits s = true /\ String.length s = 63
            /\ MIN_ONES_ZEROS cfg < Spec.ones s /\ MIN_ONES_ZEROS cfg < Spec.zeros s.
Proof.
  destruct h as [|s|z].
  - intros [= <-]. discriminate.
  - destruct s as [|c s'] eqn:Es; [intros [= <-]; discriminate|].
    rewrite <- Es. assert (Hne : s <> EmptyString) by (subst s; discriminate).
    clear Es c s'.
    destruct (Spec.is_bits s) eqn:Hbits.
    + destruct (validateHash_binary Math_log2 cfg s Hne Hbits) as (r' & Hr & Hi & Hv).
      rewrite Hr. intros [= <-]. rewrite Hv, Nat.eqb_eq, length_zero_iff_nil, Hi.
      pose proof (bits_length s Hbits) as Hlen.
      rewrite isTrivialHash_unfold.
      intros H. apply app_eq_nil in H as [H1 H2].
      destruct (_ || _) eqn:Htriv; [discriminate|].
      destruct (String.length s =? 63) eqn:H63; [|discriminate].
      apply Nat.eqb_eq in H63. apply orb_false_iff in Htriv as [Ho Hz].
      apply Nat.leb_gt in Ho. apply Nat.leb_gt in Hz.
      exists s. repeat split; try assumption. lia.
    + assert (Ht : test_binary s = false).
      { unfold test_binary. destruct s; [congruence|]. now rewrite all_01_is_bits. }
      unfold validateHash. rewrite (nonempty_truthy s Hne), Ht.
      intros [= <-]. discriminate.
  - destruct (Z.eqb_spec z 0) as [->|Hz].
    + intros [= <-]. discriminate.
    + unfold validateHash. cbn [falsy]. apply Z.eqb_neq in Hz. rewrite Hz.
      intros [= <-]. discriminate.
Qed.

(** X3.  [validateHash] never throws, and it declares a hash valid
    exactly when the hash is a string over 0 and 1, of length 63, with
    more ones and more zeros than the configured minimum; a valid result
    is one without issues. *)
Theorem validateHash_verdict (Math_log2 : float -> float) (cfg : HASH_CONFIG_t) (h : value) :
  exists r,
    validateHash Math_log2 cfg h = Normal r
    /\ (valid r = true <-> issues r = [])
    /\ (valid r = true <->
        exists s, h = Str s /\ Spec.is_bits s = true /\ String.length s = 63
                  /\ MIN_ONES_ZEROS cfg < Spec.ones s
                  /\ MIN_ONES_ZEROS cfg < Spec.zeros s).
Proof.
  destruct h as [|s|z].
  - eexists. split; [reflexivity|]. cbn [valid issues].
    split; [split; discriminate|]. split; [discriminate|]. intros (s & H & _). discriminate.
  - destruct s as [|c s'] eqn:Es.
    { eexists. split; [reflexivity|]. cbn [valid issues].
      split; [split; discriminate|]. split; [discriminate|].
      intros (s0 & [= <-] & _ & Hlen & _). discriminate. }
    rewrite <- Es. assert (Hne : s <> EmptyString) by (subst s; discriminate).
    clear Es c s'.
    destruct (Spec.is_bits s) eqn:Hbits.
    + destruct (validateHash_binary Math_log2 cfg s Hne Hbits) as (r & Hr & Hi & Hv).
      exists r. split; [exact Hr|].
      assert (Hvi : valid r = true <-> issues r = []).
      { rewrite Hv, Nat.eqb_eq. apply length_zero_iff_nil. }
      split; [exact Hvi|]. rewrite Hvi, Hi.
      pose proof (bits_length s Hbits) as Hlen.
      rewrite isTrivialHash_unfold.
      split.
      * intros H. apply app_eq_nil in H as [H1 H2].
        destruct (_ || _) eqn:Htriv; [discriminate|].
        destruct (String.length s =? 63) eqn:H63; [|discriminate].
        apply Nat.eqb_eq in H63. apply orb_false_iff in Htriv as [Ho Hz].
        apply Nat.leb_gt in Ho. apply Nat.leb_gt in Hz.
        exists s. repeat split; try assumption. lia.
      * intros (s0 & [= <-] & _ & H63 & Ho & Hz).
        assert (Htriv : (Spec.ones s <=? MIN_ONES_ZEROS cfg)
                        || (String.length s - Spec.ones s <=? MIN_ONES_ZEROS cfg) = false).
        { apply orb_false_iff. split; apply Nat.leb_gt; lia. }
        rewrite Htriv. apply Nat.eqb_eq in H63. now rewrite H63.
    + assert (Ht : test_binary s = false).
      { unfold test_binary. destruct s; [congruence|]. now rewrite all_01_is_bits. }
      eexists. split.
      { unfold validateHash. rewrite (nonempty_truthy s Hne), Ht. reflexivity. }
      cbn [valid issues]. split; [split; discriminate|]. split; [discriminate|].
      intros (s0 & [= <-] & Hb & _). congruence.
  - destruct (Z.eqb_spec z 0) as [->|Hz].
    + eexists. split; [reflexivity|]. cbn [valid issues].
      split; [split; discriminate|]. split; [discriminate|]. intros (s & H & _). discriminate.
    + eexists. split.
      { unfold validateHash. cbn [falsy]. apply Z.eqb_neq in Hz. rewrite Hz. reflexivity. }
      cbn [valid issues]. split; [split; discriminate|]. split; [discriminate|].
      intros (s & H & _). discriminate.
Qed.

(** X4.  A fingerprint that [computePHashFromMatrix] returned can fail
    the validation in one way only, by being trivial: its format and its
    length are never at fault. *)
Theorem computed_hash_validates (Math_cos Math_log2 : float -> float) (cfg : HASH_CONFIG_t)
  (m : HashUtils.matrix) (bits : string) :
  fst (HashUtils.computePHashFromMatrix Math_cos (Some m)) = Some bits ->
  exists r,
    validateHash Math_log2 cfg (Str bits) = Normal r
    /\ valid r = negb (HashUtils.isTrivialHash cfg (Str bits))
    /\ issues r
       = if HashUtils.isTrivialHash cfg (Str bits)
         then ["Hash appears to be trivial (low entropy)"%string] else [].
Proof.
  intros Hbits.
  assert (Hrows : length m = 32).
  { unfold HashUtils.computePHashFromMatrix in Hbits.
    change (CANVAS_SIZE VIDEO_PROCESSING) with 32 in Hbits.
    destruct (length m =? 32) eqn:E; [now apply Nat.eqb_eq in E|discriminate]. }
  destruct (hash_of_32_rows Math_cos m Hrows) as [H1 _]. cbv zeta in H1.
  rewrite H1 in Hbits. cbn [fst] in Hbits. injection Hbits as Hbits.
  set (block := Spec.low_frequency_coefficients Math_cos m) in *.
  assert (Hlen : String.length bits = 63).
  { rewrite <- Hbits. unfold HashUtils.bits_of. rewrite join_bits_length.
    apply low_frequency_coefficients_length. }
  assert (Hne : bits <> EmptyString) by (intros ->; discriminate).
  assert (Hb : Spec.is_bits bits = true).
  { rewrite <- Hbits. unfold HashUtils.bits_of. apply join_bits_is_bits. }
  destruct (validateHash_binary Math_log2 cfg bits Hne Hb) as (r & Hr & Hi & Hv).
  exists r. split; [exact Hr|].
  rewrite Hlen in Hi. cbn [Nat.eqb] in Hi. rewrite app_nil_r in Hi.
  split; [|exact Hi]. rewrite Hv, Hi.
  now destruct (HashUtils.isTrivialHash cfg (Str bits)).
Qed.

Lemma computed_hash_validates_witness :
  exists r,
    validateHash (fun x => x) HASH_CONFIG (Str Spec.all_zero_bits) = Normal r
    /\ valid r = false.
Proof.
  assert (H : fst (HashUtils.computePHashFromMatrix Sample.cos (Some Sample.black))
              = Some Spec.all_zero_bits) by (vm_compute; reflexivity).
  destruct (computed_hash_validates Sample.cos (fun x => x) HASH_CONFIG
              Sample.black Spec.all_zero_bits H) as (r & Hr & Hv & _).
  exists r. split; [exact Hr|]. rewrite Hv. reflexivity.
Defined.

End Validation.

(* ===================================================================== *)
(** * The closest hash of a list                                          *)
(* ===================================================================== *)

Section BestMatch.
Import JS Constants HashReports BestMatch.

Lemma count_lt_trans (a b c : count) :
  count_lt a b = true -> count_lt b c = true -> count_lt a c = true.
Proof.
  destruct a, b, c; simpl; try discriminate; try reflexivity.
  rewrite !Nat.ltb_lt. lia.
Qed.

Lemma count_lt_le_trans (a b c : count) :
  count_lt a b = true -> count_lt c b = false -> count_lt a c = true.
Proof.
  destruct a, b, c; simpl; try discriminate; try reflexivity.
  rewrite !Nat.ltb_lt, Nat.ltb_ge. lia.
Qed.

Lemma consider_best (target : value) (done : list value) (st : option Match * count)
  (h : value) :
  best_so_far target done st ->
  best_so_far target (done ++ [h]) (consider target st h).
Proof.
  destruct st as [[b|] mind]; unfold best_so_far, consider; cbn [fst snd].
  - intros (-> & Hb & Hsim & before & after & -> & Hbefore & Hafter).
    destruct (count_lt (HashUtils.hammingDistance target h) (Count (distance b))) eqn:Hlt.
    + destruct (HashUtils.hammingDistance target h) as [n|] eqn:Hd; [|discriminate].
      cbn [fst snd distance hash similarity].
      split; [reflexivity|]. split; [exact Hd|]. split; [reflexivity|].
      exists (before ++ hash b :: after), []. split; [reflexivity|].
      split; [|intros ? []].
      intros h' Hin. apply in_app_or in Hin as [Hin|[<-|Hin]].
      * eapply count_lt_trans; [exact Hlt|]. now apply Hbefore.
      * now rewrite Hb.
      * eapply count_lt_le_trans; [exact Hlt|]. now apply Hafter.
    + cbn [fst snd]. split; [reflexivity|]. split; [exact Hb|]. split; [exact Hsim|].
      exists before, (after ++ [h]). split; [now rewrite <- app_assoc|].
      split; [exact Hbefore|].
      intros h' Hin. apply in_app_or in Hin as [Hin|[<-|[]]]; [now apply Hafter|exact Hlt].
  - intros (-> & Hall).
    destruct (HashUtils.hammingDistance target h) as [n|] eqn:Hd; cbn [count_lt fst snd].
    + cbn [distance hash similarity]. split; [reflexivity|]. split; [exact Hd|].
      split; [reflexivity|].
      exists done, []. split; [reflexivity|]. split; [|intros ? []].
      intros h' Hin. now rewrite (Hall h' Hin).
    + split; [reflexivity|].
      intros h' Hin. apply in_app_or in Hin as [Hin|[<-|[]]]; [now apply Hall|exact Hd].
Qed.

Lemma loop_best (target : value) (l done : list value) (st : option Match * count) :
  best_so_far target done st ->
  best_so_far target (done ++ l) (fold_left (consider target) l st).
Proof.
  revert done st. induction l as [|h l IH]; intros done st H; cbn [fold_left].
  - now rewrite app_nil_r.
  - replace (done ++ h :: l) with ((done ++ [h]) ++ l) by now rewrite <- app_assoc.
    apply IH. now apply consider_best.
Qed.

(** X5.  For a non-empty target string and a non-empty list,
    [findMostSimilarHash] returns the first hash of the list at the
    least distance from the target, with that distance: every hash
    before it is strictly farther and no hash after it is closer.  It
    returns [null] only when no hash of the list is at a finite
    distance. *)
Theorem findMostSimilarHash_best (target : string) (l : list value) :
  target <> EmptyString -> l <> [] ->
  exists r,
    findMostSimilarHash (Str target) (Some l) = Normal r
    /\ match r with
       | None =>
           forall h, List.In h l -> HashUtils.hammingDistance (Str target) h = Infinity
       | Some b =>
           HashUtils.hammingDistance (Str target) (hash b) = Count (distance b)
           /\ similarity b = similarity_of (Str target) (hash b) (distance b)
           /\ exists before after,
                l = before ++ hash b :: after
                /\ (forall h, List.In h before ->
                      count_lt (Count (distance b))
                               (HashUtils.hammingDistance (Str target) h) = true)
                /\ (forall h, List.In h after ->
                      count_lt (HashUtils.hammingDistance (Str target) h)
                               (Count (distance b)) = false)
       end.
Proof.
  intros Ht Hl. unfold findMostSimilarHash.
  rewrite (nonempty_truthy target Ht).
  destruct l as [|h0 l0] eqn:El; [congruence|]. rewrite <- El. 
  assert (Hlen : (length l =? 0) = false) by (subst l; reflexivity).
  rewrite Hlen. cbn [orb is_string].
  eexists. split; [reflexivity|].
  assert (H0 : best_so_far (Str target) [] (None, Infinity)).
  { split; [reflexivity|]. intros ? []. }
  pose proof (loop_best (Str target) l [] (None, Infinity) H0) as H.
  cbn [app] in H. unfold best_so_far in H.
  destruct (fst (fold_left (consider (Str target)) l (None, Infinity))) as [b|].
  - destruct H as (_ & Hb & Hsim & Hsplit). auto.
  - destruct H as [_ H]. exact H.
Qed.

Lemma findMostSimilarHash_best_witness :
  exists b,
    findMostSimilarHash (Str "1100") (Some [Str "0011"; Str "1101"; Null; Str "1110"])
    = Normal (Some b)
    /\ hash b = Str "1101" /\ distance b = 1.
Proof.
  assert (Ht : "1100"%string <> EmptyString) by discriminate.
  assert (Hl : [Str "0011"; Str "1101"; Null; Str "1110"] <> []) by discriminate.
  destruct (findMostSimilarHash_best "1100" _ Ht Hl) as (r & Hr & _).
  vm_compute in Hr. injection Hr as <-.
  eexists. split; [vm_compute; reflexivity|]. split; reflexivity.
Defined.


End BestMatch.

(* ===================================================================== *)
(** * Matching against the blocked list                                   *)
(* ===================================================================== *)

Section Matching.
Import JS Constants.

Lemma has_strings (blocked : list string) (h : string) :
  VideoBlocker.has (map Str blocked) (Str h) = true <-> List.In h blocked.
Proof.
  unfold VideoBlocker.has. rewrite existsb_exists. split.
  - intros (v & Hv & Heq). apply in_map_iff in Hv as (b & <- & Hb).
    cbn [VideoBlocker.same_value] in Heq. apply String.eqb_eq in Heq. now subst.
  - intros Hin. exists (Str h). split; [now apply in_map|].
    cbn [VideoBlocker.same_value]. apply String.eqb_refl.
Qed.

Lemma similar_strings (h b : string) (t : Z) :
  HashUtils.areHashesSimilar (Str h) (Str b) t = true <->
  h <> EmptyString /\ b <> EmptyString /\ (Z.of_nat (HashUtils.distance_of h b) <= t)%Z.
Proof.
  unfold HashUtils.areHashesSimilar. split.
  - destruct (HashUtils.hammingDistance (Str h) (Str b)) as [n|] eqn:E; [|discriminate].
    apply hammingDistance_finite in E as (s & u & [= <-] & [= <-] & Hs & Hu & ->).
    cbn [count_le]. rewrite Z.leb_le. tauto.
  - intros (Hh & Hb & Hle). rewrite hammingDistance_strings by assumption.
    cbn [count_le]. now apply Z.leb_le.
Qed.

(** The content script's [hamming] counts like [distance_of] on
    non-empty strings. *)
Lemma legacy_hamming_strings (a b : string) :
  a <> EmptyString -> b <> EmptyString ->
  Legacy.hamming (Some a) (Some b) = Count (HashUtils.distance_of a b).
Proof.
  intros Ha Hb. unfold Legacy.hamming, Legacy.falsy.
  destruct a as [|ca a']; [congruence|]. destruct b as [|cb b']; [congruence|].
  cbv beta iota zeta. rewrite orb_false_l. reflexivity.
Qed.

(** X7.  With a threshold that is not negative, [isHashBlocked] answers
    true for a hash string exactly when the hash is not empty and some
    non-empty blocked hash lies within the threshold; the exact-match
    test adds nothing.  With the default threshold the scan of the
    content script takes the same decision. *)
Theorem isHashBlocked_by_distance (cfg : HASH_CONFIG_t) (blocked : list string) (h : string) :
  (0 <= HAMMING_THRESHOLD cfg)%Z ->
  (VideoBlocker.isHashBlocked cfg (map Str blocked) (Str h) = true <->
   h <> EmptyString
   /\ exists b, List.In b blocked /\ b <> EmptyString
                /\ (Z.of_nat (HashUtils.distance_of h b) <= HAMMING_THRESHOLD cfg)%Z)
  /\ VideoBlocker.isHashBlocked HASH_CONFIG (map Str blocked) (Str h)
     = LegacyScan.matches_blocked (map Some blocked) (Some h).
Proof.
  intros Ht.
  assert (Hgen : forall cfg', (0 <= HAMMING_THRESHOLD cfg')%Z ->
            (VideoBlocker.isHashBlocked cfg' (map Str blocked) (Str h) = true <->
             h <> EmptyString
             /\ exists b, List.In b blocked /\ b <> EmptyString
                  /\ (Z.of_nat (HashUtils.distance_of h b) <= HAMMING_THRESHOLD cfg')%Z)).
  { intros cfg' Ht'. unfold VideoBlocker.isHashBlocked.
    destruct h as [|c h'] eqn:Eh.
    { cbn [falsy]. split; [discriminate|]. intros [H _]. congruence. }
    rewrite <- Eh. assert (Hne : h <> EmptyString) by (subst h; discriminate).
    rewrite (nonempty_truthy h Hne).
    destruct (VideoBlocker.has (map Str blocked) (Str h)) eqn:Hhas.
    - split; [|reflexivity]. intros _. split; [exact Hne|].
      apply has_strings in Hhas. exists h. split; [exact Hhas|]. split; [exact Hne|].
      rewrite (proj2 (distance_of_zero h h) eq_refl). exact Ht'.
    - rewrite existsb_exists. split.
      + intros (v & Hv & Hsim). apply in_map_iff in Hv as (b & <- & Hb).
        unfold HashUtils.areHashesSimilar_default in Hsim.
        apply similar_strings in Hsim as (_ & Hbne & Hle).
        split; [exact Hne|]. exists b. auto.
      + intros (_ & b & Hb & Hbne & Hle). exists (Str b). split; [now apply in_map|].
        unfold HashUtils.areHashesSimilar_default. apply similar_strings. auto. }
  split; [exact (Hgen cfg Ht)|].
  apply eq_true_iff_eq. rewrite (Hgen HASH_CONFIG) by (simpl; lia).
  unfold LegacyScan.matches_blocked.
  destruct h as [|c h'] eqn:Eh.
  { cbn [Legacy.falsy]. split; [intros [H _]; congruence|discriminate]. }
  rewrite <- Eh. assert (Hne : h <> EmptyString) by (subst h; discriminate).
  assert (Hf : Legacy.falsy (Some h) = false) by (subst h; reflexivity).
  rewrite Hf, existsb_exists. split.
  - intros (_ & b & Hb & Hbne & Hle). exists (Some b). split; [now apply in_map|].
    rewrite (legacy_hamming_strings h b Hne Hbne).
    cbn [count_le]. now apply Z.leb_le.
  - intros (v & Hv & Hsim). apply in_map_iff in Hv as (b & <- & Hb).
    split; [exact Hne|]. exists b. split; [exact Hb|].
    destruct b as [|cb b'] eqn:Eb.
    { exfalso. unfold Legacy.hamming in Hsim. rewrite Hf in Hsim.
      cbn [Legacy.falsy orb count_le] in Hsim. discriminate. }
    rewrite <- Eb in *. assert (Hbne : b <> EmptyString) by (subst b; discriminate).
    split; [exact Hbne|].
    rewrite (legacy_hamming_strings h b Hne Hbne) in Hsim.
    cbn [count_le] in Hsim. now apply Z.leb_le in Hsim.
Qed.

Lemma isHashBlocked_by_distance_witness :
  VideoBlocker.isHashBlocked HASH_CONFIG (map Str ["0011"; "110011"]%string) (Str "1100")
  = LegacyScan.matches_blocked (map Some ["0011"; "110011"]%string) (Some "1100"%string).
Proof.
  assert (Ht : (0 <= HAMMING_THRESHOLD HASH_CONFIG)%Z) by (simpl; lia).
  exact (proj2 (isHashBlocked_by_distance HASH_CONFIG ["0011"; "110011"]%string "1100" Ht)).
Defined.

End Matching.

(* ===================================================================== *)
(** * The queue: counters, limits and idle slots                          *)
(* ===================================================================== *)

Section QueueAccounting.
Import ConcurrencyQueue QueueControls QueueProps Constants.

Lemma size_add_delete (r : nat) (A : gset nat) :
  size ({[ r ]} ∪ A) = S (size (A ∖ {[ r ]})).
Proof. rewrite size_union_alt. now rewrite size_singleton. Qed.

Lemma size_add_fresh (r : nat) (A : gset nat) : r ∉ A -> size ({[ r ]} ∪ A) = S (size A).
Proof.
  intros Hr. rewrite size_add_delete. do 2 f_equal. apply set_eq. intros x.
  rewrite elem_of_difference, elem_of_singleton. split; [tauto|].
  intros Hx. split; [exact Hx|]. intros ->. now apply Hr.
Qed.

Lemma size_delete_member (r : nat) (A : gset nat) :
  r ∈ A -> S (size (A ∖ {[ r ]})) = size A.
Proof.
  intros Hr. rewrite <- size_add_delete. f_equal. apply set_eq. intros x.
  rewrite elem_of_union, elem_of_singleton. split; [|tauto].
  intros [->|Hx]; assumption.
Qed.

Lemma insert_by_priority_perm (job : Job) (l : list Job) :
  Permutation (insert_by_priority job l) (job :: l).
Proof.
  induction l as [|a l IH]; [reflexivity|].
  rewrite insert_by_priority_cons.
  destruct (priority a <? priority job)%Z; [reflexivity|].
  rewrite IH. apply perm_swap.
Qed.

Lemma insert_by_priority_length (job : Job) (l : list Job) :
  length (insert_by_priority job l) = S (length l).
Proof. exact (Permutation_length (insert_by_priority_perm job l)). Qed.

(** The [finally] block keeps the queue consistent when the job it
    removes is active. *)
Lemma finally_block_consistent (pq : t -> t * list event) (r : nat) (q : t) (f : Stats -> Stats) :
  keeps_consistent pq ->
  r ∈ activeJobs q ->
  fresh_refs q ->
  (totalJobs (f (stats q))
   = completedJobs (f (stats q)) + failedJobs (f (stats q)) + queuedJobs (f (stats q))
     + Z.of_nat (size (activeJobs q)) - 1)%Z ->
  queuedJobs (f (stats q)) = Z.of_nat (length (pendingJobs q)) ->
  consistent (fst (finally_block pq r (with_stats f q))).
Proof.
  intros Hpq Hr (Hnd & Hpend & Hact) Htot Hqueued. unfold finally_block.
  assert (Hq1 : consistent (delete_active r (with_stats f q))).
  { split; [split|split; [|split]]; cbn [delete_active with_stats activeJobs pendingJobs
                                           stats nextRef].
    - pose proof (size_delete_member r (activeJobs q) Hr). lia.
    - exact Hqueued.
    - exact Hnd.
    - eapply List.Forall_impl; [|exact Hpend]. cbv beta. intros j [Hj1 Hj2].
      split; [exact Hj1|]. rewrite elem_of_difference. tauto.
    - intros x Hx. apply elem_of_difference in Hx as [Hx _]. now apply Hact. }
  specialize (Hpq _ Hq1).
  destruct (pq (delete_active r (with_stats f q))) as [q2 es]. exact Hpq.
Qed.

(** Starting the job at the head of the pending list keeps the queue
    consistent. *)
Lemma executeJob_consistent (pq : t -> t * list event) (job : Job) (rest : list Job) (q : t) :
  keeps_consistent pq ->
  consistent q -> pendingJobs q = job :: rest ->
  consistent (fst (executeJob pq job (with_stats count_dequeued (set_pending rest q)))).
Proof.
  intros Hpq [[Htot Hqueued] (Hnd & Hpend & Hact)] Hpending.
  rewrite Hpending in *. cbn [map length] in *.
  apply List.NoDup_cons_iff in Hnd as [Hhead Hnd].
  apply Forall_cons_1 in Hpend as [[Hjob1 Hjob2] Hpend].
  set (q0 := with_stats count_dequeued (set_pending rest q)).
  assert (Hfresh1 : fresh_refs (add_active (ref job) q0)).
  { split; [|split]; cbn [add_active q0 with_stats set_pending activeJobs pendingJobs nextRef].
    - exact Hnd.
    - apply List.Forall_forall. intros j Hj.
      rewrite List.Forall_forall in Hpend. destruct (Hpend j Hj) as [Hj1 Hj2].
      split; [exact Hj1|]. rewrite elem_of_union, elem_of_singleton.
      intros [Heq|Hin]; [|now apply Hj2].
      apply Hhead. rewrite <- Heq. now apply in_map.
    - intros x Hx. apply elem_of_union in Hx as [Hx|Hx]; [|now apply Hact].
      apply elem_of_singleton in Hx. now subst. }
  assert (Hsize : size (activeJobs (add_active (ref job) q0)) = S (size (activeJobs q))).
  { cbn [add_active activeJobs q0 with_stats set_pending]. now apply size_add_fresh. }
  unfold executeJob. fold q0. destruct (fn job).
  - cbn [fst]. split; [split|exact Hfresh1].
    + rewrite Hsize. cbn [add_active q0 with_stats set_pending stats count_dequeued
                            totalJobs completedJobs failedJobs queuedJobs]. lia.
    + cbn [add_active q0 with_stats set_pending stats count_dequeued pendingJobs
             queuedJobs]. lia.
  - pose proof (finally_block_consistent pq (ref job) (add_active (ref job) q0) count_failed
                  Hpq) as H.
    destruct (finally_block pq (ref job) (with_stats count_failed (add_active (ref job) q0)))
      as [q2 es2] eqn:E. cbn [fst] in *. apply H.
    + cbn [add_active activeJobs]. apply elem_of_union. left. now apply elem_of_singleton.
    + exact Hfresh1.
    + rewrite Hsize. cbn [add_active q0 with_stats set_pending stats count_dequeued
                            count_failed totalJobs completedJobs failedJobs queuedJobs]. lia.
    + cbn [add_active q0 with_stats set_pending stats count_dequeued count_failed
             pendingJobs queuedJobs]. lia.
Qed.

Lemma processQueue_loop_consistent (fuel : nat) : keeps_consistent (processQueue_loop fuel).
Proof.
  induction fuel as [|fuel IH]; intros q Hq; [exact Hq|].
  cbn [processQueue_loop].
  destruct (pendingJobs q) as [|job rest] eqn:Hpending; [exact Hq|].
  destruct (size (activeJobs q) <? maxConcurrent q); [|exact Hq].
  pose proof (executeJob_consistent (processQueue_loop fuel) job rest q IH Hq Hpending) as H2.
  destruct (executeJob _ job _) as [q2 es2]. cbn [fst] in H2.
  specialize (IH q2 H2). destruct (processQueue_loop fuel q2) as [q3 es3]. exact IH.
Qed.

Lemma processQueue_consistent : keeps_consistent processQueue.
Proof. intros q. apply processQueue_loop_consistent. Qed.

Lemma enqueue_consistent (jobFn : task) (id : string) (p : Z) :
  keeps_consistent (enqueue jobFn id p).
Proof.
  intros q [[Htot Hqueued] (Hnd & Hpend & Hact)]. unfold enqueue.
  apply processQueue_consistent.
  set (job := {| ref := nextRef q; id := id; fn := jobFn; priority := p |}).
  pose proof (insert_by_priority_perm job (pendingJobs q)) as Hperm.
  split; [split|split; [|split]];
    cbn [activeJobs pendingJobs stats nextRef count_enqueued totalJobs completedJobs
           failedJobs queuedJobs].
  - lia.
  - rewrite insert_by_priority_length. lia.
  - eapply Permutation_NoDup; [symmetry; apply Permutation_map; exact Hperm|].
    cbn [map]. apply List.NoDup_cons; [|exact Hnd].
    intros Hin. apply in_map_iff in Hin as (j & Hj & Hin).
    rewrite List.Forall_forall in Hpend. destruct (Hpend j Hin) as [Hlt _].
    rewrite Hj in Hlt. cbn [job ref] in Hlt. lia.
  - eapply Permutation_Forall; [symmetry; exact Hperm|].
    constructor.
    + cbn [job ref]. split; [lia|]. intros Hin. apply Hact in Hin. lia.
    + eapply List.Forall_impl; [|exact Hpend]. cbv beta. intros j [Hj1 Hj2].
      split; [lia|exact Hj2].
  - intros r Hr. apply Hact in Hr. lia.
Qed.

Lemma settle_consistent (r : nat) (o : outcome) : keeps_consistent (settle r o).
Proof.
  intros q Hq. unfold settle.
  destruct (bool_decide (r ∈ activeJobs q)) eqn:Hr; [|exact Hq].
  apply bool_decide_eq_true in Hr.
  destruct Hq as [[Htot Hqueued] Hfresh].
  destruct o; apply finally_block_consistent;
    try exact processQueue_consistent; try assumption;
    cbn [count_completed count_failed totalJobs completedJobs failedJobs queuedJobs]; lia.
Qed.

Lemma setMaxConcurrent_consistent (max : Z) : keeps_consistent (setMaxConcurrent max).
Proof.
  intros q Hq. unfold setMaxConcurrent.
  destruct ((0 <? max) && (max <=? 10))%Z; [|exact Hq].
  apply processQueue_consistent. exact Hq.
Qed.

Lemma clearQueue_consistent (reason : string) (q : t) :
  consistent q -> consistent (fst (clearQueue reason q)).
Proof.
  intros [[Htot Hqueued] (Hnd & Hpend & Hact)]. unfold clearQueue.
  split; [split|split; [|split]];
    cbn [fst activeJobs pendingJobs stats nextRef totalJobs completedJobs failedJobs
           queuedJobs map length].
  - lia.
  - reflexivity.
  - constructor.
  - constructor.
  - exact Hact.
Qed.

Lemma apply_call_consistent (c : call) (q : t) :
  consistent q -> consistent (fst (fst (apply_call c q))).
Proof.
  intros Hq. destruct c as [[jobFn id p|r o]|max|reason]; cbn [apply_call apply_op fst].
  - now apply enqueue_consistent.
  - now apply settle_consistent.
  - now apply setMaxConcurrent_consistent.
  - pose proof (clearQueue_consistent reason q Hq) as H.
    destruct (clearQueue reason q) as [q' rejected]. exact H.
Qed.

Lemma run_calls_consistent (cs : list call) (q : t) :
  consistent q -> consistent (fst (fst (run_calls cs q))).
Proof.
  revert q. induction cs as [|c cs IH]; intros q Hq; [exact Hq|].
  cbn [run_calls].
  pose proof (apply_call_consistent c q Hq) as H1.
  destruct (apply_call c q) as [[q1 es1] rs1]. cbn [fst] in H1.
  specialize (IH q1 H1). destruct (run_calls cs q1) as [[q2 es2] rs2]. exact IH.
Qed.

Lemma new_consistent : consistent new.
Proof.
  split; [split|split; [|split]]; cbn [new activeJobs pendingJobs stats nextRef
    totalJobs completedJobs failedJobs queuedJobs map length].
  - rewrite size_empty. reflexivity.
  - reflexivity.
  - constructor.
  - constructor.
  - intros r Hr. now apply not_elem_of_empty in Hr.
Qed.

(** X8.  The counters of the queue stay true to its state through every
    sequence of calls ([enqueue], the end of a running job,
    [setMaxConcurrent], [clearQueue]) on a fresh queue: [queuedJobs] is
    the length of the pending list, and every job counted in [totalJobs]
    is completed, failed, pending or active; so [getStats()] reports
    [totalJobs = completedJobs + failedJobs + totalInProgress]. *)
Theorem queue_counters_accurate (cs : list call) :
  let q := fst (fst (run_calls cs new)) in
  queuedJobs (stats q) = Z.of_nat (getQueueSize q)
  /\ (totalJobs (stats q)
      = completedJobs (stats q) + failedJobs (stats q)
        + Z.of_nat (getQueueSize q) + Z.of_nat (getActiveJobCount q))%Z
  /\ (snap_totalJobs (getStats q)
      = snap_completedJobs (getStats q) + snap_failedJobs (getStats q)
        + Z.of_nat (totalInProgress (getStats q)))%Z.
Proof.
  intros q. destruct (run_calls_consistent cs new new_consistent) as [[Htot Hqueued] _].
  fold q in Htot, Hqueued.
  unfold getQueueSize, getActiveJobCount, getStats.
  cbn [snap_totalJobs snap_completedJobs snap_failedJobs totalInProgress].
  repeat split; lia.
Qed.

End QueueAccounting.

Section QueueControl.
Import ConcurrencyQueue QueueControls QueueProps Constants.

(** ** Idle slots *)

Lemma processQueue_work_conserving (q : t) : work_conserving (fst (processQueue q)).
Proof. unfold processQueue. apply processQueue_loop_exit. lia. Qed.

Lemma finally_block_work_conserving (r : nat) (q : t) :
  work_conserving (fst (finally_block processQueue r q)).
Proof.
  unfold finally_block.
  pose proof (processQueue_work_conserving (delete_active r q)) as H.
  destruct (processQueue (delete_active r q)) as [q2 es]. exact H.
Qed.

Lemma apply_call_work_conserving (c : call) (q : t) :
  work_conserving q -> work_conserving (fst (fst (apply_call c q))).
Proof.
  intros Hq. destruct c as [[jobFn id p|r o]|max|reason]; cbn [apply_call apply_op fst].
  - unfold enqueue. apply processQueue_work_conserving.
  - unfold settle. destruct (bool_decide (r ∈ activeJobs q)); [|exact Hq].
    apply finally_block_work_conserving.
  - unfold setMaxConcurrent. destruct ((0 <? max) && (max <=? 10))%Z; [|exact Hq].
    apply processQueue_work_conserving.
  - left. reflexivity.
Qed.

Lemma run_calls_work_conserving (cs : list call) (q : t) :
  work_conserving q -> work_conserving (fst (fst (run_calls cs q))).
Proof.
  revert q. induction cs as [|c cs IH]; intros q Hq; [exact Hq|].
  cbn [run_calls].
  pose proof (apply_call_work_conserving c q Hq) as H1.
  destruct (apply_call c q) as [[q1 es1] rs1]. cbn [fst] in H1.
  specialize (IH q1 H1). destruct (run_calls cs q1) as [[q2 es2] rs2]. exact IH.
Qed.

(** X9.  The queue never leaves a job waiting while a slot is free:
    after any sequence of calls on a fresh queue, changes of the limit
    and clearings included, [hasCapacity()] is true only when
    [getQueueSize()] is 0. *)
Theorem queue_never_idles (cs : list call) :
  let q := fst (fst (run_calls cs new)) in
  hasCapacity q = true -> getQueueSize q = 0.
Proof.
  intros q Hcap. unfold hasCapacity in Hcap. apply Nat.ltb_lt in Hcap.
  assert (Hnew : work_conserving new) by (left; reflexivity).
  destruct (run_calls_work_conserving cs new Hnew) as [H|H]; fold q in H.
  - unfold getQueueSize. now rewrite H.
  - lia.
Qed.

Lemma queue_never_idles_witness :
  getQueueSize
    (fst (fst (run_calls [Op (Enqueue Suspends "a" 0); SetMaxConcurrent 1;
                          Op (Enqueue Suspends "b" 0); SetMaxConcurrent 4] new))) = 0.
Proof.
  apply (queue_never_idles [Op (Enqueue Suspends "a" 0); SetMaxConcurrent 1;
                            Op (Enqueue Suspends "b" 0); SetMaxConcurrent 4]).
  vm_compute. reflexivity.
Defined.

(** ** The limit *)







(** ** Every job is somewhere *)

Lemma processQueue_loop_nextRef (fuel : nat) : keeps_nextRef (processQueue_loop fuel).
Proof.
  induction fuel as [|fuel IH]; intros q; [reflexivity|].
  cbn [processQueue_loop].
  destruct (pendingJobs q) as [|job rest]; [reflexivity|].
  destruct (size (activeJobs q) <? maxConcurrent q); [|reflexivity].
  set (q1 := with_stats count_dequeued (set_pending rest q)).
  assert (H2 : nextRef (fst (executeJob (processQueue_loop fuel) job q1)) = nextRef q).
  { unfold executeJob. destruct (fn job); [reflexivity|].
    unfold finally_block.
    pose proof (IH (delete_active (ref job)
                      (with_stats count_failed (add_active (ref job) q1)))) as H.
    destruct (processQueue_loop fuel _) as [q2 es]. exact H. }
  destruct (executeJob _ job q1) as [q2 es2]. cbn [fst] in H2.
  pose proof (IH q2) as H3. destruct (processQueue_loop fuel q2) as [q3 es3].
  cbn [fst] in *. congruence.
Qed.

(** What one call does to the jobs: those it started or rejected,
    together with those it leaves pending, are those it found pending
    and the one it was given. *)
Lemma apply_call_jobs (c : call) (q : t) :
  let '(q1, es, rs) := apply_call c q in
  nextRef q <= nextRef q1
  /\ Permutation (map ref (started_jobs es) ++ map ref rs ++ map ref (pendingJobs q1))
                 (map ref (pendingJobs q) ++ seq (nextRef q) (nextRef q1 - nextRef q)).
Proof.
  destruct c as [[jobFn id p|r o]|max|reason]; cbn [apply_call apply_op].
  - unfold enqueue.
    set (job := {| ref := nextRef q; id := id; fn := jobFn; priority := p |}).
    set (q0 := {| activeJobs := activeJobs q;
                  pendingJobs := insert_by_priority job (pendingJobs q);
                  maxConcurrent := maxConcurrent q;
                  stats := count_enqueued (stats q);
                  nextRef := S (nextRef q) |}).
    pose proof (processQueue_from_front q0) as Hfront.
    pose proof (processQueue_loop_nextRef (S (length (pendingJobs q0))) q0) as Hnext.
    fold (processQueue q0) in Hnext.
    destruct (processQueue q0) as [q1 es]. cbn [fst snd] in *.
    rewrite Hnext. cbn [q0 nextRef]. split; [lia|].
    replace (S (nextRef q) - nextRef q) with 1 by lia. cbn [seq map app].
    rewrite <- map_app, <- Hfront. cbn [q0 pendingJobs].
    rewrite (Permutation_map ref (insert_by_priority_perm job (pendingJobs q))).
    cbn [map job ref]. apply Permutation_cons_append.
  - unfold settle. destruct (bool_decide (r ∈ activeJobs q)).
    + pose proof (finally_block_from_front processQueue r processQueue_from_front) as Hfront.
      set (q0 := match o with
                 | Resolved => with_stats count_completed q
                 | _ => with_stats count_failed q
                 end).
      assert (Hq0 : pendingJobs q0 = pendingJobs q /\ nextRef q0 = nextRef q)
        by (unfold q0; destruct o; split; reflexivity).
      specialize (Hfront q0).
      assert (Hnext : nextRef (fst (finally_block processQueue r q0)) = nextRef q0).
      { unfold finally_block.
        pose proof (processQueue_loop_nextRef
                      (S (length (pendingJobs (delete_active r q0)))) (delete_active r q0)) as H.
        fold (processQueue (delete_active r q0)) in H.
        destruct (processQueue (delete_active r q0)) as [q2 es]. exact H. }
      replace (match o with
               | Resolved => with_stats count_completed q
               | _ => with_stats count_failed q
               end) with q0 by (unfold q0; destruct o; reflexivity).
      destruct (finally_block processQueue r q0) as [q1 es]. cbn [fst snd] in *.
      destruct Hq0 as [Hp Hn]. rewrite Hnext, Hn. split; [lia|].
      rewrite Nat.sub_diag. cbn [seq map app]. rewrite app_nil_r.
      rewrite <- map_app, <- Hfront, Hp. reflexivity.
    + split; [lia|]. rewrite Nat.sub_diag. cbn [started_jobs flat_map map seq app].
      now rewrite app_nil_r.
  - unfold setMaxConcurrent. destruct ((0 <? max) && (max <=? 10))%Z.
    + set (q0 := with_limit (Z.to_nat max) q).
      pose proof (processQueue_from_front q0) as Hfront.
      pose proof (processQueue_loop_nextRef (S (length (pendingJobs q0))) q0) as Hnext.
      fold (processQueue q0) in Hnext.
      destruct (processQueue q0) as [q1 es]. cbn [fst snd q0 with_limit pendingJobs nextRef] in *.
      rewrite Hnext. split; [lia|].
      rewrite Nat.sub_diag. cbn [seq map app]. rewrite app_nil_r.
      rewrite <- map_app, <- Hfront. reflexivity.
    + split; [lia|]. rewrite Nat.sub_diag. cbn [started_jobs flat_map map seq app].
      now rewrite app_nil_r.
  - unfold clearQueue. cbn [nextRef pendingJobs started_jobs flat_map map app].
    split; [lia|]. rewrite Nat.sub_diag. cbn [seq]. rewrite !app_nil_r.
    rewrite !map_map. cbn [fst]. reflexivity.
Qed.

Lemma run_calls_jobs (cs : list call) (q : t) :
  let '(q1, es, rs) := run_calls cs q in
  nextRef q <= nextRef q1
  /\ Permutation (map ref (started_jobs es) ++ map ref rs ++ map ref (pendingJobs q1))
                 (map ref (pendingJobs q) ++ seq (nextRef q) (nextRef q1 - nextRef q)).
Proof.
  revert q. induction cs as [|c cs IH]; intros q; cbn [run_calls].
  - split; [lia|]. rewrite Nat.sub_diag. cbn [started_jobs flat_map map seq app].
    now rewrite app_nil_r.
  - pose proof (apply_call_jobs c q) as H1.
    destruct (apply_call c q) as [[q1 es1] rs1].
    specialize (IH q1). destruct (run_calls cs q1) as [[q2 es2] rs2].
    destruct H1 as [Hn1 H1], IH as [Hn2 H2]. split; [lia|].
    rewrite started_jobs_app, !map_app.
    replace (nextRef q2 - nextRef q)
      with ((nextRef q1 - nextRef q) + (nextRef q2 - nextRef q1)) by lia.
    rewrite seq_app. replace (nextRef q + (nextRef q1 - nextRef q)) with (nextRef q1) by lia.
    set (S1 := map ref (started_jobs es1)) in *. set (S2 := map ref (started_jobs es2)) in *.
    set (R1 := map ref rs1) in *. set (R2 := map ref rs2) in *.
    set (P0 := map ref (pendingJobs q)) in *.
    set (P1 := map ref (pendingJobs q1)) in *. set (P2 := map ref (pendingJobs q2)) in *.
    set (N1 := seq (nextRef q) (nextRef q1 - nextRef q)) in *.
    set (N2 := seq (nextRef q1) (nextRef q2 - nextRef q1)) in *.
    transitivity ((S1 ++ R1) ++ (S2 ++ R2 ++ P2)).
    { rewrite <- !app_assoc. apply Permutation_app_head.
      rewrite !app_assoc. apply Permutation_app_tail.
      rewrite <- !app_assoc. apply Permutation_app_swap_app. }
    transitivity ((S1 ++ R1) ++ (P1 ++ N2)).
    { apply Permutation_app_head. exact H2. }
    transitivity ((S1 ++ R1 ++ P1) ++ N2).
    { rewrite <- !app_assoc. reflexivity. }
    transitivity ((P0 ++ N1) ++ N2).
    { apply Permutation_app_tail. exact H1. }
    rewrite <- app_assoc. reflexivity.
Qed.

(** X11.  No job is lost and none is started twice: after any sequence
    of calls on a fresh queue, the jobs that were started, those that
    [clearQueue] rejected and those still pending are, together and
    without repetition, the jobs that were handed to [enqueue]. *)
Theorem every_job_accounted (cs : list call) :
  let '(q, es, rs) := run_calls cs new in
  Permutation (map ref (started_jobs es) ++ map ref rs ++ map ref (pendingJobs q))
              (seq 0 (nextRef q))
  /\ List.NoDup (map ref (started_jobs es) ++ map ref rs ++ map ref (pendingJobs q)).
Proof.
  pose proof (run_calls_jobs cs new) as H.
  destruct (run_calls cs new) as [[q es] rs]. destruct H as [_ H].
  cbn [new pendingJobs nextRef map app] in H. rewrite Nat.sub_0_r in H.
  split; [exact H|].
  eapply Permutation_NoDup; [symmetry; exact H|]. apply seq_NoDup.
Qed.

End QueueControl.

(* ===================================================================== *)
(** * The task queue of the content script                                *)
(* ===================================================================== *)

Section LegacyQueueDiscipline.
Import LegacyQueue.

Lemma remove_first_length (x : nat) (l : list nat) :
  existsb (Nat.eqb x) l = true -> S (length (remove_first x l)) = length l.
Proof.
  induction l as [|y l IH]; cbn [existsb remove_first length]; [discriminate|].
  destruct (x =? y); [reflexivity|]. cbn [orb length]. intros H. now rewrite IH.
Qed.

(** [runQueue] restores the discipline when the tasks that wait can all
    be explained: at most one of them, or exactly one free slot. *)
Lemma runQueue_disciplined (s : t) :
  active s = length (in_flight s) ->
  active s <= Legacy.MAX_CONCURRENT ->
  (active s < Legacy.MAX_CONCURRENT ->
   length (queue s) <= 1 \/ S (active s) = Legacy.MAX_CONCURRENT) ->
  disciplined (fst (runQueue s))
  /\ queue s = snd (runQueue s) ++ queue (fst (runQueue s)).
Proof.
  intros Hcount Hmax Hone. unfold runQueue.
  destruct (Nat.leb_spec Legacy.MAX_CONCURRENT (active s)) as [Hfull|Hroom]; cbn [orb].
  - cbn [fst snd app]. split; [|reflexivity].
    split; [exact Hcount|]. split; [exact Hmax|]. intros _. lia.
  - destruct (queue s) as [|fn rest] eqn:Hq; cbn [length Nat.eqb fst snd app].
    + split; [|now rewrite Hq].
      split; [exact Hcount|]. split; [exact Hmax|]. rewrite Hq. congruence.
    + split; [|reflexivity].
      specialize (Hone Hroom). cbn [length] in Hone.
      split; cbn [active in_flight queue]; [rewrite length_app; cbn [length]; lia|].
      split; [lia|]. intros Hrest. destruct Hone as [Hone|Hone]; [|exact Hone].
      destruct rest; [congruence|cbn [length] in Hone; lia].
Qed.

Lemma apply_op_disciplined (o : op) (s : t) :
  disciplined s ->
  disciplined (fst (apply_op o s))
  /\ queue s ++ enqueued [o] = snd (apply_op o s) ++ queue (fst (apply_op o s)).
Proof.
  intros (Hcount & Hmax & Hwait). destruct o as [task|fn]; cbn [apply_op enqueued flat_map app].
  - unfold enqueue.
    set (s1 := {| queue := queue s ++ [task]; active := active s;
                  in_flight := in_flight s |}).
    apply (runQueue_disciplined s1); cbn [s1 active in_flight queue]; try assumption.
    intros Hroom. left. rewrite length_app. cbn [length].
    destruct (queue s) as [|x l]; [cbn [length]; lia|].
    assert (H : x :: l <> []) by discriminate. specialize (Hwait H). lia.
  - unfold finished. rewrite app_nil_r.
    destruct (existsb (Nat.eqb fn) (in_flight s)) eqn:Hin.
    + pose proof (remove_first_length fn (in_flight s) Hin) as Hlen.
      set (s1 := {| queue := queue s; active := active s - 1;
                    in_flight := remove_first fn (in_flight s) |}).
      apply (runQueue_disciplined s1); cbn [s1 active in_flight queue]; [lia|lia|].
      intros Hroom. destruct (queue s) as [|x l] eqn:Hq; [left; cbn [length]; lia|].
      assert (Hne : x :: l <> []) by discriminate. specialize (Hwait Hne). right. lia.
    + cbn [fst snd app]. split; [|reflexivity]. repeat split; assumption.
Qed.

(** X12.  The task queue of the content script keeps its counter exact
    and within the limit of 3, starts tasks in the order in which they
    were enqueued, and lets a task wait only while 3 tasks are running:
    after any sequence of calls of [enqueue] and ends of tasks, [active]
    is the number of tasks started and not ended, and the tasks started,
    followed by the tasks still waiting, are the tasks enqueued. *)
Theorem legacy_queue_discipline (ops : list op) :
  let s := fst (run ops initial) in
  active s = length (in_flight s)
  /\ active s <= 3
  /\ (queue s <> [] -> active s = 3)
  /\ enqueued ops = snd (run ops initial) ++ queue s.
Proof.
  assert (Hgen : forall ops s, disciplined s ->
            disciplined (fst (run ops s))
            /\ queue s ++ enqueued ops = snd (run ops s) ++ queue (fst (run ops s))).
  { clear ops. induction ops as [|o ops IH]; intros s Hs.
    - cbn [run enqueued flat_map fst snd app]. split; [exact Hs|apply app_nil_r].
    - cbn [run]. destruct (apply_op_disciplined o s Hs) as [H1 H2].
      destruct (apply_op o s) as [s1 st1]. cbn [fst snd] in H1, H2.
      destruct (IH s1 H1) as [H3 H4].
      destruct (run ops s1) as [s2 st2]. cbn [fst snd] in *.
      split; [exact H3|].
      unfold enqueued in *. cbn [flat_map] in *. rewrite app_nil_r in H2.
      rewrite app_assoc, H2, <- !app_assoc. now rewrite H4. }
  assert (H0 : disciplined initial).
  { split; [reflexivity|]. split; [cbn; lia|]. intros H. now destruct H. }
  destruct (Hgen ops initial H0) as [(H1 & H2 & H3) H4].
  cbv zeta. repeat split; assumption.
Qed.

End LegacyQueueDiscipline.

(* ===================================================================== *)
(** * From frames to a fingerprint                                        *)
(* ===================================================================== *)

Section Capture.
Import JS Constants VideoCapture.

Lemma square_map_seq (f : nat -> nat -> float) (N : nat) :
  Spec.square N (map (fun y => map (fun x => f y x) (seq 0 N)) (seq 0 N)).
Proof.
  split; [now rewrite length_map, length_seq|].
  apply List.Forall_forall. intros row Hrow.
  apply in_map_iff in Hrow as (y & <- & _). now rewrite length_map, length_seq.
Qed.

Lemma imageDataToGrayscaleMatrix_square (data : list Z) (size : nat) :
  exists m, VideoUtils.imageDataToGrayscaleMatrix (Some data) size = Some m
            /\ Spec.square size m.
Proof. eexists. split; [reflexivity|]. apply square_map_seq. Qed.

(** The matrices collected by the capture loop are 32x32, one for each
    frame that could be drawn. *)
Lemma captured_square (frames : list frame) :
  Forall (Spec.square 32) (captured frames)
  /\ (captured frames = [] <-> Forall (fun f => exists e, f = Throw e) frames).
Proof.
  unfold captured. induction frames as [|f frames [IH1 IH2]]; cbn [flat_map].
  - split; [constructor|]. split; constructor.
  - destruct f as [data|e].
    + destruct (imageDataToGrayscaleMatrix_square data 32) as (m & Hm & Hsq).
      change (CANVAS_SIZE VIDEO_PROCESSING) with 32. rewrite Hm. cbn [app].
      split; [now constructor|]. split; [discriminate|].
      intros H. apply Forall_cons_1 in H as [[e He] _]. discriminate.
    + cbn [app]. split; [exact IH1|]. rewrite IH2. split.
      * intros H. constructor; [now exists e|exact H].
      * intros H. now apply Forall_cons_1 in H as [_ H].
Qed.

Lemma averageMatrices_square (matrices : list HashUtils.matrix) :
  matrices <> [] -> Forall (Spec.square 32) matrices ->
  exists averaged, averageMatrices matrices = Normal (Some averaged)
                   /\ Spec.square 32 averaged.
Proof.
  intros Hne Hsq. destruct matrices as [|first rest]; [congruence|].
  destruct rest as [|second rest].
  - exists first. split; [reflexivity|]. now apply Forall_cons_1 in Hsq as [H _].
  - unfold averageMatrices.
    assert (Hfirst : length first = 32) by (apply Forall_cons_1 in Hsq as [[H _] _]; exact H).
    rewrite Hfirst.
    assert (Hall : forallb (fun matrix => 32 <=? length matrix) (first :: second :: rest) = true).
    { apply forallb_forall. intros m Hm. rewrite List.Forall_forall in Hsq.
      destruct (Hsq m Hm) as [Hlen _]. now rewrite Hlen. }
    rewrite Hall. eexists. split; [reflexivity|]. apply square_map_seq.
Qed.

(** What an attempt returns as a hash is a fingerprint that is not
    trivial. *)
Lemma hash_of_frames_shape (Math_cos : float -> float) (cfg : HASH_CONFIG_t)
  (frames : list frame) (hash : string) :
  hash_of_frames Math_cos cfg frames = Hash hash ->
  String.length hash = 63 /\ Spec.is_bits hash = true
  /\ HashUtils.isTrivialHash cfg (Str hash) = false.
Proof.
  destruct (captured_square frames) as [Hsq _].
  unfold hash_of_frames, captureAndAverageFrames.
  destruct (captured frames) as [|m ms] eqn:Ecap; cbn [length Nat.eqb]; [discriminate|].
  destruct (averageMatrices_square (m :: ms) ltac:(discriminate) Hsq)
    as (averaged & Havg & Hsquare).
  rewrite Havg.
  destruct (hash_of_32_rows Math_cos averaged (proj1 Hsquare)) as [H1 _]. cbv zeta in H1.
  set (bits := HashUtils.bits_of (Spec.low_frequency_coefficients Math_cos averaged)
                 (Spec.median_of (Spec.low_frequency_coefficients Math_cos averaged))) in *.
  assert (Hlen : String.length bits = 63).
  { unfold bits, HashUtils.bits_of. rewrite join_bits_length.
    apply low_frequency_coefficients_length. }
  rewrite H1. cbn [fst].
  rewrite nonempty_truthy by (intros E; rewrite E in Hlen; discriminate).
  destruct (HashUtils.isTrivialHash cfg (Str bits)) eqn:Ht; [discriminate|].
  intros [= <-]. split; [exact Hlen|]. split; [apply join_bits_is_bits|exact Ht].
Qed.

(** X13.  [captureAndAverageFrames] never throws.  It returns [null]
    exactly when no frame could be drawn; otherwise it returns a 32x32
    matrix, whatever the length of the image data, and
    [computePHashFromMatrix] turns that matrix into a string of 63
    characters 0 and 1: an attempt of [computeMultiFramePHash] can fail
    for want of frames only, and its "Hash computation failed" branch is
    never taken. *)
Theorem capture_always_hashes (Math_cos : float -> float) (cfg : HASH_CONFIG_t)
  (frames : list frame) :
  (captureAndAverageFrames frames = Normal None
   /\ Forall (fun f => exists e, f = Throw e) frames
   /\ hash_of_frames Math_cos cfg frames = Failed "Failed to capture video frames")
  \/ (exists averaged bits,
        captureAndAverageFrames frames = Normal (Some averaged)
        /\ Spec.square 32 averaged
        /\ fst (HashUtils.computePHashFromMatrix Math_cos (Some averaged)) = Some bits
        /\ String.length bits = 63 /\ Spec.is_bits bits = true
        /\ hash_of_frames Math_cos cfg frames
           = if HashUtils.isTrivialHash cfg (Str bits) then Trivial else Hash bits).
Proof.
  destruct (captured_square frames) as [Hsq Hnone].
  unfold hash_of_frames, captureAndAverageFrames.
  destruct (captured frames) as [|m ms] eqn:Ecap.
  - left. cbn [length Nat.eqb]. split; [reflexivity|]. split; [|reflexivity].
    now apply Hnone.
  - right. cbn [length Nat.eqb].
    destruct (averageMatrices_square (m :: ms) ltac:(discriminate) Hsq)
      as (averaged & Havg & Hsquare).
    rewrite Havg.
    destruct (hash_of_32_rows Math_cos averaged (proj1 Hsquare)) as [H1 _]. cbv zeta in H1.
    set (bits := HashUtils.bits_of (Spec.low_frequency_coefficients Math_cos averaged)
                   (Spec.median_of (Spec.low_frequency_coefficients Math_cos averaged))) in *.
    assert (Hlen : String.length bits = 63).
    { unfold bits, HashUtils.bits_of. rewrite join_bits_length.
      apply low_frequency_coefficients_length. }
    exists averaged, bits. rewrite H1. cbn [fst].
    split; [reflexivity|]. split; [exact Hsquare|]. split; [reflexivity|].
    split; [exact Hlen|]. split; [apply join_bits_is_bits|].
    rewrite nonempty_truthy by (intros E; rewrite E in Hlen; discriminate).
    reflexivity.
Qed.

(** The loop of attempts returns the hash of the first attempt that
    gives one. *)
Lemma attempts_hash (Math_cos : float -> float) (cfg : HASH_CONFIG_t)
  (page : nat -> attempt) (retryCount fuel k : nat) (hash : string) :
  attempts Math_cos cfg page retryCount fuel k = Some hash ->
  exists j frames,
    k <= j < k + fuel
    /\ page j = Frames frames
    /\ hash_of_frames Math_cos cfg frames = Hash hash
    /\ forall i frames', k <= i < j -> page i = Frames frames' ->
         hash_of_frames Math_cos cfg frames' <> Hash hash
         /\ forall h, hash_of_frames Math_cos cfg frames' <> Hash h.
Proof.
  revert k. induction fuel as [|fuel IH]; intros k; cbn [attempts]; [discriminate|].
  assert (Hnext : attempts Math_cos cfg page retryCount fuel (S k) = Some hash ->
                  (forall frames', page k = Frames frames' ->
                     forall h, hash_of_frames Math_cos cfg frames' <> Hash h) ->
                  exists j frames,
                    k <= j < k + S fuel
                    /\ page j = Frames frames
                    /\ hash_of_frames Math_cos cfg frames = Hash hash
                    /\ forall i frames', k <= i < j -> page i = Frames frames' ->
                         hash_of_frames Math_cos cfg frames' <> Hash hash
                         /\ forall h, hash_of_frames Math_cos cfg frames' <> Hash h).
  { intros H Hk. destruct (IH (S k) H) as (j & frames & Hj & Hpage & Hhash & Hbefore).
    exists j, frames. split; [lia|]. split; [exact Hpage|]. split; [exact Hhash|].
    intros i frames' Hi Hpi. destruct (Nat.eq_dec i k) as [->|Hne].
    - split; [apply Hk; exact Hpi|apply Hk; exact Hpi].
    - apply (Hbefore i frames'); [lia|exact Hpi]. }
  destruct (page k) as [|message|frames] eqn:Hpage.
  - destruct (k <? retryCount); [|discriminate].
    intros H. apply Hnext; [exact H|]. intros frames' Hf. discriminate.
  - destruct (k =? retryCount); [discriminate|].
    intros H. apply Hnext; [exact H|]. intros frames' Hf. discriminate.
  - destruct (hash_of_frames Math_cos cfg frames) as [h| |message] eqn:Hh.
    + intros [= ->]. exists k, frames. split; [lia|]. split; [exact Hpage|].
      split; [exact Hh|]. intros i frames' Hi. lia.
    + destruct (k <? retryCount); [|discriminate].
      intros H. apply Hnext; [exact H|]. intros frames' [= <-] h. congruence.
    + destruct (k =? retryCount); [discriminate|].
      intros H. apply Hnext; [exact H|]. intros frames' [= <-] h. congruence.
Qed.

(** X14.  A hash that [computeMultiFramePHash] returns is never trivial
    and always well formed: it is the fingerprint of the first of the
    [retryCount + 1] attempts whose frames gave a hash that is not
    trivial, it has 63 characters 0 and 1, and [validateHash] accepts
    it. *)
Theorem computeMultiFramePHash_valid (Math_cos Math_log2 : float -> float)
  (cfg : HASH_CONFIG_t) (page : nat -> attempt) (retryCount : nat)
  (hash : string) :
  computeMultiFramePHash Math_cos cfg page retryCount = Some hash ->
  (exists j frames,
     j <= retryCount
     /\ page j = Frames frames
     /\ hash_of_frames Math_cos cfg frames = Hash hash
     /\ forall i frames', i < j -> page i = Frames frames' ->
          forall h, hash_of_frames Math_cos cfg frames' <> Hash h)
  /\ String.length hash = 63
  /\ Spec.is_bits hash = true
  /\ HashUtils.isTrivialHash cfg (Str hash) = false
  /\ exists r, HashReports.validateHash Math_log2 cfg (Str hash) = Normal r
               /\ HashReports.valid r = true.
Proof.
  unfold computeMultiFramePHash. intros H.
  apply attempts_hash in H as (j & frames & Hj & Hpage & Hhash & Hbefore).
  assert (Hshape : String.length hash = 63 /\ Spec.is_bits hash = true
                   /\ HashUtils.isTrivialHash cfg (Str hash) = false).
  { exact (hash_of_frames_shape Math_cos cfg frames hash Hhash). }
  destruct Hshape as (Hlen & Hbits & Htriv).
  split.
  { exists j, frames. split; [lia|]. split; [exact Hpage|]. split; [exact Hhash|].
    intros i frames' Hi Hpi. apply (Hbefore i frames'); [lia|exact Hpi]. }
  split; [exact Hlen|]. split; [exact Hbits|]. split; [exact Htriv|].
  assert (Hne : hash <> EmptyString) by (intros E; rewrite E in Hlen; discriminate).
  destruct (validateHash_binary Math_log2 cfg hash Hne Hbits) as (r & Hr & Hi & Hv).
  exists r. split; [exact Hr|]. rewrite Hv, Hi, Htriv, Hlen. reflexivity.
Qed.

End Capture.

Section CaptureSamples.
Import JS Constants VideoCapture.

Lemma slow_page_hash :
  computeMultiFramePHash Sample.cos HASH_CONFIG Footage.slow_page 2
  = Some "000101100000000000001110100111111001110111011001111100100111001"%string.
Proof. vm_compute. reflexivity. Qed.

Lemma computeMultiFramePHash_valid_witness :
  exists hash,
    computeMultiFramePHash Sample.cos HASH_CONFIG Footage.slow_page 2 = Some hash
    /\ String.length hash = 63
    /\ HashUtils.isTrivialHash HASH_CONFIG (Str hash) = false.
Proof.
  eexists. split; [exact slow_page_hash|].
  destruct (computeMultiFramePHash_valid Sample.cos (fun x => x) HASH_CONFIG
              Footage.slow_page 2 _ slow_page_hash) as (_ & Hlen & _ & Htriv & _).
  split; assumption.
Defined.

End CaptureSamples.

Section LegacyCaptureShape.
Import JS Constants.

Lemma accumulate_rows_length (img : list Z) (acc : HashUtils.matrix) (idx : nat) :
  length (Legacy.accumulate_rows img acc idx) = length acc.
Proof.
  revert idx. induction acc as [|row rows IH]; intros idx; [reflexivity|].
  cbn [Legacy.accumulate_rows].
  destruct (Legacy.accumulate_row img row idx) as [row' idx']. cbn [length].
  now rewrite IH.
Qed.

Lemma capture_rows (frames : list VideoCapture.frame) (acc : HashUtils.matrix) (n : nat) :
  length (fst (LegacyCapture.capture frames acc n)) = length acc
  /\ n <= snd (LegacyCapture.capture frames acc n)
  /\ (snd (LegacyCapture.capture frames acc n) = n <->
      Forall (fun f => exists e, f = Throw e) frames).
Proof.
  revert acc n. induction frames as [|f frames IH]; intros acc n; cbn [LegacyCapture.capture].
  - cbn [fst snd]. split; [reflexivity|]. split; [lia|]. split; constructor.
  - destruct f as [img|e].
    + destruct (IH (Legacy.accumulate_frame img acc) (S n)) as (H1 & H2 & H3).
      split; [rewrite H1; apply accumulate_rows_length|]. split; [lia|].
      split; [lia|]. intros H. apply Forall_cons_1 in H as [[e He] _]. discriminate.
    + destruct (IH acc n) as (H1 & H2 & H3).
      split; [exact H1|]. split; [exact H2|]. rewrite H3. split.
      * intros H. constructor; [now exists e|exact H].
      * intros H. now apply Forall_cons_1 in H as [_ H].
Qed.

(** X15.  The content script's [computeMultiFramePHash] returns [null]
    when no frame could be drawn, or when the fingerprint of the
    averaged frames is trivial, and in no other case; a hash it returns
    has 63 characters 0 and 1, is not trivial, and passes [validateHash]
    under the default configuration. *)
Theorem legacy_computeMultiFramePHash_valid (Math_cos Math_log2 : float -> float)
  (frames : list VideoCapture.frame) :
  match LegacyCapture.computeMultiFramePHash Math_cos frames with
  | None =>
      Forall (fun f => exists e, f = Throw e) frames
      \/ exists acc captured bits,
           LegacyCapture.capture frames (Legacy.zero_matrix 32) 0 = (acc, captured)
           /\ Legacy.computePHashFromMatrix Math_cos
                (map (fun row => map (fun v => (v / of_nat captured)%float) row) acc)
              = Normal bits
           /\ Legacy.isTrivialHash (Some bits) = true
  | Some hash =>
      String.length hash = 63
      /\ Spec.is_bits hash = true
      /\ Legacy.isTrivialHash (Some hash) = false
      /\ exists r, HashReports.validateHash Math_log2 HASH_CONFIG (Str hash) = Normal r
                   /\ HashReports.valid r = true
  end.
Proof.
  unfold LegacyCapture.computeMultiFramePHash.
  change Legacy.CANVAS_SIZE with 32.
  destruct (capture_rows frames (Legacy.zero_matrix 32) 0) as (Hrows & _ & Hnone).
  destruct (LegacyCapture.capture frames (Legacy.zero_matrix 32) 0) as [acc captured] eqn:Ecap.
  cbn [fst snd] in Hrows, Hnone.
  destruct (Nat.eqb_spec captured 0) as [->|Hpos].
  - left. now apply Hnone.
  - set (avg := map (fun row => map (fun v => (v / of_nat captured)%float) row) acc).
    assert (Havg : length avg = 32).
    { unfold avg. rewrite length_map, Hrows. unfold Legacy.zero_matrix. apply repeat_length. }
    destruct (hash_of_32_rows Math_cos avg Havg) as [_ H2]. cbv zeta in H2.
    rewrite H2.
    set (bits := HashUtils.bits_of (Spec.low_frequency_coefficients Math_cos avg)
                   (Spec.median_of (Spec.low_frequency_coefficients Math_cos avg))) in *.
    destruct (Legacy.isTrivialHash (Some bits)) eqn:Htriv.
    + right. exists acc, captured, bits. repeat split; assumption.
    + assert (Hlen : String.length bits = 63).
      { unfold bits, HashUtils.bits_of. rewrite join_bits_length.
        apply low_frequency_coefficients_length. }
      assert (Hbits : Spec.is_bits bits = true) by apply join_bits_is_bits.
      split; [exact Hlen|]. split; [exact Hbits|]. split; [exact Htriv|].
      assert (Hne : bits <> EmptyString) by (intros E; rewrite E in Hlen; discriminate).
      destruct (validateHash_binary Math_log2 HASH_CONFIG bits Hne Hbits) as (r & Hr & Hi & Hv).
      exists r. split; [exact Hr|]. rewrite Hv, Hi, Hlen.
      rewrite isTrivialHash_unfold. rewrite legacy_isTrivialHash_unfold in Htriv.
      change (MIN_ONES_ZEROS HASH_CONFIG) with 4. rewrite Htriv. reflexivity.
Qed.

End LegacyCaptureShape.

(* ===================================================================== *)
(** * The stored list of blocked hashes                                   *)
(* ===================================================================== *)

Section Storage.
Import JS StorageManager.

Lemma hash_is_spec (hs : string) (i : item) : hash_is hs i = true <-> hash i = Str hs.
Proof.
  unfold hash_is. destruct (hash i) as [|s|z]; try (split; discriminate).
  rewrite String.eqb_eq. split; [now intros ->|now intros [= ->]].
Qed.

Lemma hash_is_same_value (hs : string) (i : item) :
  hash_is hs i = VideoBlocker.same_value (hash i) (Str hs).
Proof. unfold hash_is. now destruct (hash i). Qed.

Lemma not_stored (hs : string) (data : list item) :
  existsb (hash_is hs) data = false <-> ~ List.In (Str hs) (map hash data).
Proof.
  rewrite <- not_true_iff_false, existsb_exists. split.
  - intros H Hin. apply H. apply in_map_iff in Hin as (i & Hi & Hin).
    exists i. split; [exact Hin|]. now apply hash_is_spec.
  - intros H (i & Hin & Hi). apply H. apply hash_is_spec in Hi.
    rewrite <- Hi. now apply in_map.
Qed.

Lemma healthy_get (s : t) : healthy s -> getStorageData (browser s) = Normal (stored (browser s)).
Proof. intros [Ha He]. unfold getStorageData. now rewrite Ha, He. Qed.

Lemma healthy_set (value : list item) (s : t) :
  healthy s ->
  setStorageData value (browser s)
  = Normal {| available := true; lastError := None; stored := Some value |}.
Proof. intros [Ha He]. unfold setStorageData. now rewrite Ha, He. Qed.

Lemma get_normal (c : chrome) (data : option (list item)) :
  getStorageData c = Normal data ->
  available c = true /\ lastError c = None /\ data = stored c.
Proof.
  unfold getStorageData. destruct (available c); [|discriminate].
  destruct (lastError c); [discriminate|]. now intros [= <-].
Qed.

Lemma set_normal (value : list item) (c c' : chrome) :
  setStorageData value c = Normal c' ->
  available c' = true /\ lastError c' = None /\ stored c' = Some value.
Proof.
  unfold setStorageData. destruct (available c) eqn:Ha; [|discriminate].
  destruct (lastError c) eqn:He; [discriminate|]. intros [= <-]. auto.
Qed.

Lemma string_hashes_app (data data' : list item) :
  string_hashes (data ++ data') = string_hashes data ++ string_hashes data'.
Proof. unfold string_hashes. now rewrite map_app, List.filter_app. Qed.

Lemma filter_absent (hs : string) (data : list item) :
  existsb (hash_is hs) data = false ->
  List.filter (fun i => negb (hash_is hs i)) data = data.
Proof.
  induction data as [|i data IH]; cbn [existsb List.filter]; [reflexivity|].
  intros H. apply orb_false_iff in H as [Hi H]. rewrite Hi. cbn [negb].
  now rewrite IH.
Qed.

Lemma string_hashes_remove (hs : string) (data : list item) :
  string_hashes (List.filter (fun i => negb (hash_is hs i)) data)
  = List.filter (fun h => negb (VideoBlocker.same_value h (Str hs))) (string_hashes data).
Proof.
  unfold string_hashes. induction data as [|i data IH]; [reflexivity|].
  cbn [List.filter map]. rewrite hash_is_same_value.
  destruct (VideoBlocker.same_value (hash i) (Str hs)) eqn:Hsame; cbn [negb].
  - destruct (negb (falsy (hash i)) && is_string (hash i)); cbn [List.filter].
    + rewrite Hsame. cbn [negb]. exact IH.
    + exact IH.
  - cbn [map List.filter].
    destruct (negb (falsy (hash i)) && is_string (hash i)); cbn [List.filter].
    + rewrite Hsame. cbn [negb]. now rewrite IH.
    + exact IH.
Qed.

(** A successful save, in full. *)
Lemma saveBlockedHash_true (now : Z) (h : value) (s : t) :
  fst (fst (saveBlockedHash now h s)) = true ->
  exists hs,
    h = Str hs /\ hs <> EmptyString /\ healthy s
    /\ existsb (hash_is hs) (stored_items s) = false
    /\ saveBlockedHash now h s
       = (true,
          {| cache := Some (or_empty (cache s) ++ [h]);
             browser :=
               {| available := true; lastError := None;
                  stored := Some (stored_items s
                                  ++ [{| hash := h; added := now; version := "1.0";
                                         source := "manual" |}]) |} |},
          [hashAdded h (length (stored_items s
                                ++ [{| hash := h; added := now; version := "1.0";
                                       source := "manual" |}]))]).
Proof.
  unfold saveBlockedHash. destruct h as [|hs|z]; try discriminate.
  destruct (falsy (Str hs)) eqn:Hf; [discriminate|].
  destruct (getStorageData (browser s)) as [data|e] eqn:Hget; [|discriminate].
  apply get_normal in Hget as (Ha & He & ->). fold (stored_items s).
  destruct (existsb (hash_is hs) (stored_items s)) eqn:Hex; [discriminate|].
  assert (Hs : healthy s) by (split; assumption).
  rewrite (healthy_set _ s Hs). intros _.
  exists hs. split; [reflexivity|]. split; [intros ->; discriminate|].
  split; [exact Hs|]. split; [exact Hex|reflexivity].
Qed.

Lemma saveBlockedHash_false (now : Z) (h : value) (s : t) :
  fst (fst (saveBlockedHash now h s)) = false ->
  saveBlockedHash now h s = (false, s, []).
Proof.
  unfold saveBlockedHash. destruct h as [|hs|z]; try reflexivity.
  destruct (falsy (Str hs)); [reflexivity|].
  destruct (getStorageData (browser s)) as [data|e]; [|reflexivity].
  destruct (existsb (hash_is hs) (or_empty data)); [reflexivity|].
  destruct (setStorageData _ (browser s)); [discriminate|reflexivity].
Qed.

(** X16.  [saveBlockedHash] answers true exactly when the hash is a
    non-empty string that is not stored yet and the browser storage
    works; it then appends one entry for the hash, stamped with the
    current time, and tells the listeners the new length.  In every
    other case nothing changes.  A stored list without repeated hashes
    stays without. *)
Theorem saveBlockedHash_outcome (now : Z) (h : value) (s : t) :
  let '(saved, s', notes) := saveBlockedHash now h s in
  (saved = true <->
   exists hs, h = Str hs /\ hs <> EmptyString /\ healthy s
              /\ ~ List.In h (map hash (stored_items s)))
  /\ (if saved then
        stored_items s'
        = stored_items s
          ++ [{| hash := h; added := now; version := "1.0"; source := "manual" |}]
        /\ healthy s'
        /\ notes = [hashAdded h (S (length (stored_items s)))]
      else s' = s /\ notes = [])
  /\ (List.NoDup (map hash (stored_items s)) -> List.NoDup (map hash (stored_items s'))).
Proof.
  destruct (fst (fst (saveBlockedHash now h s))) eqn:Hsaved.
  - destruct (saveBlockedHash_true now h s Hsaved) as (hs & -> & Hne & Hs & Hex & ->).
    apply not_stored in Hex.
    split; [split; [intros _; exists hs; auto|reflexivity]|].
    split.
    + split; [reflexivity|]. split; [split; reflexivity|].
      rewrite length_app. cbn [length]. now rewrite Nat.add_1_r.
    + intros Hnd. unfold stored_items at 1. cbn [browser stored or_empty].
      rewrite map_app. cbn [map hash].
      eapply Permutation_NoDup; [apply Permutation_cons_append|].
      constructor; [exact Hex|exact Hnd].
  - rewrite (saveBlockedHash_false now h s Hsaved).
    split; [|split; [split; reflexivity|tauto]].
    split; [discriminate|]. intros (hs & -> & Hne & Hs & Hnew). exfalso.
    apply not_stored in Hnew.
    unfold saveBlockedHash in Hsaved.
    rewrite (nonempty_truthy hs Hne), (healthy_get s Hs) in Hsaved.
    fold (stored_items s) in Hsaved. rewrite Hnew in Hsaved.
    rewrite (healthy_set _ s Hs) in Hsaved. discriminate.
Qed.

Lemma filter_others (hs : string) (l : list value) :
  ~ List.In (Str hs) l ->
  List.filter (fun h => negb (VideoBlocker.same_value h (Str hs))) l = l.
Proof.
  induction l as [|h l IH]; cbn [List.filter]; [reflexivity|].
  intros H. assert (Hh : VideoBlocker.same_value h (Str hs) = false).
  { destruct h as [|s|z]; try reflexivity. cbn [VideoBlocker.same_value].
    apply String.eqb_neq. intros ->. apply H. now left. }
  rewrite Hh. cbn [negb]. rewrite IH; [reflexivity|]. intros Hin. apply H. now right.
Qed.

Lemma string_hashes_subset (h : value) (data : list item) :
  List.In h (string_hashes data) -> List.In h (map hash data).
Proof. unfold string_hashes. intros H. now apply List.filter_In in H as [H _]. Qed.

(** X17.  Saving a hash and removing it again gives back the stored
    list: after a successful [saveBlockedHash], [removeBlockedHash] of
    the same hash answers true and leaves the stored list as it was
    before the save, and the cache too when it was coherent. *)
Theorem save_then_remove (now : Z) (hs : string) (s : t) :
  fst (fst (saveBlockedHash now (Str hs) s)) = true ->
  let s1 := snd (fst (saveBlockedHash now (Str hs) s)) in
  let '(removed, s2, notes) := removeBlockedHash hs s1 in
  removed = true
  /\ stored_items s2 = stored_items s
  /\ notes = [hashRemoved (Str hs) (length (stored_items s))]
  /\ (coherent s -> cache s2 = cache s).
Proof.
  intros Hsaved.
  destruct (saveBlockedHash_true now (Str hs) s Hsaved) as (hs' & [= <-] & Hne & Hs & Hex & ->).
  cbn [fst snd].
  set (new := {| hash := Str hs; added := now; version := "1.0"; source := "manual" |}).
  unfold removeBlockedHash. cbn [browser getStorageData available lastError negb stored or_empty].
  rewrite List.filter_app, (filter_absent hs _ Hex).
  cbn [List.filter hash_is hash new]. rewrite String.eqb_refl. cbn [negb].
  rewrite app_nil_r, length_app. cbn [length].
  destruct (Nat.eqb_spec (length (stored_items s)) (length (stored_items s) + 1)); [lia|].
  cbn [setStorageData available lastError negb].
  split; [reflexivity|]. split; [reflexivity|]. split; [reflexivity|].
  intros Hcoh. cbn [cache]. rewrite Hcoh. cbn [or_empty]. f_equal.
  rewrite List.filter_app. cbn [List.filter VideoBlocker.same_value].
  rewrite String.eqb_refl. cbn [negb]. rewrite app_nil_r.
  apply filter_others. intros Hin. apply string_hashes_subset in Hin.
  apply not_stored in Hex. now apply Hex.
Qed.

Lemma save_then_remove_witness :
  let s := {| cache := Some [Str "0101"];
              browser := {| available := true; lastError := None;
                            stored := Some [{| hash := Str "0101"; added := 7;
                                               version := "1.0"; source := "manual" |}] |} |} in
  stored_items (snd (fst (removeBlockedHash "0011"
                            (snd (fst (saveBlockedHash 9 (Str "0011") s))))))
  = stored_items s.
Proof.
  intros s.
  assert (Hsaved : fst (fst (saveBlockedHash 9 (Str "0011") s)) = true) by reflexivity.
  pose proof (save_then_remove 9 "0011" s Hsaved) as H. cbv zeta in H.
  destruct (removeBlockedHash "0011" (snd (fst (saveBlockedHash 9 (Str "0011") s))))
    as [[removed s2] notes].
  exact (proj1 (proj2 H)).
Defined.

(** Every call keeps a coherent cache coherent. *)
Lemma apply_call_coherent (c : call) (s : t) : coherent s -> coherent (apply_call c s).
Proof.
  unfold coherent. intros Hcoh. destruct c as [now h|hs| |]; cbn [apply_call].
  - destruct (fst (fst (saveBlockedHash now h s))) eqn:Hsaved.
    + destruct (saveBlockedHash_true now h s Hsaved) as (hs & -> & Hne & Hs & Hex & ->).
      cbn [fst snd cache]. unfold stored_items at 1. cbn [browser stored or_empty].
      rewrite Hcoh. cbn [or_empty]. rewrite string_hashes_app. f_equal. f_equal.
      unfold string_hashes. cbn [map hash List.filter].
      now rewrite (nonempty_truthy hs Hne).
    + now rewrite (saveBlockedHash_false now h s Hsaved).
  - unfold removeBlockedHash.
    destruct (getStorageData (browser s)) as [data|e] eqn:Hget; [|exact Hcoh].
    apply get_normal in Hget as (Ha & He & ->). fold (stored_items s).
    destruct (_ =? _); [exact Hcoh|].
    unfold setStorageData. rewrite Ha, He. cbn [negb fst snd cache].
    unfold stored_items at 1. cbn [browser stored or_empty].
    rewrite Hcoh. cbn [or_empty]. now rewrite string_hashes_remove.
  - unfold clearAllHashes.
    destruct (setStorageData [] (browser s)) as [c'|e] eqn:Hset; [|exact Hcoh].
    apply set_normal in Hset as (_ & _ & Hst). cbn [fst snd cache].
    unfold stored_items. cbn [browser]. now rewrite Hst.
  - unfold loadBlockedHashes.
    destruct (getStorageData (browser s)) as [data|e] eqn:Hget; [|exact Hcoh].
    apply get_normal in Hget as (_ & _ & ->). reflexivity.
Qed.

(** X18.  The cache follows the storage once it has been loaded, and
    only then.  A cache that holds what [loadBlockedHashes] would read
    still does after any sequence of saves, removals, clearings and
    loads, whether they succeed or not, and [getBlockedHashes] then
    answers like a fresh load.  But a save made while the cache is
    still empty leaves the new hash alone in the cache, and a removal
    leaves the cache empty, whatever else is stored. *)
Theorem cache_follows_storage :
  (forall (cs : list call) (s : t),
     coherent s ->
     let s' := fold_left (fun s c => apply_call c s) cs s in
     coherent s'
     /\ (healthy s' -> fst (getBlockedHashes s') = fst (loadBlockedHashes s')))
  /\ (forall s, healthy s -> coherent (snd (loadBlockedHashes s)))
  /\ (forall now h s,
        cache s = None -> fst (fst (saveBlockedHash now h s)) = true ->
        fst (getBlockedHashes (snd (fst (saveBlockedHash now h s)))) = [h])
  /\ (forall hs s,
        cache s = None -> fst (fst (removeBlockedHash hs s)) = true ->
        fst (getBlockedHashes (snd (fst (removeBlockedHash hs s)))) = []).
Proof.
  split; [|split; [|split]].
  - intros cs. induction cs as [|c cs IH]; intros s Hcoh; cbn [fold_left].
    + split; [exact Hcoh|]. intros Hs.
      unfold getBlockedHashes, loadBlockedHashes. rewrite Hcoh, (healthy_get s Hs).
      reflexivity.
    + apply IH. now apply apply_call_coherent.
  - intros s Hs. unfold loadBlockedHashes, coherent. rewrite (healthy_get s Hs). reflexivity.
  - intros now h s Hcache Hsaved.
    destruct (saveBlockedHash_true now h s Hsaved) as (hs & -> & _ & _ & _ & ->).
    cbn [fst snd]. unfold getBlockedHashes. cbn [cache fst]. now rewrite Hcache.
  - intros hs s Hcache. unfold removeBlockedHash.
    destruct (getStorageData (browser s)) as [data|e]; [|discriminate].
    destruct (_ =? _); [discriminate|].
    destruct (setStorageData _ (browser s)); [|discriminate].
    intros _. cbn [fst snd]. unfold getBlockedHashes. cbn [cache fst]. now rewrite Hcache.
Qed.

End Storage.

(* ===================================================================== *)
(** * The blocker and the storage, in step                                *)
(* ===================================================================== *)

Section BlockerList.
Import JS Constants BlockList BlockListCalls.

Lemma same_value_eq (a b : value) : VideoBlocker.same_value a b = true <-> a = b.
Proof.
  destruct a as [|s|z], b as [|s'|z']; cbn [VideoBlocker.same_value];
    try (split; [discriminate|discriminate]); try tauto.
  - rewrite String.eqb_eq. split; [now intros ->|now intros [= ->]].
  - rewrite Z.eqb_eq. split; [now intros ->|now intros [= ->]].
Qed.

Lemma has_In (set : list value) (h : value) :
  VideoBlocker.has set h = true <-> List.In h set.
Proof.
  unfold VideoBlocker.has. rewrite existsb_exists. split.
  - intros (x & Hx & Heq). apply same_value_eq in Heq. now subst.
  - intros Hin. exists h. split; [exact Hin|]. now apply same_value_eq.
Qed.

Lemma add_In (h x : value) (set : list value) :
  List.In x (add h set) <-> List.In x set \/ x = h.
Proof.
  unfold add. destruct (VideoBlocker.has set h) eqn:Hhas.
  - apply has_In in Hhas. split; [tauto|]. intros [H| ->]; assumption.
  - rewrite in_app_iff. cbn [List.In]. split.
    + intros [H|[H|[]]]; [now left|]. right. now symmetry.
    + intros [H| ->]; [now left|]. right. now left.
Qed.

Lemma delete_In (h x : value) (set : list value) :
  List.In x (delete h set) <-> List.In x set /\ x <> h.
Proof.
  unfold delete. rewrite List.filter_In, negb_true_iff.
  rewrite <- not_true_iff_false, same_value_eq. split; intros [H1 H2]; split; congruence.
Qed.

Lemma removeBlockedHash_false (hs : string) (s : StorageManager.t) :
  fst (fst (StorageManager.removeBlockedHash hs s)) = false ->
  StorageManager.removeBlockedHash hs s = (false, s, []).
Proof.
  unfold StorageManager.removeBlockedHash.
  destruct (StorageManager.getStorageData _) as [data|e]; [|reflexivity].
  destruct (_ =? _); [reflexivity|].
  destruct (StorageManager.setStorageData _ _); [discriminate|reflexivity].
Qed.

Lemma removeBlockedHash_true (hs : string) (s : StorageManager.t) :
  fst (fst (StorageManager.removeBlockedHash hs s)) = true ->
  StorageManager.stored_items (snd (fst (StorageManager.removeBlockedHash hs s)))
  = List.filter (fun i => negb (StorageManager.hash_is hs i)) (StorageManager.stored_items s).
Proof.
  unfold StorageManager.removeBlockedHash.
  destruct (StorageManager.getStorageData _) as [data|e] eqn:Hget; [|discriminate].
  apply get_normal in Hget as (Ha & He & ->). fold (StorageManager.stored_items s).
  destruct (_ =? _); [discriminate|].
  unfold StorageManager.setStorageData. rewrite Ha, He. reflexivity.
Qed.

Lemma addBlockedHash_true (Math_log2 : float -> float) (cfg : HASH_CONFIG_t)
  (now : Z) (h : value) (b : t) :
  fst (addBlockedHash Math_log2 cfg now h b) = true ->
  exists validation,
    HashReports.validateHash Math_log2 cfg h = Normal validation
    /\ HashReports.valid validation = true
    /\ fst (fst (StorageManager.saveBlockedHash now h (storageManager b))) = true
    /\ snd (addBlockedHash Math_log2 cfg now h b)
       = {| blockedHashes := add h (blockedHashes b);
            hashesAdded := hashesAdded b + 1;
            storageManager :=
              snd (fst (StorageManager.saveBlockedHash now h (storageManager b))) |}.
Proof.
  unfold addBlockedHash. destruct (falsy h || negb (is_string h)); [discriminate|].
  destruct (HashReports.validateHash Math_log2 cfg h) as [validation|e]; [|discriminate].
  destruct (HashReports.valid validation) eqn:Hvalid; [|discriminate]. cbn [negb].
  destruct (StorageManager.saveBlockedHash now h (storageManager b)) as [[saved sm] notes].
  destruct saved; [|discriminate]. intros _. exists validation. auto.
Qed.

Lemma addBlockedHash_false (Math_log2 : float -> float) (cfg : HASH_CONFIG_t)
  (now : Z) (h : value) (b : t) :
  fst (addBlockedHash Math_log2 cfg now h b) = false ->
  snd (addBlockedHash Math_log2 cfg now h b) = b.
Proof.
  unfold addBlockedHash. destruct (falsy h || negb (is_string h)); [reflexivity|].
  destruct (HashReports.validateHash Math_log2 cfg h) as [validation|e]; [|reflexivity].
  destruct (negb (HashReports.valid validation)); [reflexivity|].
  destruct (fst (fst (StorageManager.saveBlockedHash now h (storageManager b)))) eqn:Hsaved.
  - destruct (StorageManager.saveBlockedHash now h (storageManager b)) as [[saved sm] notes].
    cbn [fst] in Hsaved. subst saved. discriminate.
  - rewrite (saveBlockedHash_false now h _ Hsaved). intros _. now destruct b.
Qed.

Lemma apply_call_in_step (Math_log2 : float -> float) (cfg : HASH_CONFIG_t)
  (c : call) (b : t) :
  in_step b -> in_step (snd (apply_call Math_log2 cfg c b)).
Proof.
  intros Hb. destruct c as [now h|hs|]; cbn [apply_call].
  - destruct (fst (addBlockedHash Math_log2 cfg now h b)) eqn:Hadd.
    + destruct (addBlockedHash_true Math_log2 cfg now h b Hadd) as (v & _ & _ & Hsaved & ->).
      destruct (saveBlockedHash_true now h _ Hsaved) as (hs & -> & Hne & _ & _ & Heq).
      rewrite Heq. intros x. cbn [fst snd blockedHashes storageManager].
      unfold StorageManager.stored_items at 1.
      cbn [StorageManager.browser StorageManager.stored StorageManager.or_empty].
      assert (Hone : forall i, StorageManager.hash i = Str hs ->
                       StorageManager.string_hashes [i] = [Str hs]).
      { intros i Hi. unfold StorageManager.string_hashes. cbn [map List.filter].
        now rewrite Hi, (nonempty_truthy hs Hne). }
      rewrite string_hashes_app, in_app_iff, add_In, (Hb x).
      rewrite Hone by reflexivity.
      cbn [List.In]. split.
      * intros [H| ->]; [now left|]. right. now left.
      * intros [H|[<-|[]]]; [now left|now right].
    + now rewrite (addBlockedHash_false Math_log2 cfg now h b Hadd).
  - unfold removeBlockedHash.
    destruct (fst (fst (StorageManager.removeBlockedHash hs (storageManager b)))) eqn:Hrem.
    + pose proof (removeBlockedHash_true hs _ Hrem) as Hitems.
      destruct (StorageManager.removeBlockedHash hs (storageManager b)) as [[ok sm] notes].
      cbn [fst snd] in *. subst ok. intros x. cbn [snd blockedHashes storageManager].
      rewrite Hitems, string_hashes_remove, delete_In, List.filter_In, (Hb x).
      rewrite negb_true_iff, <- not_true_iff_false, same_value_eq. tauto.
    + rewrite (removeBlockedHash_false hs _ Hrem). cbn [snd]. now destruct b.
  - unfold clearAllBlocked, StorageManager.clearAllHashes.
    destruct (StorageManager.setStorageData [] _) as [c'|e] eqn:Hset.
    + apply set_normal in Hset as (_ & _ & Hst). intros x.
      cbn [snd blockedHashes storageManager].
      unfold StorageManager.stored_items. cbn [StorageManager.browser]. rewrite Hst.
      reflexivity.
    + cbn [snd]. now destruct b.
Qed.

(** X19.  The blocker and the storage stay in step: when the blocker
    lists exactly the string hashes that are stored, it still does after
    any sequence of [addBlockedHash], [removeBlockedHash] and
    [clearAllBlocked], whether the calls succeed or not.  And
    [addBlockedHash] only lets fingerprints in: when it answers true the
    hash has 63 characters 0 and 1 with more ones and zeros than the
    minimum, and from then on [isHashBlocked] answers true for it. *)
Theorem blocker_in_step (Math_log2 : float -> float) (cfg : HASH_CONFIG_t) :
  (forall (cs : list call) (b : t), in_step b -> in_step (run Math_log2 cfg cs b))
  /\ (forall now h b,
        fst (addBlockedHash Math_log2 cfg now h b) = true ->
        let b' := snd (addBlockedHash Math_log2 cfg now h b) in
        (exists s, h = Str s /\ Spec.is_bits s = true /\ String.length s = 63
                   /\ MIN_ONES_ZEROS cfg < Spec.ones s /\ MIN_ONES_ZEROS cfg < Spec.zeros s)
        /\ List.In h (getBlockedHashes b')
        /\ VideoBlocker.isHashBlocked cfg (getBlockedHashes b') h = true)
  /\ (forall now h b,
        fst (addBlockedHash Math_log2 cfg now h b) = false ->
        snd (addBlockedHash Math_log2 cfg now h b) = b).
Proof.
  split; [|split].
  - intros cs. unfold run. induction cs as [|c cs IH]; intros b Hb; [exact Hb|].
    cbn [fold_left]. apply IH. now apply apply_call_in_step.
  - intros now h b Hadd b'.
    destruct (addBlockedHash_true Math_log2 cfg now h b Hadd) as (v & Hv & Hvalid & _ & Hb').
    destruct (valid_is_fingerprint Math_log2 cfg h v Hv Hvalid)
      as (s & -> & Hbits & Hlen & Ho & Hz).
    assert (Hin : List.In (Str s) (getBlockedHashes b')).
    { unfold b', getBlockedHashes. rewrite Hb'. cbn [blockedHashes]. apply add_In. now right. }
    split; [exists s; auto|]. split; [exact Hin|].
    unfold VideoBlocker.isHashBlocked.
    rewrite nonempty_truthy by (intros E; rewrite E in Hlen; discriminate).
    now rewrite (proj2 (has_In _ _) Hin).
  - intros now h b. apply addBlockedHash_false.
Qed.

End BlockerList.

(* ===================================================================== *)
(** * Rounding on a dyadic scale                                        *)
(* ===================================================================== *)

Section Scaled.
Import JS Constants Binary64 Dyadic.
Local Open Scope Z_scope.

Lemma shr_record_loc (m : Z) (l : location) :
  loc_of_shr_record (shr_record_of_loc m l) = l.
Proof. destruct l as [|[ | | ]]; reflexivity. Qed.

Lemma shr_fexp_spec (m e : Z) (l : location) :
  0 <= m ->
  let r := shr_fexp prec emax m e l in
  snd r = Z.max e (fexp prec emax (Zdigits2 m + e))
  /\ shr_m (fst r) = m / 2 ^ (snd r - e)
  /\ (l = loc_Exact -> (2 ^ (snd r - e) | m) -> loc_of_shr_record (fst r) = loc_Exact)
  /\ (snd r = e -> loc_of_shr_record (fst r) = l).
Proof.
  intros Hm. unfold shr_fexp, shr.
  destruct (fexp prec emax (Zdigits2 m + e) - e) as [|p|p] eqn:Hn; cbn [fst snd].
  - replace (Z.max e _) with e by lia. replace (e - e) with 0 by lia.
    rewrite Z.pow_0_r, Z.div_1_r, shr_record_of_loc_m, shr_record_loc.
    repeat split; auto.
  - replace (Z.max e _) with (e + Z.pos p) by lia.
    replace (e + Z.pos p - e) with (Z.pos p) by lia.
    split; [reflexivity|]. split; [|split].
    + rewrite iter_shr_1 by (rewrite shr_record_of_loc_m; exact Hm).
      now rewrite shr_record_of_loc_m.
    + intros -> Hd. apply sticky_exact, iter_shr_1_exact; [exact Hm|reflexivity|exact Hd].
    + lia.
  - replace (Z.max e _) with e by lia. replace (e - e) with 0 by lia.
    rewrite Z.pow_0_r, Z.div_1_r, shr_record_of_loc_m, shr_record_loc.
    repeat split; auto.
Qed.

Lemma Zdigits2_bounds (m : Z) :
  0 <= m -> 0 <= Zdigits2 m /\ (0 < m -> 2 ^ (Zdigits2 m - 1) <= m).
Proof.
  intros Hm. destruct m as [|p|p]; cbn [Zdigits2]; [lia| |lia].
  pose proof (digits2_pos_bounds p). lia.
Qed.

(** Rounding to nearest never crosses a multiple of [2^-t] below
    [2^(53-t)]: a value that is not negative and does not exceed
    [B / 2^t] rounds to one that does not either.  The value is given by
    its truncation [mz * 2^ez] and the location [lz] of what was cut. *)
Lemma binary_round_aux_upto (mz ez : Z) (lz : location) (t B : Z) :
  0 <= mz -> 0 <= t <= 1074 -> 0 <= B < 2 ^ 53 -> -2148 <= ez ->
  mz * 2 ^ (ez + 2148) * 2 ^ t <= B * 2 ^ 2148 ->
  (lz = loc_Exact \/ (ez <= - t /\ mz * 2 ^ (ez + 2148) * 2 ^ t < B * 2 ^ 2148)) ->
  upto_sf t B (binary_round_aux prec emax false mz ez lz).
Proof.
  intros Hmz Ht HB He Hle Hloc. unfold binary_round_aux.
  pose proof (shr_fexp_spec mz ez lz Hmz) as H1. cbv zeta in H1.
  destruct (shr_fexp prec emax mz ez lz) as [mrs' e'].
  cbn [fst snd] in H1. destruct H1 as (He' & Hm1 & Hx1 & Hsame).
  pose proof (Zdigits2_bounds mz Hmz) as [Hd0 Hdlo].
  remember (Zdigits2 mz) as d eqn:Ed.
  unfold fexp, SpecFloat.emin in He'. change prec with 53 in He'. change emax with 1024 in He'.
  pose proof (round_nearest_even_bounds (shr_m mrs') (loc_of_shr_record mrs')) as Hr.
  remember (round_nearest_even (shr_m mrs') (loc_of_shr_record mrs')) as m2 eqn:Em2.
  remember 2148 as W eqn:HWv in *.
  assert (HW : 0 < 2 ^ W) by (apply two_pow_positive; lia).
  assert (HT : 0 < 2 ^ t) by (apply two_pow_positive; lia).
  assert (HeW : 0 < 2 ^ (ez + W)) by (apply two_pow_positive; lia).
  assert (HBW : B * 2 ^ W < 2 ^ (53 + W)).
  { rewrite (two_pow_add 53 W) by (lia). nia. }
  assert (He'lo : -1074 <= e') by lia.
  assert (Hee' : ez <= e') by lia.
  assert (Hm1n : 0 <= shr_m mrs').
  { rewrite Hm1. apply Z.div_pos; [lia|]. apply two_pow_positive. lia. }
  assert (Hm2 : 0 <= m2 /\ m2 * 2 ^ (e' + W) * 2 ^ t <= B * 2 ^ W).
  { split; [lia|].
    destruct (Z.eq_dec e' ez) as [->|Hne].
    - replace (ez - ez) with 0 in * by lia. rewrite Z.pow_0_r, Z.div_1_r in Hm1.
      rewrite (Hsame eq_refl) in Em2.
      destruct Hloc as [->|[Hezt Hlt]].
      + rewrite round_nearest_even_exact in Em2. subst m2. rewrite Hm1. exact Hle.
      + set (K := B * 2 ^ (- ez - t)).
        assert (HK : B * 2 ^ W = K * (2 ^ (ez + W) * 2 ^ t)).
        { unfold K. rewrite <- !Z.mul_assoc. f_equal.
          rewrite <- !two_pow_add by (lia). f_equal. lia. }
        rewrite <- Z.mul_assoc in Hlt |- *. rewrite HK in Hlt |- *.
        assert (HP : 0 < 2 ^ (ez + W) * 2 ^ t) by lia.
        apply Z.mul_lt_mono_pos_r in Hlt; [|exact HP].
        apply Z.mul_le_mono_nonneg_r; lia.
    - set (n := e' - ez) in *.
      assert (Hn : 0 < n) by (unfold n; lia).
      assert (HP : 0 < 2 ^ n) by (apply two_pow_positive; lia).
      assert (He't : e' <= - t).
      { destruct (Z.eq_dec e' (-1074)) as [->|Hne']; [lia|].
        assert (He'd : e' = d + ez - 53) by lia.
        assert (Hdpos : 0 < mz).
        { destruct (Z.eq_dec mz 0) as [E0|]; [|lia]. rewrite E0 in Ed. cbn in Ed.
          exfalso. clear - Ed He'd Hee'. lia. }
        specialize (Hdlo Hdpos).
        assert (H : 2 ^ (d - 1 + (ez + W) + t) < 2 ^ (53 + W)).
        { assert (E : 2 ^ (d - 1 + (ez + W) + t) = 2 ^ (d - 1) * 2 ^ (ez + W) * 2 ^ t).
          { rewrite <- !two_pow_add by (lia). reflexivity. }
          rewrite E.
          assert (2 ^ (d - 1) * 2 ^ (ez + W) <= mz * 2 ^ (ez + W)) by nia.
          assert (2 ^ (d - 1) * 2 ^ (ez + W) * 2 ^ t <= mz * 2 ^ (ez + W) * 2 ^ t) by nia.
          lia. }
        apply Z.pow_lt_mono_r_iff in H; lia. }
      set (K := B * 2 ^ (- e' - t)).
      assert (HK : B * 2 ^ W = K * 2 ^ n * (2 ^ (ez + W) * 2 ^ t)).
      { unfold K. rewrite <- !Z.mul_assoc. f_equal.
        rewrite <- !two_pow_add by (unfold n; lia). f_equal. unfold n. lia. }
      assert (HP2 : 0 < 2 ^ (ez + W) * 2 ^ t) by lia.
      assert (HMK : mz <= K * 2 ^ n).
      { rewrite <- Z.mul_assoc, HK in Hle.
        apply Z.mul_le_mono_pos_r in Hle; assumption. }
      assert (Hm1K : shr_m mrs' <= K).
      { rewrite Hm1. apply Z.div_le_upper_bound; [exact HP|]. lia. }
      assert (Hm2K : m2 <= K).
      { destruct (Z.eq_dec (shr_m mrs') K) as [HeqK|HneK]; [|lia].
        assert (HM : mz = K * 2 ^ n).
        { pose proof (Z.mul_div_le mz (2 ^ n) HP) as Hdiv.
          rewrite <- Hm1, HeqK in Hdiv. lia. }
        assert (Hex : lz = loc_Exact).
        { destruct Hloc as [Hl|[_ Hlt]]; [exact Hl|exfalso].
          rewrite <- Z.mul_assoc, HK, HM in Hlt. lia. }
        rewrite (Hx1 Hex) in Em2 by (exists K; exact HM).
        rewrite round_nearest_even_exact in Em2. lia. }
      replace (e' + W) with (n + (ez + W)) by (unfold n; lia).
      rewrite two_pow_add by (lia).
      rewrite HK.
      replace (m2 * (2 ^ n * 2 ^ (ez + W)) * 2 ^ t)
        with (m2 * 2 ^ n * (2 ^ (ez + W) * 2 ^ t)) by ring.
      apply Z.mul_le_mono_nonneg_r; [lia|].
      apply Z.mul_le_mono_nonneg_r; lia. }
  destruct Hm2 as [Hm2n Hm2le].
  pose proof (shr_fexp_exact m2 e' Hm2n) as H2. cbv zeta in H2.
  destruct (shr_fexp prec emax m2 e' loc_Exact) as [mrs'' e''].
  cbn [fst snd] in H2. destruct H2 as (He'' & Hm3 & _).
  assert (Hee'' : e' <= e'') by (clear - He''; lia).
  clear - Ht HB HWv HBW He'lo Hee'' Hm2n Hm2le Hm3.
  assert (HP2 : 0 < 2 ^ (e'' - e')) by (apply two_pow_positive; lia).
  assert (HT : 0 < 2 ^ t) by (apply two_pow_positive; lia).
  assert (HQ : 0 < 2 ^ (e' + W)) by (apply two_pow_positive; lia).
  assert (Hm3n : 0 <= shr_m mrs'').
  { rewrite Hm3. apply Z.div_pos; lia. }
  assert (Hm3le : shr_m mrs'' * 2 ^ (e'' + W) * 2 ^ t <= B * 2 ^ W).
  { eapply Z.le_trans; [|exact Hm2le].
    apply Z.mul_le_mono_nonneg_r; [lia|].
    replace (e'' + W) with ((e'' - e') + (e' + W)) by lia.
    rewrite two_pow_add by lia. rewrite Z.mul_assoc.
    apply Z.mul_le_mono_nonneg_r; [lia|].
    rewrite Hm3. rewrite Z.mul_comm. apply Z.mul_div_le. exact HP2. }
  assert (He''lo : -1074 <= e'') by lia.
  clear - Ht HB HWv HBW He''lo Hm3n Hm3le HT.
  destruct (shr_m mrs'') as [|m3|m3] eqn:Em3; [reflexivity| |lia].
  assert (Hq : 0 < 2 ^ (e'' + W)) by (apply two_pow_positive; lia).
  assert (He''hi : e'' < 53).
  { assert (H : 2 ^ (e'' + W) < 2 ^ (53 + W)).
    { assert (Hq1 : 2 ^ (e'' + W) <= Z.pos m3 * 2 ^ (e'' + W)) by nia.
      assert (Hq2 : Z.pos m3 * 2 ^ (e'' + W) <= Z.pos m3 * 2 ^ (e'' + W) * 2 ^ t) by nia.
      lia. }
    apply Z.pow_lt_mono_r_iff in H; lia. }
  change (emax - prec) with 971.
  destruct (Z.leb_spec e'' 971) as [_|Hbad]; [|lia].
  cbn [upto_sf]. split; [reflexivity|]. split; [exact He''lo|].
  clear - Ht HWv He''lo Hm3le.
  remember 1074 as V eqn:HV in *.
  assert (H1074 : 0 < 2 ^ V) by (apply two_pow_positive; lia).
  assert (E1 : 2 ^ (e'' + W) = 2 ^ (e'' + V) * 2 ^ V).
  { rewrite <- two_pow_add by lia. f_equal. lia. }
  assert (E2 : 2 ^ W = 2 ^ V * 2 ^ V).
  { rewrite <- two_pow_add by lia. f_equal. lia. }
  rewrite E1, E2 in Hm3le.
  replace (Z.pos m3 * (2 ^ (e'' + V) * 2 ^ V) * 2 ^ t)
    with (Z.pos m3 * 2 ^ (e'' + V) * 2 ^ t * 2 ^ V) in Hm3le by ring.
  rewrite Z.mul_assoc in Hm3le.
  apply Z.mul_le_mono_pos_r in Hm3le; assumption.
Qed.

End Scaled.

Section ScaledOps.
Import JS Constants Binary64 Dyadic.
Local Open Scope Z_scope.

Lemma upto_sf_mono (t A B : Z) (x : spec_float) :
  0 <= t -> A <= B -> upto_sf t A x -> upto_sf t B x.
Proof.
  intros Ht HAB. destruct x as [s|s| |s m e]; cbn [upto_sf]; try tauto.
  intros (Hs & He & Hm). split; [exact Hs|]. split; [exact He|].
  eapply Z.le_trans; [exact Hm|].
  apply Z.mul_le_mono_nonneg_r; [|exact HAB]. apply Z.lt_le_incl, two_pow_positive. lia.
Qed.

(** The same bound read on a finer scale. *)
Lemma upto_sf_rescale (t u B : Z) (x : spec_float) :
  0 <= t -> 0 <= u -> upto_sf t B x -> upto_sf (t + u) (B * 2 ^ u) x.
Proof.
  intros Ht Hu. destruct x as [s|s| |s m e]; cbn [upto_sf]; try tauto.
  intros (Hs & He & Hm). split; [exact Hs|]. split; [exact He|].
  rewrite (two_pow_add t u) by lia.
  assert (HU : 0 < 2 ^ u) by (apply two_pow_positive; lia).
  replace (Z.pos m * 2 ^ (e + 1074) * (2 ^ t * 2 ^ u))
    with (Z.pos m * 2 ^ (e + 1074) * 2 ^ t * 2 ^ u) by ring.
  replace (B * 2 ^ u * 2 ^ 1074) with (B * 2 ^ 1074 * 2 ^ u) by ring.
  apply Z.mul_le_mono_nonneg_r; lia.
Qed.

Lemma upto_sf_within (B : Z) (x : spec_float) : upto_sf 0 B x -> within_sf B x.
Proof.
  destruct x as [s|s| |s m e]; cbn [upto_sf within_sf]; try tauto.
  rewrite Z.pow_0_r, Z.mul_1_r. tauto.
Qed.

Lemma upto_sf_scaled (t A : Z) (s : bool) (m : positive) (e : Z) :
  upto_sf t A (S754_finite s m e) ->
  s = false /\ -1074 <= e /\ Z.pos m * 2 ^ (e + 2148) * 2 ^ t <= A * 2 ^ 2148.
Proof.
  cbn [upto_sf]. intros (Hs & He & Hm). split; [exact Hs|]. split; [exact He|].
  assert (E1 : 2 ^ (e + 2148) = 2 ^ (e + 1074) * 2 ^ 1074).
  { rewrite <- two_pow_add by lia. f_equal. lia. }
  assert (E2 : 2 ^ 2148 = 2 ^ 1074 * 2 ^ 1074).
  { rewrite <- two_pow_add by lia. reflexivity. }
  rewrite E1, E2.
  replace (Z.pos m * (2 ^ (e + 1074) * 2 ^ 1074) * 2 ^ t)
    with (Z.pos m * 2 ^ (e + 1074) * 2 ^ t * 2 ^ 1074) by ring.
  rewrite Z.mul_assoc.
  apply Z.mul_le_mono_nonneg_r; [|exact Hm]. apply Z.lt_le_incl, two_pow_positive. lia.
Qed.

(** The product of two values that are not negative is bounded by the
    product of the bounds, on the scale that is the sum of the scales. *)
Lemma SF64mul_upto (t1 t2 A B C : Z) (x y : spec_float) :
  0 <= t1 -> 0 <= t2 -> t1 + t2 <= 1074 ->
  0 <= A -> 0 <= B -> A * B <= C < 2 ^ 53 ->
  upto_sf t1 A x -> upto_sf t2 B y -> upto_sf (t1 + t2) C (SF64mul x y).
Proof.
  intros Ht1 Ht2 Ht HA HB HC Hx Hy. unfold SF64mul.
  destruct x as [sx|sx| |sx mx ex], y as [sy|sy| |sy my ey];
    cbn [upto_sf] in Hx, Hy; try contradiction; cbn [SFmul].
  - subst. reflexivity.
  - destruct Hy as [-> _]. subst. reflexivity.
  - destruct Hx as [-> _]. subst. reflexivity.
  - apply (upto_sf_scaled t1 A) in Hx as (-> & Hex & Hmx).
    destruct Hy as (-> & Hey & Hmy). cbn [xorb].
    apply binary_round_aux_upto; [lia|lia|lia|lia| |now left].
    rewrite Pos2Z.inj_mul.
    assert (E1 : 2 ^ (ex + ey + 2148) * 2 ^ 1074 = 2 ^ (ex + 2148) * 2 ^ (ey + 1074)).
    { rewrite <- !two_pow_add by lia. f_equal. lia. }
    assert (Hp : 0 < 2 ^ 1074) by (apply two_pow_positive; lia).
    assert (Hpx : 0 < 2 ^ (ex + 2148)) by (apply two_pow_positive; lia).
    assert (Hpy : 0 < 2 ^ (ey + 1074)) by (apply two_pow_positive; lia).
    assert (Hq : 0 < 2 ^ (ex + ey + 2148)) by (apply two_pow_positive; lia).
    assert (HT1 : 0 < 2 ^ t1) by (apply two_pow_positive; lia).
    assert (HT2 : 0 < 2 ^ t2) by (apply two_pow_positive; lia).
    rewrite (two_pow_add t1 t2) by lia.
    apply (Z.mul_le_mono_pos_r _ _ (2 ^ 1074)); [exact Hp|].
    replace (Z.pos mx * Z.pos my * 2 ^ (ex + ey + 2148) * (2 ^ t1 * 2 ^ t2) * 2 ^ 1074)
      with (Z.pos mx * Z.pos my * (2 ^ (ex + ey + 2148) * 2 ^ 1074) * (2 ^ t1 * 2 ^ t2)) by ring.
    rewrite E1.
    replace (Z.pos mx * Z.pos my * (2 ^ (ex + 2148) * 2 ^ (ey + 1074)) * (2 ^ t1 * 2 ^ t2))
      with ((Z.pos mx * 2 ^ (ex + 2148) * 2 ^ t1) * (Z.pos my * 2 ^ (ey + 1074) * 2 ^ t2)) by ring.
    transitivity ((A * 2 ^ 2148) * (B * 2 ^ 1074)).
    + apply Z.mul_le_mono_nonneg; try assumption; repeat apply Z.mul_nonneg_nonneg; lia.
    + replace (A * 2 ^ 2148 * (B * 2 ^ 1074)) with (A * B * (2 ^ 2148 * 2 ^ 1074)) by ring.
      replace (C * 2 ^ 2148 * 2 ^ 1074) with (C * (2 ^ 2148 * 2 ^ 1074)) by ring.
      apply Z.mul_le_mono_nonneg_r; lia.
Qed.

Lemma binary_round_upto (m : positive) (e t C : Z) :
  0 <= t <= 1074 -> 0 <= C < 2 ^ 53 -> -1074 <= e ->
  Z.pos m * 2 ^ (e + 2148) * 2 ^ t <= C * 2 ^ 2148 ->
  upto_sf t C (binary_round prec emax false m e).
Proof.
  intros Ht HC He Hle. unfold binary_round.
  pose proof (shl_align_scaled m e (fexp prec emax (Z.pos (digits2_pos m) + e)) He) as H.
  destruct (shl_align m e _) as [mz ez]. cbn [fst snd] in H.
  destruct H as [Hez Hval].
  { unfold fexp, SpecFloat.emin. change prec with 53. change emax with 1024. lia. }
  apply binary_round_aux_upto; [lia|exact Ht|exact HC|lia| |now left]. now rewrite Hval.
Qed.

(** The sum of two values that are not negative is bounded by the sum of
    the bounds. *)
Lemma SF64add_upto (t A B C : Z) (x y : spec_float) :
  0 <= t <= 1074 -> 0 <= A -> 0 <= B -> A + B <= C < 2 ^ 53 ->
  upto_sf t A x -> upto_sf t B y -> upto_sf t C (SF64add x y).
Proof.
  intros Ht HA HB HC Hx Hy. unfold SF64add.
  destruct x as [sx|sx| |sx mx ex], y as [sy|sy| |sy my ey];
    cbn [upto_sf] in Hx, Hy; try contradiction; cbn [SFadd].
  - subst. reflexivity.
  - apply (upto_sf_mono t B); [lia|lia|exact Hy].
  - apply (upto_sf_mono t A); [lia|lia|exact Hx].
  - apply (upto_sf_scaled t A) in Hx as (-> & Hex & Hmx).
    apply (upto_sf_scaled t B) in Hy as (-> & Hey & Hmy).
    set (ez := Z.min ex ey).
    assert (Hez : -1074 <= ez) by (unfold ez; lia).
    pose proof (shl_align_value mx ex ez ltac:(unfold ez; lia)) as HX.
    pose proof (shl_align_value my ey ez ltac:(unfold ez; lia)) as HY.
    remember (Z.pos (fst (shl_align mx ex ez))) as X eqn:EX.
    remember (Z.pos (fst (shl_align my ey ez))) as Y eqn:EY.
    assert (HXs : X * 2 ^ (ez + 2148) = Z.pos mx * 2 ^ (ex + 2148)).
    { rewrite HX, <- Z.mul_assoc. f_equal.
      rewrite <- two_pow_add by (unfold ez; lia). f_equal. lia. }
    assert (HYs : Y * 2 ^ (ez + 2148) = Z.pos my * 2 ^ (ey + 2148)).
    { rewrite HY, <- Z.mul_assoc. f_equal.
      rewrite <- two_pow_add by (unfold ez; lia). f_equal. lia. }
    assert (HXp : 0 < X) by (subst X; lia).
    assert (HYp : 0 < Y) by (subst Y; lia).
    rewrite <- HXs in Hmx. rewrite <- HYs in Hmy.
    cbn [cond_Zopp]. unfold binary_normalize.
    destruct (X + Y) as [|d|d] eqn:ED; [lia| |lia].
    apply binary_round_upto; [exact Ht|lia|exact Hez|].
    rewrite <- ED.
    replace ((X + Y) * 2 ^ (ez + 2148) * 2 ^ t)
      with (X * 2 ^ (ez + 2148) * 2 ^ t + Y * 2 ^ (ez + 2148) * 2 ^ t) by ring.
    transitivity ((A + B) * 2 ^ 2148).
    + rewrite Z.mul_add_distr_r. now apply Z.add_le_mono.
    + apply Z.mul_le_mono_nonneg_r; [|exact (proj1 HC)].
      apply Z.lt_le_incl, two_pow_positive. clear. lia.
Qed.

Lemma new_location_exact (m : Z) : new_location m 0 = loc_Exact.
Proof. unfold new_location. destruct (Z.even m); reflexivity. Qed.

(** The quotient of a value that is not negative by a divisor of at
    least [k] is bounded by the quotient of the bound. *)
Lemma SF64div_upto (t A C k : Z) (x y : spec_float) :
  0 <= t <= 1074 -> 0 <= A -> 0 < k -> A <= C * k -> 0 <= C < 2 ^ 53 ->
  upto_sf t A x ->
  (exists my ey, y = S754_finite false my ey /\ -1074 <= ey <= 971
                 /\ k * 2 ^ 1074 <= Z.pos my * 2 ^ (ey + 1074)) ->
  upto_sf t C (SF64div x y).
Proof.
  intros Ht HA Hk HAC HC Hx (my & ey & -> & Hey & Hy). unfold SF64div.
  destruct x as [sx|sx| |sx mx ex]; cbn [upto_sf] in Hx; try contradiction; cbn [SFdiv].
  { subst. reflexivity. }
  destruct Hx as (-> & Hex & Hmx). cbn [xorb].
  unfold SFdiv_core_binary. cbn [Zdigits2].
  pose proof (digits2_pos_bounds mx) as [Hd1 _].
  pose proof (digits2_pos_bounds my) as [_ Hd2].
  remember (Z.pos (digits2_pos mx)) as d1 eqn:Ed1.
  remember (Z.pos (digits2_pos my)) as d2 eqn:Ed2.
  assert (Hd1p : 1 <= d1) by (subst d1; lia).
  assert (Hd2p : 1 <= d2) by (subst d2; lia).
  set (f := fexp prec emax (d1 + ex - (d2 + ey))).
  assert (Hf : f = Z.max (d1 + ex - (d2 + ey) - 53) (-1074)) by reflexivity.
  set (e' := Z.min f (ex - ey)).
  set (s := ex - ey - e').
  assert (Hs : 0 <= s) by (unfold s, e'; lia).
  set (m' := match s with 0 => Z.pos mx | Z.pos _ => Z.shiftl (Z.pos mx) s | Z.neg _ => 0 end).
  assert (Hm' : m' = Z.pos mx * 2 ^ s).
  { unfold m'. destruct s as [|p|p] eqn:Es; [lia| |lia].
    now rewrite Z.shiftl_mul_pow2 by lia. }
  pose proof (Z_div_mod m' (Z.pos my) ltac:(lia)) as Hdiv.
  change (IntDef.Z.div_eucl m' (Z.pos my)) with (Z.div_eucl m' (Z.pos my)).
  destruct (Z.div_eucl m' (Z.pos my)) as [q r]. destruct Hdiv as [Hqr Hr].
  assert (HS : 0 < 2 ^ s) by (apply two_pow_positive; lia).
  assert (Hq0 : 0 <= q).
  { assert (Hqr0 : 0 <= m') by (rewrite Hm'; clear - HS; lia). clear - Hqr Hr Hqr0. nia. }
  assert (He'lo : -2045 <= e') by (unfold e'; clear - Hf Hex Hey; lia).
  assert (He'f : e' <= f) by (unfold e'; clear; lia).
  assert (Hse : s + e' + ey = ex) by (unfold s; clear; lia).
  clearbody s e' m'.
  set (W := 2148). assert (HWv : W = 2148) by reflexivity. clearbody W.
  set (p := 2 ^ 1074) in *.
  assert (Hp : 0 < p) by (apply two_pow_positive; clear; lia). clearbody p.
  set (Q := 2 ^ (e' + W)). set (P1 := 2 ^ (ex + 1074)) in *.
  set (P2 := 2 ^ (ey + 1074)) in *. set (T := 2 ^ t) in *.
  assert (HQ : 0 < Q) by (apply two_pow_positive; clear - He'lo HWv; lia).
  assert (HP1 : 0 < P1) by (apply two_pow_positive; clear - Hex; lia).
  assert (HP2 : 0 < P2) by (apply two_pow_positive; clear - Hey; lia).
  assert (HT : 0 < T) by (apply two_pow_positive; clear - Ht; lia).
  assert (HW : 0 < 2 ^ W) by (apply two_pow_positive; clear - HWv; lia).
  assert (E : 2 ^ s * Q * P2 = P1 * 2 ^ W).
  { unfold Q, P1, P2. rewrite <- !two_pow_add by (clear - Hs He'lo HWv Hex Hey; lia).
    f_equal. clear - Hse. lia. }
  assert (E1 : 2 ^ (d1 - 1 + (ex + 1074) + t) = 2 ^ (d1 - 1) * P1 * T).
  { unfold P1, T. rewrite <- !two_pow_add by (clear - Hd1p Hex Ht; lia). reflexivity. }
  assert (E2 : 2 ^ (53 + d2 + (ey + 1074)) = 2 ^ 53 * 2 ^ d2 * P2).
  { unfold P2. rewrite <- !two_pow_add by (clear - Hd2p Hey; lia). reflexivity. }
  assert (HD2 : 0 < 2 ^ d2) by (apply two_pow_positive; clear - Hd2p; lia).
  assert (HD1 : 0 < 2 ^ (d1 - 1)) by (apply two_pow_positive; clear - Hd1p; lia).
  assert (EQ : Q = 2 ^ (e' + W)) by reflexivity.
  assert (ET : T = 2 ^ t) by reflexivity.
  clearbody Q P1 P2 T.
  assert (Hmy : 0 < Z.pos my) by apply Pos2Z.is_pos.
  assert (Hmx' : 0 < Z.pos mx) by apply Pos2Z.is_pos.
  assert (HmyP : 0 < Z.pos my * P2) by (apply Z.mul_pos_pos; assumption).
  assert (Hkp : 0 < k * p) by (apply Z.mul_pos_pos; assumption).
  assert (HQT : 0 <= q * Q * T).
  { apply Z.mul_nonneg_nonneg; [apply Z.mul_nonneg_nonneg|]; clear - Hq0 HQ HT; lia. }
  assert (Hrn : 0 <= r * Q * P2 * T).
  { repeat apply Z.mul_nonneg_nonneg; clear - Hr HQ HP2 HT; lia. }
  assert (HACp : A * p <= C * (k * p)).
  { rewrite Z.mul_assoc. apply Z.mul_le_mono_nonneg_r; [clear - Hp; lia|exact HAC]. }
  (* the chain of bounds, with the slack of the remainder *)
  assert (Hchain : q * Q * T * (k * p) + r * Q * P2 * T <= C * 2 ^ W * (k * p)).
  { transitivity (q * Q * T * (Z.pos my * P2) + r * Q * P2 * T).
    { apply Z.add_le_mono_r. apply Z.mul_le_mono_nonneg_l; [exact HQT|exact Hy]. }
    replace (q * Q * T * (Z.pos my * P2) + r * Q * P2 * T)
      with (m' * Q * P2 * T) by (rewrite Hqr; ring).
    rewrite Hm'.
    replace (Z.pos mx * 2 ^ s * Q * P2 * T) with (Z.pos mx * (2 ^ s * Q * P2) * T) by ring.
    rewrite E.
    replace (Z.pos mx * (P1 * 2 ^ W) * T) with (Z.pos mx * P1 * T * 2 ^ W) by ring.
    replace (C * 2 ^ W * (k * p)) with (C * (k * p) * 2 ^ W) by ring.
    apply Z.mul_le_mono_nonneg_r; [clear - HW; lia|].
    transitivity (A * p); assumption. }
  apply binary_round_aux_upto; [exact Hq0|exact Ht|exact HC|clear - He'lo; lia| |].
  - rewrite <- HWv, <- EQ, <- ET. apply (Z.mul_le_mono_pos_r _ _ (k * p)); [exact Hkp|].
    clear - Hchain Hrn. lia.
  - destruct (Z.eq_dec r 0) as [->|Hr0]; [left; apply new_location_exact|right].
    split.
    + (* the exponent of the quotient is fine enough *)
      destruct (Z.eq_dec f (-1074)) as [Hf1|Hf1]; [clear - He'f Hf1 Ht; lia|].
      assert (Hfd : f = d1 + ex - (d2 + ey) - 53) by (clear - Hf Hf1; lia).
      assert (H : 2 ^ (d1 - 1 + (ex + 1074) + t) < 2 ^ (53 + d2 + (ey + 1074))).
      { rewrite E1, E2.
        assert (H1 : 2 ^ (d1 - 1) * P1 * T <= Z.pos mx * P1 * T).
        { apply Z.mul_le_mono_nonneg_r; [clear - HT; lia|].
          apply Z.mul_le_mono_nonneg_r; [clear - HP1; lia|exact Hd1]. }
        assert (H2 : A * p <= C * (Z.pos my * P2)).
        { transitivity (C * (k * p)); [exact HACp|].
          apply Z.mul_le_mono_nonneg_l; [exact (proj1 HC)|exact Hy]. }
        assert (H3 : C * (Z.pos my * P2) < 2 ^ 53 * (2 ^ d2 * P2)).
        { apply Z.le_lt_trans with (2 ^ 53 * (Z.pos my * P2)).
          - apply Z.mul_le_mono_nonneg_r; [clear - HmyP; lia|clear - HC; lia].
          - apply Z.mul_lt_mono_pos_l; [clear; lia|].
            apply Z.mul_lt_mono_pos_r; assumption. }
        clear - H1 H2 H3 Hmx. lia. }
      apply Z.pow_lt_mono_r_iff in H; [|clear; lia|clear - Hd2p Hey; lia].
      clear - H He'f Hfd. lia.
    + rewrite <- HWv, <- EQ, <- ET. apply (Z.mul_lt_mono_pos_r (k * p)); [exact Hkp|].
      assert (0 < r * Q * P2 * T).
      { repeat apply Z.mul_pos_pos; try assumption. clear - Hr Hr0. lia. }
      clear - Hchain H. lia.
Qed.

End ScaledOps.

Section FloatOps.
Import JS Constants Binary64 Dyadic Levels.
Import Levels.
Local Open Scope Z_scope.

Lemma uptob_upto (t B : Z) (x : float) : uptob t B x = true -> upto t B x.
Proof.
  unfold uptob, upto. destruct (Prim2SF x) as [s|s| |s m e]; cbn [upto_sf]; try discriminate.
  - now intros ->%negb_true_iff.
  - intros H. apply andb_prop in H as [Hs H]. apply andb_prop in H as [He Hm].
    apply negb_true_iff in Hs. apply Z.leb_le in He, Hm. auto.
Qed.

Lemma mul_upto (t1 t2 A B C : Z) (x y : float) :
  0 <= t1 -> 0 <= t2 -> t1 + t2 <= 1074 ->
  0 <= A -> 0 <= B -> A * B <= C < 2 ^ 53 ->
  upto t1 A x -> upto t2 B y -> upto (t1 + t2) C (x * y)%float.
Proof.
  unfold upto. intros. rewrite FloatAxioms.mul_spec. now apply (SF64mul_upto t1 t2 A B).
Qed.

Lemma add_upto (t A B C : Z) (x y : float) :
  0 <= t <= 1074 -> 0 <= A -> 0 <= B -> A + B <= C < 2 ^ 53 ->
  upto t A x -> upto t B y -> upto t C (x + y)%float.
Proof.
  unfold upto. intros. rewrite FloatAxioms.add_spec. now apply (SF64add_upto t A B).
Qed.

Lemma div_upto (t A C k : Z) (x y : float) :
  0 <= t <= 1074 -> 0 <= A -> 0 < k -> A <= C * k -> 0 <= C < 2 ^ 53 ->
  upto t A x -> at_least k y -> upto t C (x / y)%float.
Proof.
  unfold upto, at_least, at_least_sf. intros. rewrite FloatAxioms.div_spec.
  now apply (SF64div_upto t A C k).
Qed.

Lemma upto_within (B : Z) (x : float) : upto 0 B x -> within B x.
Proof. apply upto_sf_within. Qed.

Lemma upto_mono (t A B : Z) (x : float) : 0 <= t -> A <= B -> upto t A x -> upto t B x.
Proof. apply upto_sf_mono. Qed.

Lemma upto_rescale (t u B : Z) (x : float) :
  0 <= t -> 0 <= u -> upto t B x -> upto (t + u) (B * 2 ^ u) x.
Proof. apply upto_sf_rescale. Qed.

(** ** Integers are exact *)

Lemma binary_round_aux_exact (s : bool) (m : positive) (e : Z) :
  Z.pos m < 2 ^ 53 -> -1074 <= e <= 971 ->
  binary_round_aux prec emax s (Z.pos m) e loc_Exact = S754_finite s m e.
Proof.
  intros Hm He.
  pose proof (shr_fexp_exact (Z.pos m) e ltac:(lia)) as H1. cbv zeta in H1.
  unfold binary_round_aux.
  destruct (shr_fexp prec emax (Z.pos m) e loc_Exact) as [mrs' e'] eqn:E1.
  cbn [fst snd] in H1. destruct H1 as (He' & Hm1 & Hx1).
  cbn [Zdigits2] in He'.
  pose proof (digits2_pos_bounds m) as [Hlo _].
  remember (Z.pos (digits2_pos m)) as d eqn:Ed.
  assert (Hd : d <= 53).
  { assert (H : 2 ^ (d - 1) < 2 ^ 53) by lia.
    apply Z.pow_lt_mono_r_iff in H; subst d; lia. }
  unfold fexp, SpecFloat.emin in He'. change prec with 53 in He'. change emax with 1024 in He'.
  assert (Hee : e' = e) by lia. clear He'. subst e'.
  replace (e - e) with 0 in * by lia. rewrite Z.pow_0_r, Z.div_1_r in Hm1.
  rewrite Hx1 by (exists (Z.pos m); lia).
  rewrite Hm1, round_nearest_even_exact, E1, Hm1.
  change (emax - prec) with 971.
  destruct (Z.leb_spec e 971) as [_|Hbad]; [reflexivity|lia].
Qed.

Lemma shl_align_min (m : positive) (e e' : Z) : snd (shl_align m e e') = Z.min e e'.
Proof. unfold shl_align. destruct (e' - e) eqn:E; cbn [snd]; lia. Qed.

(** A counting number below [2^53] is a binary64 number. *)
Lemma of_nat_exact (k : nat) :
  0 < Z.of_nat k < 2 ^ 53 -> at_least (Z.of_nat k) (of_nat k).
Proof.
  intros Hk. unfold at_least, at_least_sf, of_nat.
  rewrite FloatAxioms.of_uint63_spec.
  change (Uint63Axioms.to_Z (Uint63.of_Z (Z.of_nat k)))
    with (Uint63.to_Z (Uint63.of_Z (Z.of_nat k))).
  rewrite Uint63.of_Z_spec, Z.mod_small by (change wB with (2 ^ 63); lia).
  destruct (Z.of_nat k) as [|p|p]; [lia| |lia].
  cbn [binary_normalize]. unfold binary_round.
  pose proof (digits2_pos_bounds p) as [Hlo Hhi].
  remember (Z.pos (digits2_pos p)) as d eqn:Ed.
  assert (Hd1 : 1 <= d) by (subst d; lia).
  assert (Hd : d <= 53).
  { assert (H : 2 ^ (d - 1) < 2 ^ 53) by lia.
    apply Z.pow_lt_mono_r_iff in H; lia. }
  assert (Hf : fexp prec emax (d + 0) = d - 53).
  { unfold fexp, SpecFloat.emin. change prec with 53. change emax with 1024. lia. }
  rewrite Hf.
  pose proof (shl_align_scaled p 0 (d - 53) ltac:(lia) ltac:(lia)) as [_ Hval].
  pose proof (shl_align_min p 0 (d - 53)) as Hez.
  destruct (shl_align p 0 (d - 53)) as [mz ez]. cbn [fst snd] in Hval, Hez.
  replace (Z.min 0 (d - 53)) with (d - 53) in Hez by lia. subst ez.
  assert (E : 2 ^ (0 + 2148) = 2 ^ (53 - d) * 2 ^ (d - 53 + 2148)).
  { rewrite <- two_pow_add by lia. f_equal. lia. }
  assert (HQ : 0 < 2 ^ (d - 53 + 2148)) by (apply two_pow_positive; lia).
  assert (Hmz : Z.pos mz = Z.pos p * 2 ^ (53 - d)).
  { rewrite E, Z.mul_assoc in Hval. apply Z.mul_cancel_r in Hval; lia. }
  assert (Hlt : Z.pos mz < 2 ^ 53).
  { rewrite Hmz. replace (2 ^ 53) with (2 ^ d * 2 ^ (53 - d)).
    - apply Z.mul_lt_mono_pos_r; [apply two_pow_positive; lia|exact Hhi].
    - rewrite <- two_pow_add by lia. f_equal. lia. }
  rewrite binary_round_aux_exact by (try exact Hlt; lia).
  exists mz, (d - 53). split; [reflexivity|]. split; [lia|].
  rewrite Hmz, <- Z.mul_assoc. apply Z.eq_le_incl. f_equal.
  rewrite <- two_pow_add by lia. f_equal. lia.
Qed.

(** ** Rounding to a gray level *)

Lemma zero_of_Prim2SF (x : float) : Prim2SF x = S754_zero false -> x = zero.
Proof. intros H. rewrite <- (SF2Prim_Prim2SF x), H. reflexivity. Qed.

(** [Math.round] of a value from 0 to less than 255.5 is one of the 256
    gray levels. *)
Lemma Math_round_level (t B : Z) (x : float) :
  0 <= t <= 1074 -> 2 * B < 511 * 2 ^ t -> upto t B x -> gray_level (Math_round x).
Proof.
  intros Ht HB. unfold upto, Math_round.
  pose proof (Prim2SF_valid x) as Hv.
  destruct (Prim2SF x) as [s|s| |s m e] eqn:E; cbn [upto_sf]; try contradiction.
  - intros ->. exists 0. split; [lia|]. now apply zero_of_Prim2SF.
  - intros (-> & He & Hm).
    apply valid_finite in Hv as (Hm53 & Her & Hnorm).
    assert (HT : 0 < 2 ^ t) by (apply two_pow_positive; lia).
    assert (Hp : 0 < 2 ^ 1074) by (apply two_pow_positive; lia).
    assert (Hpe : 0 < 2 ^ (e + 1074)) by (apply two_pow_positive; lia).
    destruct (Z.leb_spec 0 e) as [He0|He0].
    + exfalso.
      assert (H52 : 2 ^ 52 <= Z.pos m) by lia.
      assert (H1 : 2 ^ 1074 <= 2 ^ (e + 1074)) by (apply Z.pow_le_mono_r; lia).
      assert (H2 : 2 ^ 52 * 2 ^ 1074 * 2 ^ t <= Z.pos m * 2 ^ (e + 1074) * 2 ^ t).
      { apply Z.mul_le_mono_nonneg_r; [lia|]. apply Z.mul_le_mono_nonneg; lia. }
      assert (H3 : B * 2 ^ 1074 < 2 ^ 52 * 2 ^ t * 2 ^ 1074).
      { apply Z.mul_lt_mono_pos_r; [exact Hp|]. lia. }
      lia.
    + set (d := 2 ^ (- e)).
      assert (Hd : 0 < d) by (apply two_pow_positive; lia).
      assert (Ed : 2 ^ 1074 = d * 2 ^ (e + 1074)).
      { unfold d. rewrite <- two_pow_add by lia. f_equal. lia. }
      assert (Hmd : Z.pos m * 2 ^ t <= B * d).
      { rewrite Ed in Hm.
        replace (Z.pos m * 2 ^ (e + 1074) * 2 ^ t)
          with (Z.pos m * 2 ^ t * 2 ^ (e + 1074)) in Hm by ring.
        rewrite Z.mul_assoc in Hm. apply Z.mul_le_mono_pos_r in Hm; assumption. }
      assert (H2m : 2 * Z.pos m < 511 * d).
      { apply (Z.mul_lt_mono_pos_r (2 ^ t)); [exact HT|].
        assert (2 * B * d < 511 * 2 ^ t * d) by (apply Z.mul_lt_mono_pos_r; lia).
        lia. }
      set (r := (2 * Z.pos m + d) / (2 * d)).
      assert (Hr : 0 <= r <= 255).
      { split; [apply Z.div_pos; lia|].
        assert (r < 256) by (apply Z.div_lt_upper_bound; lia). lia. }
      destruct (Z.eqb_spec r 0) as [Hr0|Hr0].
      * exists 0. split; [lia|reflexivity].
      * exists r. split; [exact Hr|reflexivity].
Qed.

Lemma level_cases (P : float -> Prop) :
  (forall n, (n < 256)%nat -> P (of_Z (Z.of_nat n))) ->
  forall x, gray_level x -> P x.
Proof.
  intros H x (r & Hr & ->). rewrite <- (Z2Nat.id r) by lia. apply H. lia.
Qed.

Lemma byte_upto (z : Z) : 0 <= z <= 255 -> upto 0 255 (of_Z z).
Proof.
  intros Hz. apply (level_cases (upto 0 255)); [|exists z; auto].
  intros n Hn. apply uptob_upto.
  assert (H : forallb (fun n => uptob 0 255 (of_Z (Z.of_nat n))) (seq 0 256) = true)
    by (vm_compute; reflexivity).
  rewrite forallb_forall in H. apply H, in_seq. lia.
Qed.

Lemma gray_level_upto (x : float) : gray_level x -> upto 0 255 x.
Proof. intros (r & Hr & ->). now apply byte_upto. Qed.

Lemma gray_level_between (x : float) : gray_level x -> Spec.between 0 255 x = true.
Proof.
  apply (level_cases (fun x => Spec.between 0 255 x = true)).
  intros n Hn.
  assert (H : forallb (fun n => Spec.between 0 255 (of_Z (Z.of_nat n))) (seq 0 256) = true)
    by (vm_compute; reflexivity).
  rewrite forallb_forall in H. apply H, in_seq. lia.
Qed.

End FloatOps.

(* ===================================================================== *)
(** * Gray levels                                                       *)
(* ===================================================================== *)

Section Luminance.
Import JS Constants Binary64 Dyadic Levels.
Import Canvas VideoCapture.

Lemma data_at_byte (data : list Z) (idx : nat) :
  bytes data = true -> idx < length data ->
  exists z, (0 <= z <= 255)%Z /\ VideoUtils.data_at data idx = of_Z z.
Proof.
  intros Hb Hi. unfold VideoUtils.data_at.
  destruct (nth_error data idx) as [z|] eqn:E.
  - exists z. split; [|reflexivity]. apply nth_error_In in E.
    unfold bytes in Hb. rewrite forallb_forall in Hb. specialize (Hb z E). lia.
  - apply nth_error_None in E. lia.
Qed.

(** The luminance of a pixel is a gray level: the three weights add up
    to 1 within [2^-19], and the sum stays below 255.5. *)
Lemma luminance_level (r g b : Z) :
  (0 <= r <= 255)%Z -> (0 <= g <= 255)%Z -> (0 <= b <= 255)%Z ->
  gray_level (VideoUtils.luminance (of_Z r) (of_Z g) (of_Z b)).
Proof.
  intros Hr Hg Hb. unfold VideoUtils.luminance.
  apply (Math_round_level 20 267387390); [lia|lia|].
  apply (add_upto 20 236905200 30482190); [lia|lia|lia|lia| |].
  - apply (add_upto 20 79948875 156956325); [lia|lia|lia|lia| |].
    + apply (mul_upto 20 0 313525 255 79948875); [lia|lia|lia|lia|lia|lia| |].
      * apply uptob_upto. vm_compute. reflexivity.
      * now apply byte_upto.
    + apply (mul_upto 20 0 615515 255 156956325); [lia|lia|lia|lia|lia|lia| |].
      * apply uptob_upto. vm_compute. reflexivity.
      * now apply byte_upto.
  - apply (mul_upto 20 0 119538 255 30482190); [lia|lia|lia|lia|lia|lia| |].
    + apply uptob_upto. vm_compute. reflexivity.
    + now apply byte_upto.
Qed.

Lemma levels_intensities (m : HashUtils.matrix) : levels m -> Spec.intensities m = true.
Proof.
  unfold levels, Spec.intensities. intros H.
  apply forallb_forall. intros row Hrow. apply forallb_forall. intros v Hv.
  rewrite List.Forall_forall in H. specialize (H row Hrow).
  rewrite List.Forall_forall in H. now apply gray_level_between, H.
Qed.

Lemma levels_entry (S : nat) (m : HashUtils.matrix) (y x : nat) :
  Spec.square S m -> levels m -> y < S -> x < S -> gray_level (HashUtils.entry m y x).
Proof.
  intros [Hrows Hcols] Hm Hy Hx. unfold HashUtils.entry.
  assert (Hrow : List.In (nth y m []) m) by (apply nth_In; lia).
  rewrite List.Forall_forall in Hcols. specialize (Hcols _ Hrow).
  unfold levels in Hm. rewrite List.Forall_forall in Hm. specialize (Hm _ Hrow).
  rewrite List.Forall_forall in Hm. apply Hm, nth_In. lia.
Qed.

Lemma levels_map_seq (f : nat -> nat -> float) (N : nat) :
  (forall y x, y < N -> x < N -> gray_level (f y x)) ->
  levels (map (fun y => map (fun x => f y x) (seq 0 N)) (seq 0 N)).
Proof.
  intros H. apply List.Forall_forall. intros row Hrow.
  apply in_map_iff in Hrow as (y & <- & Hy). apply in_seq in Hy.
  apply List.Forall_forall. intros v Hv.
  apply in_map_iff in Hv as (x & <- & Hx). apply in_seq in Hx. apply H; lia.
Qed.

Lemma grayscale_levels (data : list Z) (size : nat) :
  bytes data = true -> size * size * 4 <= length data ->
  levels (map (fun y =>
                 map (fun x =>
                        let idx := (y * size + x) * 4 in
                        VideoUtils.luminance (VideoUtils.data_at data idx)
                          (VideoUtils.data_at data (idx + 1))
                          (VideoUtils.data_at data (idx + 2)))
                     (seq 0 size))
              (seq 0 size)).
Proof.
  intros Hb Hlen. apply (levels_map_seq (fun y x => _)). intros y x Hy Hx. cbv zeta.
  assert (Hidx : (y * size + x) * 4 + 3 < size * size * 4) by nia.
  destruct (data_at_byte data ((y * size + x) * 4) Hb ltac:(lia)) as (r & Hr & ->).
  destruct (data_at_byte data ((y * size + x) * 4 + 1) Hb ltac:(lia)) as (g & Hg & ->).
  destruct (data_at_byte data ((y * size + x) * 4 + 2) Hb ltac:(lia)) as (b & Hbl & ->).
  now apply luminance_level.
Qed.

(** The sum of [n] gray levels is at most [255 n], exactly. *)
Lemma summed_upto (matrices : list HashUtils.matrix) (y x : nat) :
  Forall (fun m => gray_level (HashUtils.entry m y x)) matrices ->
  (255 * Z.of_nat (length matrices) < 2 ^ 53)%Z ->
  upto 0 (255 * Z.of_nat (length matrices)) (summed matrices y x).
Proof.
  unfold summed.
  assert (Hgen : forall A s, (0 <= A)%Z ->
            Forall (fun m => gray_level (HashUtils.entry m y x)) matrices ->
            (A + 255 * Z.of_nat (length matrices) < 2 ^ 53)%Z -> upto 0 A s ->
            upto 0 (A + 255 * Z.of_nat (length matrices))
              (fold_left (fun sum matrix => (sum + HashUtils.entry matrix y x)%float)
                 matrices s)).
  { induction matrices as [|m ms IH]; intros A s HA Hall Hlt Hs; cbn [fold_left length].
    - now replace (A + 255 * Z.of_nat 0)%Z with A by lia.
    - cbn [length] in Hlt. rewrite Nat2Z.inj_succ in Hlt |- *.
      apply Forall_cons_1 in Hall as [Hm Hall].
      replace (A + 255 * Z.succ (Z.of_nat (length ms)))%Z
        with ((A + 255) + 255 * Z.of_nat (length ms))%Z in Hlt |- * by lia.
      apply IH; [lia|exact Hall|exact Hlt|].
      apply (add_upto 0 A 255); [lia|lia|lia|lia|exact Hs|now apply gray_level_upto]. }
  intros Hall Hlt. apply (Hgen 0%Z zero); [lia|exact Hall|exact Hlt|].
  apply uptob_upto. reflexivity.
Qed.

Lemma averageMatrices_levels (matrices : list HashUtils.matrix) :
  matrices <> [] -> (Z.of_nat (length matrices) < 2 ^ 45)%Z ->
  Forall (Spec.square 32) matrices -> Forall levels matrices ->
  exists averaged, averageMatrices matrices = Normal (Some averaged)
                   /\ Spec.square 32 averaged /\ levels averaged.
Proof.
  intros Hne Hcount Hsq Hlev. destruct matrices as [|first rest]; [congruence|].
  destruct rest as [|second rest].
  - exists first. split; [reflexivity|].
    apply Forall_cons_1 in Hsq as [H _]. apply Forall_cons_1 in Hlev as [H' _]. auto.
  - unfold averageMatrices.
    assert (Hfirst : length first = 32) by (apply Forall_cons_1 in Hsq as [[H _] _]; exact H).
    rewrite Hfirst.
    assert (Hall : forallb (fun matrix => 32 <=? length matrix) (first :: second :: rest) = true).
    { apply forallb_forall. intros m Hm. rewrite List.Forall_forall in Hsq.
      destruct (Hsq m Hm) as [Hlen _]. now rewrite Hlen. }
    rewrite Hall. eexists. split; [reflexivity|]. split; [apply square_map_seq|].
    set (matrices := first :: second :: rest) in *.
    apply (levels_map_seq (fun y x => _)). intros y x Hy Hx.
    assert (Hk : (2 <= Z.of_nat (length matrices))%Z) by (unfold matrices; cbn [length]; lia).
    apply (Math_round_level 0 255); [lia|lia|].
    apply (div_upto 0 (255 * Z.of_nat (length matrices)) 255 (Z.of_nat (length matrices)));
      [lia|lia|lia|lia|lia| |].
    + apply summed_upto; [|lia].
      apply List.Forall_forall. intros m Hm.
      rewrite List.Forall_forall in Hsq, Hlev.
      apply (levels_entry 32); auto.
    + apply of_nat_exact. lia.
Qed.

End Luminance.

Section GrayLevels.
Import JS Constants Binary64 Dyadic Levels.
Import Canvas VideoCapture.

Lemma grayscale_matrix_levels (data : list Z) (size : nat) :
  bytes data = true -> size * size * 4 <= length data ->
  exists matrix,
    VideoUtils.imageDataToGrayscaleMatrix (Some data) size = Some matrix
    /\ levels matrix.
Proof. intros Hb Hlen. eexists. split; [reflexivity|]. now apply grayscale_levels. Qed.

(** X20.  From the bytes of a canvas, [imageDataToGrayscaleMatrix] makes
    a matrix of gray levels: when the array holds the [size * size]
    pixels, every entry is one of the integers 0 to 255 and none is NaN,
    so the matrix is a matrix of intensities. *)
Theorem imageDataToGrayscaleMatrix_levels (data : list Z) (size : nat) :
  bytes data = true -> size * size * 4 <= length data ->
  exists matrix,
    VideoUtils.imageDataToGrayscaleMatrix (Some data) size = Some matrix
    /\ Spec.square size matrix
    /\ levels matrix
    /\ Spec.intensities matrix = true.
Proof.
  intros Hb Hlen.
  destruct (grayscale_matrix_levels data size Hb Hlen) as (matrix & Hm & Hlev).
  destruct (imageDataToGrayscaleMatrix_square data size) as (m' & Hm' & Hsq).
  rewrite Hm in Hm'. injection Hm' as <-.
  exists matrix. split; [exact Hm|]. split; [exact Hsq|]. split; [exact Hlev|].
  now apply levels_intensities.
Qed.

Lemma imageDataToGrayscaleMatrix_levels_witness :
  exists matrix,
    VideoUtils.imageDataToGrayscaleMatrix (Some (Footage.textured_frame 0)) 32 = Some matrix
    /\ Spec.intensities matrix = true.
Proof.
  assert (Hb : bytes (Footage.textured_frame 0) = true) by (vm_compute; reflexivity).
  assert (Hlen : 32 * 32 * 4 <= length (Footage.textured_frame 0)) by (vm_compute; lia).
  destruct (imageDataToGrayscaleMatrix_levels (Footage.textured_frame 0) 32 Hb Hlen)
    as (matrix & H1 & _ & _ & H4).
  exists matrix. split; assumption.
Defined.

Lemma captured_levels (frames : list frame) :
  drawn frames = true ->
  Forall levels (captured frames) /\ length (captured frames) <= length frames.
Proof.
  unfold captured, drawn. change (CANVAS_SIZE VIDEO_PROCESSING) with 32.
  induction frames as [|f frames IH]; cbn [flat_map forallb length].
  - split; [constructor|lia].
  - intros H. apply andb_prop in H as [Hf H]. destruct (IH H) as [IH1 IH2].
    destruct f as [data|e]; cbn [app].
    + unfold image_data in Hf. apply andb_prop in Hf as [Hb Hlen]. apply Nat.leb_le in Hlen.
      destruct (grayscale_matrix_levels data 32 Hb Hlen) as (matrix & -> & Hlev).
      cbn [app length]. split; [|lia]. now constructor.
    + split; [exact IH1|lia].
Qed.

(** The average of the frames that were drawn. *)
Lemma drawn_average (frames : list frame) :
  drawn frames = true -> (Z.of_nat (length frames) < 2 ^ 45)%Z ->
  captured frames <> [] ->
  exists averaged,
    captureAndAverageFrames frames = Normal (Some averaged)
    /\ Spec.square 32 averaged /\ levels averaged.
Proof.
  intros Hd Hn Hne. destruct (captured_levels frames Hd) as [Hlev Hlen].
  destruct (captured_square frames) as [Hsq _].
  unfold captureAndAverageFrames.
  destruct (captured frames) as [|m ms] eqn:E; [congruence|].
  cbn [length Nat.eqb]. apply averageMatrices_levels; [discriminate| |exact Hsq|exact Hlev].
  cbn [length] in *. lia.
Qed.

(** X21.  [averageMatrices] keeps gray levels: the average of 32x32
    matrices of gray levels is a 32x32 matrix of gray levels, each sum
    being exact and each rounded quotient an integer from 0 to 255. *)
Theorem averageMatrices_gray_levels (matrices : list HashUtils.matrix) :
  matrices <> [] -> (Z.of_nat (length matrices) < 2 ^ 45)%Z ->
  Forall (Spec.square 32) matrices -> Forall levels matrices ->
  exists averaged,
    averageMatrices matrices = Normal (Some averaged)
    /\ Spec.square 32 averaged
    /\ levels averaged
    /\ Spec.intensities averaged = true.
Proof.
  intros Hne Hn Hsq Hlev.
  destruct (averageMatrices_levels matrices Hne Hn Hsq Hlev) as (averaged & H1 & H2 & H3).
  exists averaged. split; [exact H1|]. split; [exact H2|]. split; [exact H3|].
  now apply levels_intensities.
Qed.

Lemma averageMatrices_gray_levels_witness :
  exists averaged,
    averageMatrices
      (captured [Normal (Footage.textured_frame 0); Normal (Footage.textured_frame 9)])
    = Normal (Some averaged)
    /\ Spec.intensities averaged = true.
Proof.
  set (frames := [Normal (Footage.textured_frame 0); Normal (Footage.textured_frame 9)]).
  assert (Hd : drawn frames = true) by (vm_compute; reflexivity).
  assert (Hne : captured frames <> []).
  { intros E. apply (proj2 (captured_square frames)) in E.
    apply Forall_cons_1 in E as [[e He] _]. discriminate. }
  assert (Hn : (Z.of_nat (length (captured frames)) < 2 ^ 45)%Z).
  { pose proof (proj2 (captured_levels frames Hd)) as H. cbn [frames length] in H. lia. }
  destruct (averageMatrices_gray_levels (captured frames) Hne Hn
              (proj1 (captured_square frames)) (proj1 (captured_levels frames Hd)))
    as (averaged & H1 & _ & _ & H4).
  exists averaged. split; assumption.
Defined.

(** The fingerprint of frames that were drawn. *)
Lemma hash_of_drawn_frames (Math_cos : float -> float) (cfg : HASH_CONFIG_t)
  (frames : list frame) (hash : string) :
  Spec.unit_cosines Math_cos ->
  drawn frames = true -> (Z.of_nat (length frames) < 2 ^ 45)%Z ->
  hash_of_frames Math_cos cfg frames = Hash hash ->
  MIN_ONES_ZEROS cfg < Spec.ones hash <= 31 /\ 32 <= Spec.zeros hash.
Proof.
  intros Hcos Hd Hn. unfold hash_of_frames.
  destruct (captured frames) as [|m ms] eqn:E.
  { unfold captureAndAverageFrames. rewrite E. discriminate. }
  destruct (drawn_average frames Hd Hn ltac:(rewrite E; discriminate))
    as (averaged & -> & Hsq & Hlev).
  destruct (median_split_bits Math_cos averaged Hsq
              (coefficients_are_numbers Math_cos averaged Hsq
                 (levels_intensities averaged Hlev) Hcos))
    as (bits & -> & _ & Hbits & Hones & _).
  assert (Hlen : String.length bits = 63).
  { rewrite Hbits. unfold HashUtils.bits_of. rewrite join_bits_length.
    apply low_frequency_coefficients_length. }
  assert (H01 : Spec.is_bits bits = true).
  { rewrite Hbits. apply join_bits_is_bits. }
  rewrite nonempty_truthy by (intros E'; rewrite E' in Hlen; discriminate).
  destruct (HashUtils.isTrivialHash cfg (Str bits)) eqn:Htriv; [discriminate|].
  intros [= <-]. rewrite isTrivialHash_unfold in Htriv.
  apply orb_false_iff in Htriv as [Ho _]. apply Nat.leb_gt in Ho.
  pose proof (bits_length bits H01) as Hsum. lia.
Qed.

(** X22.  A hash that [computeMultiFramePHash] returns for a canvas has
    more ones than the configured minimum and at most 31 of them, and so
    at least 32 zeros: whatever the video shows, the fingerprints that
    reach the block list lie in that band.  The canvas gives, for every
    frame it can draw, the bytes of 32 x 32 pixels, and the cosines lie
    between -1 and 1. *)
Theorem computeMultiFramePHash_ones (Math_cos : float -> float) (cfg : HASH_CONFIG_t)
  (page : nat -> attempt) (retryCount : nat) (hash : string) :
  Spec.unit_cosines Math_cos ->
  (forall j frames, j <= retryCount -> page j = Frames frames ->
     drawn frames = true /\ (Z.of_nat (length frames) < 2 ^ 45)%Z) ->
  computeMultiFramePHash Math_cos cfg page retryCount = Some hash ->
  MIN_ONES_ZEROS cfg < Spec.ones hash <= 31 /\ 32 <= Spec.zeros hash.
Proof.
  intros Hcos Hpage H. unfold computeMultiFramePHash in H.
  apply attempts_hash in H as (j & frames & Hj & Hpj & Hhash & _).
  destruct (Hpage j frames ltac:(lia) Hpj) as [Hd Hn].
  exact (hash_of_drawn_frames Math_cos cfg frames hash Hcos Hd Hn Hhash).
Qed.

End GrayLevels.

Section GrayLevelSamples.
Import JS Constants Binary64 Dyadic Levels.
Import Canvas VideoCapture.

Lemma computeMultiFramePHash_ones_witness :
  exists hash,
    computeMultiFramePHash Sample.cos HASH_CONFIG Footage.slow_page 2 = Some hash
    /\ 4 < Spec.ones hash <= 31.
Proof.
  assert (Hpage : forall j frames, j <= 2 -> Footage.slow_page j = Frames frames ->
            drawn frames = true /\ (Z.of_nat (length frames) < 2 ^ 45)%Z).
  { intros [|j] frames _; cbn [Footage.slow_page]; [discriminate|].
    intros [= <-]. split; [vm_compute; reflexivity|cbn [length]; lia]. }
  eexists. split; [exact slow_page_hash|].
  exact (proj1 (computeMultiFramePHash_ones Sample.cos HASH_CONFIG Footage.slow_page 2
                  _ sample_cosines Hpage slow_page_hash)).
Defined.

End GrayLevelSamples.

(* ===================================================================== *)
(** * The content script: from bytes to a fingerprint                   *)
(* ===================================================================== *)

(** The transform of a matrix whose entries are bounded by 255, whatever
    their sign. *)
Section BoundedTransform.
Import JS Constants Binary64 Dyadic Levels.
Variable Math_cos : float -> float.
Variable m : HashUtils.matrix.
Hypothesis Hrows : length m = 32.
Hypothesis Hentries : forall y x, y < 32 -> x < 32 -> within 255 (HashUtils.entry m y x).
Hypothesis Hcos : Spec.unit_cosines Math_cos.

Lemma bounded_term_within (u v y x : nat) :
  u < 8 -> v < 8 -> y < 32 -> x < 32 ->
  within 255 (HashUtils.term Math_cos m 32 u v y x).
Proof.
  intros Hu Hv Hy Hx. unfold HashUtils.term.
  apply (mul_within 255 1); [lia|lia|lia| |now apply cosine_within].
  apply (mul_within 255 1); [lia|lia|lia| |now apply cosine_within].
  now apply Hentries.
Qed.

Lemma bounded_dct_sum_within (u v : nat) :
  u < 8 -> v < 8 -> within 261120 (HashUtils.dct_sum Math_cos m 32 u v).
Proof.
  intros Hu Hv. unfold HashUtils.dct_sum.
  change 261120%Z with (0 + 8160 * Z.of_nat (length (seq 0 32)))%Z.
  apply fold_left_within; [lia| |lia|reflexivity|unfold within; vm_compute; exact I].
  intros A s y Hy HA HA' Hs. apply in_seq in Hy.
  change 8160%Z with (255 * Z.of_nat (length (seq 0 32)))%Z.
  apply fold_left_within; [lia| |exact HA|exact HA'|exact Hs].
  intros A' s' x Hx HA1 HA2 Hs'. apply in_seq in Hx.
  apply (add_within A' 255); [lia|lia|lia|exact Hs'|].
  apply bounded_term_within; lia.
Qed.

Lemma bounded_coefficients_are_numbers :
  Spec.all_numbers (Spec.low_frequency_coefficients Math_cos m) = true.
Proof.
  unfold Spec.all_numbers, Spec.low_frequency_coefficients. rewrite Hrows.
  rewrite forallb_forall. intros c Hc. apply in_map_iff in Hc as (p & <- & Hp).
  assert (Hlt : fst p < 8 /\ snd p < 8).
  { pose proof block_positions_in_range as Hrange.
    rewrite List.Forall_forall in Hrange. exact (Hrange _ Hp). }
  apply negb_true_iff. apply (within_number 261120). unfold HashUtils.coefficient.
  apply (mul_within 1 261120); [lia|lia|lia|apply scale_within|].
  apply bounded_dct_sum_within; tauto.
Qed.

End BoundedTransform.

Section LegacyLevels.
Import JS Constants Binary64 Dyadic Levels.
Import Canvas Sums.

Lemma byte_at_byte (img : list Z) (idx : nat) :
  bytes img = true -> idx < length img ->
  exists z, (0 <= z <= 255)%Z /\ Legacy.byte_at img idx = of_Z z.
Proof.
  intros Hb Hi. unfold Legacy.byte_at.
  destruct (nth_error img idx) as [z|] eqn:E.
  - exists z. split; [|reflexivity]. apply nth_error_In in E.
    unfold bytes in Hb. rewrite forallb_forall in Hb. specialize (Hb z E). lia.
  - apply nth_error_None in E. lia.
Qed.

(** The mean of three bytes lies between 0 and 255. *)
Lemma gray_of_upto (r g b : Z) :
  (0 <= r <= 255)%Z -> (0 <= g <= 255)%Z -> (0 <= b <= 255)%Z ->
  upto 0 255 (Legacy.gray_of (of_Z r) (of_Z g) (of_Z b)).
Proof.
  intros Hr Hg Hb. unfold Legacy.gray_of.
  apply (div_upto 0 765 255 3); [lia|lia|lia|lia|lia| |].
  - apply (add_upto 0 510 255); [lia|lia|lia|lia| |now apply byte_upto].
    apply (add_upto 0 255 255); [lia|lia|lia|lia| |]; now apply byte_upto.
  - unfold at_least, at_least_sf. eexists _, _.
    split; [vm_compute; reflexivity|]. split; [lia|]. vm_compute. discriminate.
Qed.

Lemma accumulate_row_length (img : list Z) (row : list float) (idx : nat) :
  length (fst (Legacy.accumulate_row img row idx)) = length row.
Proof.
  revert idx. induction row as [|a row IH]; intros idx; [reflexivity|].
  cbn [Legacy.accumulate_row]. specialize (IH (idx + 4)).
  destruct (Legacy.accumulate_row img row (idx + 4)) as [rest' idx'].
  cbn [fst length] in *. now rewrite IH.
Qed.

Lemma accumulate_rows_columns (img : list Z) (N : nat) (acc : HashUtils.matrix) (idx : nat) :
  Forall (fun row => length row = N) acc ->
  Forall (fun row => length row = N) (Legacy.accumulate_rows img acc idx).
Proof.
  intros Hacc. revert idx. induction Hacc as [|row rows Hrow _ IH]; intros idx;
    cbn [Legacy.accumulate_rows]; [constructor|].
  pose proof (accumulate_row_length img row idx) as Hlen.
  destruct (Legacy.accumulate_row img row idx) as [row' idx']. cbn [fst] in Hlen.
  constructor; [congruence|apply IH].
Qed.

Lemma zero_matrix_sums : sums 0 (Legacy.zero_matrix 32).
Proof.
  split; [apply zero_matrix_square|].
  intros y x Hy Hx. unfold HashUtils.entry, Legacy.zero_matrix.
  assert (Hrow : nth y (repeat (repeat zero 32) 32) [] = repeat zero 32).
  { apply (repeat_spec 32), nth_In. rewrite repeat_length. exact Hy. }
  rewrite Hrow.
  assert (Hv : nth x (repeat zero 32) nan = zero).
  { apply (repeat_spec 32), nth_In. rewrite repeat_length. exact Hx. }
  rewrite Hv. apply uptob_upto. reflexivity.
Qed.

Lemma accumulate_frame_sums (img : list Z) (n : nat) (acc : HashUtils.matrix) :
  image_data img = true -> (255 * Z.of_nat (S n) < 2 ^ 53)%Z ->
  sums n acc -> sums (S n) (Legacy.accumulate_frame img acc).
Proof.
  intros Himg Hn [[Hrows Hcols] Hacc].
  unfold image_data in Himg. apply andb_prop in Himg as [Hb Hlen]. apply Nat.leb_le in Hlen.
  unfold Legacy.accumulate_frame. split.
  - split; [now rewrite accumulate_rows_length|now apply accumulate_rows_columns].
  - intros y x Hy Hx. unfold HashUtils.entry.
    rewrite (accumulate_rows_spec img 32) by (try exact Hcols; lia).
    assert (Hrow : length (nth y acc []) = 32).
    { rewrite List.Forall_forall in Hcols. apply Hcols, nth_In. lia. }
    destruct (accumulate_row_spec img (nth y acc []) (0 + 4 * (y * 32))) as [_ Hnth].
    rewrite Hnth by lia.
    destruct (byte_at_byte img (0 + 4 * (y * 32) + 4 * x) Hb ltac:(lia)) as (r & Hr & ->).
    destruct (byte_at_byte img (0 + 4 * (y * 32) + 4 * x + 1) Hb ltac:(lia)) as (g & Hg & ->).
    destruct (byte_at_byte img (0 + 4 * (y * 32) + 4 * x + 2) Hb ltac:(lia)) as (b & Hbl & ->).
    apply (add_upto 0 (255 * Z.of_nat n) 255); [lia|lia|lia|lia| |now apply gray_of_upto].
    exact (Hacc y x Hy Hx).
Qed.

Lemma capture_sums (frames : list VideoCapture.frame) (acc : HashUtils.matrix) (n : nat) :
  drawn frames = true -> (255 * Z.of_nat (n + length frames) < 2 ^ 53)%Z ->
  sums n acc ->
  sums (snd (LegacyCapture.capture frames acc n)) (fst (LegacyCapture.capture frames acc n))
  /\ snd (LegacyCapture.capture frames acc n) <= n + length frames.
Proof.
  unfold drawn. revert acc n.
  induction frames as [|f frames IH]; intros acc n Hd Hn Hacc;
    cbn [LegacyCapture.capture forallb length] in *.
  - cbn [fst snd]. split; [exact Hacc|lia].
  - apply andb_prop in Hd as [Hf Hd]. destruct f as [img|e].
    + destruct (IH (Legacy.accumulate_frame img acc) (S n) Hd ltac:(lia)) as [H1 H2].
      { apply accumulate_frame_sums; [exact Hf|lia|exact Hacc]. }
      split; [exact H1|lia].
    + destruct (IH acc n Hd ltac:(lia) Hacc) as [H1 H2]. split; [exact H1|lia].
Qed.

(** The averaged matrix of the content script: its entries lie between 0
    and 255. *)
Lemma average_within (acc : HashUtils.matrix) (n : nat) :
  0 < n -> (Z.of_nat n < 2 ^ 45)%Z -> sums n acc ->
  let avg := map (fun row => map (fun v => (v / of_nat n)%float) row) acc in
  Spec.square 32 avg
  /\ forall y x, y < 32 -> x < 32 -> within 255 (HashUtils.entry avg y x).
Proof.
  intros Hpos Hn [[Hrows Hcols] Hacc] avg. split.
  - split; [unfold avg; now rewrite length_map|].
    apply List.Forall_forall. intros row Hrow. unfold avg in Hrow.
    apply in_map_iff in Hrow as (row0 & <- & Hrow0). rewrite length_map.
    rewrite List.Forall_forall in Hcols. now apply Hcols.
  - intros y x Hy Hx. unfold HashUtils.entry, avg.
    change (@nil float) with (map (fun v => (v / of_nat n)%float) []).
    rewrite (map_nth (fun row => map (fun v => (v / of_nat n)%float) row) acc [] y).
    assert (Hrow : length (nth y acc []) = 32).
    { rewrite List.Forall_forall in Hcols. apply Hcols, nth_In. lia. }
    rewrite (nth_indep _ nan (nan / of_nat n)%float) by (rewrite length_map; lia).
    rewrite (map_nth (fun v => (v / of_nat n)%float) (nth y acc []) nan x).
    apply upto_within.
    apply (div_upto 0 (255 * Z.of_nat n) 255 (Z.of_nat n)); [lia|lia|lia|lia|lia| |].
    + exact (Hacc y x Hy Hx).
    + apply of_nat_exact. lia.
Qed.

(** X23.  A hash that the content script's [computeMultiFramePHash]
    returns for a canvas has from 5 to 31 ones, and so at least 32
    zeros: the plain means of the bytes and their average over the
    frames stay between 0 and 255, no coefficient is NaN, and the median
    split leaves at most 31 coefficients above the median. *)
Theorem legacy_computeMultiFramePHash_ones (Math_cos : float -> float)
  (frames : list VideoCapture.frame) (hash : string) :
  Spec.unit_cosines Math_cos ->
  drawn frames = true -> (Z.of_nat (length frames) < 2 ^ 45)%Z ->
  LegacyCapture.computeMultiFramePHash Math_cos frames = Some hash ->
  4 < Spec.ones hash <= 31 /\ 32 <= Spec.zeros hash.
Proof.
  intros Hcos Hd Hn. unfold LegacyCapture.computeMultiFramePHash.
  change Legacy.CANVAS_SIZE with 32.
  destruct (capture_sums frames (Legacy.zero_matrix 32) 0 Hd ltac:(cbn [Nat.add]; lia)
              zero_matrix_sums) as [Hsums Hcount].
  destruct (LegacyCapture.capture frames (Legacy.zero_matrix 32) 0) as [acc captured].
  cbn [fst snd] in Hsums, Hcount.
  destruct (Nat.eqb_spec captured 0) as [->|Hpos]; [discriminate|].
  destruct (average_within acc captured ltac:(lia) ltac:(lia) Hsums) as [Hsq Hentries].
  set (avg := map (fun row => map (fun v => (v / of_nat captured)%float) row) acc) in *.
  destruct (median_split_bits Math_cos avg Hsq
              (bounded_coefficients_are_numbers Math_cos avg (proj1 Hsq) Hentries Hcos))
    as (bits & _ & -> & Hbits & Hones & _).
  assert (Hlen : String.length bits = 63).
  { rewrite Hbits. unfold HashUtils.bits_of. rewrite join_bits_length.
    apply low_frequency_coefficients_length. }
  assert (H01 : Spec.is_bits bits = true).
  { rewrite Hbits. apply join_bits_is_bits. }
  destruct (Legacy.isTrivialHash (Some bits)) eqn:Htriv; [discriminate|].
  intros [= <-]. rewrite legacy_isTrivialHash_unfold in Htriv.
  apply orb_false_iff in Htriv as [Ho _]. apply Nat.leb_gt in Ho.
  pose proof (bits_length bits H01) as Hsum. lia.
Qed.

End LegacyLevels.

Section LegacySamples.
Import JS Constants Canvas.

Lemma three_turns_hash :
  LegacyCapture.computeMultiFramePHash Sample.cos Footage.three_turns
  = Some "000111100000000000001110100111111001110111011001110100100111001"%string.
Proof. vm_compute. reflexivity. Qed.

Lemma legacy_computeMultiFramePHash_ones_witness :
  exists hash,
    LegacyCapture.computeMultiFramePHash Sample.cos Footage.three_turns = Some hash
    /\ 4 < Spec.ones hash <= 31.
Proof.
  assert (Hd : drawn Footage.three_turns = true) by (vm_compute; reflexivity).
  assert (Hn : (Z.of_nat (length Footage.three_turns) < 2 ^ 45)%Z)
    by (cbn [Footage.three_turns length]; lia).
  eexists. split; [exact three_turns_hash|].
  exact (proj1 (legacy_computeMultiFramePHash_ones Sample.cos Footage.three_turns _
                  sample_cosines Hd Hn three_turns_hash)).
Defined.

End LegacySamples.

(* ===================================================================== *)
(** * The levels of the logger                                          *)
(* ===================================================================== *)

Section LoggerLevels.
Import JS Logger.

Lemma includes_valid (s : string) :
  includes validLevels s = true <-> exists a, s = name a.
Proof.
  unfold includes, validLevels. cbn [existsb]. rewrite !orb_true_iff, !String.eqb_eq.
  split.
  - intros [->|[->|[->|[->|H]]]]; [now exists DEBUG|now exists INFO|now exists WARN
                                    |now exists ERROR|discriminate].
  - intros [[] ->]; cbn [name]; tauto.
Qed.

Lemma levels_name (a : level) : levels (name a) = Some (rank a).
Proof. now destruct a. Qed.

Lemma levels_some (s : string) (n : nat) : levels s = Some n -> includes validLevels s = true.
Proof.
  unfold levels, includes, validLevels. cbn [existsb].
  destruct (String.eqb s "DEBUG"); [reflexivity|].
  destruct (String.eqb s "INFO"); [reflexivity|].
  destruct (String.eqb s "WARN"); [reflexivity|].
  destruct (String.eqb s "ERROR"); [reflexivity|discriminate].
Qed.

Lemma shouldLog_name (a m : level) : shouldLog (name a) m = (rank a <=? rank m).
Proof. unfold shouldLog. now rewrite !levels_name. Qed.

Lemma shouldLog_unknown (s : string) (m : level) :
  includes validLevels s = false -> shouldLog s m = false.
Proof.
  intros H. unfold shouldLog. rewrite levels_name.
  destruct (levels s) as [n|] eqn:E; [|reflexivity].
  apply levels_some in E. congruence.
Qed.

(** What one event does when the level is one of the four names. *)
Lemma apply_event_valid (toUpperCase : string -> string) (e : event) (lg : t) (a : level) :
  logLevel lg = name a ->
  let '(lg', out) := apply_event toUpperCase e lg in
  (exists a', logLevel lg' = name a')
  /\ operations (metrics lg') = operations (metrics lg)
  /\ errors (metrics lg') = errors (metrics lg) + (if is_error_event e then 1 else 0)
  /\ errors (metrics lg') = errors (metrics lg) + length (List.filter (logged ERROR) out)
  /\ warnings (metrics lg') = warnings (metrics lg) + length (List.filter (logged WARN) out).
Proof.
  intros Ha.
  assert (Hset : forall level,
            let '(lg', out) := setLogLevel toUpperCase level lg in
            (exists a', logLevel lg' = name a')
            /\ operations (metrics lg') = operations (metrics lg)
            /\ errors (metrics lg') = errors (metrics lg) + 0
            /\ errors (metrics lg') = errors (metrics lg) + length (List.filter (logged ERROR) out)
            /\ warnings (metrics lg') = warnings (metrics lg)
                                        + length (List.filter (logged WARN) out)).
  { intros level. unfold setLogLevel.
    destruct (includes validLevels (toUpperCase level)) eqn:E.
    - apply includes_valid in E as [a' E]. cbn [logLevel metrics List.filter logged length].
      split; [now exists a'|]. lia.
    - split; [now exists a|]. cbn [List.filter length]. lia. }
  destruct e as [c|setting]; cbn [apply_event is_error_event].
  2:{ unfold loaded. destruct setting as [s|]; [destruct (falsy (Str s)); [|apply Hset]|];
        (split; [now exists a|]; cbn [List.filter length]; lia). }
  destruct c; cbn [apply_call is_error_call]; [apply Hset|..];
    unfold debug, info, warn, error, logMetrics, info, group, group_end;
    rewrite ?Ha, ?shouldLog_name.
  - destruct (rank a <=? rank DEBUG); cbn [List.filter logged length rank Nat.eqb];
      (split; [now exists a|lia]).
  - destruct (rank a <=? rank INFO); cbn [List.filter logged length rank Nat.eqb];
      (split; [now exists a|lia]).
  - destruct (rank a <=? rank WARN);
      cbn [List.filter logged length rank Nat.eqb logLevel metrics operations errors warnings];
      (split; [now exists a|lia]).
  - assert (Hr : (rank a <=? rank ERROR) = true) by now destruct a.
    rewrite Hr.
    cbn [List.filter logged length rank Nat.eqb logLevel metrics operations errors warnings].
    split; [now exists a|lia].
  - destruct (rank a <=? rank INFO); cbn [List.filter logged length rank Nat.eqb];
      (split; [now exists a|lia]).
  - destruct (rank a <=? rank DEBUG); cbn [List.filter logged length];
      (split; [now exists a|lia]).
  - destruct (rank a <=? rank DEBUG); cbn [List.filter logged length];
      (split; [now exists a|lia]).
Qed.

Lemma run_valid (toUpperCase : string -> string) (es : list event) (lg : t) (a : level) :
  logLevel lg = name a ->
  let '(lg', out) := run toUpperCase es lg in
  (exists a', logLevel lg' = name a')
  /\ operations (metrics lg') = operations (metrics lg)
  /\ errors (metrics lg') = errors (metrics lg) + length (List.filter is_error_event es)
  /\ errors (metrics lg') = errors (metrics lg) + length (List.filter (logged ERROR) out)
  /\ warnings (metrics lg') = warnings (metrics lg) + length (List.filter (logged WARN) out).
Proof.
  revert lg a. induction es as [|e es IH]; intros lg a Ha; cbn [run].
  - split; [now exists a|]. cbn [List.filter length]. lia.
  - pose proof (apply_event_valid toUpperCase e lg a Ha) as H1.
    destruct (apply_event toUpperCase e lg) as [lg1 out1].
    destruct H1 as ([a1 Ha1] & Ho & He & He' & Hw).
    specialize (IH lg1 a1 Ha1).
    destruct (run toUpperCase es lg1) as [lg2 out2].
    destruct IH as (Hl & Ho2 & He2 & He2' & Hw2).
    split; [exact Hl|]. rewrite !List.filter_app, !length_app. cbn [List.filter].
    destruct (is_error_event e); cbn [length]; lia.
Qed.

(** X24.  The logger that takes its level from the settings always has
    one of the four levels, whatever [setLogLevel] or the settings give
    it, so it logs a message exactly when the rank of the message is at
    least the rank of its level, and it never swallows an error: after
    any events, the [errors] metric is the number of calls of [error],
    each of which reached the console, [warnings] counts the warnings
    that were logged, and [operations] is still 0. *)
Theorem logger_never_swallows_errors (toUpperCase : string -> string) (es : list event) :
  let '(lg, out) := run toUpperCase es create in
  (exists a, logLevel lg = name a
             /\ forall m, shouldLog (logLevel lg) m = (rank a <=? rank m))
  /\ shouldLog (logLevel lg) ERROR = true
  /\ errors (metrics lg) = length (List.filter is_error_event es)
  /\ errors (metrics lg) = length (List.filter (logged ERROR) out)
  /\ warnings (metrics lg) = length (List.filter (logged WARN) out)
  /\ operations (metrics lg) = 0.
Proof.
  pose proof (run_valid toUpperCase es create INFO eq_refl) as H.
  destruct (run toUpperCase es create) as [lg out].
  destruct H as ([a Ha] & Ho & He & He' & Hw). cbn in Ho, He, He', Hw.
  split; [exists a; split; [exact Ha|]; intros m; rewrite Ha; apply shouldLog_name|].
  split; [rewrite Ha, shouldLog_name; now destruct a|].
  repeat split; assumption.
Qed.

(** Nothing happens while the level is unknown. *)
Lemma apply_stored_silent (c : call) (lg : t) (ls : localStorage) :
  includes validLevels (logLevel lg) = false -> keeps_level c = true ->
  apply_stored c lg ls = (lg, ls, []).
Proof.
  intros Hl Hc.
  destruct c; cbn [apply_stored keeps_level] in *;
    unfold setLogLevel_stored, debug, info, warn, error, logMetrics, info, group, group_end;
    rewrite ?shouldLog_unknown by exact Hl; try reflexivity.
  apply negb_true_iff in Hc. now rewrite Hc.
Qed.

(** X25.  The logger that keeps its level in [localStorage] takes the
    stored string as it is.  When that string is none of the four names
    the logger is silent, errors included: no call reaches the console
    and no metric moves, until [setLogLevel] is given one of the four.
    [setLogLevel] itself ignores every other string, and what it stores
    a new logger starts from. *)
Theorem logger_stored_level_unchecked :
  (forall ls stored,
     restricted ls = false -> item ls = Some stored -> stored <> EmptyString ->
     logLevel (create_stored ls) = stored)
  /\ (forall lg ls cs,
        includes validLevels (logLevel lg) = false ->
        forallb keeps_level cs = true ->
        run_stored cs lg ls = (lg, ls, []))
  /\ (forall level lg ls,
        includes validLevels level = false -> setLogLevel_stored level lg ls = (lg, ls))
  /\ (forall level lg ls,
        includes validLevels level = true -> restricted ls = false ->
        logLevel (fst (setLogLevel_stored level lg ls)) = level
        /\ logLevel (create_stored (snd (setLogLevel_stored level lg ls))) = level).
Proof.
  split; [|split; [|split]].
  - intros ls stored Hr Hi Hne. unfold create_stored, getLogLevel. cbn [logLevel].
    rewrite Hr, Hi. now rewrite nonempty_truthy.
  - intros lg ls cs Hl. induction cs as [|c cs IH]; cbn [forallb run_stored]; [reflexivity|].
    intros H. apply andb_prop in H as [Hc Hcs].
    rewrite (apply_stored_silent c lg ls Hl Hc), (IH Hcs). reflexivity.
  - intros level lg ls H. unfold setLogLevel_stored. now rewrite H.
  - intros level lg ls H Hr. unfold setLogLevel_stored. rewrite H, Hr. cbn [fst snd logLevel].
    split; [reflexivity|]. unfold create_stored, getLogLevel. cbn [logLevel restricted item].
    apply includes_valid in H as [a ->]. now destruct a.
Qed.

End LoggerLevels.

(* ===================================================================== *)
(** * Blocking a video and finding it again                             *)
(* ===================================================================== *)

Section BlockingJobs.
Import JS Constants Blocking.

Lemma blockVideo_job_true (now : Z) (video : option video) (hash : option string) (b : t) :
  fst (blockVideo_job now video hash b) = true ->
  exists v h,
    video = Some v /\ hash = Some h /\ h <> EmptyString
    /\ ~ List.In (Str h) (blockedHashes b)
    /\ fst (fst (StorageManager.saveBlockedHash now (Str h) (storageManager b))) = true
    /\ let b' := snd (blockVideo_job now video hash b) in
       blockedHashes b' = blockedHashes b ++ [Str h]
       /\ storageManager b'
          = snd (fst (StorageManager.saveBlockedHash now (Str h) (storageManager b)))
       /\ processedVideos b' = processedVideos b
       /\ hashesAdded (stats b') = S (hashesAdded (stats b))
       /\ matchesFound (stats b') = matchesFound (stats b)
       /\ match article v with
          | Some a => hidden b' = {[ a ]} ∪ hidden b
                      /\ videosBlocked (stats b') = S (videosBlocked (stats b))
          | None => hidden b' = hidden b
                    /\ videosBlocked (stats b') = videosBlocked (stats b)
          end.
Proof.
  unfold blockVideo_job. destruct video as [v|]; [|discriminate].
  destruct hash as [h|]; [|discriminate].
  destruct (falsy (Str h)) eqn:Hf; [discriminate|].
  destruct (VideoBlocker.has (blockedHashes b) (Str h)) eqn:Hhas; [discriminate|].
  destruct (StorageManager.saveBlockedHash now (Str h) (storageManager b))
    as [[saved sm] notes] eqn:Esave.
  destruct saved; cbn [negb]; [|discriminate].
  intros _. exists v, h. split; [reflexivity|]. split; [reflexivity|].
  split; [intros ->; discriminate|].
  split; [now rewrite <- has_In, Hhas|]. rewrite Esave. split; [reflexivity|].
  unfold BlockList.add. rewrite Hhas.
  destruct (article v); cbn; repeat split; reflexivity.
Qed.

Lemma blockVideo_job_false (now : Z) (video : option video) (hash : option string) (b : t) :
  fst (blockVideo_job now video hash b) = false ->
  snd (blockVideo_job now video hash b) = b.
Proof.
  unfold blockVideo_job. destruct video as [v|]; [|reflexivity].
  destruct hash as [h|]; [|reflexivity].
  destruct (falsy (Str h)); [reflexivity|].
  destruct (VideoBlocker.has (blockedHashes b) (Str h)); [reflexivity|].
  destruct (fst (fst (StorageManager.saveBlockedHash now (Str h) (storageManager b))))
    eqn:Hsaved.
  - destruct (StorageManager.saveBlockedHash now (Str h) (storageManager b))
      as [[saved sm] notes].
    cbn [fst] in Hsaved. subst saved. cbn [negb]. destruct (article v); discriminate.
  - rewrite (saveBlockedHash_false now (Str h) _ Hsaved). intros _. now destruct b.
Qed.

Lemma blockVideo_job_in_step (now : Z) (video : option video) (hash : option string) (b : t) :
  in_step b -> in_step (snd (blockVideo_job now video hash b)).
Proof.
  intros Hb. destruct (fst (blockVideo_job now video hash b)) eqn:Hres.
  - destruct (blockVideo_job_true now video hash b Hres)
      as (v & h & _ & _ & Hne & _ & Hsaved & Hlist & Hsm & _).
    cbv zeta in Hlist, Hsm. intros x. rewrite Hlist, Hsm.
    destruct (saveBlockedHash_true now (Str h) _ Hsaved) as (hs & [= <-] & _ & _ & _ & Heq).
    rewrite Heq. cbn [fst snd]. unfold StorageManager.stored_items at 1.
    cbn [StorageManager.browser StorageManager.stored StorageManager.or_empty].
    assert (Hone : forall i, StorageManager.hash i = Str h ->
                     StorageManager.string_hashes [i] = [Str h]).
    { intros i Hi. unfold StorageManager.string_hashes. cbn [map List.filter].
      now rewrite Hi, (nonempty_truthy h Hne). }
    rewrite string_hashes_app, !in_app_iff, (Hb x).
    rewrite Hone by reflexivity. reflexivity.
  - now rewrite (blockVideo_job_false now video hash b Hres).
Qed.

(** X26.  The job of [blockVideo] answers true exactly when it was given
    a video element, the fingerprint could be computed, the hash is not
    yet in the set and [saveBlockedHash] stores it; it then puts the
    hash at the end of the set, counts one more hash added, and hides
    the article of the video when there is one.  In every other case it
    leaves the blocker, the page and the storage as they were.  Either
    way a set that lists what is stored still does; for such a set, the
    job fails on a new hash only when the browser storage does. *)
Theorem blockVideo_job_outcome (now : Z) (video : option video) (hash : option string)
  (b : t) :
  let '(blocked, b') := blockVideo_job now video hash b in
  (blocked = true <->
   exists v h, video = Some v /\ hash = Some h /\ h <> EmptyString
               /\ ~ List.In (Str h) (blockedHashes b)
               /\ fst (fst (StorageManager.saveBlockedHash now (Str h) (storageManager b)))
                  = true)
  /\ (if blocked then
        exists v h, video = Some v /\ hash = Some h
          /\ blockedHashes b' = blockedHashes b ++ [Str h]
          /\ hashesAdded (stats b') = S (hashesAdded (stats b))
          /\ (forall a, article v = Some a -> a ∈ hidden b')
      else b' = b)
  /\ (in_step b -> in_step b')
  /\ (in_step b -> StorageManager.healthy (storageManager b) ->
      forall v h, video = Some v -> hash = Some h -> h <> EmptyString ->
                  ~ List.In (Str h) (blockedHashes b) -> blocked = true).
Proof.
  pose proof (blockVideo_job_true now video hash b) as Htrue.
  pose proof (blockVideo_job_false now video hash b) as Hfalse.
  pose proof (blockVideo_job_in_step now video hash b) as Hstep.
  assert (Hconv : forall v h, video = Some v -> hash = Some h -> h <> EmptyString ->
            ~ List.In (Str h) (blockedHashes b) ->
            fst (fst (StorageManager.saveBlockedHash now (Str h) (storageManager b))) = true ->
            fst (blockVideo_job now video hash b) = true).
  { intros v h -> -> Hne Hnot Hsaved. unfold blockVideo_job.
    rewrite (nonempty_truthy h Hne).
    destruct (VideoBlocker.has (blockedHashes b) (Str h)) eqn:Hhas.
    { exfalso. apply Hnot. now apply has_In. }
    destruct (StorageManager.saveBlockedHash now (Str h) (storageManager b))
      as [[saved sm] notes].
    cbn [fst] in Hsaved. subst saved. cbn [negb]. now destruct (article v). }
  destruct (blockVideo_job now video hash b) as [blocked b']. cbn [fst snd] in *.
  split; [|split; [|split]].
  - split.
    + intros H. destruct (Htrue H) as (v & h & H1 & H2 & H3 & H4 & H5 & _).
      exists v, h. auto.
    + intros (v & h & H1 & H2 & H3 & H4 & H5). exact (Hconv v h H1 H2 H3 H4 H5).
  - destruct blocked; [|now apply Hfalse].
    destruct (Htrue eq_refl) as (v & h & H1 & H2 & _ & _ & _ & Hl & _ & _ & Hh & _ & Ha).
    exists v, h. split; [exact H1|]. split; [exact H2|]. split; [exact Hl|].
    split; [exact Hh|]. intros a Hart. rewrite Hart in Ha. destruct Ha as [-> _].
    set_solver.
  - exact Hstep.
  - intros Hb Hs v h Hv Hh Hne Hnot. apply (Hconv v h Hv Hh Hne Hnot).
    destruct (fst (fst (StorageManager.saveBlockedHash now (Str h) (storageManager b))))
      eqn:Hsaved; [reflexivity|exfalso].
    pose proof (saveBlockedHash_false now (Str h) _ Hsaved) as Hfail.
    unfold StorageManager.saveBlockedHash in Hfail.
    rewrite (nonempty_truthy h Hne), (healthy_get _ Hs) in Hfail.
    destruct (existsb (StorageManager.hash_is h)
                (StorageManager.or_empty (StorageManager.stored (StorageManager.browser
                   (storageManager b))))) eqn:Hex.
    + apply Hnot, Hb. unfold StorageManager.string_hashes, StorageManager.stored_items.
      apply List.filter_In. split.
      * apply existsb_exists in Hex as (i & Hi & His).
        unfold StorageManager.hash_is in His.
        destruct (StorageManager.hash i) as [|s|z] eqn:E; try discriminate.
        apply String.eqb_eq in His. subst s. rewrite <- E. now apply in_map.
      * rewrite (nonempty_truthy h Hne). reflexivity.
    + rewrite (healthy_set _ _ Hs) in Hfail. discriminate.
Qed.





Lemma apply_op_processed (cfg : HASH_CONFIG_t) (o : op) (b : t) (x : nat) :
  is_cleanup o = false -> x ∈ processedVideos b -> x ∈ processedVideos (apply_op cfg o b).
Proof.
  intros Ho Hin. destruct o as [now video hash|v hash|]; cbn [apply_op]; [| |discriminate].
  - destruct (fst (blockVideo_job now video hash b)) eqn:Hres.
    + destruct (blockVideo_job_true now video hash b Hres)
        as (v & h' & _ & _ & _ & _ & _ & _ & _ & Hp & _).
      cbv zeta in Hp. now rewrite Hp.
    + now rewrite (blockVideo_job_false now video hash b Hres).
  - assert (Hp : x ∈ processedVideos (processed v b)) by (cbn; set_solver).
    unfold checkAndBlockVideo_job. cbv zeta.
    destruct (article v) as [a|]; [|exact Hp].
    destruct (bool_decide _); [exact Hp|].
    destruct hash as [h'|]; [|exact Hp].
    destruct (falsy (Str h')); [exact Hp|].
    destruct (VideoBlocker.isHashBlocked _ _ _); exact Hp.
Qed.

(** X28.  A video is checked once.  As soon as its job has started,
    whatever the job answers, even when no fingerprint could be
    computed or the article was missing, [checkAndBlockVideo] refuses
    the video without enqueuing anything, and keeps refusing it through
    all later jobs until [cleanup()] empties the set of processed
    videos; a missing video is refused at once.  The job itself answers
    true only when the hash is blocked, and a video in a hidden article
    is never matched. *)
Theorem video_checked_once (cfg : HASH_CONFIG_t) :
  (forall v hash b ops,
     forallb (fun o => negb (is_cleanup o)) ops = true ->
     checkAndBlockVideo_accepts (Some v)
       (run cfg ops (snd (checkAndBlockVideo_job cfg v hash b))) = false)
  /\ (forall b v, checkAndBlockVideo_accepts (Some v) (cleanup b) = true)
  /\ (forall b, checkAndBlockVideo_accepts None b = false)
  /\ (forall v hash b,
        fst (checkAndBlockVideo_job cfg v hash b) = true ->
        exists a h, article v = Some a /\ (a ∉ hidden b) /\ hash = Some h
                    /\ VideoBlocker.isHashBlocked cfg (blockedHashes b) (Str h) = true).
Proof.
  split; [|split; [|split]].
  - intros v hash b ops Hops. unfold checkAndBlockVideo_accepts.
    apply negb_false_iff, bool_decide_eq_true_2.
    assert (Hstart : element v ∈ processedVideos (snd (checkAndBlockVideo_job cfg v hash b))).
    { assert (Hp : element v ∈ processedVideos (processed v b)) by (cbn; set_solver).
      unfold checkAndBlockVideo_job. cbv zeta.
      destruct (article v) as [a|]; [|exact Hp].
      destruct (bool_decide _); [exact Hp|].
      destruct hash as [h'|]; [|exact Hp].
      destruct (falsy (Str h')); [exact Hp|].
      destruct (VideoBlocker.isHashBlocked _ _ _); exact Hp. }
    revert Hstart. generalize (snd (checkAndBlockVideo_job cfg v hash b)). unfold run.
    induction ops as [|o ops IH]; intros b0 Hin; [exact Hin|].
    cbn [forallb fold_left] in *. apply andb_prop in Hops as [Ho Hops].
    apply (IH Hops). apply apply_op_processed; [now apply negb_true_iff|exact Hin].
  - intros b v. unfold checkAndBlockVideo_accepts, cleanup. cbn [processedVideos].
    apply negb_true_iff, bool_decide_eq_false_2. set_solver.
  - reflexivity.
  - intros v hash b. unfold checkAndBlockVideo_job. cbv zeta.
    destruct (article v) as [a|]; [|discriminate].
    cbn [processed hidden blockedHashes].
    destruct (bool_decide (a ∈ hidden b)) eqn:Hh; [discriminate|].
    apply bool_decide_eq_false_1 in Hh.
    destruct hash as [h|]; [|discriminate].
    destruct (falsy (Str h)); [discriminate|].
    destruct (VideoBlocker.isHashBlocked cfg (blockedHashes b) (Str h)) eqn:Hb; [|discriminate].
    intros _. exists a, h. auto.
Qed.

Lemma set_of_In (hashes : list value) (h : value) :
  List.In h (set_of hashes) <-> List.In h hashes.
Proof.
  unfold set_of.
  assert (Hgen : forall set, List.In h (fold_left (fun set hash => BlockList.add hash set)
                                          hashes set)
                             <-> List.In h set \/ List.In h hashes).
  { induction hashes as [|x hashes IH]; intros set; cbn [fold_left List.In]; [tauto|].
    rewrite IH, add_In. intuition congruence. }
  rewrite Hgen. cbn [List.In]. tauto.
Qed.

Lemma add_NoDup (h : value) (set : list value) :
  List.NoDup set -> List.NoDup (BlockList.add h set).
Proof.
  intros Hset. unfold BlockList.add.
  destruct (VideoBlocker.has set h) eqn:Hhas; [exact Hset|].
  apply (Permutation_NoDup (Permutation_cons_append set h)).
  constructor; [|exact Hset]. rewrite <- has_In, Hhas. discriminate.
Qed.

Lemma set_of_NoDup (hashes : list value) : List.NoDup (set_of hashes).
Proof.
  unfold set_of.
  assert (Hgen : forall set, List.NoDup set ->
            List.NoDup (fold_left (fun set hash => BlockList.add hash set) hashes set)).
  { induction hashes as [|x hashes IH]; intros set Hset; cbn [fold_left]; [exact Hset|].
    apply IH. now apply add_NoDup. }
  apply Hgen. constructor.
Qed.

(** X29.  [refreshBlockedHashes], and with it [initialize], puts the
    blocker in step with the storage: when the cache of the storage
    manager is coherent, or still empty over a browser storage that
    works, the set then lists exactly the stored string hashes, each
    once, and the cache is coherent afterwards.  Over a storage that
    cannot be read, a blocker without cache starts with the empty
    set. *)
Theorem refreshBlockedHashes_in_step (b : t) :
  let b' := refreshBlockedHashes b in
  List.NoDup (blockedHashes b')
  /\ stats b' = stats b
  /\ (StorageManager.coherent (storageManager b) ->
      in_step b' /\ storageManager b' = storageManager b)
  /\ (StorageManager.cache (storageManager b) = None ->
      StorageManager.healthy (storageManager b) ->
      in_step b' /\ StorageManager.coherent (storageManager b'))
  /\ (StorageManager.cache (storageManager b) = None ->
      forall e,
        StorageManager.getStorageData (StorageManager.browser (storageManager b)) = Throw e ->
        blockedHashes b' = [] /\ storageManager b' = storageManager b).
Proof.
  unfold refreshBlockedHashes.
  destruct (StorageManager.getBlockedHashes (storageManager b)) as [hashes sm] eqn:Eget.
  cbn [blockedHashes stats storageManager].
  split; [apply set_of_NoDup|]. split; [reflexivity|].
  unfold StorageManager.getBlockedHashes in Eget. split; [|split].
  - intros Hcoh. unfold StorageManager.coherent in Hcoh. rewrite Hcoh in Eget.
    injection Eget as <- <-. split; [|reflexivity].
    intros h. cbn [blockedHashes storageManager]. apply set_of_In.
  - intros Hnone Hs. rewrite Hnone in Eget. unfold StorageManager.loadBlockedHashes in Eget.
    rewrite (healthy_get _ Hs) in Eget. injection Eget as <- <-.
    split.
    + intros h. cbn [blockedHashes storageManager]. rewrite set_of_In. reflexivity.
    + reflexivity.
  - intros Hnone e Hfail. rewrite Hnone in Eget.
    unfold StorageManager.loadBlockedHashes in Eget.
    rewrite Hfail in Eget. injection Eget as <- <-. split; reflexivity.
Qed.

End BlockingJobs.

(* ===================================================================== *)
(** * Changes of the storage made elsewhere                             *)
(* ===================================================================== *)

Section StorageEvents.
Import JS StorageManager.

Lemma filter_length_le {A} (f g : A -> bool) (l : list A) :
  (forall x, g x = true -> f x = true) ->
  length (List.filter g l) <= length (List.filter f l).
Proof.
  intros Hgf. induction l as [|a l IH]; cbn [List.filter]; [lia|].
  destruct (g a) eqn:Hg.
  - rewrite (Hgf a Hg). cbn [length]. lia.
  - destruct (f a); cbn [length]; lia.
Qed.

(** The two filters of the manager give the same list exactly when no
    hash that is truthy is something else than a string. *)
Lemma filters_agree (l : list value) :
  List.filter (fun hash => negb (falsy hash)) l
  = List.filter (fun hash => negb (falsy hash) && is_string hash) l
  <-> Forall (fun hash => falsy hash = false -> is_string hash = true) l.
Proof.
  induction l as [|a l IH]; cbn [List.filter].
  - split; constructor.
  - destruct (falsy a) eqn:Hf; cbn [negb andb].
    + rewrite IH. split.
      * intros H. constructor; [intros E; congruence|exact H].
      * intros H. now apply Forall_cons_1 in H as [_ H].
    + destruct (is_string a) eqn:Hs; cbn [negb andb].
      * split.
        -- intros [= H]. constructor; [intros _; exact Hs|now apply IH].
        -- intros H. apply Forall_cons_1 in H as [_ H]. f_equal. now apply IH.
      * split.
        -- intros H. exfalso. apply (f_equal (@length value)) in H. cbn [length] in H.
           pose proof (filter_length_le (fun hash => negb (falsy hash))
                         (fun hash => negb (falsy hash) && is_string hash) l) as Hle.
           specialize (Hle ltac:(intros x Hx; now apply andb_prop in Hx as [Hx _])). lia.
        -- intros H. apply Forall_cons_1 in H as [H _]. specialize (H Hf). congruence.
Qed.

(** X30.  [handleStorageChange] only listens to the area 'local' and to
    the key of the blocked hashes; for these it replaces the cache by
    the truthy hashes of the new value and reports them to the
    listeners, without touching the browser storage.  The cache is then
    coherent, holding what [loadBlockedHashes] would read, exactly when
    the new value holds no truthy hash that is not a string: a stored
    number other than 0 is served from the cache by [getBlockedHashes]
    although [loadBlockedHashes] drops it. *)
Theorem handleStorageChange_cache :
  (forall area change s,
     area <> "local"%string \/ change = None ->
     handleStorageChange area change s = (s, []))
  /\ (forall newValue s,
        let '(s', notes) := handleStorageChange "local" (Some newValue) s in
        cache s' = Some (truthy_hashes (or_empty newValue))
        /\ browser s' = browser s
        /\ notes = [externalUpdate (truthy_hashes (or_empty newValue))]
        /\ (stored (browser s) = newValue ->
            (coherent s' <->
             Forall (fun i => falsy (hash i) = false -> is_string (hash i) = true)
                    (stored_items s))))
  /\ (forall z now s,
        z <> 0%Z -> healthy s ->
        stored (browser s)
        = Some [{| hash := Num z; added := now; version := "1.0"; source := "manual" |}] ->
        let s' := fst (handleStorageChange "local" (Some (stored (browser s))) s) in
        fst (getBlockedHashes s') = [Num z] /\ fst (loadBlockedHashes s') = []).
Proof.
  split; [|split].
  - intros area change s [Harea| ->]; unfold handleStorageChange.
    + apply String.eqb_neq in Harea. now rewrite Harea.
    + now destruct (negb (String.eqb area "local")).
  - intros newValue s. unfold handleStorageChange. cbn [String.eqb Ascii.eqb Bool.eqb negb].
    cbn [with_cache cache browser]. split; [reflexivity|]. split; [reflexivity|].
    split; [reflexivity|]. intros Hstored. subst newValue.
    unfold coherent, stored_items. cbn [cache browser].
    unfold truthy_hashes, string_hashes. cbn [with_cache cache browser]. split.
    + intros [= H]. apply filters_agree in H. now apply List.Forall_map in H.
    + intros H. f_equal. apply filters_agree. now apply List.Forall_map.
  - intros z now s Hz Hs Hstored. cbv zeta.
    unfold handleStorageChange. cbn [String.eqb Ascii.eqb Bool.eqb negb fst].
    unfold getBlockedHashes, loadBlockedHashes. cbn [with_cache cache browser].
    rewrite (healthy_get s Hs), Hstored.
    unfold truthy_hashes, string_hashes.
    cbn [or_empty map List.filter hash falsy is_string negb andb fst].
    apply Z.eqb_neq in Hz. rewrite Hz. cbn [negb andb]. split; reflexivity.
Qed.

End StorageEvents.
